(** * MessagePack codec of [src/main/deploy/nodeselector/msgpack.js]

    A shallow embedding of [serialize], [deserialize], [encodeUtf8] and
    [decodeUtf8], and the properties of the codec stated over it.

    Conventions of the embedding.
    - A JavaScript number is an IEEE 754 binary64 value: [number] is
      [spec_float] with precision 53 and maximal exponent 1024, and the
      arithmetic operators are the correctly rounded ones of [SpecFloat].
      A numeric literal of the source is the double nearest to it
      ([lit]), so [0xffffffffffffffff] denotes 2^64.
    - The results of the 32-bit operators ([>>>], [<<], [|], [&], [~]),
      array lengths, indices and bytes are integers far below 2^53; they
      are kept in [Z], where double arithmetic on them is exact.
    - A string is the list of its UTF-16 code units.
    - A thrown [Error] is an [error] of the taxonomy of the spec, named
      after the message of the throw site. *)

From Stdlib Require Import String Ascii.
From Stdlib Require Import ZArith List Bool Lia SpecFloat Decimal.
From stdpp Require Import base list.
Import ListNotations.

Local Open Scope Z_scope.

#[local] Set Warnings "-register-all".

(** ** Numbers *)

Module Num.

Definition number := spec_float.

Definition prec : Z := 53.
Definition emax : Z := 1024.

Definition NaN : number := S754_nan.
Definition Infinity : number := S754_infinity false.

(** The double nearest to an integer (ties to even): numeric literals and
    the conversion of an integer result back to a number. *)
Definition lit (z : Z) : number := binary_normalize prec emax z 0 false.

Definition add (x y : number) : number := SFadd prec emax x y.
Definition sub (x y : number) : number := SFsub prec emax x y.
Definition mul (x y : number) : number := SFmul prec emax x y.
Definition div (x y : number) : number := SFdiv prec emax x y.
Definition abs (x : number) : number := SFabs x.

(** [x % y]: the remainder has the sign of the dividend and is exact. *)
Definition rem (x y : number) : number :=
  match x, y with
  | S754_nan, _ | _, S754_nan => S754_nan
  | S754_infinity _, _ => S754_nan
  | _, S754_zero _ => S754_nan
  | _, S754_infinity _ => x
  | S754_zero _, _ => x
  | S754_finite sx mx ex, S754_finite sy my ey =>
      let ez := Z.min ex ey in
      let X := Zpos (fst (shl_align mx ex ez)) in
      let Y := Zpos (fst (shl_align my ey ez)) in
      binary_normalize prec emax (cond_Zopp sx (Z.rem X Y)) ez sx
  end.

(** [x === y], [x < y], [x <= y]; every comparison with NaN is false. *)
Definition eqb (x y : number) : bool := SFeqb x y.
Definition ltb (x y : number) : bool := SFltb x y.
Definition leb (x y : number) : bool := SFleb x y.
Definition gtb (x y : number) : bool := SFltb y x.
Definition geb (x y : number) : bool := SFleb y x.

Definition isFinite (x : number) : bool :=
  match x with
  | S754_zero _ | S754_finite _ _ _ => true
  | _ => false
  end.

Definition isNaN (x : number) : bool :=
  match x with S754_nan => true | _ => false end.

(** The integer part of a finite number, rounded towards zero; 0 for NaN
    and the infinities, as in the modular conversions ToInt32, ToUint32
    and ToUint8. *)
Definition trunc (x : number) : Z :=
  match x with
  | S754_finite s m e => cond_Zopp s (Z.shiftl (Zpos m) e)
  | _ => 0
  end.

(** [Math.floor]. *)
Definition floor (x : number) : number :=
  match x with
  | S754_finite s m e =>
      if 0 <=? e then x
      else binary_normalize prec emax (Z.shiftl (cond_Zopp s (Zpos m)) e) 0 s
  | _ => x
  end.

(** Wrap-around of an integer to unsigned and signed 32 bits. *)
Definition uint32 (z : Z) : Z := z mod 2 ^ 32.
Definition int32 (z : Z) : Z :=
  let u := z mod 2 ^ 32 in if u <? 2 ^ 31 then u else u - 2 ^ 32.

Definition ToUint32 (x : number) : Z := uint32 (trunc x).
Definition ToInt32 (x : number) : Z := int32 (trunc x).

(** [x >>> k], [x << k], [~x] on a number, for [0 <= k < 32]. *)
Definition ushr (x : number) (k : Z) : Z := Z.shiftr (ToUint32 x) k.
Definition shl (x : number) (k : Z) : Z := int32 (Z.shiftl (ToInt32 x) k).
Definition not (x : number) : Z := Z.lnot (ToInt32 x).

(** The same operators on an integer that is already exact. *)
Definition ushrZ (z k : Z) : Z := Z.shiftr (uint32 z) k.
Definition shlZ (z k : Z) : Z := int32 (Z.shiftl (int32 z) k).
Definition orZ (a b : Z) : Z := Z.lor (int32 a) (int32 b).
Definition andZ (a b : Z) : Z := Z.land (int32 a) (int32 b).

(** Truthiness of a number: [0], [-0] and [NaN] are falsy. *)
Definition truthy (x : number) : bool :=
  match x with
  | S754_zero _ | S754_nan => false
  | _ => true
  end.

(** *** The binary64 and binary32 interchange formats

    [DataView.setFloat64], [getFloat64] and [getFloat32], big-endian. *)

Definition bits64 (x : number) : Z :=
  match x with
  | S754_zero s => if s then 2 ^ 63 else 0
  | S754_infinity s => (if s then 2 ^ 63 else 0) + 2047 * 2 ^ 52
  | S754_nan => 2047 * 2 ^ 52 + 2 ^ 51
  | S754_finite s m e =>
      (if s then 2 ^ 63 else 0) +
      (if 2 ^ 52 <=? Zpos m then (e + 1075) * 2 ^ 52 + (Zpos m - 2 ^ 52)
       else Zpos m)
  end.

Definition of_bits64 (b : Z) : number :=
  let s := Z.testbit b 63 in
  let E := Z.shiftr b 52 mod 2048 in
  let f := b mod 2 ^ 52 in
  if E =? 0 then binary_normalize prec emax (cond_Zopp s f) (-1074) s
  else if E =? 2047 then (if f =? 0 then S754_infinity s else S754_nan)
  else binary_normalize prec emax (cond_Zopp s (2 ^ 52 + f)) (E - 1075) s.

Definition of_bits32 (b : Z) : number :=
  let s := Z.testbit b 31 in
  let E := Z.shiftr b 23 mod 256 in
  let f := b mod 2 ^ 23 in
  if E =? 0 then binary_normalize prec emax (cond_Zopp s f) (-149) s
  else if E =? 255 then (if f =? 0 then S754_infinity s else S754_nan)
  else binary_normalize prec emax (cond_Zopp s (2 ^ 23 + f)) (E - 150) s.

(** Big-endian bytes of an unsigned integer of [n] bytes, and back. *)
Fixpoint be_bytes (n : nat) (z : Z) : list Z :=
  match n with
  | O => []
  | S n' => be_bytes n' (Z.shiftr z 8) ++ [z mod 256]
  end.

Definition of_be_bytes (l : list Z) : Z :=
  fold_left (fun acc b => acc * 256 + b) l 0.

End Num.

Import Num.

(** ** Outcomes *)

(** The errors of the codec (taxonomy of the spec, section 7), with the
    TypeError the JavaScript runtime raises by itself. *)
Inductive error :=
| InvalidArgument          (* "Invalid argument ..." *)
| UnsupportedType          (* "Invalid argument type: The type ... cannot be serialized." *)
| InvalidByteCode          (* "Invalid byte code 0xc1 found." *)
| InvalidByteValue         (* "Invalid byte value ..." *)
| EncodingError            (* "UTF-8 encode: ..." *)
| DecodingError            (* "UTF-8 decode: ..." *)
| InvalidExtensionLength   (* "Invalid data length for a date value." *)
| TypeError.               (* property access on undefined *)

(** A call returns or throws.  In the model only, it can also exhaust its
    fuel, or reach a step whose effect the model does not determine: the
    replacement of an object's prototype, and a [DataView] that leaves the
    array (what it reads there depends on the buffer behind the array). *)
Inductive outcome (A : Type) :=
| Ok (a : A)
| Throw (e : error)
| OutOfFuel
| Unmodelled.

Arguments Ok {A} a.
Arguments Throw {A} e.
Arguments OutOfFuel {A}.
Arguments Unmodelled {A}.

Definition bind {A B} (k : A -> outcome B) (m : outcome A) : outcome B :=
  match m with
  | Ok a => k a
  | Throw e => Throw e
  | OutOfFuel => OutOfFuel
  | Unmodelled => Unmodelled
  end.

(** [x ← m; k] and ['(x, y) ← m; k] are sequencing in [outcome]. *)
#[global] Instance outcome_bind : MBind outcome := @bind.
#[global] Instance outcome_ret : MRet outcome := @Ok.

(** The call comes to an end: its fuel is not exhausted. *)
Definition returns {A} (m : outcome A) : bool :=
  match m with OutOfFuel => false | _ => true end.

(** ** Strings *)

(** A JavaScript string: its UTF-16 code units, each in [0, 65535]. *)
Definition jsstring := list Z.

Definition is_high_surrogate (c : Z) : bool := (0xd7ff <? c) && (c <? 0xdc00).
Definition is_low_surrogate (c : Z) : bool := (0xdc00 <=? c) && (c <=? 0xdfff).

(** Element [i] of an array, [None] for [undefined] (index out of range). *)
Definition at_ (a : list Z) (i : Z) : option Z :=
  if i <? 0 then None else a !! Z.to_nat i.

(** A store into a [Uint8Array]: the value wraps modulo 256, a store out of
    range does nothing. *)
Definition store (a : list Z) (i : nat) (b : Z) : list Z := <[i := b mod 256]> a.

(** ** Text codec *)

(** The main loop of [encodeUtf8]: [str] is what remains from index [ci] on,
    [bytes] the preallocated array and [i] the write index. *)
Fixpoint encodeUtf8_loop (str : jsstring) (bytes : list Z) (i : nat)
  : outcome (list Z * nat) :=
  match str with
  | [] => Ok (bytes, i)
  | c :: rest =>
      if c <? 128 then encodeUtf8_loop rest (store bytes i c) (i + 1)
      else if c <? 2048 then
        let bytes := store bytes i (Z.lor (Z.shiftr c 6) 192) in
        let bytes := store bytes (i + 1) (Z.lor (Z.land c 63) 128) in
        encodeUtf8_loop rest bytes (i + 2)
      else if (0xd7ff <? c) && (c <? 0xdc00) then
        match rest with
        | [] => Throw EncodingError            (* incomplete surrogate pair *)
        | c2 :: rest' =>
            if (c2 <? 0xdc00) || (0xdfff <? c2)
            then Throw EncodingError           (* second surrogate out of range *)
            else
              let c := 0x10000 + Z.shiftl (Z.land c 0x03ff) 10 + Z.land c2 0x03ff in
              let bytes := store bytes i (Z.lor (Z.shiftr c 18) 240) in
              let bytes := store bytes (i + 1) (Z.lor (Z.land (Z.shiftr c 12) 63) 128) in
              let bytes := store bytes (i + 2) (Z.lor (Z.land (Z.shiftr c 6) 63) 128) in
              let bytes := store bytes (i + 3) (Z.lor (Z.land c 63) 128) in
              encodeUtf8_loop rest' bytes (i + 4)
        end
      else
        let bytes := store bytes i (Z.lor (Z.shiftr c 12) 224) in
        let bytes := store bytes (i + 1) (Z.lor (Z.land (Z.shiftr c 6) 63) 128) in
        let bytes := store bytes (i + 2) (Z.lor (Z.land c 63) 128) in
        encodeUtf8_loop rest bytes (i + 3)
  end.

Definition encodeUtf8 (str : jsstring) : outcome (list Z) :=
  let ascii := forallb (fun c => negb (127 <? c)) str in
  let bytes := replicate (length str * (if ascii then 1 else 4))%nat 0 in
  '(bytes, i) ← encodeUtf8_loop str bytes 0;
  Ok (if ascii then bytes else take i bytes).

(** [bytes[i++] & 63] for a continuation byte: [undefined & 63] is 0. *)
Definition continuation (bytes : list Z) (i : Z) : Z :=
  match at_ bytes i with
  | Some b => Z.land b 63
  | None => 0
  end.

(** The body of [if (c > 127)] in [decodeUtf8]: the code point that starts
    with the lead byte [c], and the index after it; [i] is the index after
    [c] and [length] the end index. *)
Definition decode_sequence (bytes : list Z) (c i length : Z) : outcome (Z * Z) :=
  if 127 <? c then
    if (191 <? c) && (c <? 224) then
      if length <=? i then Throw DecodingError
      else Ok (Z.lor (Z.shiftl (Z.land c 31) 6) (continuation bytes i), i + 1)
    else if (223 <? c) && (c <? 240) then
      if length <=? i + 1 then Throw DecodingError
      else Ok (Z.lor (Z.lor (Z.shiftl (Z.land c 15) 12)
                            (Z.shiftl (continuation bytes i) 6))
                     (continuation bytes (i + 1)), i + 2)
    else if (239 <? c) && (c <? 248) then
      if length <=? i + 2 then Throw DecodingError
      else Ok (Z.lor (Z.lor (Z.lor (Z.shiftl (Z.land c 7) 18)
                                   (Z.shiftl (continuation bytes i) 12))
                            (Z.shiftl (continuation bytes (i + 1)) 6))
                     (continuation bytes (i + 2)), i + 3)
    else Throw DecodingError
  else Ok (c, i).

(** The loop of [decodeUtf8]; [length] is the end index [start + length]. *)
Fixpoint decodeUtf8_loop (fuel : nat) (bytes : list Z) (i length : Z) (str : jsstring)
  : outcome jsstring :=
  match fuel with
  | O => OutOfFuel
  | S fuel =>
      if i <? length then
        match at_ bytes i with
        | None => Throw TypeError     (* c is undefined: c.toString(16) *)
        | Some c =>
            '(c, i) ← decode_sequence bytes c (i + 1) length;
            if c <=? 0xffff then decodeUtf8_loop fuel bytes i length (str ++ [c])
            else if c <=? 0x10ffff then
              let c := c - 0x10000 in
              decodeUtf8_loop fuel bytes i length
                (str ++ [Z.lor (Z.shiftr c 10) 0xd800; Z.lor (Z.land c 0x3ff) 0xdc00])
            else Throw DecodingError
        end
      else Ok str
  end.

(** [decodeUtf8(bytes, start, length)]; [length] is [None] when it is NaN
    (then [i < length] is false at once).  Every turn of the loop either
    throws or moves [i] forward inside the array, so the fuel suffices. *)
Definition decodeUtf8 (bytes : list Z) (start : Z) (length : option Z) : outcome jsstring :=
  match length with
  | None => Ok []
  | Some n => decodeUtf8_loop (S (List.length bytes)) bytes start (n + start) []
  end.

(** ** Growable buffer *)

(** The closure variables [array] (a [Uint8Array]) and [length] of
    [serialize]. *)
Record buffer := Buffer { array : list Z; used : nat }.

(** [while (newLength < needed) newLength *= 2]. *)
Fixpoint grow (fuel newLength needed : nat) : nat :=
  match fuel with
  | O => newLength
  | S fuel => if (newLength <? needed)%nat then grow fuel (newLength * 2) needed else newLength
  end.

(** [dst.set(src, offset)] for a source that fits. *)
Definition array_set (dst : list Z) (src : list Z) (offset : nat) : list Z :=
  take offset dst ++ map (fun b => b mod 256) src ++ drop (offset + length src) dst.

Definition reserve (b : buffer) (n : nat) : buffer :=
  if (length (array b) <? used b + n)%nat then
    let newLength := grow (used b + n) (length (array b) * 2) (used b + n) in
    let newArray := array_set (replicate newLength 0) (array b) 0 in
    Buffer newArray (used b)
  else b.

Definition appendByte (byte : Z) (b : buffer) : buffer :=
  let b := reserve b 1 in
  Buffer (store (array b) (used b) byte) (used b + 1).

Definition appendBytes (bytes : list Z) (b : buffer) : buffer :=
  let b := reserve b (length bytes) in
  Buffer (array_set (array b) bytes (used b)) (used b + length bytes).

(** [new Uint8Array(128)] and [array.subarray(0, length)]. *)
Definition empty_buffer : buffer := Buffer (replicate 128 0) 0.
Definition contents (b : buffer) : list Z := take (used b) (array b).

(** ** Value model *)

(** The JavaScript values the codec meets.  An object lists its enumerable
    properties in the order of [for (key in data)]; a typed array other
    than a byte array only matters through its numeric elements; a function
    is a name, resolved by the environment [call] when it is applied. *)
Inductive value :=
| VUndefined
| VNull
| VBoolean (b : bool)
| VNumber (x : number)
| VString (s : jsstring)
| VDate (t : number)                      (* time value in ms; NaN: invalid date *)
| VArray (l : list value)
| VUint8Array (clamped : bool) (l : list Z) (* Uint8Array / Uint8ClampedArray *)
| VTypedArray (l : list number)           (* Int8Array ... Float64Array *)
| VObject (l : list (jsstring * value))
| VFunction (f : nat)
| VSymbol
| VBigInt (z : Z).

Inductive js_type :=
| t_undefined | t_boolean | t_number | t_string | t_object
| t_function | t_symbol | t_bigint.

Definition typeof (data : value) : js_type :=
  match data with
  | VUndefined => t_undefined
  | VBoolean _ => t_boolean
  | VNumber _ => t_number
  | VString _ => t_string
  | VNull | VDate _ | VArray _ | VUint8Array _ _ | VTypedArray _ | VObject _ => t_object
  | VFunction _ => t_function
  | VSymbol => t_symbol
  | VBigInt _ => t_bigint
  end.

(** The kinds [append] has no case for: its [default] branch. *)
Definition unsupported (data : value) : bool :=
  match typeof data with
  | t_function | t_symbol | t_bigint => true
  | _ => false
  end.

Definition is_undefined (data : value) : bool :=
  match data with VUndefined => true | _ => false end.

Definition isArray (data : value) : bool :=
  match data with VArray _ => true | _ => false end.

(** Truthiness, as tested by [options.invalidTypeReplacement]. *)
Definition ToBoolean (data : value) : bool :=
  match data with
  | VUndefined | VNull => false
  | VBoolean b => b
  | VNumber x => Num.truthy x
  | VString s => match s with [] => false | _ => true end
  | VBigInt z => negb (z =? 0)
  | _ => true
  end.

(** [typeHint]: the strings ["int"], ["float"], ["double"]; anything else,
    and an absent hint, behave alike. *)
Inductive type_hint := hint_none | hint_int | hint_float | hint_double.

(** The [options] argument.  An absent property is [false], [hint_none] or
    [VUndefined]; an absent [options] is [no_options]. *)
Record options := Options {
  multiple : bool;
  typeHint : type_hint;
  invalidTypeReplacement : value
}.

Definition no_options : options := Options false hint_none VUndefined.

(** [Date.prototype.getTime] and [getMilliseconds] (time-zone offsets are
    whole seconds), and [new Date(x)] with its TimeClip. *)
Definition getTime (t : number) : number := t.

Definition getMilliseconds (t : number) : number :=
  if isFinite t then lit (trunc t mod 1000) else NaN.

Definition TimeClip (x : number) : number :=
  if negb (isFinite x) then NaN
  else if ltb (lit 8640000000000000) (abs x) then NaN
  else lit (trunc x).

Definition newDate (x : number) : value := VDate (TimeClip x).

(** ** Encoder *)

Definition pow32 : number := lit 0x100000000.

Definition appendNull (b : buffer) : buffer := appendByte 0xc0 b.

Definition appendBoolean (data : bool) (b : buffer) : buffer :=
  appendByte (if data then 0xc3 else 0xc2) b.

Definition appendInt64 (value : number) (b : buffer) : buffer :=
  let '(hi, lo) :=
    if geb value (lit 0) then
      (div value pow32, rem value pow32)
    else
      let value := add value (lit 1) in
      let hi := div (abs value) pow32 in
      let lo := rem (abs value) pow32 in
      (lit (Num.not hi), lit (Num.not lo)) in
  appendBytes [ushr hi 24; ushr hi 16; ushr hi 8; trunc hi;
               ushr lo 24; ushr lo 16; ushr lo 8; trunc lo] b.

(** [th === "int" || (isFinite(data) && Math.floor(data) === data &&
    th !== "double" && th !== "float")]. *)
Definition isInteger (data : number) (th : type_hint) : bool :=
  match th with
  | hint_int => true
  | hint_none => isFinite data && eqb (floor data) data
  | hint_double | hint_float => false
  end.

Definition appendNumber (data : number) (th : type_hint) (b : buffer) : buffer :=
  if isInteger data th then
    if geb data (lit 0) && leb data (lit 0x7f) then
      appendByte (trunc data) b
    else if ltb data (lit 0) && geb data (SFopp (lit 0x20)) then
      appendByte (trunc data) b
    else if gtb data (lit 0) && leb data (lit 0xff) then
      appendBytes [0xcc; trunc data] b
    else if geb data (SFopp (lit 0x80)) && leb data (lit 0x7f) then
      appendBytes [0xd0; trunc data] b
    else if gtb data (lit 0) && leb data (lit 0xffff) then
      appendBytes [0xcd; ushr data 8; trunc data] b
    else if geb data (SFopp (lit 0x8000)) && leb data (lit 0x7fff) then
      appendBytes [0xd1; ushr data 8; trunc data] b
    else if gtb data (lit 0) && leb data (lit 0xffffffff) then
      appendBytes [0xce; ushr data 24; ushr data 16; ushr data 8; trunc data] b
    else if geb data (SFopp (lit 0x80000000)) && leb data (lit 0x7fffffff) then
      appendBytes [0xd2; ushr data 24; ushr data 16; ushr data 8; trunc data] b
    else if gtb data (lit 0) && leb data (lit 0xffffffffffffffff) then
      let hi := div data pow32 in
      let lo := rem data pow32 in
      appendBytes [0xd3; ushr hi 24; ushr hi 16; ushr hi 8; trunc hi;
                   ushr lo 24; ushr lo 16; ushr lo 8; trunc lo] b
    else if geb data (SFopp (lit 0x8000000000000000)) && leb data (lit 0x7fffffffffffffff) then
      appendInt64 data (appendByte 0xd3 b)
    else if ltb data (lit 0) then
      appendBytes [0xd3; 0x80; 0; 0; 0; 0; 0; 0; 0] b
    else
      appendBytes [0xcf; 0xff; 0xff; 0xff; 0xff; 0xff; 0xff; 0xff; 0xff] b
  else
    appendBytes (be_bytes 8 (bits64 data)) (appendByte 0xcb b).

Definition appendString (data : jsstring) (b : buffer) : outcome buffer :=
  bytes ← encodeUtf8 data;
  let length := Z.of_nat (List.length bytes) in
  let b :=
    if length <=? 0x1f then appendByte (0xa0 + length) b
    else if length <=? 0xff then appendBytes [0xd9; length] b
    else if length <=? 0xffff then appendBytes [0xda; ushrZ length 8; length] b
    else appendBytes [0xdb; ushrZ length 24; ushrZ length 16; ushrZ length 8; length] b in
  Ok (appendBytes bytes b).

Definition appendBinArray (data : list Z) (b : buffer) : buffer :=
  let length := Z.of_nat (List.length data) in
  let b :=
    if length <=? 0xf then appendBytes [0xc4; length] b
    else if length <=? 0xffff then appendBytes [0xc5; ushrZ length 8; length] b
    else appendBytes [0xc6; ushrZ length 24; ushrZ length 16; ushrZ length 8; length] b in
  appendBytes data b.

Definition appendDate (data : number) (b : buffer) : buffer :=
  let sec := div (getTime data) (lit 1000) in
  if eqb (getMilliseconds data) (lit 0) && geb sec (lit 0) && ltb sec (lit 0x100000000) then
    appendBytes [0xd6; 0xff; ushr sec 24; ushr sec 16; ushr sec 8; trunc sec] b
  else if geb sec (lit 0) && ltb sec (lit 0x400000000) then
    let ns := mul (getMilliseconds data) (lit 1000000) in
    appendBytes [0xd7; 0xff; ushr ns 22; ushr ns 14; ushr ns 6;
                 orZ (ushrZ (shl ns 2) 0) (trunc (div sec pow32));
                 ushr sec 24; ushr sec 16; ushr sec 8; trunc sec] b
  else
    let ns := mul (getMilliseconds data) (lit 1000000) in
    let b := appendBytes [0xc7; 12; 0xff; ushr ns 24; ushr ns 16; ushr ns 8; trunc ns] b in
    appendInt64 sec b.

(** A [for] loop whose body appends one element. *)
Fixpoint for_each {A} (body : A -> buffer -> outcome buffer) (l : list A) (b : buffer)
  : outcome buffer :=
  match l with
  | [] => Ok b
  | x :: l => b ← body x b; for_each body l b
  end.

Section Append.

(** [append(data[index])] and [append(key)]: the recursive calls pass
    neither [isReplacement] nor [th]. *)
Variable append : value -> buffer -> outcome buffer.

Definition appendArray (data : list value) (b : buffer) : outcome buffer :=
  let length := Z.of_nat (List.length data) in
  let b :=
    if length <=? 0xf then appendByte (0x90 + length) b
    else if length <=? 0xffff then appendBytes [0xdc; ushrZ length 8; length] b
    else appendBytes [0xdd; ushrZ length 24; ushrZ length 16; ushrZ length 8; length] b in
  for_each append data b.

Definition appendObject (data : list (jsstring * value)) (b : buffer) : outcome buffer :=
  let length :=
    fold_left (fun length '(key, v) => if is_undefined v then length else length + 1)
              data 0 in
  let b :=
    if length <=? 0xf then appendByte (0x80 + length) b
    else if length <=? 0xffff then appendBytes [0xde; ushrZ length 8; length] b
    else appendBytes [0xdf; ushrZ length 24; ushrZ length 16; ushrZ length 8; length] b in
  for_each (fun '(key, v) b =>
              if is_undefined v then Ok b
              else b ← append (VString key) b; append v b)
           data b.

End Append.

Section Serialize.

(** The functions the input refers to: [call f x] is the value of [f(x)]. *)
Variable call : nat -> value -> value.
Variable opts : options.

Fixpoint append (fuel : nat) (data : value) (isReplacement : bool) (th : type_hint)
                (b : buffer) : outcome buffer :=
  match fuel with
  | O => OutOfFuel
  | S fuel =>
      let nested := fun d => append fuel d false hint_none in
      match data with
      | VUndefined => Ok (appendNull b)
      | VBoolean x => Ok (appendBoolean x b)
      | VNumber x => Ok (appendNumber x th b)
      | VString s => appendString s b
      | VNull => Ok (appendNull b)
      | VDate t => Ok (appendDate t b)
      | VArray l => appendArray nested l b
      | VUint8Array _ l => Ok (appendBinArray l b)
      | VTypedArray l => appendArray nested (map VNumber l) b
      | VObject l => appendObject nested l b
      | VFunction _ | VSymbol | VBigInt _ =>
          if negb isReplacement && ToBoolean (invalidTypeReplacement opts) then
            match invalidTypeReplacement opts with
            | VFunction f => append fuel (call f data) true th b
            | replacement => append fuel replacement true th b
            end
          else Throw UnsupportedType
      end
  end.

Definition serialize (fuel : nat) (data : value) : outcome (list Z) :=
  if multiple opts && negb (isArray data) then Throw InvalidArgument
  else
    let th := typeHint opts in
    b ← (match multiple opts, data with
         | true, VArray l => for_each (fun d => append fuel d false th) l empty_buffer
         | _, _ => append fuel data false th empty_buffer
         end);
    Ok (contents b).

End Serialize.

(** ** Property keys *)

Fixpoint digits (u : Decimal.uint) : jsstring :=
  match u with
  | Nil => []
  | D0 u => 48 :: digits u
  | D1 u => 49 :: digits u
  | D2 u => 50 :: digits u
  | D3 u => 51 :: digits u
  | D4 u => 52 :: digits u
  | D5 u => 53 :: digits u
  | D6 u => 54 :: digits u
  | D7 u => 55 :: digits u
  | D8 u => 56 :: digits u
  | D9 u => 57 :: digits u
  end.

(** The decimal numeral of an integer. *)
Definition Z_toString (z : Z) : jsstring :=
  (if z <? 0 then [45] else []) ++ digits (N.to_uint (Z.abs_N z)).

(** A string literal of the source, from its ASCII characters. *)
Definition str (s : String.string) : jsstring :=
  map (fun a => Z.of_N (Ascii.N_of_ascii a)) (String.list_ascii_of_string s).

Arguments str s%_string.

Fixpoint join (parts : list jsstring) : jsstring :=
  match parts with
  | [] => []
  | [s] => s
  | s :: parts => s ++ 44 :: join parts
  end.

Section ToString.

(** What the runtime prints for a number that is not an integer below 2^53
    in magnitude (the shortest decimal that reads back as the same double),
    and for a valid date (which depends on the time zone). *)
Variable Number_toString : number -> jsstring.
Variable Date_toString : number -> jsstring.

Definition number_toString (x : number) : jsstring :=
  match x with
  | S754_nan => str "NaN"
  | S754_zero _ => str "0"
  | S754_infinity s => (if s then [45] else []) ++ str "Infinity"
  | S754_finite _ _ e =>
      if eqb (floor x) x && ltb (abs x) (lit (2 ^ 53)) then Z_toString (trunc x)
      else Number_toString x
  end.

Definition has_own (key : jsstring) (l : list (jsstring * value)) : bool :=
  existsb (fun '(k, _) => if decide (k = key) then true else false) l.

(** [ToString(key)] for a value that [read] returns, as [data[key]]
    applies it: an array joins its elements (with [null] printed as the
    empty string); a plain object prints as [[object Object]], unless a
    property of its own hides [toString], which the decoder never makes
    callable. *)
Fixpoint ToString (v : value) : outcome jsstring :=
  match v with
  | VUndefined => Ok (str "undefined")
  | VNull => Ok (str "null")
  | VBoolean b => Ok (if b then str "true" else str "false")
  | VNumber x => Ok (number_toString x)
  | VString s => Ok s
  | VDate t => Ok (if isNaN t then str "Invalid Date" else Date_toString t)
  | VArray l =>
      parts ← (fix elements (l : list value) : outcome (list jsstring) :=
                 match l with
                 | [] => Ok []
                 | x :: l =>
                     s ← (match x with
                          | VUndefined | VNull => Ok []
                          | _ => ToString x
                          end);
                     parts ← elements l;
                     Ok (s :: parts)
                 end) l;
      Ok (join parts)
  | VUint8Array _ l => Ok (join (map Z_toString l))
  | VTypedArray l => Ok (join (map number_toString l))
  | VObject l =>
      if has_own (str "toString") l then Throw TypeError
      else Ok (str "[object Object]")
  | VBigInt z => Ok (Z_toString z)
  | VFunction _ | VSymbol => Throw TypeError   (* never a result of [read] *)
  end.

End ToString.

(** *** Properties of the object that [readMap] builds

    The object is created by [{}] and is listed by its own properties in
    the order in which they are enumerated: the array indices in ascending
    order, then the other keys in the order of their creation. *)

Fixpoint decimal (s : jsstring) (acc : Z) : option Z :=
  match s with
  | [] => Some acc
  | c :: s => if (48 <=? c) && (c <=? 57) then decimal s (10 * acc + (c - 48)) else None
  end.

(** The array index that a key spells, if any: the decimal numeral, without
    a leading zero, of an integer from 0 to 2^32 - 2. *)
Definition array_index (key : jsstring) : option Z :=
  match key with
  | [] => None
  | c :: rest =>
      if c =? 48 then match rest with [] => Some 0 | _ => None end
      else match decimal key 0 with
           | Some n => if n <? 2 ^ 32 - 1 then Some n else None
           | None => None
           end
  end.

(** Whether a new property [key] is enumerated before the property [k]. *)
Definition enumerated_before (key k : jsstring) : bool :=
  match array_index key, array_index k with
  | Some i, Some j => i <? j
  | Some _, None => true
  | None, _ => false
  end.

(** A property that exists keeps its place. *)
Fixpoint obj_update (data : list (jsstring * value)) (key : jsstring) (v : value)
  : list (jsstring * value) :=
  match data with
  | [] => []
  | (k, w) :: data =>
      if decide (k = key) then (k, v) :: data else (k, w) :: obj_update data key v
  end.

(** A new property goes to its place in the enumeration. *)
Fixpoint obj_insert (data : list (jsstring * value)) (key : jsstring) (v : value)
  : list (jsstring * value) :=
  match data with
  | [] => [(key, v)]
  | (k, w) :: data =>
      if enumerated_before key k then (key, v) :: (k, w) :: data
      else (k, w) :: obj_insert data key v
  end.

(** The own property [key] of [data] is set to [v]. *)
Definition obj_set (data : list (jsstring * value)) (key : jsstring) (v : value)
  : list (jsstring * value) :=
  if has_own key data then obj_update data key v else obj_insert data key v.

(** [data[key] = v] in [readMap].  The key [__proto__] is not stored: the
    assignment reaches the setter that [data] inherits from
    [Object.prototype], which ignores a primitive [v] and makes any other
    [v] (an object, or [null]) the prototype of [data]. *)
Definition obj_assign (data : list (jsstring * value)) (key : jsstring) (v : value)
  : outcome (list (jsstring * value)) :=
  if decide (key = str "__proto__") then
    match typeof v with
    | t_object | t_function => Unmodelled
    | _ => Ok data
    end
  else Ok (obj_set data key v).

(** The keys of an object in the order of their enumeration: none is
    enumerated before a key that stands before it. *)
Fixpoint enumeration_order (keys : list jsstring) : bool :=
  match keys with
  | [] => true
  | k :: keys =>
      forallb (fun k' => negb (enumerated_before k' k)) keys && enumeration_order keys
  end.

(** ** Decoder *)

(** The read cursor [pos]; [None] is NaN (after [pos += NaN]). *)
Definition position := option Z.

Definition advance (pos : position) (n : option Z) : position :=
  match pos, n with
  | Some p, Some n => Some (p + n)
  | _, _ => None
  end.

(** [array[pos]]. *)
Definition peek (array : list Z) (pos : position) : option Z :=
  match pos with
  | Some p => at_ array p
  | None => None
  end.

(** A length as the loops and [subarray] see it: [None] for NaN. *)
Definition to_length (size : number) : option Z :=
  if isNaN size then None else Some (trunc size).

(** [value *= 256; value += array[pos++]], [size] times. *)
Fixpoint read_bytes (array : list Z) (size : nat) (value : number) (pos : position)
  : number * position :=
  match size with
  | O => (value, pos)
  | S size =>
      let value := mul value (lit 256) in
      let value := add value (match peek array pos with Some b => lit b | None => NaN end) in
      read_bytes array size value (advance pos (Some 1))
  end.

Definition readUInt (array : list Z) (size : nat) (pos : position) : number * position :=
  read_bytes array size (lit 0) pos.

Definition readInt (array : list Z) (size : nat) (pos : position) : number * position :=
  match size with
  | O => (lit 0, pos)
  | S size =>
      let byte := match peek array pos with Some b => b | None => 0 end in
      let value := add (lit 0) (lit (andZ byte 0x7f)) in
      let value := if andZ byte 0x80 =? 0 then value else sub value (lit 0x80) in
      read_bytes array size value (advance pos (Some 1))
  end.

(** [new DataView(array.buffer, pos + array.byteOffset, size)], [pos += size]
    and the read of the view.  A field that lies inside the array is made
    of the bytes of the array from [pos] on.  The view is laid over the
    buffer of the array, not over the array: when the field leaves the
    array, or the cursor is NaN (the offset is then the start of the
    buffer), the bytes it holds, or the RangeError it raises, depend on the
    buffer behind the array. *)
Definition readFloat (array : list Z) (size : nat) (pos : position)
  : outcome (value * position) :=
  match pos with
  | None => Unmodelled
  | Some offset =>
      if (offset <? 0) || (Z.of_nat (length array) <? offset + Z.of_nat size)
      then Unmodelled
      else
        let bits := of_be_bytes (take size (drop (Z.to_nat offset) array)) in
        let pos := advance pos (Some (Z.of_nat size)) in
        match size with
        | 4%nat => Ok (VNumber (of_bits32 bits), pos)
        | 8%nat => Ok (VNumber (of_bits64 bits), pos)
        | _ => Ok (VUndefined, pos)
        end
  end.

(** [if (size < 0) size = readUInt(lengthSize)]. *)
Definition read_size (array : list Z) (size : number) (lengthSize : nat) (pos : position)
  : number * position :=
  if ltb size (lit 0) then readUInt array lengthSize pos else (size, pos).

(** [array.subarray(begin, begin + size)]: both ends clamp to the array and
    NaN counts as 0. *)
Definition subarray (array : list Z) (begin : position) (size : option Z) : list Z :=
  match begin, size with
  | Some p, Some n => take (Z.to_nat n) (drop (Z.to_nat p) array)
  | _, _ => []
  end.

Definition readBin (array : list Z) (size : number) (lengthSize : nat) (pos : position)
  : list Z * position :=
  let '(size, pos) := read_size array size lengthSize pos in
  let data := subarray array pos (to_length size) in
  (data, advance pos (to_length size)).

Definition readStr (array : list Z) (size : number) (lengthSize : nat) (pos : position)
  : outcome (value * position) :=
  let '(size, pos) := read_size array size lengthSize pos in
  let start := pos in
  let pos := advance pos (to_length size) in
  s ← (match start with
       | Some start => decodeUtf8 array start (to_length size)
       | None => Ok []
       end);
  Ok (VString s, pos).

Definition byte_at (data : list Z) (i : nat) : Z := default 0 (data !! i).

Definition readExtDate (array : list Z) (data : list Z) (pos : position)
  : outcome (value * position) :=
  let d := byte_at data in
  if (length data =? 4)%nat then
    let sec := ushrZ (shlZ (d 0%nat) 24) 0 + ushrZ (shlZ (d 1%nat) 16) 0
               + ushrZ (shlZ (d 2%nat) 8) 0 + d 3%nat in
    Ok (newDate (mul (lit sec) (lit 1000)), pos)
  else if (length data =? 8)%nat then
    let ns := ushrZ (shlZ (d 0%nat) 22) 0 + ushrZ (shlZ (d 1%nat) 14) 0
              + ushrZ (shlZ (d 2%nat) 6) 0 + ushrZ (d 3%nat) 2 in
    let sec := mul (lit (andZ (d 3%nat) 0x3)) pow32 in
    let sec := add sec (lit (ushrZ (shlZ (d 4%nat) 24) 0)) in
    let sec := add sec (lit (ushrZ (shlZ (d 5%nat) 16) 0)) in
    let sec := add sec (lit (ushrZ (shlZ (d 6%nat) 8) 0)) in
    let sec := add sec (lit (d 7%nat)) in
    Ok (newDate (add (mul sec (lit 1000)) (div (lit ns) (lit 1000000))), pos)
  else if (length data =? 12)%nat then
    let ns := ushrZ (shlZ (d 0%nat) 24) 0 + ushrZ (shlZ (d 1%nat) 16) 0
              + ushrZ (shlZ (d 2%nat) 8) 0 + d 3%nat in
    let pos := advance pos (Some (-8)) in
    let '(sec, pos) := readInt array 8 pos in
    Ok (newDate (add (mul sec (lit 1000)) (div (lit ns) (lit 1000000))), pos)
  else Throw InvalidExtensionLength.

Definition readExt (array : list Z) (size : number) (lengthSize : nat) (pos : position)
  : outcome (value * position) :=
  let '(size, pos) := read_size array size lengthSize pos in
  let '(type, pos) := readUInt array 1 pos in
  let '(data, pos) := readBin array size 0 pos in
  if eqb type (lit 255) then readExtDate array data pos
  else Ok (VObject [(str "type", VNumber type); (str "data", VUint8Array false data)], pos).

(** The number of turns of [while (size-- > 0)]. *)
Definition turns (size : number) : nat :=
  match to_length size with
  | Some n => Z.to_nat n
  | None => O
  end.

Section Read.

Variable Number_toString : number -> jsstring.
Variable Date_toString : number -> jsstring.

Section Composite.

(** The recursive call [read()], from a given cursor. *)
Variable read : position -> outcome (value * position).

Fixpoint readMap_loop (size : nat) (data : list (jsstring * value)) (pos : position)
  : outcome (value * position) :=
  match size with
  | O => Ok (VObject data, pos)
  | S size =>
      '(key, pos) ← read pos;
      '(v, pos) ← read pos;
      key ← ToString Number_toString Date_toString key;
      data ← obj_assign data key v;
      readMap_loop size data pos
  end.

Definition readMap (array : list Z) (size : number) (lengthSize : nat) (pos : position)
  : outcome (value * position) :=
  let '(size, pos) := read_size array size lengthSize pos in
  readMap_loop (turns size) [] pos.

Fixpoint readArray_loop (size : nat) (data : list value) (pos : position)
  : outcome (value * position) :=
  match size with
  | O => Ok (VArray data, pos)
  | S size =>
      '(v, pos) ← read pos;
      readArray_loop size (data ++ [v]) pos
  end.

Definition readArray (array : list Z) (size : number) (lengthSize : nat) (pos : position)
  : outcome (value * position) :=
  let '(size, pos) := read_size array size lengthSize pos in
  readArray_loop (turns size) [] pos.

End Composite.

Fixpoint read (fuel : nat) (array : list Z) (pos : position)
  : outcome (value * position) :=
  match fuel with
  | O => OutOfFuel
  | S fuel =>
      let byte := peek array pos in
      let pos := advance pos (Some 1) in
      match byte with
      | None => Throw InvalidByteValue      (* undefined fails every test *)
      | Some byte =>
          let minus1 := SFopp (lit 1) in
          if (0x00 <=? byte) && (byte <=? 0x7f) then Ok (VNumber (lit byte), pos)
          else if (0x80 <=? byte) && (byte <=? 0x8f) then
            readMap (read fuel array) array (lit (byte - 0x80)) 0 pos
          else if (0x90 <=? byte) && (byte <=? 0x9f) then
            readArray (read fuel array) array (lit (byte - 0x90)) 0 pos
          else if (0xa0 <=? byte) && (byte <=? 0xbf) then
            readStr array (lit (byte - 0xa0)) 0 pos
          else if byte =? 0xc0 then Ok (VNull, pos)
          else if byte =? 0xc1 then Throw InvalidByteCode
          else if byte =? 0xc2 then Ok (VBoolean false, pos)
          else if byte =? 0xc3 then Ok (VBoolean true, pos)
          else if byte =? 0xc4 then
            let '(data, pos) := readBin array minus1 1 pos in Ok (VUint8Array false data, pos)
          else if byte =? 0xc5 then
            let '(data, pos) := readBin array minus1 2 pos in Ok (VUint8Array false data, pos)
          else if byte =? 0xc6 then
            let '(data, pos) := readBin array minus1 4 pos in Ok (VUint8Array false data, pos)
          else if byte =? 0xc7 then readExt array minus1 1 pos
          else if byte =? 0xc8 then readExt array minus1 2 pos
          else if byte =? 0xc9 then readExt array minus1 4 pos
          else if byte =? 0xca then readFloat array 4 pos
          else if byte =? 0xcb then readFloat array 8 pos
          else if byte =? 0xcc then
            let '(x, pos) := readUInt array 1 pos in Ok (VNumber x, pos)
          else if byte =? 0xcd then
            let '(x, pos) := readUInt array 2 pos in Ok (VNumber x, pos)
          else if byte =? 0xce then
            let '(x, pos) := readUInt array 4 pos in Ok (VNumber x, pos)
          else if byte =? 0xcf then
            let '(x, pos) := readUInt array 8 pos in Ok (VNumber x, pos)
          else if byte =? 0xd0 then
            let '(x, pos) := readInt array 1 pos in Ok (VNumber x, pos)
          else if byte =? 0xd1 then
            let '(x, pos) := readInt array 2 pos in Ok (VNumber x, pos)
          else if byte =? 0xd2 then
            let '(x, pos) := readInt array 4 pos in Ok (VNumber x, pos)
          else if byte =? 0xd3 then
            let '(x, pos) := readInt array 8 pos in Ok (VNumber x, pos)
          else if byte =? 0xd4 then readExt array (lit 1) 0 pos
          else if byte =? 0xd5 then readExt array (lit 2) 0 pos
          else if byte =? 0xd6 then readExt array (lit 4) 0 pos
          else if byte =? 0xd7 then readExt array (lit 8) 0 pos
          else if byte =? 0xd8 then readExt array (lit 16) 0 pos
          else if byte =? 0xd9 then readStr array minus1 1 pos
          else if byte =? 0xda then readStr array minus1 2 pos
          else if byte =? 0xdb then readStr array minus1 4 pos
          else if byte =? 0xdc then readArray (read fuel array) array minus1 2 pos
          else if byte =? 0xdd then readArray (read fuel array) array minus1 4 pos
          else if byte =? 0xde then readMap (read fuel array) array minus1 2 pos
          else if byte =? 0xdf then readMap (read fuel array) array minus1 4 pos
          else if (0xe0 <=? byte) && (byte <=? 0xff) then Ok (VNumber (lit (byte - 256)), pos)
          else Throw InvalidByteValue
      end
  end.

(** [while (pos < array.length) data.push(read())]. *)
Fixpoint read_all (fuel : nat) (array : list Z) (data : list value) (pos : position)
  : outcome value :=
  match fuel with
  | O => OutOfFuel
  | S fuel' =>
      match pos with
      | Some p =>
          if p <? Z.of_nat (length array) then
            '(v, pos) ← read (S (length array)) array pos;
            read_all fuel' array (data ++ [v]) pos
          else Ok (VArray data)
      | None => Ok (VArray data)
      end
  end.

(** [deserialize(array, options)] for an [array] of integers (an [Array] or
    a [Uint8Array]); [new Uint8Array(array)] wraps each one modulo 256.
    A value nests no deeper than the bytes it spans and a read that
    returns moves the cursor forward, so the fuel given here suffices. *)
Definition deserialize (array : list Z) (opts : options) : outcome value :=
  if (length array =? 0)%nat then Throw InvalidArgument
  else
    let array := map (fun b => b mod 256) array in
    if multiple opts then read_all (S (length array)) array [] (Some 0)
    else '(data, _) ← read (S (length array)) array (Some 0); Ok data.

End Read.

(** * Properties *)

(** ** Outcomes *)

Lemma returns_bind {A B} (m : outcome A) (k : A -> outcome B) :
  returns m = true -> (forall x, returns (k x) = true) -> returns (mbind k m) = true.
Proof. destruct m; simpl; auto. Qed.

(** ** Text codec: surrogates *)

(** A high surrogate that is not immediately followed by a low surrogate. *)
Definition unpaired_high (s : jsstring) : Prop :=
  exists (i : nat) (c : Z),
    s !! i = Some c /\ is_high_surrogate c = true /\
    match s !! S i with
    | Some c2 => is_low_surrogate c2 = false
    | None => True
    end.

(** A low surrogate that does not immediately follow a high surrogate. *)
Definition unpaired_low (s : jsstring) : Prop :=
  exists (i : nat) (c : Z),
    s !! i = Some c /\ is_low_surrogate c = true /\
    match i with
    | O => True
    | S j => match s !! j with
             | Some c1 => is_high_surrogate c1 = false
             | None => True
             end
    end.

(** The strings the spec calls ill-formed: some surrogate is unpaired. *)
Definition unpaired_surrogate (s : jsstring) : Prop :=
  unpaired_high s \/ unpaired_low s.

Lemma unpaired_high_cons (c : Z) (rest : jsstring) :
  unpaired_high (c :: rest) <->
  (is_high_surrogate c = true /\
   match rest with c2 :: _ => is_low_surrogate c2 = false | [] => True end)
  \/ unpaired_high rest.
Proof.
  unfold unpaired_high; split.
  - intros (i & d & Hi & Hd & Hn). destruct i as [|i]; simpl in *.
    + left. injection Hi as <-. split; [assumption|].
      destruct rest; simpl in *; assumption.
    + right. exists i, d. auto.
  - intros [[Hc Hn] | (i & d & Hi & Hd & Hn)].
    + exists O, c. simpl. repeat split; try assumption.
      destruct rest; simpl; assumption.
    + exists (S i), d. simpl. auto.
Qed.

Lemma unpaired_high_nil : ~ unpaired_high [].
Proof. intros (i & c & Hi & _). destruct i; discriminate. Qed.

Lemma low_not_high (c : Z) : is_low_surrogate c = true -> is_high_surrogate c = false.
Proof. unfold is_high_surrogate, is_low_surrogate. lia. Qed.

(** The loop of [encodeUtf8] throws exactly on an unpaired high surrogate,
    whatever the state of its output array. *)
Lemma encodeUtf8_loop_throws (n : nat) :
  forall (s : jsstring) (bytes : list Z) (i : nat),
    (length s <= n)%nat ->
    (unpaired_high s -> encodeUtf8_loop s bytes i = Throw EncodingError) /\
    (~ unpaired_high s -> exists r, encodeUtf8_loop s bytes i = Ok r).
Proof.
  induction n as [|n IH]; intros s bytes i Hlen.
  - destruct s; [|simpl in Hlen; lia]. split.
    + intros H. destruct (unpaired_high_nil H).
    + intros _. simpl. eauto.
  - destruct s as [|c rest].
    { split; [intros H; destruct (unpaired_high_nil H) | intros _; simpl; eauto]. }
    simpl in Hlen. rewrite unpaired_high_cons.
    cbn [encodeUtf8_loop].
    destruct (c <? 128) eqn:E1.
    { assert (is_high_surrogate c = false) as Hh by (unfold is_high_surrogate; lia).
      destruct (IH rest (store bytes i c) (i + 1)%nat ltac:(lia)) as [T O].
      split; [intros [[? _]|?]; [congruence | auto] | intros N; apply O; tauto]. }
    destruct (c <? 2048) eqn:E2.
    { assert (is_high_surrogate c = false) as Hh by (unfold is_high_surrogate; lia).
      match goal with |- context [encodeUtf8_loop rest ?b ?j] =>
        destruct (IH rest b j ltac:(lia)) as [T O] end.
      split; [intros [[? _]|?]; [congruence | auto] | intros N; apply O; tauto]. }
    fold (is_high_surrogate c).
    destruct (is_high_surrogate c) eqn:Hh.
    + destruct rest as [|c2 rest'].
      { split; [reflexivity | intros N; exfalso; apply N; left; auto]. }
      replace ((c2 <? 0xdc00) || (0xdfff <? c2)) with (negb (is_low_surrogate c2))
        by (unfold is_low_surrogate; lia).
      destruct (is_low_surrogate c2) eqn:Hl; simpl negb; cbv iota.
      * simpl in Hlen.
        match goal with |- context [encodeUtf8_loop rest' ?b ?j] =>
          destruct (IH rest' b j ltac:(lia)) as [T O] end.
        pose proof (low_not_high _ Hl) as Hl'.
        split.
        -- intros [[_ ?]|U]; [congruence|].
           apply T. apply unpaired_high_cons in U. destruct U as [[? _]|?]; [congruence|assumption].
        -- intros N. apply O. intros U. apply N. right.
           apply unpaired_high_cons. right. assumption.
      * split; [reflexivity | intros N; exfalso; apply N; left; auto].
    + match goal with |- context [encodeUtf8_loop rest ?b ?j] =>
        destruct (IH rest b j ltac:(lia)) as [T O] end.
      split; [intros [[? _]|?]; [congruence | auto] | intros N; apply O; tauto].
Qed.

(** C5 (as stated, refuted): the string made of the single low surrogate
    U+DC00 has an unpaired surrogate, and [encodeUtf8] returns the three
    bytes ED B0 80 for it instead of failing. *)
Lemma encodeUtf8_lone_low_surrogate :
  unpaired_surrogate [0xdc00] /\ encodeUtf8 [0xdc00] = Ok [0xed; 0xb0; 0x80].
Proof.
  split; [|reflexivity].
  right. exists O, 0xdc00. repeat split.
Qed.

(** C5 (amended): [encodeUtf8] fails with an EncodingError on every string
    in which some high surrogate 0xD800-0xDBFF is not immediately followed
    by a low surrogate 0xDC00-0xDFFF, and on no other string: a low
    surrogate that follows no high surrogate is transcoded like any other
    code unit. *)
Theorem encodeUtf8_fails_iff_unpaired_high (s : jsstring) :
  (unpaired_high s -> encodeUtf8 s = Throw EncodingError) /\
  (~ unpaired_high s -> exists bytes, encodeUtf8 s = Ok bytes).
Proof.
  unfold encodeUtf8.
  match goal with |- context [encodeUtf8_loop s ?b ?j] =>
    destruct (encodeUtf8_loop_throws (length s) s b j (le_n _)) as [T O] end.
  split.
  - intros U. rewrite (T U). reflexivity.
  - intros N. destruct (O N) as [[bytes i] ->]. simpl. eauto.
Qed.

Lemma encodeUtf8_fails_iff_unpaired_high_witness :
  unpaired_high [0x61; 0xd83d] /\ encodeUtf8 [0x61; 0xd83d] = Throw EncodingError.
Proof.
  assert (unpaired_high [0x61; 0xd83d]) as U by (exists 1%nat, 0xd83d; repeat split).
  split; [exact U|].
  exact (proj1 (encodeUtf8_fails_iff_unpaired_high [0x61; 0xd83d]) U).
Defined.

Lemma encodeUtf8_loop_returns (n : nat) :
  forall (s : jsstring) (bytes : list Z) (i : nat),
    (length s <= n)%nat -> returns (encodeUtf8_loop s bytes i) = true.
Proof.
  induction n as [|n IH]; intros s bytes i Hlen.
  - destruct s; [reflexivity | simpl in Hlen; lia].
  - destruct s as [|c rest]; [reflexivity|]. simpl in Hlen.
    cbn [encodeUtf8_loop].
    destruct (c <? 128); [apply IH; lia|].
    destruct (c <? 2048); [apply IH; lia|].
    destruct ((0xd7ff <? c) && (c <? 0xdc00)); [|apply IH; lia].
    destruct rest as [|c2 rest']; [reflexivity|]. simpl in Hlen.
    destruct ((c2 <? 0xdc00) || (0xdfff <? c2)); [reflexivity | apply IH; lia].
Qed.

Lemma encodeUtf8_returns (s : jsstring) : returns (encodeUtf8 s) = true.
Proof.
  unfold encodeUtf8. apply returns_bind; [|intros [bytes i]; reflexivity].
  apply (encodeUtf8_loop_returns (length s)). lia.
Qed.

(** ** Growable buffer: what the appenders write *)

Definition is_byte (x : Z) : Prop := 0 <= x < 256.

(** The invariant of the pair ([array], [length]) inside [serialize]. *)
Record buffer_ok (b : buffer) : Prop := {
  ok_used : (used b <= length (array b))%nat;
  ok_capacity : (0 < length (array b))%nat;
  ok_bytes : Forall is_byte (array b)
}.

Lemma wrap_is_byte (x : Z) : is_byte (x mod 256).
Proof. unfold is_byte. apply Z.mod_pos_bound. lia. Qed.

Lemma wrap_bytes (l : list Z) : Forall is_byte l -> map (fun b => b mod 256) l = l.
Proof.
  induction 1 as [|x l Hx _ IH]; simpl; [reflexivity|].
  rewrite IH. f_equal. apply Z.mod_small. exact Hx.
Qed.

Lemma grow_spec (needed fuel newLength : nat) :
  (0 < newLength)%nat -> (needed <= newLength + fuel)%nat ->
  (needed <= grow fuel newLength needed)%nat /\ (newLength <= grow fuel newLength needed)%nat.
Proof.
  revert newLength. induction fuel as [|fuel IH]; intros newLength Hpos Hle; simpl.
  - lia.
  - destruct (Nat.ltb_spec newLength needed).
    + destruct (IH (newLength * 2)%nat) as [? ?]; lia.
    + lia.
Qed.

Lemma empty_buffer_ok : buffer_ok empty_buffer.
Proof.
  split.
  - unfold empty_buffer, used, array. rewrite length_replicate. lia.
  - unfold empty_buffer, array. rewrite length_replicate. lia.
  - unfold empty_buffer, array. apply Forall_replicate. unfold is_byte. lia.
Qed.

Lemma reserve_spec (b : buffer) (n : nat) :
  buffer_ok b ->
  buffer_ok (reserve b n) /\ used (reserve b n) = used b /\
  (used b + n <= length (array (reserve b n)))%nat /\
  contents (reserve b n) = contents b.
Proof.
  intros [Hu Hc Hb]. unfold reserve.
  destruct (Nat.ltb_spec (length (array b)) (used b + n)) as [Hlt|Hge].
  - destruct (grow_spec (used b + n) (used b + n) (length (array b) * 2)) as [G1 G2]; [lia..|].
    set (N := grow _ _ _) in *.
    assert (array_set (replicate N 0) (array b) 0 = array b ++ replicate (N - length (array b)) 0) as E.
    { unfold array_set. simpl. rewrite wrap_bytes by assumption. f_equal.
      rewrite drop_replicate. reflexivity. }
    rewrite E. unfold contents. simpl.
    split; [split; simpl | split; [reflexivity | split]].
    + rewrite length_app. lia.
    + rewrite length_app. lia.
    + apply Forall_app. split; [assumption|]. apply Forall_replicate. unfold is_byte. lia.
    + rewrite length_app, length_replicate. lia.
    + rewrite take_app_le by lia. reflexivity.
  - split; [split; assumption | split; [reflexivity | split; [lia | reflexivity]]].
Qed.

(** What a buffer operation appends: it keeps the invariant and extends the
    valid prefix by [out]. *)
Definition writes (f : buffer -> buffer) (out : list Z) : Prop :=
  forall b, buffer_ok b -> buffer_ok (f b) /\ contents (f b) = contents b ++ out.

Lemma appendBytes_writes (bytes : list Z) :
  writes (appendBytes bytes) (map (fun b => b mod 256) bytes).
Proof.
  intros b Hb. unfold appendBytes.
  destruct (reserve_spec b (length bytes) Hb) as ([Hu Hc Hy] & Eu & Hfit & Ec).
  set (r := reserve b (length bytes)) in *.
  unfold contents in *. simpl. unfold array_set.
  split.
  - split; simpl.
    + rewrite !length_app, length_take, length_map, length_drop. lia.
    + rewrite !length_app, length_take, length_map, length_drop. lia.
    + apply Forall_app. split; [apply Forall_take; assumption|].
      apply Forall_app. split; [|apply Forall_drop; assumption].
      clear. induction bytes; simpl; constructor; [apply wrap_is_byte | assumption].
  - rewrite <- Ec.
    assert (length (take (used r) (array r)) = used r) as L by (rewrite length_take; lia).
    rewrite app_assoc.
    rewrite take_app_le by (rewrite length_app, length_map; lia).
    rewrite take_ge by (rewrite length_app, length_map; lia).
    reflexivity.
Qed.

Lemma appendByte_writes (byte : Z) : writes (appendByte byte) [byte mod 256].
Proof.
  intros b Hb. unfold appendByte.
  destruct (reserve_spec b 1 Hb) as ([Hu Hc Hy] & Eu & Hfit & Ec).
  set (r := reserve b 1) in *.
  unfold contents, store in *. simpl.
  split.
  - split; simpl.
    + rewrite length_insert. lia.
    + rewrite length_insert. lia.
    + apply Forall_insert; [assumption | apply wrap_is_byte].
  - rewrite <- Ec. replace (used r + 1)%nat with (S (used r)) by lia.
    erewrite take_S_r by (apply list_lookup_insert_eq; lia).
    rewrite take_insert_ge by lia. reflexivity.
Qed.

Lemma writes_compose (f g : buffer -> buffer) (o1 o2 : list Z) :
  writes f o1 -> writes g o2 -> writes (fun b => g (f b)) (o1 ++ o2).
Proof.
  intros Hf Hg b Hb. destruct (Hf b Hb) as [Hb1 E1]. destruct (Hg (f b) Hb1) as [Hb2 E2].
  split; [assumption|]. rewrite E2, E1, app_assoc. reflexivity.
Qed.

(** What an appending computation does from any buffer: [Ok out] when it
    returns after extending the valid prefix by [out]. *)
Definition emits (m : buffer -> outcome buffer) (r : outcome (list Z)) : Prop :=
  forall b, buffer_ok b ->
    match r with
    | Ok out => exists b', m b = Ok b' /\ buffer_ok b' /\ contents b' = contents b ++ out
    | Throw e => m b = Throw e
    | OutOfFuel => m b = OutOfFuel
    | Unmodelled => m b = Unmodelled
    end.

(** The bytes a computation appends to the fresh buffer of [serialize]. *)
Definition run (m : buffer -> outcome buffer) : outcome (list Z) :=
  b ← m empty_buffer; Ok (contents b).

(** Sequencing of two outputs. *)
Definition followed_by (r1 r2 : outcome (list Z)) : outcome (list Z) :=
  o1 ← r1; o2 ← r2; Ok (o1 ++ o2).

Lemma contents_empty_buffer : contents empty_buffer = [].
Proof. reflexivity. Qed.

Lemma emits_run (m : buffer -> outcome buffer) (r : outcome (list Z)) :
  emits m r -> run m = r.
Proof.
  intros H. specialize (H empty_buffer empty_buffer_ok). unfold run.
  destruct r as [out|e| |].
  - destruct H as (b' & -> & _ & E). simpl. rewrite E, contents_empty_buffer. reflexivity.
  - rewrite H. reflexivity.
  - rewrite H. reflexivity.
  - rewrite H. reflexivity.
Qed.

Lemma emits_ext (m m' : buffer -> outcome buffer) (r : outcome (list Z)) :
  (forall b, m b = m' b) -> emits m r -> emits m' r.
Proof.
  intros E H b Hb. specialize (H b Hb). rewrite <- E. exact H.
Qed.

Lemma emits_pure (f : buffer -> buffer) (out : list Z) :
  writes f out -> emits (fun b => Ok (f b)) (Ok out).
Proof.
  intros W b Hb. destruct (W b Hb) as [? ?]. eauto.
Qed.

Lemma emits_bind (m1 m2 : buffer -> outcome buffer) (r1 r2 : outcome (list Z)) :
  emits m1 r1 -> emits m2 r2 ->
  emits (fun b => b' ← m1 b; m2 b') (followed_by r1 r2).
Proof.
  intros H1 H2 b Hb. specialize (H1 b Hb).
  destruct r1 as [o1|e| |]; simpl.
  - destruct H1 as (b1 & -> & Hb1 & E1). simpl.
    specialize (H2 b1 Hb1).
    destruct r2 as [o2|e| |]; simpl.
    + destruct H2 as (b2 & -> & Hb2 & E2). exists b2. split; [reflexivity|].
      split; [assumption|]. rewrite E2, E1, app_assoc. reflexivity.
    + assumption.
    + assumption.
    + assumption.
  - rewrite H1. reflexivity.
  - rewrite H1. reflexivity.
  - rewrite H1. reflexivity.
Qed.

Lemma emits_after (f : buffer -> buffer) (m : buffer -> outcome buffer)
      (o1 : list Z) (r : outcome (list Z)) :
  writes f o1 -> emits m r -> emits (fun b => m (f b)) (followed_by (Ok o1) r).
Proof.
  intros W H.
  apply (emits_ext (fun b => b' ← (fun b => Ok (f b)) b; m b')); [reflexivity|].
  apply emits_bind; [apply emits_pure; assumption | assumption].
Qed.

Lemma for_each_emits {A} (body : A -> buffer -> outcome buffer) (l : list A) :
  (forall x, In x l -> exists r, emits (body x) r) ->
  exists r, emits (for_each body l) r.
Proof.
  induction l as [|x l IH]; intros H.
  - exists (Ok []). intros b Hb. exists b. simpl. rewrite app_nil_r. auto.
  - destruct (H x (or_introl eq_refl)) as [rx Hx].
    destruct IH as [rl Hl]; [intros y Hy; apply H; right; exact Hy|].
    exists (followed_by rx rl). simpl.
    apply (emits_bind _ _ _ _ Hx Hl).
Qed.

(** The outputs of a loop that returns: one per element, in order. *)
Lemma for_each_outputs {A} (body : A -> buffer -> outcome buffer) (l : list A) :
  (forall x, In x l -> exists r, emits (body x) r) ->
  forall out, emits (for_each body l) (Ok out) ->
  exists outs, Forall2 (fun x o => emits (body x) (Ok o)) l outs /\ out = concat outs.
Proof.
  induction l as [|x l IH]; intros H out E.
  - exists []. split; [constructor|].
    apply emits_run in E. unfold run in E. simpl in E. injection E as <-. reflexivity.
  - destruct (H x (or_introl eq_refl)) as [rx Hx].
    destruct (for_each_emits body l) as [rl Hl]; [intros y Hy; apply H; right; exact Hy|].
    pose proof (emits_bind _ _ _ _ Hx Hl) as Hxl.
    apply emits_run in E. apply emits_run in Hxl. simpl in E.
    change (run (for_each body (x :: l))) with (run (fun b => b' ← body x b; for_each body l b')) in E.
    rewrite Hxl in E.
    destruct rx as [ox|e| |]; simpl in E; try discriminate.
    destruct rl as [ol|e| |]; simpl in E; try discriminate.
    injection E as <-.
    destruct (IH (fun y Hy => H y (or_intror Hy)) ol Hl) as (outs & F & ->).
    exists (ox :: outs). split; [constructor; assumption | reflexivity].
Qed.

(** *** The scalar appenders write a fixed byte string *)

Ltac writes_step :=
  match goal with
  | |- writes (appendBytes _) _ => apply appendBytes_writes
  | |- writes (appendByte _) _ => apply appendByte_writes
  | |- writes (fun b => appendBytes _ _) _ => eapply (writes_compose _ (appendBytes _))
  | |- writes (fun b => appendByte _ _) _ => eapply (writes_compose _ (appendByte _))
  | |- writes (fun b => b) _ => intros ? ?; split; [assumption | symmetry; apply app_nil_r]
  end.

Lemma appendNull_writes : writes appendNull [0xc0].
Proof. apply (appendByte_writes 0xc0). Qed.

Lemma appendBoolean_writes (data : bool) :
  writes (appendBoolean data) [if data then 0xc3 else 0xc2].
Proof.
  unfold appendBoolean.
  destruct data; [apply (appendByte_writes 0xc3) | apply (appendByte_writes 0xc2)].
Qed.

Lemma appendInt64_writes (value : number) : exists out, writes (appendInt64 value) out.
Proof.
  unfold appendInt64. destruct (geb value (lit 0)); eexists; apply appendBytes_writes.
Qed.

Lemma appendNumber_writes (data : number) (th : type_hint) :
  exists out, writes (appendNumber data th) out.
Proof.
  unfold appendNumber.
  repeat match goal with
         | |- context [if ?c then _ else _] => destruct c
         end;
    try (eexists; first [apply appendBytes_writes | apply appendByte_writes]).
  - destruct (appendInt64_writes data) as [o Ho]. eexists.
    apply (writes_compose (appendByte 0xd3) (appendInt64 data)); [apply appendByte_writes | exact Ho].
  - eexists.
    apply (writes_compose (appendByte 0xcb) (appendBytes _)); [apply appendByte_writes | apply appendBytes_writes].
Qed.

Lemma appendDate_writes (data : number) : exists out, writes (appendDate data) out.
Proof.
  unfold appendDate.
  repeat match goal with
         | |- context [if ?c then _ else _] => destruct c
         end;
    try (eexists; apply appendBytes_writes).
  destruct (appendInt64_writes (div (getTime data) (lit 1000))) as [o Ho]. eexists.
  apply (writes_compose (appendBytes _) (appendInt64 _)); [apply appendBytes_writes | exact Ho].
Qed.

Lemma appendBinArray_writes (data : list Z) : exists out, writes (appendBinArray data) out.
Proof.
  unfold appendBinArray.
  repeat match goal with
         | |- context [if ?c then _ else _] => destruct c
         end;
    eexists;
    apply (writes_compose (appendBytes _) (appendBytes data)); apply appendBytes_writes.
Qed.

Lemma appendString_emits (data : jsstring) : exists r, emits (appendString data) r.
Proof.
  unfold appendString. destruct (encodeUtf8 data) as [bytes|e| |]; simpl.
  - repeat match goal with
         | |- context [if ?c then _ else _] => destruct c
         end;
      eexists; apply emits_pure;
      first [ apply (writes_compose (appendByte _) (appendBytes bytes));
              [apply appendByte_writes | apply appendBytes_writes]
            | apply (writes_compose (appendBytes _) (appendBytes bytes)); apply appendBytes_writes ].
  - exists (Throw e). intros b _. reflexivity.
  - exists OutOfFuel. intros b _. reflexivity.
  - exists Unmodelled. intros b _. reflexivity.
Qed.

(** The header of a map of [n] entries in the wire format: fixmap, map16
    or map32 with a big-endian count. *)
Definition map_header (n : Z) : list Z :=
  if n <=? 0xf then [0x80 + n]
  else if n <=? 0xffff then 0xde :: be_bytes 2 n
  else 0xdf :: be_bytes 4 n.

(** The entry count a map header declares. *)
Definition declared_map_length (bytes : list Z) : option Z :=
  match bytes with
  | [] => None
  | tag :: rest =>
      if (0x80 <=? tag) && (tag <=? 0x8f) then Some (tag - 0x80)
      else if tag =? 0xde then Some (of_be_bytes (take 2 rest))
      else if tag =? 0xdf then Some (of_be_bytes (take 4 rest))
      else None
  end.

(** An entry of an object that [appendObject] writes. *)
Definition present (entry : jsstring * value) : bool := negb (is_undefined (snd entry)).

Lemma of_be_bytes_snoc (l : list Z) (x : Z) :
  of_be_bytes (l ++ [x]) = of_be_bytes l * 256 + x.
Proof. unfold of_be_bytes. rewrite fold_left_app. reflexivity. Qed.

Lemma of_be_bytes_be_bytes (k : nat) :
  forall n, of_be_bytes (be_bytes k n) = n mod 256 ^ Z.of_nat k.
Proof.
  induction k as [|k IH]; intros n.
  - simpl. rewrite Z.mod_1_r. reflexivity.
  - cbn [be_bytes]. rewrite of_be_bytes_snoc, IH.
    rewrite Nat2Z.inj_succ, Z.pow_succ_r by lia.
    rewrite Z.shiftr_div_pow2 by lia. change (2 ^ 8) with 256.
    rewrite Z.rem_mul_r by lia. lia.
Qed.

Lemma length_be_bytes (k : nat) : forall n, length (be_bytes k n) = k.
Proof.
  induction k as [|k IH]; intros n; [reflexivity|].
  cbn [be_bytes]. rewrite length_app, IH. simpl. lia.
Qed.

Lemma declared_map_length_header (n : Z) (rest : list Z) :
  0 <= n < 2 ^ 32 -> declared_map_length (map_header n ++ rest) = Some n.
Proof.
  intros Hn. unfold map_header.
  destruct (Z.leb_spec n 0xf).
  - simpl. replace ((128 <=? 128 + n) && (128 + n <=? 143)) with true by lia.
    f_equal. lia.
  - destruct (Z.leb_spec n 0xffff).
    + cbn [app declared_map_length]. simpl ((_ <=? _) && _). cbv iota.
      change (0xde =? 0xde) with true. cbv iota.
      pose proof (length_be_bytes 2 n).
      rewrite take_app_length' by assumption.
      rewrite of_be_bytes_be_bytes. f_equal. apply Z.mod_small. simpl. lia.
    + cbn [app declared_map_length]. simpl ((_ <=? _) && _). cbv iota.
      change (0xdf =? 0xde) with false. change (0xdf =? 0xdf) with true. cbv iota.
      pose proof (length_be_bytes 4 n).
      rewrite take_app_length' by assumption.
      rewrite of_be_bytes_be_bytes. f_equal. apply Z.mod_small. simpl. lia.
Qed.

Section SerializeFacts.

Variable call : nat -> value -> value.
Variable opts : options.

Lemma appendArray_emits (nested : value -> buffer -> outcome buffer) (data : list value) :
  (forall x, In x data -> exists r, emits (nested x) r) ->
  exists r, emits (appendArray nested data) r.
Proof.
  intros H. destruct (for_each_emits nested data H) as [r Hr].
  unfold appendArray.
  repeat match goal with
         | |- context [if ?c then _ else _] => destruct c
         end;
    eexists;
    first [ apply (emits_after (appendByte _) _ _ _ (appendByte_writes _) Hr)
          | apply (emits_after (appendBytes _) _ _ _ (appendBytes_writes _) Hr) ].
Qed.

Definition entry_body (nested : value -> buffer -> outcome buffer)
  : jsstring * value -> buffer -> outcome buffer :=
  fun '(key, v) b =>
    if is_undefined v then Ok b else b ← nested (VString key) b; nested v b.

Lemma entry_body_emits (nested : value -> buffer -> outcome buffer) (entry : jsstring * value) :
  (forall x, exists r, emits (nested x) r) ->
  exists r, emits (entry_body nested entry) r.
Proof.
  intros H. destruct entry as [key v]. unfold entry_body.
  destruct (is_undefined v).
  - exists (Ok []). intros b Hb. exists b. rewrite app_nil_r. auto.
  - destruct (H (VString key)) as [rk Hk]. destruct (H v) as [rv Hv].
    exists (followed_by rk rv). apply (emits_bind _ _ _ _ Hk Hv).
Qed.

(** The bytes [appendObject] writes for a count: the code's header. *)
Definition object_header (length : Z) (b : buffer) : buffer :=
  if length <=? 0xf then appendByte (0x80 + length) b
  else if length <=? 0xffff then appendBytes [0xde; ushrZ length 8; length] b
  else appendBytes [0xdf; ushrZ length 24; ushrZ length 16; ushrZ length 8; length] b.

Definition count_present (data : list (jsstring * value)) : Z :=
  fold_left (fun length '(key, v) => if is_undefined v then length else length + 1) data 0.

Lemma appendObject_unfold (nested : value -> buffer -> outcome buffer)
      (data : list (jsstring * value)) (b : buffer) :
  appendObject nested data b =
  for_each (entry_body nested) data (object_header (count_present data) b).
Proof. reflexivity. Qed.

Lemma count_present_from (data : list (jsstring * value)) (n : Z) :
  fold_left (fun length '(key, v) => if is_undefined v then length else length + 1) data n
  = n + Z.of_nat (length (List.filter present data)).
Proof.
  revert n. induction data as [|[k v] data IH]; intros n; simpl.
  - lia.
  - rewrite IH. unfold present at 2. simpl.
    destruct (is_undefined v); simpl; lia.
Qed.

Lemma count_present_filter (data : list (jsstring * value)) :
  count_present data = Z.of_nat (length (List.filter present data)).
Proof. unfold count_present. rewrite count_present_from. lia. Qed.

Lemma filter_present_idemp (data : list (jsstring * value)) :
  List.filter present (List.filter present data) = List.filter present data.
Proof.
  induction data as [|e data IH]; simpl; [reflexivity|].
  destruct (present e) eqn:E; simpl; [rewrite E, IH|]; auto.
Qed.

Lemma for_each_entry_filter (nested : value -> buffer -> outcome buffer)
      (data : list (jsstring * value)) :
  forall b, for_each (entry_body nested) data b
            = for_each (entry_body nested) (List.filter present data) b.
Proof.
  induction data as [|[k v] data IH]; intros b; [reflexivity|].
  simpl. unfold present at 1. simpl.
  destruct (is_undefined v) eqn:E; simpl.
  - apply IH.
  - rewrite E. destruct (nested (VString k) b) as [b1| | |]; simpl; try reflexivity.
    destruct (nested v b1) as [b2| | |]; simpl; try reflexivity. apply IH.
Qed.

Lemma appendObject_filter (nested : value -> buffer -> outcome buffer)
      (data : list (jsstring * value)) (b : buffer) :
  appendObject nested data b = appendObject nested (List.filter present data) b.
Proof.
  rewrite !appendObject_unfold, !count_present_filter, filter_present_idemp.
  apply for_each_entry_filter.
Qed.

(** A byte of [n >>> k] is a byte of [n]. *)
Lemma ushrZ_byte (n k : Z) :
  0 <= k <= 24 -> ushrZ n k mod 256 = Z.shiftr n k mod 256.
Proof.
  intros Hk. unfold ushrZ, uint32.
  rewrite !Z.shiftr_div_pow2 by lia.
  apply Z.bits_inj'. intros i Hi. change 256 with (2 ^ 8).
  destruct (Z.ltb_spec i 8).
  - rewrite !Z.mod_pow2_bits_low, !Z.div_pow2_bits by lia.
    rewrite Z.mod_pow2_bits_low by lia. reflexivity.
  - rewrite !Z.mod_pow2_bits_high by lia. reflexivity.
Qed.

Lemma object_header_writes (n : Z) :
  0 <= n -> writes (object_header n) (map_header n).
Proof.
  intros Hn. unfold object_header, map_header.
  destruct (Z.leb_spec n 0xf).
  - replace [0x80 + n] with [(0x80 + n) mod 256] by (f_equal; apply Z.mod_small; lia).
    apply appendByte_writes.
  - destruct (Z.leb_spec n 0xffff).
    + replace (0xde :: be_bytes 2 n) with (map (fun b => b mod 256) [0xde; ushrZ n 8; n]).
      { apply appendBytes_writes. }
      simpl. rewrite ushrZ_byte by lia. reflexivity.
    + replace (0xdf :: be_bytes 4 n)
        with (map (fun b => b mod 256) [0xdf; ushrZ n 24; ushrZ n 16; ushrZ n 8; n]).
      { apply appendBytes_writes. }
      simpl. rewrite !ushrZ_byte by lia. rewrite !Z.shiftr_shiftr by lia. reflexivity.
Qed.

Lemma appendObject_emits (nested : value -> buffer -> outcome buffer)
      (data : list (jsstring * value)) :
  (forall x, exists r, emits (nested x) r) ->
  exists r, emits (appendObject nested data) r.
Proof.
  intros H.
  destruct (for_each_emits (entry_body nested) data) as [r Hr].
  { intros x _. apply entry_body_emits. assumption. }
  eexists.
  apply (emits_ext (fun b => for_each (entry_body nested) data (object_header (count_present data) b))).
  { intros b. symmetry. apply appendObject_unfold. }
  apply emits_after; [|exact Hr].
  apply object_header_writes. rewrite count_present_filter. lia.
Qed.

(** Every call of [append] appends a byte string that does not depend on
    the buffer it starts from, or throws, or diverges. *)
Lemma append_emits (fuel : nat) :
  forall (data : value) (isReplacement : bool) (th : type_hint),
    exists r, emits (append call opts fuel data isReplacement th) r.
Proof.
  induction fuel as [|fuel IH]; intros data isReplacement th.
  - exists OutOfFuel. intros b _. reflexivity.
  - assert (forall d, exists r, emits (append call opts fuel d false hint_none) r) as N
      by (intros d; apply IH).
    destruct data.
    all: try match goal with
      | |- context [VArray ?l] =>
          destruct (appendArray_emits (fun d => append call opts fuel d false hint_none) l
                      (fun x _ => N x)) as [r Hr];
          exists r; intros buf Hbuf; exact (Hr buf Hbuf)
      | |- context [VTypedArray ?l] =>
          destruct (appendArray_emits (fun d => append call opts fuel d false hint_none)
                      (map VNumber l) (fun x _ => N x)) as [r Hr];
          exists r; intros buf Hbuf; exact (Hr buf Hbuf)
      | |- context [VObject ?l] =>
          destruct (appendObject_emits (fun d => append call opts fuel d false hint_none) l N)
            as [r Hr];
          exists r; intros buf Hbuf; exact (Hr buf Hbuf)
      | |- context [VString ?s] =>
          destruct (appendString_emits s) as [r Hr];
          exists r; intros buf Hbuf; exact (Hr buf Hbuf)
      | |- context [VNumber ?x] =>
          destruct (appendNumber_writes x th) as [o Ho];
          exists (Ok o); intros buf Hbuf; exact (emits_pure _ _ Ho buf Hbuf)
      | |- context [VDate ?t] =>
          destruct (appendDate_writes t) as [o Ho];
          exists (Ok o); intros buf Hbuf; exact (emits_pure _ _ Ho buf Hbuf)
      | |- context [VUint8Array _ ?l] =>
          destruct (appendBinArray_writes l) as [o Ho];
          exists (Ok o); intros buf Hbuf; exact (emits_pure _ _ Ho buf Hbuf)
      | |- context [VBoolean ?x] =>
          exists (Ok [if x then 0xc3 else 0xc2]); intros buf Hbuf;
          exact (emits_pure _ _ (appendBoolean_writes x) buf Hbuf)
      | |- context [VUndefined] =>
          exists (Ok [0xc0]); intros buf Hbuf; exact (emits_pure _ _ appendNull_writes buf Hbuf)
      | |- context [VNull] =>
          exists (Ok [0xc0]); intros buf Hbuf; exact (emits_pure _ _ appendNull_writes buf Hbuf)
      end.
    all: cbn [append];
      destruct (negb isReplacement && ToBoolean (invalidTypeReplacement opts));
      [ destruct (invalidTypeReplacement opts); apply IH
      | exists (Throw UnsupportedType); intros buf _; reflexivity ].
Qed.

End SerializeFacts.

(** [options.invalidTypeReplacement] was given a value. *)
Definition configured (opts : options) : Prop := invalidTypeReplacement opts <> VUndefined.

(** The value [append] dispatches on in place of an unsupported [data]. *)
Definition substitute (call : nat -> value -> value) (opts : options) (data : value) : value :=
  match invalidTypeReplacement opts with
  | VFunction f => call f data
  | replacement => replacement
  end.

Section MoreSerializeFacts.

Variable call : nat -> value -> value.
Variable opts : options.

Lemma append_unsupported (fuel : nat) (data : value) (isReplacement : bool)
      (th : type_hint) (b : buffer) :
  unsupported data = true ->
  append call opts (S fuel) data isReplacement th b =
    if negb isReplacement && ToBoolean (invalidTypeReplacement opts)
    then append call opts fuel (substitute call opts data) true th b
    else Throw UnsupportedType.
Proof.
  unfold substitute.
  destruct data; try discriminate; intros _; cbn [append];
    destruct (negb isReplacement && ToBoolean (invalidTypeReplacement opts)); try reflexivity;
    destruct (invalidTypeReplacement opts); reflexivity.
Qed.

Lemma for_each_mono {A} (body body' : A -> buffer -> outcome buffer) (l : list A) :
  (forall x b, returns (body x b) = true -> body' x b = body x b) ->
  forall b, returns (for_each body l b) = true -> for_each body' l b = for_each body l b.
Proof.
  intros H. induction l as [|x l IH]; intros b R; [reflexivity|].
  simpl in *. destruct (body x b) as [b1|e| |] eqn:E; simpl in *.
  - rewrite H by (rewrite E; reflexivity). rewrite E. simpl. apply IH. exact R.
  - rewrite H by (rewrite E; reflexivity). rewrite E. reflexivity.
  - discriminate.
  - rewrite H by (rewrite E; reflexivity). rewrite E. reflexivity.
Qed.

(** More fuel does not change what a call of [append] that returns does. *)
Lemma append_fuel_mono (fuel : nat) :
  forall data isReplacement th b,
    returns (append call opts fuel data isReplacement th b) = true ->
    append call opts (S fuel) data isReplacement th b
    = append call opts fuel data isReplacement th b.
Proof.
  induction fuel as [|fuel IH]; intros data isReplacement th b R; [discriminate|].
  assert (forall x b, returns (append call opts fuel x false hint_none b) = true ->
                      append call opts (S fuel) x false hint_none b
                      = append call opts fuel x false hint_none b) as N
      by (intros; apply IH; assumption).
  destruct data; try reflexivity.
  4-6: match goal with
       | |- append _ _ _ ?d _ _ _ = _ =>
           rewrite (append_unsupported (S fuel) d) by reflexivity;
           rewrite (append_unsupported fuel d) in R |- * by reflexivity
       end;
    (destruct (negb isReplacement && ToBoolean (invalidTypeReplacement opts)); [|reflexivity]);
    apply IH; exact R.
  - (* array *)
    change (appendArray (fun d => append call opts (S fuel) d false hint_none) l b
            = appendArray (fun d => append call opts fuel d false hint_none) l b).
    change (returns (appendArray (fun d => append call opts fuel d false hint_none) l b) = true) in R.
    unfold appendArray in *. apply for_each_mono; assumption.
  - (* typed array *)
    change (appendArray (fun d => append call opts (S fuel) d false hint_none) (map VNumber l) b
            = appendArray (fun d => append call opts fuel d false hint_none) (map VNumber l) b).
    change (returns (appendArray (fun d => append call opts fuel d false hint_none)
                                 (map VNumber l) b) = true) in R.
    unfold appendArray in *. apply for_each_mono; assumption.
  - (* object *)
    change (appendObject (fun d => append call opts (S fuel) d false hint_none) l b
            = appendObject (fun d => append call opts fuel d false hint_none) l b).
    change (returns (appendObject (fun d => append call opts fuel d false hint_none) l b) = true) in R.
    rewrite !appendObject_unfold in *.
    apply for_each_mono; [|assumption].
    intros [k v] b0. unfold entry_body. destruct (is_undefined v); [reflexivity|].
    intros R0.
    destruct (append call opts fuel (VString k) false hint_none b0) as [b1|e| |] eqn:E;
      simpl in R0; try discriminate.
    + rewrite N by (rewrite E; reflexivity). rewrite E. simpl. apply N. exact R0.
    + rewrite N by (rewrite E; reflexivity). rewrite E. reflexivity.
    + rewrite N by (rewrite E; reflexivity). rewrite E. reflexivity.
Qed.

Lemma serialize_fuel_mono (fuel : nat) (data : value) :
  returns (serialize call opts fuel data) = true ->
  serialize call opts (S fuel) data = serialize call opts fuel data.
Proof.
  unfold serialize. destruct (multiple opts && negb (isArray data)); [reflexivity|].
  intros R.
  assert (forall m m' : outcome buffer,
             (returns m = true -> m' = m) ->
             returns (b ← m; Ok (contents b)) = true ->
             (b ← m'; Ok (contents b)) = (b ← m; Ok (contents b))) as K.
  { intros m m' H R'. destruct m; simpl in R'; try discriminate; rewrite H; reflexivity. }
  destruct (multiple opts); [destruct data|]; try (apply K; [apply append_fuel_mono | exact R]).
  apply K; [|exact R]. apply for_each_mono. intros x b. apply append_fuel_mono.
Qed.

(** At the top of a supported value the flag [isReplacement] is not read. *)
Lemma append_supported_flag (fuel : nat) (data : value) (th : type_hint) (b : buffer) :
  unsupported data = false ->
  append call opts fuel data true th b = append call opts fuel data false th b.
Proof. destruct fuel; [reflexivity|]. destruct data; intros H; try discriminate; reflexivity. Qed.

(** Wherever [append] meets a value of an unsupported kind that is not
    itself a replacement (at the top, as an element, as a property), it
    dispatches once on the substitute, which is not replaced in turn. *)
Lemma append_replaces_once (fuel : nat) (data : value) (th : type_hint) (b : buffer) :
  unsupported data = true ->
  append call opts (S (S fuel)) data false th b =
    if ToBoolean (invalidTypeReplacement opts) then
      if unsupported (substitute call opts data) then Throw UnsupportedType
      else append call opts (S fuel) (substitute call opts data) false th b
    else Throw UnsupportedType.
Proof.
  intros U. rewrite append_unsupported by exact U. cbn [negb andb].
  destruct (ToBoolean (invalidTypeReplacement opts)); [|reflexivity].
  destruct (unsupported (substitute call opts data)) eqn:E.
  - rewrite append_unsupported by exact E. reflexivity.
  - apply append_supported_flag. exact E.
Qed.

Lemma serialize_single (fuel : nat) (data : value) :
  multiple opts = false ->
  serialize call opts fuel data = run (append call opts fuel data false (typeHint opts)).
Proof.
  intros M. unfold serialize, run. rewrite M. simpl. reflexivity.
Qed.

End MoreSerializeFacts.

(** C6 (the code departs from it): a configured replacement that is falsy
    is never used.  With the replacement [false] configured, a symbol is
    not replaced: [serialize] throws UnsupportedType where the encoding of
    [false] is due.  The same [false] is used, and written, when it is the
    result of a configured function. *)
Lemma falsy_replacement_is_ignored :
  let opts := Options false hint_none (VBoolean false) in
  let call := fun (_ : nat) (v : value) => v in
  configured opts /\ unsupported VSymbol = true /\
  serialize call opts 2 VSymbol = Throw UnsupportedType /\
  serialize call opts 2 (substitute call opts VSymbol) = Ok [0xc2] /\
  serialize (fun _ _ => VBoolean false) (Options false hint_none (VFunction 0)) 2 VSymbol
  = Ok [0xc2].
Proof.
  repeat split. discriminate.
Qed.

(** What the code does: for an input of an unsupported kind, when the
    configured [invalidTypeReplacement] is truthy, [serialize] dispatches
    once more on the substitute (the configured value, or the result of the
    configured function on the input) and throws UnsupportedType if the
    substitute is itself unsupported; when no replacement is configured, or
    a falsy one (undefined, null, false, 0, NaN, the empty string), it
    throws UnsupportedType. *)
Theorem unsupported_is_replaced_once
    (call : nat -> value -> value) (opts : options) (fuel : nat) (data : value) :
  unsupported data = true ->
  multiple opts = false ->
  if ToBoolean (invalidTypeReplacement opts) then
    serialize call opts (S (S fuel)) data =
      if unsupported (substitute call opts data) then Throw UnsupportedType
      else serialize call opts (S fuel) (substitute call opts data)
  else
    serialize call opts (S fuel) data = Throw UnsupportedType.
Proof.
  intros U M. rewrite !serialize_single by assumption. unfold run.
  destruct (ToBoolean (invalidTypeReplacement opts)) eqn:T.
  - rewrite (append_replaces_once call opts fuel data _ _ U), T.
    destruct (unsupported (substitute call opts data)); reflexivity.
  - rewrite (append_unsupported call opts fuel data _ _ _ U), T. reflexivity.
Qed.

Lemma unsupported_is_replaced_once_witness :
  let opts := Options false hint_none (VFunction 0) in
  let call := fun (_ : nat) (_ : value) => VNull in
  serialize call opts 2 VSymbol = serialize call opts 1 VNull.
Proof.
  intros opts call.
  exact (unsupported_is_replaced_once call opts 0 VSymbol eq_refl eq_refl).
Defined.

(** The bytes a nested [append(data)] writes. *)
Definition encoding (call : nat -> value -> value) (opts : options) (fuel : nat) (data : value)
  : outcome (list Z) :=
  run (append call opts fuel data false hint_none).

(** C7: [serialize] writes an object as if the entries whose value is
    [undefined] were not there; the output is the map header of the number
    of remaining entries followed by, for each of them in order, the
    encoding of its key and of its value; that header declares exactly this
    number (an object has fewer than 2^32 properties). *)
Theorem absent_entries_are_skipped
    (call : nat -> value -> value) (opts : options) (fuel : nat)
    (data : list (jsstring * value)) :
  serialize call opts (S fuel) (VObject data)
  = serialize call opts (S fuel) (VObject (List.filter present data)) /\
  forall bytes, serialize call opts (S fuel) (VObject data) = Ok bytes ->
    let entries := List.filter present data in
    let n := Z.of_nat (length entries) in
    (exists encodings,
        Forall2 (fun entry enc => exists ek ev,
                     encoding call opts fuel (VString (fst entry)) = Ok ek /\
                     encoding call opts fuel (snd entry) = Ok ev /\
                     enc = ek ++ ev) entries encodings /\
        bytes = map_header n ++ concat encodings) /\
    (n < 2 ^ 32 -> declared_map_length bytes = Some n).
Proof.
  set (nested := fun d => append call opts fuel d false hint_none).
  assert (forall th b, append call opts (S fuel) (VObject data) false th b
                       = append call opts (S fuel) (VObject (List.filter present data)) false th b) as F.
  { intros th b. cbn [append]. apply appendObject_filter. }
  split.
  { destruct (multiple opts) eqn:M.
    - unfold serialize. rewrite M. reflexivity.
    - rewrite !serialize_single by assumption. unfold run. rewrite F. reflexivity. }
  intros bytes HS entries n.
  assert (multiple opts = false) as M.
  { unfold serialize in HS. destruct (multiple opts); [discriminate | reflexivity]. }
  rewrite serialize_single in HS by assumption.
  unfold run in HS. rewrite F in HS. fold entries in HS.
  assert (forall x, exists r, emits (nested x) r) as N by (intros x; apply append_emits).
  destruct (for_each_emits (entry_body nested) entries) as [r Hr].
  { intros x _. apply entry_body_emits. exact N. }
  assert (emits (fun b => for_each (entry_body nested) entries (object_header n b))
                (followed_by (Ok (map_header n)) r)) as E.
  { apply emits_after; [apply object_header_writes; lia | exact Hr]. }
  apply emits_run in E. unfold run in E.
  assert (count_present entries = n) as C.
  { unfold entries. rewrite count_present_filter, filter_present_idemp. reflexivity. }
  change (append call opts (S fuel) (VObject entries) false (typeHint opts) empty_buffer)
    with (appendObject nested entries empty_buffer) in HS.
  rewrite appendObject_unfold, C in HS. rewrite HS in E.
  destruct r as [out|e| |]; simpl in E; try discriminate.
  injection E as ->.
  destruct (for_each_outputs (entry_body nested) entries) with (out := out)
    as (outs & FA & ->); [intros x _; apply entry_body_emits; exact N | exact Hr |].
  assert (Forall (fun e => present e = true) entries) as P.
  { apply Forall_forall. intros x Hx. apply list_elem_of_In, filter_In in Hx. tauto. }
  split.
  - exists outs. split; [|reflexivity].
    clear - FA P N. induction FA as [|[k v] o l os H _ IH]; [constructor|].
    inversion P as [|? ? Pk Pl]; subst. constructor; [|apply IH; assumption].
    unfold present in Pk. simpl in Pk. unfold entry_body in H.
    destruct (is_undefined v); [discriminate|].
    destruct (N (VString k)) as [rk Hk]. destruct (N v) as [rv Hv].
    pose proof (emits_run _ _ (emits_bind _ _ _ _ Hk Hv)) as B.
    rewrite (emits_run _ _ H) in B.
    cbn [fst snd].
    assert (encoding call opts fuel (VString k) = rk) as -> by exact (emits_run _ _ Hk).
    assert (encoding call opts fuel v = rv) as -> by exact (emits_run _ _ Hv).
    destruct rk as [ek|e| |]; simpl in B; try discriminate.
    destruct rv as [ev|e| |]; simpl in B; try discriminate.
    injection B as ->. eauto.
  - intros Hn. apply declared_map_length_header. lia.
Qed.

Lemma absent_entries_are_skipped_witness :
  let call := fun (_ : nat) (v : value) => v in
  let data := [(str "a", VUndefined); (str "b", VBoolean true)] in
  serialize call no_options 2 (VObject data) = Ok [0x81; 0xa1; 0x62; 0xc3] /\
  declared_map_length [0x81; 0xa1; 0x62; 0xc3] = Some 1.
Proof.
  intros call data.
  assert (serialize call no_options 2 (VObject data) = Ok [0x81; 0xa1; 0x62; 0xc3]) as S
      by reflexivity.
  split; [exact S|].
  refine (proj2 (proj2 (absent_entries_are_skipped call no_options 1 data) _ S) _).
  reflexivity.
Defined.

(** ** Encoder: fuel *)

(** The nesting depth of a value, counting the elements of a typed array
    and the keys of an object as one level. *)
Fixpoint depth (data : value) : nat :=
  match data with
  | VArray l => S (list_max (map depth l))
  | VTypedArray _ => 1
  | VObject l => S (list_max (map (fun entry => depth (snd entry)) l))
  | _ => 0
  end.

Section SerializeReturns.

Variable call : nat -> value -> value.
Variable opts : options.

Lemma for_each_returns {A} (body : A -> buffer -> outcome buffer) (l : list A) :
  (forall x b, In x l -> returns (body x b) = true) ->
  forall b, returns (for_each body l b) = true.
Proof.
  induction l as [|x l IH]; intros H b; [reflexivity|].
  cbn [for_each]. apply returns_bind.
  - apply H. left. reflexivity.
  - intros b'. apply IH. intros y b'' Hy. apply H. right. exact Hy.
Qed.

Lemma depth_element (x : value) (l : list value) :
  In x l -> (depth x <= list_max (map depth l))%nat.
Proof.
  intros H. pose proof (proj1 (list_max_le (map depth l) _) (le_n _)) as F.
  apply (proj1 (List.Forall_forall _ _) F). apply in_map. exact H.
Qed.

Lemma depth_entry (entry : jsstring * value) (l : list (jsstring * value)) :
  In entry l -> (depth (snd entry) <= list_max (map (fun e => depth (snd e)) l))%nat.
Proof.
  intros H.
  pose proof (proj1 (list_max_le (map (fun e => depth (snd e)) l) _) (le_n _)) as F.
  apply (proj1 (List.Forall_forall _ _) F).
  apply (in_map (fun e => depth (snd e))). exact H.
Qed.

Lemma appendString_returns (s : jsstring) (b : buffer) : returns (appendString s b) = true.
Proof.
  unfold appendString. apply returns_bind; [apply encodeUtf8_returns | reflexivity].
Qed.

(** When no replacement applies, a call of [append] with more fuel than the
    depth of its argument returns or throws. *)
Lemma append_returns (fuel : nat) :
  ToBoolean (invalidTypeReplacement opts) = false ->
  forall data isReplacement th b,
    (depth data < fuel)%nat ->
    returns (append call opts fuel data isReplacement th b) = true.
Proof.
  intros Hr. induction fuel as [|fuel IH]; intros data isReplacement th b D; [lia|].
  destruct data; cbn [append depth] in *; try reflexivity.
  - apply appendString_returns.
  - unfold appendArray. apply for_each_returns. intros x b' Hx. apply IH.
    pose proof (depth_element x l Hx). lia.
  - unfold appendArray. apply for_each_returns. intros x b' Hx. apply IH.
    apply in_map_iff in Hx. destruct Hx as (y & <- & _). simpl. lia.
  - rewrite appendObject_unfold. apply for_each_returns. intros [k v] b' Hx.
    unfold entry_body. destruct (is_undefined v); [reflexivity|].
    pose proof (depth_entry (k, v) l Hx) as Hd. simpl in Hd.
    apply returns_bind; [apply IH; simpl; lia | intros b''; apply IH; lia].
  - rewrite Hr, andb_false_r. reflexivity.
  - rewrite Hr, andb_false_r. reflexivity.
  - rewrite Hr, andb_false_r. reflexivity.
Qed.

(** X17: when no replacement applies, [serialize] returns or throws on
    every value, in either mode, given more fuel than the value is deep. *)
Lemma serialize_returns (fuel : nat) (data : value) :
  ToBoolean (invalidTypeReplacement opts) = false ->
  (depth data < fuel)%nat ->
  returns (serialize call opts fuel data) = true.
Proof.
  intros Hr D. unfold serialize.
  destruct (multiple opts && negb (isArray data)); [reflexivity|].
  apply returns_bind; [|reflexivity].
  destruct (multiple opts); [destruct data|]; try (apply append_returns; assumption).
  apply for_each_returns. intros x b Hx. apply append_returns; [exact Hr|].
  pose proof (depth_element x l Hx). simpl in D. lia.
Qed.

End SerializeReturns.

(** ** Decoder: lengths are not negative *)

(** A number that is NaN or has a clear sign bit. *)
Definition nonneg (x : number) : Prop :=
  match x with
  | S754_zero s | S754_infinity s | S754_finite s _ _ => s = false
  | S754_nan => True
  end.

Lemma binary_round_aux_nonneg (m e : Z) (l : location) :
  nonneg (binary_round_aux prec emax false m e l).
Proof.
  unfold binary_round_aux.
  destruct (shr_fexp prec emax m e l) as [mrs' e'].
  destruct (shr_fexp prec emax _ e' loc_Exact) as [mrs'' e''].
  destruct (shr_m mrs''); simpl; auto.
  destruct (Z.leb e'' (Z.sub emax prec)); simpl; auto.
Qed.

Lemma binary_normalize_nonneg (m e : Z) :
  0 <= m -> nonneg (binary_normalize prec emax m e false).
Proof.
  intros Hm. destruct m as [|m|m]; simpl; [reflexivity| |lia].
  unfold binary_round. destruct (shl_align _ _ _). apply binary_round_aux_nonneg.
Qed.

Lemma binary_round_nonneg (m : positive) (e : Z) :
  nonneg (binary_round prec emax false m e).
Proof.
  unfold binary_round. destruct (shl_align _ _ _). apply binary_round_aux_nonneg.
Qed.

Lemma lit_nonneg (z : Z) : 0 <= z -> nonneg (lit z).
Proof. apply binary_normalize_nonneg. Qed.

Lemma mul_nonneg (x y : number) : nonneg x -> nonneg y -> nonneg (mul x y).
Proof.
  destruct x as [sx|sx| |sx mx ex], y as [sy|sy| |sy my ey]; simpl;
    intros; subst; simpl; auto.
  apply binary_round_aux_nonneg.
Qed.

Lemma add_nonneg (x y : number) : nonneg x -> nonneg y -> nonneg (add x y).
Proof.
  destruct x as [sx|sx| |sx mx ex], y as [sy|sy| |sy my ey]; simpl;
    intros; subst; simpl; auto.
  apply binary_round_nonneg.
Qed.

Lemma trunc_nonneg (x : number) : nonneg x -> 0 <= trunc x.
Proof.
  destruct x as [s|s| |s m e]; simpl; try lia.
  intros ->. simpl. apply Z.shiftl_nonneg. lia.
Qed.

Lemma to_length_nonneg (x : number) (n : Z) :
  nonneg x -> to_length x = Some n -> 0 <= n.
Proof.
  unfold to_length. destruct (isNaN x); [discriminate|].
  intros H E. injection E as <-. apply trunc_nonneg. exact H.
Qed.

(** ** Decoder: reading inside the array *)

Lemma at_Some (a : list Z) (i x : Z) :
  at_ a i = Some x -> 0 <= i < Z.of_nat (length a) /\ In x a.
Proof.
  unfold at_. destruct (Z.ltb_spec i 0); [discriminate|].
  intros E. pose proof (lookup_lt_Some _ _ _ E).
  split; [lia|]. apply list_elem_of_In. eapply list_elem_of_lookup_2. exact E.
Qed.

Lemma at_window (pre a post : list Z) (i : Z) :
  0 <= i < Z.of_nat (length a) ->
  at_ (pre ++ a ++ post) (Z.of_nat (length pre) + i) = at_ a i.
Proof.
  intros Hi. unfold at_.
  destruct (Z.ltb_spec (Z.of_nat (length pre) + i) 0); [lia|].
  destruct (Z.ltb_spec i 0); [lia|].
  replace (Z.to_nat (Z.of_nat (length pre) + i)) with (length pre + Z.to_nat i)%nat by lia.
  rewrite lookup_app_r by lia.
  replace (length pre + Z.to_nat i - length pre)%nat with (Z.to_nat i) by lia.
  apply lookup_app_l. lia.
Qed.

(** ** Decoder: the dispatch of [read] as a table *)

(** What [read] does after its tag byte. *)
Inductive action :=
| a_return (v : value)
| a_throw (e : error)
| a_map (size : number) (lengthSize : nat)
| a_array (size : number) (lengthSize : nat)
| a_str (size : number) (lengthSize : nat)
| a_bin (lengthSize : nat)
| a_ext (size : number) (lengthSize : nat)
| a_float (size : nat)
| a_uint (size : nat)
| a_int (size : nat).

Definition classify (byte : Z) : action :=
  let minus1 := SFopp (lit 1) in
  if (0x00 <=? byte) && (byte <=? 0x7f) then a_return (VNumber (lit byte))
  else if (0x80 <=? byte) && (byte <=? 0x8f) then a_map (lit (byte - 0x80)) 0
  else if (0x90 <=? byte) && (byte <=? 0x9f) then a_array (lit (byte - 0x90)) 0
  else if (0xa0 <=? byte) && (byte <=? 0xbf) then a_str (lit (byte - 0xa0)) 0
  else if byte =? 0xc0 then a_return VNull
  else if byte =? 0xc1 then a_throw InvalidByteCode
  else if byte =? 0xc2 then a_return (VBoolean false)
  else if byte =? 0xc3 then a_return (VBoolean true)
  else if byte =? 0xc4 then a_bin 1
  else if byte =? 0xc5 then a_bin 2
  else if byte =? 0xc6 then a_bin 4
  else if byte =? 0xc7 then a_ext minus1 1
  else if byte =? 0xc8 then a_ext minus1 2
  else if byte =? 0xc9 then a_ext minus1 4
  else if byte =? 0xca then a_float 4
  else if byte =? 0xcb then a_float 8
  else if byte =? 0xcc then a_uint 1
  else if byte =? 0xcd then a_uint 2
  else if byte =? 0xce then a_uint 4
  else if byte =? 0xcf then a_uint 8
  else if byte =? 0xd0 then a_int 1
  else if byte =? 0xd1 then a_int 2
  else if byte =? 0xd2 then a_int 4
  else if byte =? 0xd3 then a_int 8
  else if byte =? 0xd4 then a_ext (lit 1) 0
  else if byte =? 0xd5 then a_ext (lit 2) 0
  else if byte =? 0xd6 then a_ext (lit 4) 0
  else if byte =? 0xd7 then a_ext (lit 8) 0
  else if byte =? 0xd8 then a_ext (lit 16) 0
  else if byte =? 0xd9 then a_str minus1 1
  else if byte =? 0xda then a_str minus1 2
  else if byte =? 0xdb then a_str minus1 4
  else if byte =? 0xdc then a_array minus1 2
  else if byte =? 0xdd then a_array minus1 4
  else if byte =? 0xde then a_map minus1 2
  else if byte =? 0xdf then a_map minus1 4
  else if (0xe0 <=? byte) && (byte <=? 0xff) then a_return (VNumber (lit (byte - 256)))
  else a_throw InvalidByteValue.

Section Perform.

Variable Number_toString : number -> jsstring.
Variable Date_toString : number -> jsstring.

Definition perform (rec : position -> outcome (value * position)) (array : list Z)
           (act : action) (pos : position) : outcome (value * position) :=
  match act with
  | a_return v => Ok (v, pos)
  | a_throw e => Throw e
  | a_map size lengthSize => readMap Number_toString Date_toString rec array size lengthSize pos
  | a_array size lengthSize => readArray rec array size lengthSize pos
  | a_str size lengthSize => readStr array size lengthSize pos
  | a_bin lengthSize =>
      let '(data, pos) := readBin array (SFopp (lit 1)) lengthSize pos in
      Ok (VUint8Array false data, pos)
  | a_ext size lengthSize => readExt array size lengthSize pos
  | a_float size => readFloat array size pos
  | a_uint size => let '(x, pos) := readUInt array size pos in Ok (VNumber x, pos)
  | a_int size => let '(x, pos) := readInt array size pos in Ok (VNumber x, pos)
  end.

Lemma read_perform (fuel : nat) (array : list Z) (pos : position) :
  read Number_toString Date_toString (S fuel) array pos =
  match peek array pos with
  | None => Throw InvalidByteValue
  | Some byte =>
      perform (read Number_toString Date_toString fuel array) array (classify byte)
              (advance pos (Some 1))
  end.
Proof.
  cbn [read]. destruct (peek array pos) as [byte|]; [|reflexivity].
  unfold classify.
  repeat match goal with
         | |- (if ?c then _ else _) = _ => destruct c; [reflexivity|]
         end.
  reflexivity.
Qed.

End Perform.

(** A length argument of the table: a small literal, or [-1] for "read the
    length field". *)
Definition size_ok (size : number) : Prop := nonneg size \/ size = SFopp (lit 1).

Lemma classify_size_ok (byte : Z) :
  0 <= byte < 256 ->
  match classify byte with
  | a_map size _ | a_array size _ | a_str size _ | a_ext size _ => size_ok size
  | _ => True
  end.
Proof.
  intros Hb. unfold classify.
  repeat match goal with
         | |- context [if ?c then _ else _] =>
             destruct c eqn:?; [first [exact I | right; reflexivity | left; apply lit_nonneg; lia]|]
         end.
  exact I.
Qed.

(** ** Decoder: the cursor moves forward *)

Lemma advance_Some (pos : position) (n q : Z) :
  advance pos (Some n) = Some q -> exists p, pos = Some p /\ q = p + n.
Proof. destruct pos as [p|]; simpl; [|discriminate]. intros E. injection E as <-. eauto. Qed.

Lemma advance_advance (pos : position) (n m : Z) :
  advance (advance pos (Some n)) (Some m) = advance pos (Some (n + m)).
Proof. destruct pos; simpl; [f_equal; lia | reflexivity]. Qed.

Lemma advance_None (pos : position) (n : option Z) (q : Z) :
  advance pos n = Some q -> exists p m, pos = Some p /\ n = Some m /\ q = p + m.
Proof. destruct pos, n; simpl; try discriminate. intros E. injection E as <-. eauto. Qed.

Lemma peek_Some (a : list Z) (pos : position) (b : Z) :
  peek a pos = Some b -> exists p, pos = Some p /\ 0 <= p < Z.of_nat (length a) /\ In b a.
Proof.
  destruct pos as [p|]; simpl; [|discriminate].
  intros E. apply at_Some in E. exists p. tauto.
Qed.

Lemma read_bytes_pos (a : list Z) (n : nat) :
  forall value pos,
    snd (read_bytes a n value pos) = advance pos (Some (Z.of_nat n)).
Proof.
  induction n as [|n IH]; intros value pos.
  - destruct pos; simpl; [f_equal; lia | reflexivity].
  - cbn [read_bytes]. rewrite IH, advance_advance. f_equal. f_equal. lia.
Qed.

Lemma readUInt_pos (a : list Z) (n : nat) (pos : position) :
  snd (readUInt a n pos) = advance pos (Some (Z.of_nat n)).
Proof. apply read_bytes_pos. Qed.

Lemma readInt_pos (a : list Z) (n : nat) (pos : position) :
  snd (readInt a n pos) = advance pos (Some (Z.of_nat n)).
Proof.
  destruct n as [|n]; [destruct pos; simpl; [f_equal; lia | reflexivity]|].
  cbn [readInt]. rewrite read_bytes_pos, advance_advance. f_equal. f_equal. lia.
Qed.

Definition all_bytes (a : list Z) : Prop := Forall is_byte a.

Lemma all_bytes_In (a : list Z) (x : Z) : all_bytes a -> In x a -> 0 <= x < 256.
Proof. intros H Hx. apply (proj1 (List.Forall_forall _ a) H x Hx). Qed.

Lemma read_bytes_nonneg (a : list Z) (n : nat) :
  all_bytes a ->
  forall value pos, nonneg value -> nonneg (fst (read_bytes a n value pos)).
Proof.
  intros Ha. induction n as [|n IH]; intros value pos Hv; [exact Hv|].
  cbn [read_bytes]. apply IH. apply add_nonneg.
  - apply mul_nonneg; [exact Hv | apply lit_nonneg; lia].
  - destruct (peek a pos) as [b|] eqn:E; [|exact I].
    apply peek_Some in E. destruct E as (p & _ & _ & Hb).
    apply lit_nonneg. pose proof (all_bytes_In _ _ Ha Hb). lia.
Qed.

Lemma readUInt_nonneg (a : list Z) (n : nat) (pos : position) :
  all_bytes a -> nonneg (fst (readUInt a n pos)).
Proof. intros Ha. apply read_bytes_nonneg; [exact Ha | reflexivity]. Qed.

Lemma ltb_minus1 : ltb (SFopp (lit 1)) (lit 0) = true.
Proof. reflexivity. Qed.

(** [read_size] yields a length that is not negative and moves the cursor
    by the width of the length field, if it reads one. *)
Lemma read_size_spec (a : list Z) (size : number) (lengthSize : nat) (pos : position) :
  all_bytes a -> size_ok size ->
  nonneg (fst (read_size a size lengthSize pos)) /\
  exists d, 0 <= d /\ snd (read_size a size lengthSize pos) = advance pos (Some d).
Proof.
  intros Ha Hs. unfold read_size.
  destruct (ltb size (lit 0)) eqn:E.
  - split; [apply readUInt_nonneg; exact Ha|].
    exists (Z.of_nat lengthSize). split; [lia | apply readUInt_pos].
  - destruct Hs as [Hs | ->]; [|rewrite ltb_minus1 in E; discriminate].
    split; [exact Hs|]. exists 0. split; [lia|].
    destruct pos; simpl; [f_equal; lia | reflexivity].
Qed.

(** The cursor after a call that returns [q]: it started at some [p <= q]. *)
Definition from_before (pos : position) (q : Z) : Prop :=
  exists p, pos = Some p /\ p <= q.

Lemma from_before_advance (pos : position) (d q : Z) :
  0 <= d -> from_before (advance pos (Some d)) q -> from_before pos q.
Proof.
  intros Hd (p & E & Hp). apply advance_Some in E. destruct E as (p0 & -> & ->).
  exists p0. split; [reflexivity | lia].
Qed.

Lemma from_before_length (pos : position) (size : number) (q : Z) :
  nonneg size -> advance pos (to_length size) = Some q -> from_before pos q.
Proof.
  intros Hs E. apply advance_None in E. destruct E as (p & m & -> & Em & ->).
  exists p. split; [reflexivity|]. pose proof (to_length_nonneg _ _ Hs Em). lia.
Qed.

Lemma readBin_advances (a : list Z) (size : number) (lengthSize : nat) (pos : position)
      (data : list Z) (q : Z) :
  all_bytes a -> size_ok size ->
  readBin a size lengthSize pos = (data, Some q) -> from_before pos q.
Proof.
  intros Ha Hs. unfold readBin.
  destruct (read_size_spec a size lengthSize pos Ha Hs) as (Hn & d & Hd & Ep).
  destruct (read_size a size lengthSize pos) as [size' pos']. simpl in Hn, Ep. subst pos'.
  intros E. injection E as _ E.
  apply (from_before_advance _ d); [exact Hd|].
  apply (from_before_length _ size'); assumption.
Qed.

Lemma readStr_advances (a : list Z) (size : number) (lengthSize : nat) (pos : position)
      (v : value) (q : Z) :
  all_bytes a -> size_ok size ->
  readStr a size lengthSize pos = Ok (v, Some q) -> from_before pos q.
Proof.
  intros Ha Hs. unfold readStr.
  destruct (read_size_spec a size lengthSize pos Ha Hs) as (Hn & d & Hd & Ep).
  destruct (read_size a size lengthSize pos) as [size' pos']. simpl in Hn, Ep. subst pos'.
  match goal with |- context [mbind _ ?m] => destruct m as [s|e| |] end; simpl; try discriminate.
  intros E. injection E as _ E.
  apply (from_before_advance _ d); [exact Hd|].
  apply (from_before_length _ size'); assumption.
Qed.

Lemma readExtDate_pos (a data : list Z) (pos : position) (v : value) (q : position) :
  readExtDate a data pos = Ok (v, q) -> q = pos.
Proof.
  unfold readExtDate.
  destruct (length data =? 4)%nat; [intros E; injection E as _ <-; reflexivity|].
  destruct (length data =? 8)%nat; [intros E; injection E as _ <-; reflexivity|].
  destruct (length data =? 12)%nat; [|discriminate].
  pose proof (readInt_pos a 8 (advance pos (Some (-8)))) as P.
  destruct (readInt a 8 (advance pos (Some (-8)))) as [sec pos']. simpl in P.
  intros E. injection E as _ <-. rewrite P, advance_advance.
  destruct pos; simpl; [f_equal; lia | reflexivity].
Qed.

Lemma readExt_advances (a : list Z) (size : number) (lengthSize : nat) (pos : position)
      (v : value) (q : Z) :
  all_bytes a -> size_ok size ->
  readExt a size lengthSize pos = Ok (v, Some q) -> from_before pos q.
Proof.
  intros Ha Hs. unfold readExt.
  destruct (read_size_spec a size lengthSize pos Ha Hs) as (Hn & d & Hd & Ep).
  destruct (read_size a size lengthSize pos) as [size' pos']. simpl in Hn, Ep. subst pos'.
  pose proof (readUInt_pos a 1 (advance pos (Some d))) as P.
  destruct (readUInt a 1 (advance pos (Some d))) as [type pos1]. simpl in P. subst pos1.
  destruct (readBin a size' 0 _) as [data pos2] eqn:B.
  intros E.
  assert (pos2 = Some q) as ->.
  { destruct (eqb type (lit 255)).
    - apply readExtDate_pos in E. congruence.
    - injection E as _ <-. reflexivity. }
  apply readBin_advances in B; [|exact Ha|left; exact Hn].
  apply (from_before_advance _ d); [exact Hd|].
  apply (from_before_advance _ 1); [lia|]. exact B.
Qed.

Lemma readFloat_advances (a : list Z) (size : nat) (pos : position) (v : value) (q : Z) :
  readFloat a size pos = Ok (v, Some q) -> from_before pos q.
Proof.
  unfold readFloat. destruct pos as [p0|]; [|discriminate].
  destruct (_ || _); [discriminate|].
  intros E.
  assert (advance (Some p0) (Some (Z.of_nat size)) = Some q) as A.
  { destruct size as [|[|[|[|[|[|[|[|[|n]]]]]]]]]; injection E as _ <-; reflexivity. }
  apply advance_Some in A. destruct A as (p & -> & ->).
  exists p. split; [reflexivity | lia].
Qed.

Section Advances.

Variable Number_toString : number -> jsstring.
Variable Date_toString : number -> jsstring.

(** A reader that consumes at least one byte when it returns. *)
Definition advancing (rec : position -> outcome (value * position)) : Prop :=
  forall pos v q, rec pos = Ok (v, Some q) -> exists p, pos = Some p /\ p < q.

Lemma readArray_loop_advances (rec : position -> outcome (value * position)) :
  advancing rec ->
  forall n data pos v q,
    readArray_loop rec n data pos = Ok (v, Some q) -> from_before pos q.
Proof.
  intros Hrec. induction n as [|n IH]; intros data pos v q E.
  - simpl in E. injection E as _ ->. exists q. split; [reflexivity | lia].
  - cbn [readArray_loop] in E.
    destruct (rec pos) as [[x pos1]|e| |] eqn:R; simpl in E; try discriminate.
    apply IH in E. destruct E as (p1 & -> & Hp1).
    apply Hrec in R. destruct R as (p & -> & Hp). exists p. split; [reflexivity | lia].
Qed.

Lemma readMap_loop_advances (rec : position -> outcome (value * position)) :
  advancing rec ->
  forall n data pos v q,
    readMap_loop Number_toString Date_toString rec n data pos = Ok (v, Some q) ->
    from_before pos q.
Proof.
  intros Hrec. induction n as [|n IH]; intros data pos v q E.
  - simpl in E. injection E as _ ->. exists q. split; [reflexivity | lia].
  - cbn [readMap_loop] in E.
    destruct (rec pos) as [[key pos1]|e| |] eqn:R1; simpl in E; try discriminate.
    destruct (rec pos1) as [[x pos2]|e| |] eqn:R2; simpl in E; try discriminate.
    destruct (ToString _ _ key) as [s|e| |]; simpl in E; try discriminate.
    destruct (obj_assign data s x) as [data'|e| |]; simpl in E; try discriminate.
    apply IH in E. destruct E as (p2 & -> & Hp2).
    apply Hrec in R2. destruct R2 as (p1 & -> & Hp1).
    apply Hrec in R1. destruct R1 as (p & -> & Hp). exists p. split; [reflexivity | lia].
Qed.

Lemma perform_advances (rec : position -> outcome (value * position)) (a : list Z)
      (act : action) (pos : position) (v : value) (q : Z) :
  all_bytes a -> advancing rec ->
  match act with
  | a_map size _ | a_array size _ | a_str size _ | a_ext size _ => size_ok size
  | _ => True
  end ->
  perform Number_toString Date_toString rec a act pos = Ok (v, Some q) ->
  from_before pos q.
Proof.
  intros Ha Hrec Hs E. destruct act as [w|e|size ls|size ls|size ls|ls|size ls|k|k|k];
    cbn [perform] in E.
  - injection E as _ ->. exists q. split; [reflexivity | lia].
  - discriminate.
  - unfold readMap in E.
    destruct (read_size_spec a size ls pos Ha Hs) as (Hn & d & Hd & Ep).
    destruct (read_size a size ls pos) as [size' pos']. simpl in Hn, Ep. subst pos'.
    apply readMap_loop_advances in E; [|exact Hrec].
    apply (from_before_advance _ d); assumption.
  - unfold readArray in E.
    destruct (read_size_spec a size ls pos Ha Hs) as (Hn & d & Hd & Ep).
    destruct (read_size a size ls pos) as [size' pos']. simpl in Hn, Ep. subst pos'.
    apply readArray_loop_advances in E; [|exact Hrec].
    apply (from_before_advance _ d); assumption.
  - eapply readStr_advances; eassumption.
  - destruct (readBin a (SFopp (lit 1)) ls pos) as [data pos'] eqn:B.
    injection E as _ ->.
    eapply readBin_advances; [exact Ha | right; reflexivity | exact B].
  - eapply readExt_advances; eassumption.
  - eapply readFloat_advances; eassumption.
  - pose proof (readUInt_pos a k pos) as P.
    destruct (readUInt a k pos) as [x pos']. simpl in P. injection E as _ ->.
    symmetry in P. apply advance_Some in P. destruct P as (p & -> & ->).
    exists p. split; [reflexivity | lia].
  - pose proof (readInt_pos a k pos) as P.
    destruct (readInt a k pos) as [x pos']. simpl in P. injection E as _ ->.
    symmetry in P. apply advance_Some in P. destruct P as (p & -> & ->).
    exists p. split; [reflexivity | lia].
Qed.

(** A call of [read] that returns has consumed at least its tag byte, which
    was inside the array. *)
Lemma read_advances (a : list Z) (fuel : nat) :
  all_bytes a ->
  forall pos v q,
    read Number_toString Date_toString fuel a pos = Ok (v, Some q) ->
    exists p, pos = Some p /\ 0 <= p < Z.of_nat (length a) /\ p < q.
Proof.
  intros Ha. induction fuel as [|fuel IH]; intros pos v q E; [discriminate|].
  rewrite read_perform in E.
  destruct (peek a pos) as [byte|] eqn:P; [|discriminate].
  apply peek_Some in P. destruct P as (p & -> & Hp & Hb).
  apply perform_advances in E.
  - destruct E as (p1 & E1 & Hp1). simpl in E1. injection E1 as <-.
    exists p. split; [reflexivity|]. split; [exact Hp | lia].
  - exact Ha.
  - intros pos' v' q' E'. apply IH in E'. destruct E' as (p' & -> & _ & H'). eauto.
  - apply classify_size_ok. apply (all_bytes_In a); assumption.
Qed.

End Advances.

(** ** Decoder: a value is read from its own bytes only *)

Lemma decode_sequence_advances (bytes : list Z) (c i e c' i' : Z) :
  decode_sequence bytes c i e = Ok (c', i') -> (i <= i' <= e) \/ (i = i' /\ c <= 127).
Proof.
  unfold decode_sequence.
  destruct (Z.ltb_spec 127 c); [|intros E; injection E as <- <-; right; lia].
  destruct ((191 <? c) && (c <? 224)).
  { destruct (Z.leb_spec e i); [discriminate|]. intros E. injection E as _ <-. lia. }
  destruct ((223 <? c) && (c <? 240)).
  { destruct (Z.leb_spec e (i + 1)); [discriminate|]. intros E. injection E as _ <-. lia. }
  destruct ((239 <? c) && (c <? 248)); [|discriminate].
  destruct (Z.leb_spec e (i + 2)); [discriminate|]. intros E. injection E as _ <-. lia.
Qed.

Section Window.

(** The array [a] embedded in a larger one, [k] bytes further. *)
Variables pre a post : list Z.
Let a' := pre ++ a ++ post.
Let k := Z.of_nat (length pre).

Lemma peek_window (p : Z) :
  0 <= p < Z.of_nat (length a) -> peek a' (Some (k + p)) = peek a (Some p).
Proof. intros Hp. simpl. apply at_window. exact Hp. Qed.

Lemma read_bytes_window (n : nat) :
  forall value p,
    0 <= p -> p + Z.of_nat n <= Z.of_nat (length a) ->
    read_bytes a' n value (Some (k + p)) =
    (fst (read_bytes a n value (Some p)), Some (k + (p + Z.of_nat n))).
Proof.
  induction n as [|n IH]; intros value p Hp Hn.
  - simpl. do 2 f_equal. lia.
  - cbn [read_bytes]. rewrite peek_window by lia.
    cbn [advance]. replace (k + p + 1) with (k + (p + 1)) by lia.
    rewrite IH by lia. do 2 f_equal. lia.
Qed.

Lemma readUInt_window (n : nat) (p : Z) :
  0 <= p -> p + Z.of_nat n <= Z.of_nat (length a) ->
  readUInt a' n (Some (k + p)) = (fst (readUInt a n (Some p)), Some (k + (p + Z.of_nat n))).
Proof. apply read_bytes_window. Qed.

Lemma readInt_window (n : nat) (p : Z) :
  0 <= p -> p + Z.of_nat n <= Z.of_nat (length a) ->
  readInt a' n (Some (k + p)) = (fst (readInt a n (Some p)), Some (k + (p + Z.of_nat n))).
Proof.
  intros Hp Hn. destruct n as [|n]; [simpl; do 2 f_equal; lia|].
  cbn [readInt]. rewrite peek_window by lia.
  cbn [advance]. replace (k + p + 1) with (k + (p + 1)) by lia.
  rewrite read_bytes_window by lia. do 2 f_equal. lia.
Qed.

Lemma read_size_window (size : number) (lengthSize : nat) (p : Z) (size' : number) (q : Z) :
  0 <= p -> q <= Z.of_nat (length a) ->
  read_size a size lengthSize (Some p) = (size', Some q) ->
  read_size a' size lengthSize (Some (k + p)) = (size', Some (k + q)).
Proof.
  intros Hp Hq. unfold read_size. destruct (ltb size (lit 0)).
  - intros E. pose proof (readUInt_pos a lengthSize (Some p)) as P.
    rewrite E in P. simpl in P. injection P as ->.
    rewrite readUInt_window by lia. rewrite E. reflexivity.
  - intros E. injection E as -> <-. reflexivity.
Qed.

Lemma drop_window (p : nat) :
  (p <= length a)%nat -> drop (length pre + p) a' = drop p a ++ post.
Proof.
  intros Hp. unfold a'. rewrite drop_app_add'; [|reflexivity].
  rewrite drop_app_le by lia. reflexivity.
Qed.

Lemma subarray_window (p n : Z) :
  0 <= p -> p + n <= Z.of_nat (length a) ->
  subarray a' (Some (k + p)) (Some n) = subarray a (Some p) (Some n).
Proof.
  intros Hp Hn. unfold subarray.
  destruct (Z.le_gt_cases n 0) as [Hle|Hgt].
  - replace (Z.to_nat n) with O by lia. reflexivity.
  - replace (Z.to_nat (k + p)) with (length pre + Z.to_nat p)%nat by lia.
    rewrite drop_window by lia.
    apply take_app_le. rewrite length_drop. lia.
Qed.

Lemma continuation_window (i : Z) :
  0 <= i < Z.of_nat (length a) -> continuation a' (k + i) = continuation a i.
Proof. intros Hi. unfold continuation. unfold a', k. rewrite at_window by exact Hi. reflexivity. Qed.

Lemma decode_sequence_window (c i e : Z) :
  0 <= i -> e <= Z.of_nat (length a) ->
  decode_sequence a' c (k + i) (k + e) =
  ('(c', i') ← decode_sequence a c i e; Ok (c', k + i')).
Proof.
  intros Hi He. unfold decode_sequence.
  replace (k + e <=? k + i) with (e <=? i) by lia.
  replace (k + e <=? k + i + 1) with (e <=? i + 1) by lia.
  replace (k + e <=? k + i + 2) with (e <=? i + 2) by lia.
  replace (k + i + 1) with (k + (i + 1)) by lia.
  replace (k + i + 2) with (k + (i + 2)) by lia.
  replace (k + i + 3) with (k + (i + 3)) by lia.
  destruct (127 <? c); [|reflexivity].
  destruct ((191 <? c) && (c <? 224)).
  { destruct (Z.leb_spec e i); [reflexivity|].
    simpl. rewrite continuation_window by lia. reflexivity. }
  destruct ((223 <? c) && (c <? 240)).
  { destruct (Z.leb_spec e (i + 1)); [reflexivity|].
    simpl. rewrite !continuation_window by lia. reflexivity. }
  destruct ((239 <? c) && (c <? 248)); [|reflexivity].
  destruct (Z.leb_spec e (i + 2)); [reflexivity|].
  simpl. rewrite !continuation_window by lia. reflexivity.
Qed.

Lemma decodeUtf8_loop_window (e : Z) :
  e <= Z.of_nat (length a) ->
  forall fuel fuel' i str,
    0 <= i ->
    (Z.to_nat (e - i) < fuel)%nat -> (Z.to_nat (e - i) < fuel')%nat ->
    decodeUtf8_loop fuel' a' (k + i) (k + e) str = decodeUtf8_loop fuel a i e str.
Proof.
  intros He. induction fuel as [|fuel IH]; intros fuel' i str Hi F F'; [lia|].
  destruct fuel' as [|fuel']; [lia|].
  cbn [decodeUtf8_loop].
  replace (k + i <? k + e) with (i <? e) by lia.
  destruct (Z.ltb_spec i e) as [Hlt|Hge]; [|reflexivity].
  unfold a' at 1, k at 1. rewrite at_window by lia. fold a'. fold k.
  destruct (at_ a i) as [c|]; [|reflexivity].
  replace (k + i + 1) with (k + (i + 1)) by lia.
  rewrite decode_sequence_window by lia.
  pose proof (decode_sequence_advances a c (i + 1) e) as A.
  destruct (decode_sequence a c (i + 1) e) as [[c' i']|err| |]; simpl; try reflexivity.
  specialize (A c' i' eq_refl).
  destruct (c' <=? 0xffff); [apply IH; lia|].
  destruct (c' <=? 0x10ffff); [apply IH; lia | reflexivity].
Qed.

Lemma decodeUtf8_window (p : Z) (n : option Z) :
  0 <= p ->
  match n with Some n => p + n <= Z.of_nat (length a) | None => True end ->
  decodeUtf8 a' (k + p) n = decodeUtf8 a p n.
Proof.
  intros Hp Hn. destruct n as [n|]; [|reflexivity]. unfold decodeUtf8.
  replace (n + (k + p)) with (k + (n + p)) by lia.
  apply decodeUtf8_loop_window; try lia.
  unfold a'. rewrite !length_app. lia.
Qed.

Lemma readBin_window (size : number) (lengthSize : nat) (p : Z) (data : list Z) (q : Z) :
  all_bytes a -> size_ok size -> 0 <= p -> q <= Z.of_nat (length a) ->
  readBin a size lengthSize (Some p) = (data, Some q) ->
  readBin a' size lengthSize (Some (k + p)) = (data, Some (k + q)) /\
  Z.of_nat (length data) <= q.
Proof.
  intros Ha Hs Hp Hq. unfold readBin.
  destruct (read_size_spec a size lengthSize (Some p) Ha Hs) as (Hn & d & Hd & Ep).
  destruct (read_size a size lengthSize (Some p)) as [size' pos'] eqn:R.
  simpl in Hn, Ep. subst pos'. simpl in R.
  cbn [advance]. destruct (to_length size') as [n|] eqn:En; [|discriminate].
  intros E. injection E as <- <-.
  pose proof (to_length_nonneg _ _ Hn En) as Hn0.
  rewrite (read_size_window size lengthSize p size' (p + d)) by (try lia; exact R).
  rewrite En. split.
  - rewrite subarray_window by lia. simpl. do 2 f_equal. lia.
  - unfold subarray. rewrite length_take. lia.
Qed.

Lemma readStr_window (size : number) (lengthSize : nat) (p : Z) (v : value) (q : Z) :
  all_bytes a -> size_ok size -> 0 <= p -> q <= Z.of_nat (length a) ->
  readStr a size lengthSize (Some p) = Ok (v, Some q) ->
  readStr a' size lengthSize (Some (k + p)) = Ok (v, Some (k + q)).
Proof.
  intros Ha Hs Hp Hq. unfold readStr.
  destruct (read_size_spec a size lengthSize (Some p) Ha Hs) as (Hn & d & Hd & Ep).
  destruct (read_size a size lengthSize (Some p)) as [size' pos'] eqn:R.
  simpl in Hn, Ep. subst pos'. simpl in R.
  cbn [advance]. destruct (to_length size') as [n|] eqn:En.
  2:{ destruct (decodeUtf8 a (p + d) None); simpl; discriminate. }
  pose proof (to_length_nonneg _ _ Hn En) as Hn0.
  destruct (decodeUtf8 a (p + d) (Some n)) as [s|e| |] eqn:D; simpl; try discriminate.
  intros E. injection E as <- <-.
  rewrite (read_size_window size lengthSize p size' (p + d)) by (try lia; exact R).
  rewrite En. cbn [advance].
  rewrite decodeUtf8_window by lia. rewrite D. simpl. do 3 f_equal. lia.
Qed.

Lemma readFloat_window (size : nat) (p : Z) (v : value) (q : Z) :
  0 <= p -> readFloat a size (Some p) = Ok (v, Some q) ->
  readFloat a' size (Some (k + p)) = Ok (v, Some (k + q)).
Proof.
  intros Hp. unfold readFloat.
  destruct (Z.ltb_spec p 0); [lia|]. cbn [orb].
  destruct (Z.ltb_spec (Z.of_nat (length a)) (p + Z.of_nat size)); [discriminate|].
  destruct (Z.ltb_spec (k + p) 0); [lia|]. cbn [orb].
  destruct (Z.ltb_spec (Z.of_nat (length a')) (k + p + Z.of_nat size)) as [H'|_].
  { unfold a', k in H'. rewrite !length_app in H'. lia. }
  pose proof (subarray_window p (Z.of_nat size) Hp ltac:(lia)) as W.
  unfold subarray in W. rewrite Nat2Z.id in W. rewrite W.
  cbn [advance]. replace (k + p + Z.of_nat size) with (k + (p + Z.of_nat size)) by lia.
  destruct size as [|[|[|[|[|[|[|[|[|n]]]]]]]]]; intros E; injection E as <- <-; reflexivity.
Qed.

Lemma readExtDate_window (data : list Z) (p : Z) (v : value) (q : Z) :
  Z.of_nat (length data) <= p -> p <= Z.of_nat (length a) ->
  readExtDate a data (Some p) = Ok (v, Some q) ->
  readExtDate a' data (Some (k + p)) = Ok (v, Some (k + q)).
Proof.
  intros Hd Hp. unfold readExtDate.
  destruct (length data =? 4)%nat; [intros E; injection E as <- <-; reflexivity|].
  destruct (length data =? 8)%nat; [intros E; injection E as <- <-; reflexivity|].
  destruct (Nat.eqb_spec (length data) 12); [|discriminate].
  cbn [advance]. replace (k + p + -8) with (k + (p + -8)) by lia.
  rewrite readInt_window by lia.
  pose proof (readInt_pos a 8 (Some (p + -8))) as P.
  destruct (readInt a 8 (Some (p + -8))) as [sec pos']. simpl in P. subst pos'.
  simpl fst. intros E. injection E as <- <-. reflexivity.
Qed.

Lemma readExt_window (size : number) (lengthSize : nat) (p : Z) (v : value) (q : Z) :
  all_bytes a -> size_ok size -> 0 <= p -> q <= Z.of_nat (length a) ->
  readExt a size lengthSize (Some p) = Ok (v, Some q) ->
  readExt a' size lengthSize (Some (k + p)) = Ok (v, Some (k + q)).
Proof.
  intros Ha Hs Hp Hq. unfold readExt.
  destruct (read_size_spec a size lengthSize (Some p) Ha Hs) as (Hn & d & Hd & Ep).
  destruct (read_size a size lengthSize (Some p)) as [size' pos'] eqn:R.
  simpl in Hn, Ep. subst pos'. simpl in R.
  pose proof (readUInt_pos a 1 (Some (p + d))) as P.
  destruct (readUInt a 1 (Some (p + d))) as [type pos1] eqn:U. simpl in P. subst pos1.
  change (Z.of_nat 1) with 1 in *.
  destruct (readBin a size' 0 (Some (p + d + 1))) as [data pos2] eqn:B.
  intros E.
  assert (pos2 = Some q) as ->.
  { destruct (eqb type (lit 255)).
    - apply readExtDate_pos in E. congruence.
    - injection E as _ <-. reflexivity. }
  pose proof (readBin_advances _ _ _ _ _ _ Ha (or_introl Hn) B) as (p2 & E2 & Hp2).
  injection E2 as <-.
  destruct (readBin_window size' 0 (p + d + 1) data q Ha (or_introl Hn) ltac:(lia) Hq B)
    as [B' Hlen].
  rewrite (read_size_window size lengthSize p size' (p + d)) by (try lia; exact R).
  rewrite readUInt_window by (simpl; lia). rewrite U. simpl fst.
  change (Z.of_nat 1) with 1.
  rewrite B'.
  destruct (eqb type (lit 255)).
  - apply readExtDate_window; assumption.
  - injection E as <-. reflexivity.
Qed.

Section Loops.

Variable Number_toString : number -> jsstring.
Variable Date_toString : number -> jsstring.
Variables rec rec' : position -> outcome (value * position).

Hypothesis rec_advancing : advancing rec.
Hypothesis rec_window :
  forall p v q, rec (Some p) = Ok (v, Some q) -> q <= Z.of_nat (length a) ->
                rec' (Some (k + p)) = Ok (v, Some (k + q)).

Lemma readArray_loop_window (n : nat) :
  forall data p v q,
    readArray_loop rec n data (Some p) = Ok (v, Some q) -> q <= Z.of_nat (length a) ->
    readArray_loop rec' n data (Some (k + p)) = Ok (v, Some (k + q)).
Proof.
  induction n as [|n IH]; intros data p v q E Hq.
  - simpl in *. injection E as <- <-. reflexivity.
  - cbn [readArray_loop] in *.
    destruct (rec (Some p)) as [[x pos1]|e| |] eqn:R; simpl in E; try discriminate.
    pose proof (readArray_loop_advances rec rec_advancing _ _ _ _ _ E) as (p1 & -> & Hp1).
    rewrite (rec_window _ _ _ R) by lia. simpl. apply IH; assumption.
Qed.

Lemma readMap_loop_window (n : nat) :
  forall data p v q,
    readMap_loop Number_toString Date_toString rec n data (Some p) = Ok (v, Some q) ->
    q <= Z.of_nat (length a) ->
    readMap_loop Number_toString Date_toString rec' n data (Some (k + p))
    = Ok (v, Some (k + q)).
Proof.
  induction n as [|n IH]; intros data p v q E Hq.
  - simpl in *. injection E as <- <-. reflexivity.
  - cbn [readMap_loop] in *.
    destruct (rec (Some p)) as [[key pos1]|e| |] eqn:R1; simpl in E; try discriminate.
    destruct (rec pos1) as [[x pos2]|e| |] eqn:R2; simpl in E; try discriminate.
    destruct (ToString _ _ key) as [s|e| |] eqn:T; simpl in E; try discriminate.
    destruct (obj_assign data s x) as [data'|e| |] eqn:A; simpl in E; try discriminate.
    pose proof (readMap_loop_advances _ _ rec rec_advancing _ _ _ _ _ E) as (p2 & -> & Hp2).
    pose proof (rec_advancing _ _ _ R2) as (p1 & -> & Hp1).
    rewrite (rec_window _ _ _ R1) by lia. simpl.
    rewrite (rec_window _ _ _ R2) by lia. simpl.
    rewrite T. simpl. rewrite A. simpl. apply IH; assumption.
Qed.

Lemma perform_window (act : action) (p : Z) (v : value) (q : Z) :
  all_bytes a -> 0 <= p -> q <= Z.of_nat (length a) ->
  match act with
  | a_map size _ | a_array size _ | a_str size _ | a_ext size _ => size_ok size
  | _ => True
  end ->
  perform Number_toString Date_toString rec a act (Some p) = Ok (v, Some q) ->
  perform Number_toString Date_toString rec' a' act (Some (k + p)) = Ok (v, Some (k + q)).
Proof.
  intros Ha Hp Hq Hs E.
  destruct act as [w|e|size ls|size ls|size ls|ls|size ls|n|n|n]; cbn [perform] in *.
  - injection E as <- <-. reflexivity.
  - discriminate.
  - unfold readMap in *.
    destruct (read_size_spec a size ls (Some p) Ha Hs) as (Hn & d & Hd & Ep).
    destruct (read_size a size ls (Some p)) as [size' pos'] eqn:R.
    simpl in Hn, Ep. subst pos'. simpl in R.
    pose proof (readMap_loop_advances _ _ rec rec_advancing _ _ _ _ _ E) as (p1 & E1 & Hp1).
    injection E1 as <-.
    rewrite (read_size_window size ls p size' (p + d)) by (try lia; exact R).
    apply readMap_loop_window; assumption.
  - unfold readArray in *.
    destruct (read_size_spec a size ls (Some p) Ha Hs) as (Hn & d & Hd & Ep).
    destruct (read_size a size ls (Some p)) as [size' pos'] eqn:R.
    simpl in Hn, Ep. subst pos'. simpl in R.
    pose proof (readArray_loop_advances rec rec_advancing _ _ _ _ _ E) as (p1 & E1 & Hp1).
    injection E1 as <-.
    rewrite (read_size_window size ls p size' (p + d)) by (try lia; exact R).
    apply readArray_loop_window; assumption.
  - apply readStr_window; assumption.
  - destruct (readBin a (SFopp (lit 1)) ls (Some p)) as [data pos'] eqn:B.
    injection E as <- ->.
    destruct (readBin_window _ _ _ _ _ Ha (or_intror eq_refl) Hp Hq B) as [-> _].
    reflexivity.
  - apply readExt_window; assumption.
  - apply readFloat_window; assumption.
  - pose proof (readUInt_pos a n (Some p)) as P.
    destruct (readUInt a n (Some p)) as [x pos'] eqn:U. simpl in P. subst pos'.
    injection E as <- <-.
    rewrite readUInt_window by lia. rewrite U. reflexivity.
  - pose proof (readInt_pos a n (Some p)) as P.
    destruct (readInt a n (Some p)) as [x pos'] eqn:U. simpl in P. subst pos'.
    injection E as <- <-.
    rewrite readInt_window by lia. rewrite U. reflexivity.
Qed.

End Loops.

(** A value that [read] takes from inside [a] is read alike from an array
    that has bytes before and after [a]. *)
Lemma read_window (Number_toString Date_toString : number -> jsstring) (fuel : nat) :
  all_bytes a ->
  forall p v q,
    read Number_toString Date_toString fuel a (Some p) = Ok (v, Some q) ->
    q <= Z.of_nat (length a) ->
    read Number_toString Date_toString fuel a' (Some (k + p)) = Ok (v, Some (k + q)).
Proof.
  intros Ha. induction fuel as [|fuel IH]; intros p v q E Hq; [discriminate|].
  rewrite read_perform in *.
  destruct (peek a (Some p)) as [byte|] eqn:P; [|discriminate].
  pose proof (peek_Some _ _ _ P) as (p0 & E0 & Hp & Hb). injection E0 as <-.
  rewrite peek_window by exact Hp. rewrite P.
  cbn [advance] in *. replace (k + p + 1) with (k + (p + 1)) by lia.
  apply (perform_window Number_toString Date_toString
           (read Number_toString Date_toString fuel a)
           (read Number_toString Date_toString fuel a')).
  - intros pos v' q' E'. apply read_advances in E'; [|exact Ha].
    destruct E' as (p' & -> & _ & H'). eauto.
  - exact IH.
  - exact Ha.
  - lia.
  - exact Hq.
  - apply classify_size_ok. apply (all_bytes_In a); assumption.
  - exact E.
Qed.

End Window.

(** ** Decoder: fuel *)

Section Fuel.

Variable Number_toString : number -> jsstring.
Variable Date_toString : number -> jsstring.


Section LoopsMono.

Variables rec rec' : position -> outcome (value * position).
Hypothesis rec_mono : forall pos, returns (rec pos) = true -> rec' pos = rec pos.

Lemma readArray_loop_mono (n : nat) :
  forall data pos,
    returns (readArray_loop rec n data pos) = true ->
    readArray_loop rec' n data pos = readArray_loop rec n data pos.
Proof.
  induction n as [|n IH]; intros data pos R; [reflexivity|].
  cbn [readArray_loop] in *.
  destruct (rec pos) as [[x pos1]|e| |] eqn:E; simpl in R; try discriminate;
    rewrite rec_mono by (rewrite E; reflexivity); rewrite E; simpl; [|reflexivity ..].
  apply IH. exact R.
Qed.

Lemma readMap_loop_mono (n : nat) :
  forall data pos,
    returns (readMap_loop Number_toString Date_toString rec n data pos) = true ->
    readMap_loop Number_toString Date_toString rec' n data pos
    = readMap_loop Number_toString Date_toString rec n data pos.
Proof.
  induction n as [|n IH]; intros data pos R; [reflexivity|].
  cbn [readMap_loop] in *.
  destruct (rec pos) as [[key pos1]|e| |] eqn:E1; simpl in R; try discriminate;
    rewrite rec_mono by (rewrite E1; reflexivity); rewrite E1; simpl; [|reflexivity ..].
  destruct (rec pos1) as [[x pos2]|e| |] eqn:E2; simpl in R; try discriminate;
    rewrite rec_mono by (rewrite E2; reflexivity); rewrite E2; simpl; [|reflexivity ..].
  destruct (ToString _ _ key) as [s|e| |]; simpl in *; try reflexivity.
  destruct (obj_assign data s x) as [data'|e| |]; simpl in *; try reflexivity.
  apply IH. exact R.
Qed.

Lemma perform_mono (a : list Z) (act : action) (pos : position) :
  returns (perform Number_toString Date_toString rec a act pos) = true ->
  perform Number_toString Date_toString rec' a act pos
  = perform Number_toString Date_toString rec a act pos.
Proof.
  destruct act; cbn [perform]; try reflexivity.
  - unfold readMap. destruct (read_size _ _ _ _). apply readMap_loop_mono.
  - unfold readArray. destruct (read_size _ _ _ _). apply readArray_loop_mono.
Qed.

End LoopsMono.

(** More fuel does not change what a call of [read] that returns does. *)
Lemma read_fuel_mono (a : list Z) (fuel : nat) :
  forall pos,
    returns (read Number_toString Date_toString fuel a pos) = true ->
    read Number_toString Date_toString (S fuel) a pos
    = read Number_toString Date_toString fuel a pos.
Proof.
  induction fuel as [|fuel IH]; intros pos R; [discriminate|].
  rewrite (read_perform _ _ (S fuel)). rewrite read_perform in R |- *.
  destruct (peek a pos); [|reflexivity].
  apply perform_mono; assumption.
Qed.

Lemma read_fuel_le (a : list Z) (fuel fuel' : nat) (pos : position) :
  (fuel <= fuel')%nat ->
  returns (read Number_toString Date_toString fuel a pos) = true ->
  read Number_toString Date_toString fuel' a pos
  = read Number_toString Date_toString fuel a pos.
Proof.
  induction 1 as [|fuel' _ IH]; intros R; [reflexivity|].
  rewrite read_fuel_mono; [apply IH; exact R|]. rewrite IH; assumption.
Qed.

(** *** Enough fuel *)





Section LoopsReturn.

Variable rec : position -> outcome (value * position).
Hypothesis rec_advancing : advancing rec.



End LoopsReturn.







End Fuel.

(** ** Doubles that hold integers *)

(** The number of binary digits of a positive integer. *)
Definition bit_length (z : Z) : Z := Z.log2 z + 1.

Lemma digits2_pos_bit_length (p : positive) :
  Zpos (digits2_pos p) = bit_length (Zpos p).
Proof.
  unfold bit_length. induction p as [p IH|p IH|]; simpl digits2_pos.
  - rewrite Pos2Z.inj_succ, IH. change (Zpos p~1) with (2 * Zpos p + 1).
    rewrite Z.log2_succ_double by lia. lia.
  - rewrite Pos2Z.inj_succ, IH. change (Zpos p~0) with (2 * Zpos p).
    rewrite Z.log2_double by lia. lia.
  - reflexivity.
Qed.

Lemma bit_length_pos (z : Z) : 0 < z -> 0 < bit_length z.
Proof. intros H. unfold bit_length. pose proof (Z.log2_nonneg z). lia. Qed.

Lemma bit_length_shift (z k : Z) :
  0 < z -> 0 <= k -> bit_length (z * 2 ^ k) = bit_length z + k.
Proof.
  intros Hz Hk. unfold bit_length. rewrite Z.log2_mul_pow2 by lia. lia.
Qed.

Lemma bit_length_bound (z n : Z) : 0 < z -> 0 <= n -> z < 2 ^ n <-> bit_length z <= n.
Proof.
  intros Hz Hn. unfold bit_length. rewrite (Z.log2_lt_pow2 z n) by lia. lia.
Qed.

Lemma bit_length_le (a b : Z) : 0 < a -> a <= b -> bit_length a <= bit_length b.
Proof. intros Ha H. unfold bit_length. pose proof (Z.log2_le_mono a b H). lia. Qed.

Lemma iter_pos_nat {A} (f : A -> A) (p : positive) (x : A) :
  SpecFloat.iter_pos f p x = Nat.iter (Pos.to_nat p) f x.
Proof.
  revert x. induction p as [p IH|p IH|]; intros x; simpl SpecFloat.iter_pos.
  - rewrite !IH, Pos2Nat.inj_xI. rewrite <- Nat.iter_add.
    replace (Pos.to_nat p + Pos.to_nat p)%nat with (2 * Pos.to_nat p)%nat by lia.
    rewrite <- Nat.iter_succ_r. reflexivity.
  - rewrite !IH, Pos2Nat.inj_xO. rewrite <- Nat.iter_add.
    replace (Pos.to_nat p + Pos.to_nat p)%nat with (2 * Pos.to_nat p)%nat by lia.
    reflexivity.
  - reflexivity.
Qed.

(** Shifting out zero bits loses nothing. *)
Lemma shr_1_even (q : Z) :
  0 <= q -> shr_1 (Build_shr_record (2 * q) false false) = Build_shr_record q false false.
Proof. intros H. destruct q; [reflexivity|reflexivity|lia]. Qed.

Lemma iter_shr_1 (n : nat) (q : Z) :
  0 <= q ->
  Nat.iter n shr_1 (Build_shr_record (q * 2 ^ Z.of_nat n) false false)
  = Build_shr_record q false false.
Proof.
  intros Hq. induction n as [|n IH].
  - simpl. f_equal. lia.
  - rewrite Nat.iter_succ_r.
    replace (q * 2 ^ Z.of_nat (S n)) with (2 * (q * 2 ^ Z.of_nat n))
      by (rewrite Nat2Z.inj_succ, Z.pow_succ_r by lia; lia).
    rewrite shr_1_even by (apply Z.mul_nonneg_nonneg; lia). exact IH.
Qed.

Lemma shr_exact (q e n : Z) :
  0 <= q -> 0 <= n ->
  shr (Build_shr_record (q * 2 ^ n) false false) e n
  = (Build_shr_record q false false, e + n).
Proof.
  intros Hq Hn. destruct n as [|p|p]; [|clear Hn|lia].
  - simpl. rewrite Z.mul_1_r, Z.add_0_r. reflexivity.
  - unfold shr. rewrite iter_pos_nat.
    rewrite <- (positive_nat_Z p) at 1. rewrite iter_shr_1 by lia. reflexivity.
Qed.

(** The 53-bit mantissa of a positive integer below 2^53. *)
Definition mantissa (z : Z) : positive := Z.to_pos (z * 2 ^ (53 - bit_length z)).

Lemma mantissa_spec (z : Z) :
  0 < z < 2 ^ 53 -> Zpos (mantissa z) = z * 2 ^ (53 - bit_length z).
Proof.
  intros H. unfold mantissa. rewrite Z2Pos.id; [reflexivity|].
  apply Z.mul_pos_pos; [lia|]. apply Z.pow_pos_nonneg; [lia|].
  pose proof (proj1 (bit_length_bound z 53 ltac:(lia) ltac:(lia)) ltac:(lia)). lia.
Qed.

(** Rounding a mantissa that only carries zeros below the 53rd bit. *)
Lemma binary_round_aux_exact (s : bool) (m : positive) (e z : Z) :
  0 < z < 2 ^ 53 -> e <= bit_length z - 53 -> Zpos m = z * 2 ^ (- e) ->
  binary_round_aux prec emax s (Zpos m) e loc_Exact
  = S754_finite s (mantissa z) (bit_length z - 53).
Proof.
  intros Hz He Hm.
  assert (Hd : bit_length z <= 53) by (apply bit_length_bound; lia).
  pose proof (bit_length_pos z ltac:(lia)) as Hd0.
  pose proof (mantissa_spec z Hz) as Hmant.
  unfold binary_round_aux, shr_fexp.
  cbn [shr_record_of_loc Zdigits2]. rewrite digits2_pos_bit_length, Hm.
  rewrite bit_length_shift by lia.
  unfold fexp, emin, prec, emax.
  replace (Z.max (bit_length z + - e + e - 53) (3 - 1024 - 53) - e)
    with (bit_length z - 53 - e) by lia.
  replace (z * 2 ^ (- e)) with (Zpos (mantissa z) * 2 ^ (bit_length z - 53 - e)).
  2:{ rewrite Hmant, <- Z.mul_assoc, <- Z.pow_add_r by lia. f_equal. f_equal. lia. }
  rewrite shr_exact by lia.
  cbn [shr_m loc_of_shr_record round_nearest_even shr_record_of_loc Zdigits2].
  rewrite digits2_pos_bit_length, Hmant, bit_length_shift by lia.
  replace (Z.max (bit_length z + (53 - bit_length z) + (e + (bit_length z - 53 - e)) - 53)
             (3 - 1024 - 53) - (e + (bit_length z - 53 - e))) with 0 by lia.
  rewrite <- Hmant. cbn [shr shr_m].
  replace (e + (bit_length z - 53 - e)) with (bit_length z - 53) by lia.
  destruct (Z.leb_spec (bit_length z - 53) (1024 - 53)); [reflexivity|lia].
Qed.

Lemma iter_xO (m d : positive) : Zpos (Pos.iter xO m d) = Zpos m * 2 ^ Zpos d.
Proof.
  induction d as [|d IH] using Pos.peano_ind.
  - simpl. lia.
  - rewrite Pos.iter_succ, Pos2Z.inj_succ, Z.pow_succ_r by lia.
    change (Zpos (Pos.iter xO m d)~0) with (2 * Zpos (Pos.iter xO m d)). rewrite IH. lia.
Qed.

(** [shl_align] keeps the value. *)
Lemma shl_align_spec (m : positive) (e e' : Z) :
  let '(m', e'') := shl_align m e e' in
  e'' = Z.min e e' /\ Zpos m' = Zpos m * 2 ^ (e - e'').
Proof.
  unfold shl_align. destruct (e' - e) as [|d|d] eqn:E.
  - split; [lia|]. replace (e - e) with 0 by lia. lia.
  - split; [lia|]. replace (e - e) with 0 by lia. lia.
  - split; [lia|]. rewrite iter_xO. f_equal. f_equal. lia.
Qed.

(** Normalizing an integer below 2^53 that is given with a scale. *)
Lemma binary_round_exact (s : bool) (m : positive) (e z : Z) :
  0 < z < 2 ^ 53 -> e <= 0 -> Zpos m = z * 2 ^ (- e) ->
  binary_round prec emax s m e = S754_finite s (mantissa z) (bit_length z - 53).
Proof.
  intros Hz He Hm. unfold binary_round.
  assert (Hd : bit_length z <= 53) by (apply bit_length_bound; lia).
  pose proof (bit_length_pos z ltac:(lia)) as Hd0.
  rewrite digits2_pos_bit_length, Hm, bit_length_shift by lia.
  unfold fexp, emin, prec, emax.
  replace (Z.max (bit_length z + - e + e - 53) (3 - 1024 - 53)) with (bit_length z - 53) by lia.
  pose proof (shl_align_spec m e (bit_length z - 53)) as A.
  destruct (shl_align m e (bit_length z - 53)) as [m' e'']. destruct A as [-> A].
  apply binary_round_aux_exact; [lia|lia|].
  rewrite A, Hm, <- Z.mul_assoc, <- Z.pow_add_r by lia. f_equal. f_equal. lia.
Qed.

(** The double of an integer of magnitude below 2^53. *)
Definition exact (z : Z) : number :=
  match z with
  | Z0 => S754_zero false
  | Zpos _ => S754_finite false (mantissa z) (bit_length z - 53)
  | Zneg _ => S754_finite true (mantissa (- z)) (bit_length (- z) - 53)
  end.

Definition safe (z : Z) : Prop := - 2 ^ 53 < z < 2 ^ 53.

Lemma binary_normalize_exact (z e : Z) :
  safe z -> e <= 0 ->
  binary_normalize prec emax (z * 2 ^ (- e)) e false = exact z.
Proof.
  unfold safe. intros Hz He.
  assert (0 < 2 ^ (- e)) by (apply Z.pow_pos_nonneg; lia).
  destruct z as [|p|p]; simpl Z.mul.
  - reflexivity.
  - destruct (Zpos p * 2 ^ (- e)) as [|q|q] eqn:E; try lia.
    apply binary_round_exact; [lia|lia|]. rewrite <- E. reflexivity.
  - destruct (Zneg p * 2 ^ (- e)) as [|q|q] eqn:E; try lia.
    apply binary_round_exact; [simpl; lia|lia|].
    change (- Zneg p) with (Zpos p). lia.
Qed.

Lemma lit_exact (z : Z) : safe z -> lit z = exact z.
Proof.
  intros Hz. unfold lit. rewrite <- (binary_normalize_exact z 0 Hz) by lia.
  f_equal. simpl. lia.
Qed.

(** A nonzero safe integer as a double: its sign, and its mantissa and
    exponent as a scaled integer. *)
Lemma exact_finite (z : Z) :
  safe z -> z <> 0 ->
  exists m e, exact z = S754_finite (z <? 0) m e /\
              e = bit_length (Z.abs z) - 53 /\ e <= 0 /\
              Zpos m = Z.abs z * 2 ^ (- e).
Proof.
  unfold safe. intros Hz H0.
  assert (Hd : bit_length (Z.abs z) <= 53) by (apply bit_length_bound; lia).
  exists (mantissa (Z.abs z)), (bit_length (Z.abs z) - 53).
  split; [destruct z; [lia|reflexivity|reflexivity]|].
  split; [reflexivity|]. split; [lia|].
  rewrite mantissa_spec by lia. f_equal. f_equal. lia.
Qed.

Lemma signed_mantissa (z : Z) (m : positive) (e : Z) :
  Zpos m = Z.abs z * 2 ^ (- e) -> cond_Zopp (z <? 0) (Zpos m) = z * 2 ^ (- e).
Proof.
  intros ->. unfold cond_Zopp. destruct (Z.ltb_spec z 0); lia.
Qed.

Lemma aligned (z : Z) (m : positive) (e ez : Z) :
  e <= 0 -> ez <= e -> Zpos m = Z.abs z * 2 ^ (- e) ->
  cond_Zopp (z <? 0) (Zpos (fst (shl_align m e ez))) = z * 2 ^ (- ez).
Proof.
  intros He Hz Hm. pose proof (shl_align_spec m e ez) as A.
  destruct (shl_align m e ez) as [m' e']. destruct A as [-> A]. cbn [fst].
  apply signed_mantissa. rewrite A, Hm, <- Z.mul_assoc, <- Z.pow_add_r by lia.
  f_equal. f_equal. lia.
Qed.

Lemma exact_opp (z : Z) : exact (- z) = match z with Z0 => exact 0 | _ => SFopp (exact z) end.
Proof. destruct z; reflexivity. Qed.

(** Addition and subtraction of safe integers are exact. *)
Lemma add_exact (a b : Z) :
  safe a -> safe b -> safe (a + b) -> add (exact a) (exact b) = exact (a + b).
Proof.
  intros Ha Hb Hab.
  destruct (Z.eq_dec a 0) as [->|Na]; [destruct b; reflexivity|].
  destruct (Z.eq_dec b 0) as [->|Nb]; [rewrite Z.add_0_r; destruct a; reflexivity|].
  destruct (exact_finite a Ha Na) as (ma & ea & -> & Ea & Ea0 & Ma).
  destruct (exact_finite b Hb Nb) as (mb & eb & -> & Eb & Eb0 & Mb).
  unfold add, SFadd.
  rewrite (aligned a ma ea), (aligned b mb eb) by lia.
  rewrite <- Z.mul_add_distr_r. apply binary_normalize_exact; [assumption|lia].
Qed.

Lemma sub_exact (a b : Z) :
  safe a -> safe b -> safe (a - b) -> sub (exact a) (exact b) = exact (a - b).
Proof.
  intros Ha Hb Hab.
  destruct (Z.eq_dec b 0) as [->|Nb]; [rewrite Z.sub_0_r; destruct a; reflexivity|].
  destruct (Z.eq_dec a 0) as [->|Na]; [destruct b; reflexivity|].
  destruct (exact_finite a Ha Na) as (ma & ea & -> & Ea & Ea0 & Ma).
  destruct (exact_finite b Hb Nb) as (mb & eb & -> & Eb & Eb0 & Mb).
  unfold sub, SFsub.
  rewrite (aligned a ma ea), (aligned b mb eb) by lia.
  rewrite <- Z.mul_sub_distr_r. apply binary_normalize_exact; [assumption|lia].
Qed.

(** Multiplication of safe integers is exact; a zero factor takes the sign
    of the other factor, so that one is not negative. *)
Lemma mul_exact (a b : Z) :
  safe a -> safe b -> safe (a * b) ->
  (a = 0 -> 0 <= b) -> (b = 0 -> 0 <= a) ->
  mul (exact a) (exact b) = exact (a * b).
Proof.
  intros Ha Hb Hab Za Zb.
  destruct (Z.eq_dec a 0) as [->|Na].
  { specialize (Za eq_refl). destruct b; try reflexivity. lia. }
  destruct (Z.eq_dec b 0) as [->|Nb].
  { specialize (Zb eq_refl). rewrite Z.mul_0_r. destruct a; try reflexivity. lia. }
  destruct (exact_finite a Ha Na) as (ma & ea & -> & Ea & Ea0 & Ma).
  destruct (exact_finite b Hb Nb) as (mb & eb & -> & Eb & Eb0 & Mb).
  assert (Nab : a * b <> 0) by lia.
  destruct (exact_finite (a * b) Hab Nab) as (m & e & -> & E & E0 & M).
  unfold mul, SFmul.
  assert (Hsafe : 0 < Z.abs (a * b) < 2 ^ 53) by (unfold safe in Hab; lia).
  rewrite (binary_round_aux_exact _ _ _ (Z.abs (a * b)) Hsafe).
  - f_equal.
    + destruct (Z.ltb_spec a 0), (Z.ltb_spec b 0), (Z.ltb_spec (a * b) 0); simpl; nia.
    + apply Pos2Z.inj. rewrite mantissa_spec, M by assumption. f_equal. f_equal. lia.
    + lia.
  - pose proof (Z.log2_mul_below (Z.abs a) (Z.abs b) ltac:(lia) ltac:(lia)).
    rewrite Z.abs_mul. unfold bit_length in *. lia.
  - rewrite Pos2Z.inj_mul, Ma, Mb, Z.abs_mul.
    replace (- (ea + eb)) with (- ea + - eb) by lia. rewrite Z.pow_add_r by lia. ring.
Qed.

Lemma bit_length_spec (z : Z) : 0 < z -> 2 ^ (bit_length z - 1) <= z < 2 ^ bit_length z.
Proof.
  intros H. unfold bit_length. pose proof (Z.log2_spec z H).
  replace (Z.log2 z + 1 - 1) with (Z.log2 z) by lia.
  replace (Z.log2 z + 1) with (Z.succ (Z.log2 z)) by lia. assumption.
Qed.

(** Positive doubles are ordered by exponent, then by mantissa. *)
Lemma compare_magnitude (a b : Z) (ma mb : positive) (ea eb : Z) :
  0 < a -> 0 < b ->
  ea = bit_length a - 53 -> Zpos ma = a * 2 ^ (- ea) -> ea <= 0 ->
  eb = bit_length b - 53 -> Zpos mb = b * 2 ^ (- eb) -> eb <= 0 ->
  match ea ?= eb with
  | Eq => Pos.compare_cont Eq ma mb
  | Lt => Lt
  | Gt => Gt
  end = (a ?= b).
Proof.
  intros Ha Hb Ea Ma Ea0 Eb Mb Eb0.
  pose proof (bit_length_spec a Ha) as [La Ua].
  pose proof (bit_length_spec b Hb) as [Lb Ub].
  destruct (Z.compare_spec ea eb) as [E|E|E].
  - change (Pos.compare_cont Eq ma mb) with (Zpos ma ?= Zpos mb).
    rewrite Ma, Mb, E.
    assert (0 < 2 ^ (- eb)) by (apply Z.pow_pos_nonneg; lia).
    destruct (Z.compare_spec a b);
      [apply Z.compare_eq_iff; subst; reflexivity
      |apply Z.compare_lt_iff; nia|apply Z.compare_gt_iff; nia].
  - symmetry. apply Z.compare_lt_iff.
    assert (2 ^ bit_length a <= 2 ^ (bit_length b - 1)) by (apply Z.pow_le_mono_r; lia). lia.
  - symmetry. apply Z.compare_gt_iff.
    assert (2 ^ bit_length b <= 2 ^ (bit_length a - 1)) by (apply Z.pow_le_mono_r; lia). lia.
Qed.

(** Comparison of safe integers as doubles is their comparison. *)
Lemma compare_exact (a b : Z) :
  safe a -> safe b -> SFcompare (exact a) (exact b) = Some (a ?= b).
Proof.
  intros Ha Hb.
  destruct (Z.eq_dec a 0) as [->|Na]; [destruct b; reflexivity|].
  destruct (Z.eq_dec b 0) as [->|Nb]; [destruct a; reflexivity|].
  destruct (exact_finite a Ha Na) as (ma & ea & -> & Ea & Ea0 & Ma).
  destruct (exact_finite b Hb Nb) as (mb & eb & -> & Eb & Eb0 & Mb).
  unfold SFcompare. f_equal.
  destruct (Z.ltb_spec a 0) as [A|A], (Z.ltb_spec b 0) as [B|B].
  - replace (a ?= b) with (CompOpp (- a ?= - b))
      by (rewrite Z.compare_opp; symmetry; apply Z.compare_antisym).
    rewrite (Z.abs_neq a) in * by lia. rewrite (Z.abs_neq b) in * by lia.
    rewrite <- (compare_magnitude (- a) (- b) ma mb ea eb) by lia.
    destruct (ea ?= eb); reflexivity.
  - symmetry. apply Z.compare_lt_iff. lia.
  - symmetry. apply Z.compare_gt_iff. lia.
  - rewrite (Z.abs_eq a) in * by lia. rewrite (Z.abs_eq b) in * by lia.
    apply compare_magnitude; lia.
Qed.

Lemma eqb_exact (a b : Z) : safe a -> safe b -> eqb (exact a) (exact b) = (a =? b).
Proof.
  intros Ha Hb. unfold eqb, SFeqb. rewrite compare_exact by assumption.
  destruct (Z.compare_spec a b), (Z.eqb_spec a b); try reflexivity; lia.
Qed.

Lemma ltb_exact (a b : Z) : safe a -> safe b -> ltb (exact a) (exact b) = (a <? b).
Proof.
  intros Ha Hb. unfold ltb, SFltb. rewrite compare_exact by assumption.
  unfold Z.ltb. destruct (a ?= b); reflexivity.
Qed.

Lemma leb_exact (a b : Z) : safe a -> safe b -> leb (exact a) (exact b) = (a <=? b).
Proof.
  intros Ha Hb. unfold leb, SFleb. rewrite compare_exact by assumption.
  unfold Z.leb. destruct (a ?= b); reflexivity.
Qed.

Lemma gtb_exact (a b : Z) : safe a -> safe b -> gtb (exact a) (exact b) = (b <? a).
Proof. intros Ha Hb. apply ltb_exact; assumption. Qed.

Lemma geb_exact (a b : Z) : safe a -> safe b -> geb (exact a) (exact b) = (b <=? a).
Proof. intros Ha Hb. apply leb_exact; assumption. Qed.

(** The integer part of a double that holds an integer. *)
Lemma trunc_exact (z : Z) : safe z -> trunc (exact z) = z.
Proof.
  intros Hz. destruct (Z.eq_dec z 0) as [->|Nz]; [reflexivity|].
  destruct (exact_finite z Hz Nz) as (m & e & -> & E & E0 & M).
  unfold trunc. rewrite M.
  rewrite <- (Z.opp_involutive e) at 2. rewrite Z.shiftl_opp_r, Z.shiftr_div_pow2 by lia.
  rewrite Z.div_mul by (apply Z.pow_nonzero; lia).
  unfold cond_Zopp. destruct (Z.ltb_spec z 0); lia.
Qed.

Lemma floor_exact (z : Z) : safe z -> floor (exact z) = exact z.
Proof.
  intros Hz. destruct (Z.eq_dec z 0) as [->|Nz]; [reflexivity|].
  destruct (exact_finite z Hz Nz) as (m & e & E & Ee & E0 & M).
  rewrite E. unfold floor. destruct (Z.leb_spec 0 e); [reflexivity|].
  rewrite (signed_mantissa z m e M).
  rewrite <- (Z.opp_involutive e) at 2. rewrite Z.shiftl_opp_r, Z.shiftr_div_pow2 by lia.
  rewrite Z.div_mul by (apply Z.pow_nonzero; lia).
  rewrite <- E. destruct z as [|p|p]; [lia| |]; apply (lit_exact _ Hz).
Qed.

Lemma isFinite_exact (z : Z) : isFinite (exact z) = true.
Proof. destruct z; reflexivity. Qed.

Lemma isInteger_exact (z : Z) : safe z -> isInteger (exact z) hint_none = true.
Proof.
  intros Hz. unfold isInteger. rewrite isFinite_exact, floor_exact, eqb_exact by assumption.
  rewrite Z.eqb_refl. reflexivity.
Qed.

(** Division of safe integers is exact when it leaves no remainder. *)
Lemma div_exact (b c : Z) :
  safe b -> safe c -> safe (b * c) -> b <> 0 -> c <> 0 ->
  div (exact (b * c)) (exact b) = exact c.
Proof.
  intros Hb Hc Ha Nb Nc.
  assert (Na : b * c <> 0) by lia.
  destruct (exact_finite (b * c) Ha Na) as (ma & ea & -> & Ea & Ea0 & Ma).
  destruct (exact_finite b Hb Nb) as (mb & eb & -> & Eb & Eb0 & Mb).
  destruct (exact_finite c Hc Nc) as (mc & ec & -> & Ec & Ec0 & Mc).
  assert (0 < bit_length (Z.abs b)) by (apply bit_length_pos; lia).
  assert (0 < bit_length (Z.abs c)) by (apply bit_length_pos; lia).
  assert (0 < bit_length (Z.abs (b * c))) by (apply bit_length_pos; lia).
  assert (bit_length (Z.abs (b * c)) <= bit_length (Z.abs b) + bit_length (Z.abs c)) as Hbl.
  { pose proof (Z.log2_mul_above (Z.abs b) (Z.abs c) ltac:(lia) ltac:(lia)).
    rewrite Z.abs_mul. unfold bit_length. lia. }
  unfold div, SFdiv, SFdiv_core_binary. cbn [Zdigits2].
  rewrite !digits2_pos_bit_length, Ma, Mb, !bit_length_shift by lia.
  unfold fexp, emin, prec, emax.
  set (e' := Z.min _ _).
  assert (e' = ea - eb - 53) as He' by (unfold e'; lia).
  replace (ea - eb - e') with 53 by lia.
  rewrite Z.shiftl_mul_pow2 by lia.
  assert (0 < 2 ^ (- ea) /\ 0 < 2 ^ (- eb) /\ 0 < 2 ^ (- e')) as (Pa & Pb & Pe)
    by (repeat split; apply Z.pow_pos_nonneg; lia).
  assert (Z.abs (b * c) * 2 ^ (- ea) * 2 ^ 53
          = (Z.abs c * 2 ^ (- e')) * (Z.abs b * 2 ^ (- eb))) as Hq.
  { rewrite Z.abs_mul.
    replace (- e') with (- ea + 53 + eb) by lia.
    replace (- ea + 53 + eb) with ((- ea + 53 - (- eb)) + 0) by lia.
    assert (2 ^ (- ea) * 2 ^ 53 = 2 ^ (- ea + 53 - - eb + 0) * 2 ^ (- eb)) as P.
    { rewrite <- !Z.pow_add_r by lia. f_equal. lia. }
    nia. }
  pose proof (Z.div_eucl_eq (Z.abs (b * c) * 2 ^ (- ea) * 2 ^ 53) (Z.abs b * 2 ^ (- eb))
                ltac:(nia)) as D.
  pose proof (Z.mod_pos_bound (Z.abs (b * c) * 2 ^ (- ea) * 2 ^ 53) (Z.abs b * 2 ^ (- eb))
                ltac:(nia)) as B.
  unfold Z.modulo in B.
  destruct (Z.div_eucl _ _) as [q r].
  assert (q = Z.abs c * 2 ^ (- e') /\ r = 0) as [-> ->].
  { rewrite Hq in D. 
    assert (Z.abs b * 2 ^ (- eb) * (Z.abs c * 2 ^ (- e') - q) = r) by lia.
    assert (Z.abs c * 2 ^ (- e') - q = 0) by nia. lia. }
  unfold new_location, new_location_even, new_location_odd.
  destruct (Z.abs c * 2 ^ (- e')) as [|q|q] eqn:Q; try lia.
  match goal with
  | |- binary_round_aux _ _ _ _ _ ?l = _ => replace l with loc_Exact
  end.
  2:{ destruct (Z.even _); reflexivity. }
  match goal with
  | |- binary_round_aux _ _ ?s _ _ _ = _ =>
      pose proof (binary_round_aux_exact s q e' (Z.abs c)) as R
  end.
  unfold prec, emax in R. rewrite R; [| unfold safe in Hc; lia | lia | lia].
  f_equal.
  - destruct (Z.ltb_spec (b * c) 0), (Z.ltb_spec b 0), (Z.ltb_spec c 0); simpl; nia.
  - apply Pos2Z.inj. rewrite mantissa_spec, Mc by (unfold safe in Hc; lia).
    f_equal. f_equal. lia.
  - lia.
Qed.

Lemma div_exact_nonneg (b c : Z) :
  0 < b -> 0 <= c -> safe b -> safe (b * c) -> div (exact (b * c)) (exact b) = exact c.
Proof.
  intros Hb Hc Sb Sa.
  destruct (Z.eq_dec c 0) as [->|Nc].
  - rewrite Z.mul_0_r. destruct b; try lia. reflexivity.
  - apply div_exact; try lia; try assumption. unfold safe in *. nia.
Qed.

Lemma ushr_exact (z k : Z) : safe z -> ushr (exact z) k = ushrZ z k.
Proof. intros Hz. unfold ushr, ushrZ, ToUint32. rewrite trunc_exact by exact Hz. reflexivity. Qed.

(** *** Reading an integer field *)

Lemma peek_first (pre bytes post : list Z) (b : Z) :
  peek (pre ++ (b :: bytes) ++ post) (Some (Z.of_nat (length pre))) = Some b.
Proof.
  unfold peek. rewrite <- (Z.add_0_r (Z.of_nat (length pre))).
  rewrite at_window by (simpl length; lia). reflexivity.
Qed.

Lemma fold_be_shift (l : list Z) (v d : Z) :
  fold_left (fun acc b => acc * 256 + b) l (v + d)
  = fold_left (fun acc b => acc * 256 + b) l v + d * 256 ^ Z.of_nat (length l).
Proof.
  revert v d. induction l as [|x l IH]; intros v d.
  - simpl. lia.
  - cbn [fold_left length]. rewrite Nat2Z.inj_succ, Z.pow_succ_r by lia.
    replace ((v + d) * 256 + x) with (v * 256 + x + d * 256) by lia.
    rewrite IH. lia.
Qed.

(** The accumulation of [readUInt] and [readInt] is exact while it stays
    below 2^53 in magnitude. *)
Lemma read_bytes_signed (bytes : list Z) :
  forall (pre post : list Z) (v : Z),
    Forall is_byte bytes ->
    (Z.abs v + 1) * 256 ^ Z.of_nat (length bytes) <= 2 ^ 53 ->
    read_bytes (pre ++ bytes ++ post) (length bytes) (exact v) (Some (Z.of_nat (length pre)))
    = (exact (fold_left (fun acc b => acc * 256 + b) bytes v),
       Some (Z.of_nat (length pre) + Z.of_nat (length bytes))).
Proof.
  induction bytes as [|b bytes IH]; intros pre post v Hb Hs.
  - simpl. rewrite Z.add_0_r. reflexivity.
  - inversion Hb as [|? ? Hb0 Hb']; subst. unfold is_byte in Hb0.
    cbn [length] in Hs. rewrite Nat2Z.inj_succ, Z.pow_succ_r in Hs by lia.
    assert (0 < 256 ^ Z.of_nat (length bytes)) as Hp by (apply Z.pow_pos_nonneg; lia).
    assert (Z.abs v * 256 + 256 <= 2 ^ 53) as Hs1 by nia.
    cbn [length read_bytes fold_left]. rewrite peek_first.
    rewrite (lit_exact 256), (lit_exact b) by (unfold safe; lia).
    rewrite mul_exact, add_exact by (unfold safe; lia).
    specialize (IH (pre ++ [b]) post (v * 256 + b) Hb' ltac:(nia)).
    rewrite <- app_assoc, length_app in IH. cbn [app length] in IH.
    cbn [advance app].
    replace (Z.of_nat (length pre) + 1) with (Z.of_nat (length pre + 1)) by lia.
    rewrite IH. f_equal. f_equal. lia.
Qed.

(** [readUInt] on a field of at most six bytes returns the integer the
    bytes spell, big-endian. *)
Lemma readUInt_exact (pre bytes post : list Z) :
  Forall is_byte bytes -> (length bytes <= 6)%nat ->
  readUInt (pre ++ bytes ++ post) (length bytes) (Some (Z.of_nat (length pre)))
  = (exact (of_be_bytes bytes), Some (Z.of_nat (length pre) + Z.of_nat (length bytes))).
Proof.
  intros Hb Hn. unfold readUInt. change (lit 0) with (exact 0).
  apply read_bytes_signed; [exact Hb|].
  change (Z.abs 0 + 1) with 1. rewrite Z.mul_1_l. change (2 ^ 53) with (256 ^ 6 * 32).
  assert (256 ^ Z.of_nat (length bytes) <= 256 ^ 6) by (apply Z.pow_le_mono_r; lia). lia.
Qed.

(** The value of a big-endian field read as a two's complement integer. *)
Definition of_be_signed (l : list Z) : Z :=
  match l with
  | [] => 0
  | b :: _ => of_be_bytes l - (if b <? 128 then 0 else 256 ^ Z.of_nat (length l))
  end.

Lemma sign_bit (b : Z) :
  0 <= b < 256 ->
  andZ b 0x7f = b mod 128 /\ (andZ b 0x80 =? 0) = (b <? 128).
Proof.
  intros Hb.
  assert (forallb (fun b => (andZ b 0x7f =? b mod 128)
                            && Bool.eqb (andZ b 0x80 =? 0) (b <? 128))
                  (map Z.of_nat (seq 0 256)) = true) as H by (vm_compute; reflexivity).
  rewrite forallb_forall in H.
  assert (In b (map Z.of_nat (seq 0 256))) as Hin.
  { apply in_map_iff. exists (Z.to_nat b). split; [lia|]. apply in_seq. lia. }
  specialize (H b Hin). apply andb_prop in H. destruct H as [H1 H2].
  split; [apply Z.eqb_eq; exact H1 | apply eqb_prop; exact H2].
Qed.

(** [readInt] on a field of at most six bytes returns the two's complement
    integer the bytes spell. *)
Lemma readInt_exact (pre bytes post : list Z) :
  Forall is_byte bytes -> (length bytes <= 6)%nat ->
  readInt (pre ++ bytes ++ post) (length bytes) (Some (Z.of_nat (length pre)))
  = (exact (of_be_signed bytes), Some (Z.of_nat (length pre) + Z.of_nat (length bytes))).
Proof.
  intros Hb Hn. destruct bytes as [|b bytes].
  - simpl. rewrite Z.add_0_r. reflexivity.
  - inversion Hb as [|? ? Hb0 Hb']; subst. unfold is_byte in Hb0.
    cbn [length readInt]. rewrite peek_first.
    destruct (sign_bit b Hb0) as [E7 E8]. rewrite E7, E8.
    pose proof (Z.mod_pos_bound b 128 ltac:(lia)) as B.
    rewrite (lit_exact 0), (lit_exact (b mod 128)), (lit_exact 0x80) by (unfold safe; lia).
    rewrite add_exact by (unfold safe; lia). rewrite Z.add_0_l.
    assert (256 ^ Z.of_nat (length bytes) <= 256 ^ 5) as P
      by (apply Z.pow_le_mono_r; simpl in Hn; lia).
    assert (0 < 256 ^ Z.of_nat (length bytes)) as P0 by (apply Z.pow_pos_nonneg; lia).
    set (v := if b <? 128 then b mod 128 else b mod 128 - 128).
    assert ((if b <? 128 then exact (b mod 128)
             else sub (exact (b mod 128)) (exact 128)) = exact v) as ->.
    { unfold v. destruct (b <? 128); [reflexivity|].
      apply sub_exact; unfold safe; lia. }
    assert (v = b - (if b <? 128 then 0 else 256)) as Hv.
    { unfold v. destruct (Z.ltb_spec b 128).
      - rewrite Z.mod_small by lia. lia.
      - replace b with (b - 128 + 1 * 128) at 1 by lia.
        rewrite Z.mod_add, Z.mod_small by lia. lia. }
    pose proof (read_bytes_signed bytes (pre ++ [b]) post v Hb') as R.
    rewrite <- app_assoc, length_app in R. cbn [app length] in R.
    cbn [advance app].
    replace (Z.of_nat (length pre) + 1) with (Z.of_nat (length pre + 1)) by lia.
    rewrite R.
    2:{ change (2 ^ 53) with (256 ^ 5 * 8192). 
        assert (Z.abs v + 1 <= 129) by (destruct (Z.ltb_spec b 128); lia). nia. }
    f_equal; [|f_equal; lia]. f_equal.
    unfold of_be_signed, of_be_bytes. cbn [fold_left length].
    rewrite Z.mul_0_l, Z.add_0_l, Hv.
    replace (b - (if b <? 128 then 0 else 256))
      with (b + - (if b <? 128 then 0 else 256)) by lia.
    rewrite fold_be_shift, Nat2Z.inj_succ, Z.pow_succ_r by lia.
    destruct (b <? 128); lia.
Qed.

Lemma be_bytes_is_byte (k : nat) : forall n, Forall is_byte (be_bytes k n).
Proof.
  induction k as [|k IH]; intros n; cbn [be_bytes]; [constructor|].
  apply Forall_app; split; [apply IH|]. constructor; [apply wrap_is_byte | constructor].
Qed.

(** The first byte of a big-endian field. *)
Lemma be_bytes_head (k : nat) :
  forall z, be_bytes (S k) z = Z.shiftr z (8 * Z.of_nat k) mod 256 :: be_bytes k z.
Proof.
  induction k as [|k IH]; intros z.
  - reflexivity.
  - change (be_bytes (S (S k)) z) with (be_bytes (S k) (Z.shiftr z 8) ++ [z mod 256]).
    rewrite IH. cbn [app]. rewrite Z.shiftr_shiftr by lia.
    change (be_bytes (S k) z) with (be_bytes k (Z.shiftr z 8) ++ [z mod 256]).
    f_equal. f_equal. f_equal. lia.
Qed.

(** A two's complement integer that fits in [k] bytes is read back from its
    big-endian field. *)
Lemma of_be_signed_be_bytes (k : nat) (z : Z) :
  - (128 * 256 ^ Z.of_nat k) <= z < 128 * 256 ^ Z.of_nat k ->
  of_be_signed (be_bytes (S k) z) = z.
Proof.
  intros Hz. rewrite be_bytes_head. unfold of_be_signed.
  rewrite <- be_bytes_head, of_be_bytes_be_bytes, length_be_bytes.
  rewrite Nat2Z.inj_succ, Z.pow_succ_r by lia.
  rewrite Z.shiftr_div_pow2 by lia.
  replace (2 ^ (8 * Z.of_nat k)) with (256 ^ Z.of_nat k)
    by (change 256 with (2 ^ 8); rewrite <- Z.pow_mul_r by lia; reflexivity).
  assert (0 < 256 ^ Z.of_nat k) as P by (apply Z.pow_pos_nonneg; lia).
  set (p := 256 ^ Z.of_nat k) in *. clearbody p.
  destruct (Z.ltb_spec z 0) as [N|N].
  - assert (-128 <= z / p < 0) as Q.
    { split; [apply Z.div_le_lower_bound; lia | apply Z.div_lt_upper_bound; lia]. }
    replace (z / p) with (z / p + 256 + (-1) * 256) by lia.
    rewrite Z.mod_add, (Z.mod_small (z / p + 256)) by lia.
    destruct (Z.ltb_spec (z / p + 256) 128); [lia|].
    replace z with (z + 256 * p + (-1) * (256 * p)) at 1 by lia.
    rewrite Z.mod_add, (Z.mod_small (z + 256 * p)) by lia. lia.
  - assert (0 <= z / p < 128) as Q.
    { split; [apply Z.div_pos; lia | apply Z.div_lt_upper_bound; lia]. }
    rewrite (Z.mod_small (z / p)) by lia.
    destruct (Z.ltb_spec (z / p) 128); [|lia].
    rewrite (Z.mod_small z) by lia. lia.
Qed.

Lemma readUInt_field (tag : Z) (k : nat) (z : Z) (post : list Z) :
  (k <= 6)%nat ->
  readUInt (tag :: be_bytes k z ++ post) k (Some 1)
  = (exact (z mod 256 ^ Z.of_nat k), Some (1 + Z.of_nat k)).
Proof.
  intros Hk.
  pose proof (readUInt_exact [tag] (be_bytes k z) post (be_bytes_is_byte k _)) as R.
  rewrite length_be_bytes, of_be_bytes_be_bytes in R. exact (R Hk).
Qed.

Lemma readInt_field (tag : Z) (k : nat) (z : Z) (post : list Z) :
  (S k <= 6)%nat -> - (128 * 256 ^ Z.of_nat k) <= z < 128 * 256 ^ Z.of_nat k ->
  readInt (tag :: be_bytes (S k) z ++ post) (S k) (Some 1)
  = (exact z, Some (1 + Z.of_nat (S k))).
Proof.
  intros Hk Hz.
  pose proof (readInt_exact [tag] (be_bytes (S k) z) post (be_bytes_is_byte (S k) _)) as R.
  rewrite length_be_bytes, of_be_signed_be_bytes in R by exact Hz. exact (R Hk).
Qed.

Lemma shl_byte (d k : Z) :
  0 <= d < 256 -> 0 <= k <= 24 -> ushrZ (shlZ d k) 0 = d * 2 ^ k.
Proof.
  intros Hd Hk. unfold ushrZ, shlZ, uint32.
  rewrite Z.shiftr_0_r.
  assert (int32 d = d) as ->.
  { unfold int32. rewrite Z.mod_small by lia.
    destruct (Z.ltb_spec d (2 ^ 31)); lia. }
  rewrite Z.shiftl_mul_pow2 by lia.
  assert (0 <= d * 2 ^ k < 2 ^ 32) as B.
  { assert (0 < 2 ^ k <= 2 ^ 24) by (split; [apply Z.pow_pos_nonneg|apply Z.pow_le_mono_r]; lia).
    change (2 ^ 32) with (256 * 2 ^ 24). nia. }
  unfold int32. rewrite (Z.mod_small (d * 2 ^ k)) by lia.
  destruct (Z.ltb_spec (d * 2 ^ k) (2 ^ 31)).
  - apply Z.mod_small. lia.
  - replace (d * 2 ^ k - 2 ^ 32) with (d * 2 ^ k + (-1) * 2 ^ 32) by lia.
    rewrite Z.mod_add by lia. apply Z.mod_small. lia.
Qed.

Lemma turns_exact (n : nat) : (Z.of_nat n < 2 ^ 53) -> turns (exact (Z.of_nat n)) = n.
Proof.
  intros H. unfold turns, to_length.
  replace (isNaN (exact (Z.of_nat n))) with false by (destruct (Z.of_nat n); reflexivity).
  rewrite trunc_exact by (unfold safe; lia). lia.
Qed.

(** ** Decoder: the claims *)

(** [bytes] is one complete encoded value, which [read] decodes to [v]
    using all of them. *)
Definition encodes (Number_toString Date_toString : number -> jsstring)
           (bytes : list Z) (v : value) : Prop :=
  Forall is_byte bytes /\
  read Number_toString Date_toString (S (length bytes)) bytes (Some 0)
  = Ok (v, Some (Z.of_nat (length bytes))).

(** An encoded map entry: the bytes and the decoded value of its key and of
    its value. *)
Record entry := Entry {
  key_bytes : list Z; key_value : value;
  value_bytes : list Z; value_value : value
}.

Definition entry_bytes (e : entry) : list Z := key_bytes e ++ value_bytes e.

(** The headers of a map of [n] entries: fixmap, map 16 and map 32. *)
Inductive map_tag (n : nat) : list Z -> Prop :=
| fixmap : (n <= 15)%nat -> map_tag n [0x80 + Z.of_nat n]
| map16 : Z.of_nat n < 2 ^ 16 -> map_tag n (0xde :: be_bytes 2 (Z.of_nat n))
| map32 : Z.of_nat n < 2 ^ 32 -> map_tag n (0xdf :: be_bytes 4 (Z.of_nat n)).

Section DecoderClaims.

Variable Number_toString : number -> jsstring.
Variable Date_toString : number -> jsstring.

Local Abbreviation read' := (read Number_toString Date_toString).
Local Abbreviation deserialize' := (deserialize Number_toString Date_toString).

Lemma deserialize_single (array : list Z) (opts : options) :
  multiple opts = false -> Forall is_byte array -> array <> [] ->
  deserialize' array opts =
  '(data, _) ← read' (S (length array)) array (Some 0); Ok data.
Proof.
  intros M Ha Hne. unfold deserialize. rewrite M.
  destruct array as [|b array]; [congruence|].
  rewrite wrap_bytes by exact Ha. reflexivity.
Qed.

(** A complete encoded value inside a larger array is read from where it
    starts to where it ends, whatever the fuel of the larger array. *)
Lemma read_embedded (pre bytes post : list Z) (v : value) (fuel : nat) :
  encodes Number_toString Date_toString bytes v ->
  (length bytes < fuel)%nat ->
  read' fuel (pre ++ bytes ++ post) (Some (Z.of_nat (length pre)))
  = Ok (v, Some (Z.of_nat (length pre) + Z.of_nat (length bytes))).
Proof.
  intros [Hb E] F.
  pose proof (read_window pre bytes post Number_toString Date_toString _ Hb 0 v _ E (Z.le_refl _))
    as W.
  rewrite Z.add_0_r in W.
  rewrite <- W. apply read_fuel_le; [lia|]. rewrite W. reflexivity.
Qed.

(** C8: whatever follows it, and in either mode, an array that starts
    with the reserved tag 0xc1 makes [deserialize] fail with
    InvalidByteCode. *)
Theorem reserved_tag_is_rejected (rest : list Z) (opts : options) :
  deserialize' (0xc1 :: rest) opts = Throw InvalidByteCode.
Proof.
  unfold deserialize.
  change (Nat.eqb (length (0xc1 :: rest)) 0) with false. cbv iota.
  set (array := map _ (0xc1 :: rest)).
  assert (read' (S (length array)) array (Some 0) = Throw InvalidByteCode) as R.
  { rewrite read_perform. reflexivity. }
  destruct (multiple opts).
  - cbn [read_all]. replace (0 <? Z.of_nat (length array)) with true
      by (symmetry; apply Z.ltb_lt; unfold array; simpl length; lia).
    rewrite R. reflexivity.
  - rewrite R. reflexivity.
Qed.

(** C9: when the array begins with one complete encoded value,
    [deserialize] without [multiple] returns that value and pays no
    attention to the bytes after it. *)
Theorem trailing_bytes_are_ignored (bytes extra : list Z) (v : value) (opts : options) :
  multiple opts = false ->
  encodes Number_toString Date_toString bytes v ->
  deserialize' (bytes ++ extra) opts = Ok v.
Proof.
  intros M H. pose proof H as [Hb E].
  assert (bytes <> []) as Hne.
  { intros ->. simpl in E. discriminate. }
  unfold deserialize. rewrite M.
  destruct (Nat.eqb_spec (length (bytes ++ extra)) 0) as [L|_].
  { rewrite length_app in L. destruct bytes; [congruence | simpl in L; lia]. }
  rewrite map_app, (wrap_bytes bytes Hb).
  pose proof (read_embedded [] bytes (map (fun b => b mod 256) extra) v
                (S (length (bytes ++ map (fun b => b mod 256) extra))) H) as R.
  cbn [app length] in R. change (Z.of_nat 0) with 0 in R. rewrite Z.add_0_l in R.
  rewrite R; [reflexivity|].
  rewrite length_app. lia.
Qed.

(** A key other than [__proto__] is stored. *)
Lemma obj_assign_stored (data : list (jsstring * value)) (key : jsstring) (v : value) :
  key <> str "__proto__" -> obj_assign data key v = Ok (obj_set data key v).
Proof. intros H. unfold obj_assign. destruct (decide _); [contradiction | reflexivity]. Qed.

(** The object [readMap] builds from decoded entries whose keys are not
    [__proto__]: each value is stored under the string conversion of its
    key, a later equal key overwriting an earlier one. *)
Fixpoint store_entries (data : list (jsstring * value)) (entries : list (jsstring * value))
  : list (jsstring * value) :=
  match entries with
  | [] => data
  | (key, v) :: entries => store_entries (obj_set data key v) entries
  end.

Lemma readMap_loop_entries (fuel : nat) (entries : list entry) :
  forall (pre : list Z) (data : list (jsstring * value)) (keys : list jsstring),
    Forall (fun e => encodes Number_toString Date_toString (key_bytes e) (key_value e) /\
                     encodes Number_toString Date_toString (value_bytes e) (value_value e))
           entries ->
    Forall2 (fun e s => ToString Number_toString Date_toString (key_value e) = Ok s)
            entries keys ->
    Forall (fun s => s <> str "__proto__") keys ->
    (length (concat (map entry_bytes entries)) < fuel)%nat ->
    readMap_loop Number_toString Date_toString
      (read' fuel (pre ++ concat (map entry_bytes entries)))
      (length entries) data (Some (Z.of_nat (length pre)))
    = Ok (VObject (store_entries data (combine keys (map value_value entries))),
          Some (Z.of_nat (length (pre ++ concat (map entry_bytes entries))))).
Proof.
  induction entries as [|e entries IH]; intros pre data keys He Hk Hp F.
  - inversion Hk; subst. simpl. rewrite app_nil_r. reflexivity.
  - inversion He as [|? ? [Ek Ev] He']; subst.
    inversion Hk as [|? s ? keys' Hs Hk']; subst.
    inversion Hp as [|? ? Hps Hp']; subst.
    set (rest := concat (map entry_bytes entries)) in *.
    assert (concat (map entry_bytes (e :: entries))
            = key_bytes e ++ value_bytes e ++ rest) as C.
    { cbn [map concat]. unfold entry_bytes at 1. fold rest. symmetry. apply app_assoc. }
    rewrite C in *. clear C. rewrite !length_app in F.
    cbn [length readMap_loop].
    rewrite (read_embedded pre (key_bytes e) (value_bytes e ++ rest) _ fuel Ek) by lia.
    cbn [mbind outcome_bind bind].
    pose proof (read_embedded (pre ++ key_bytes e) (value_bytes e) rest _ fuel Ev ltac:(lia))
      as Rv.
    rewrite length_app, Nat2Z.inj_add in Rv. rewrite <- app_assoc in Rv.
    rewrite Rv. cbn [mbind outcome_bind bind]. rewrite Hs. cbn [mbind outcome_bind bind].
    rewrite obj_assign_stored by exact Hps. cbn [mbind outcome_bind bind].
    specialize (IH (pre ++ key_bytes e ++ value_bytes e) (obj_set data s (value_value e))
                   keys' He' Hk' Hp' ltac:(fold rest; lia)).
    fold rest in IH.
    rewrite !length_app, !Nat2Z.inj_add in IH.
    rewrite <- !app_assoc in IH.
    replace (Z.of_nat (length pre) + Z.of_nat (length (key_bytes e))
             + Z.of_nat (length (value_bytes e)))
      with (Z.of_nat (length pre) + (Z.of_nat (length (key_bytes e))
                                     + Z.of_nat (length (value_bytes e)))) by lia.
    rewrite IH. cbn [combine map store_entries]. do 3 f_equal. rewrite !length_app. lia.
Qed.

Lemma fixmap_classify (n : nat) :
  (n <= 15)%nat ->
  classify (0x80 + Z.of_nat n) = a_map (lit (Z.of_nat n)) 0 /\
  turns (lit (Z.of_nat n)) = n /\
  ltb (lit (Z.of_nat n)) (lit 0) = false.
Proof.
  intros Hn.
  do 16 (destruct n as [|n]; [repeat split; reflexivity|]). lia.
Qed.

Lemma map_tag_bytes (n : nat) (header : list Z) :
  map_tag n header -> Forall is_byte header /\ header <> [].
Proof.
  intros [H|H|H]; (split; [|discriminate]).
  - constructor; [unfold is_byte; lia | constructor].
  - constructor; [unfold is_byte; lia | apply be_bytes_is_byte].
  - constructor; [unfold is_byte; lia | apply be_bytes_is_byte].
Qed.

Lemma entries_bytes (entries : list entry) :
  Forall (fun e => encodes Number_toString Date_toString (key_bytes e) (key_value e) /\
                   encodes Number_toString Date_toString (value_bytes e) (value_value e))
         entries ->
  Forall is_byte (concat (map entry_bytes entries)).
Proof.
  induction 1 as [|e l [[Hk _] [Hv _]] _ IH]; simpl; [constructor|].
  unfold entry_bytes at 1. rewrite <- app_assoc.
  apply Forall_app; split; [exact Hk|]. apply Forall_app; split; [exact Hv | exact IH].
Qed.

(** The length field of a map 16 or map 32 header. *)
Lemma readMap_length (tag : Z) (k n : nat) (body : list Z) :
  (k <= 6)%nat -> Z.of_nat n < 256 ^ Z.of_nat k ->
  read_size (tag :: be_bytes k (Z.of_nat n) ++ body) (SFopp (lit 1)) k (Some 1)
  = (exact (Z.of_nat n), Some (1 + Z.of_nat k)).
Proof.
  intros Hk Hn. unfold read_size.
  change (ltb (SFopp (lit 1)) (lit 0)) with true. cbv iota.
  rewrite readUInt_field, Z.mod_small by lia. reflexivity.
Qed.

(** A decoded map is an object, whose keys are strings.  Whatever its
    header (fixmap, map 16 or map 32) and whatever values its keys decode to
    (numbers, arrays, ...), an encoded map none of whose keys converts to
    [__proto__] is read, at the top level or inside another value, as the
    object that stores each value under the string conversion of its key. *)
Theorem map_keys_are_converted_to_strings
    (entries : list entry) (keys : list jsstring) (header : list Z) (opts : options) :
  map_tag (length entries) header ->
  Forall (fun e => encodes Number_toString Date_toString (key_bytes e) (key_value e) /\
                   encodes Number_toString Date_toString (value_bytes e) (value_value e))
         entries ->
  Forall2 (fun e s => ToString Number_toString Date_toString (key_value e) = Ok s)
          entries keys ->
  Forall (fun s => s <> str "__proto__") keys ->
  let bytes := header ++ concat (map entry_bytes entries) in
  let object := VObject (store_entries [] (combine keys (map value_value entries))) in
  encodes Number_toString Date_toString bytes object /\
  (multiple opts = false -> deserialize' bytes opts = Ok object).
Proof.
  intros Hh He Hk Hp bytes object.
  destruct (map_tag_bytes _ _ Hh) as [Hhb Hhne].
  pose proof (entries_bytes entries He) as Hbody.
  assert (Forall is_byte bytes) as Hb by (apply Forall_app; split; assumption).
  assert (read' (S (length bytes)) bytes (Some 0)
          = Ok (object, Some (Z.of_nat (length bytes)))) as R.
  { pose proof (readMap_loop_entries (length bytes) entries header [] keys He Hk Hp) as L.
    fold bytes in L. fold object in L.
    assert (length (concat (map entry_bytes entries)) < length bytes)%nat as F.
    { unfold bytes. rewrite length_app. destruct header; [congruence | simpl; lia]. }
    specialize (L F).
    rewrite read_perform. unfold bytes in *. clear bytes Hb.
    set (body := concat (map entry_bytes entries)) in *.
    set (n := length entries) in *.
    destruct Hh as [Hn|Hn|Hn].
    - destruct (fixmap_classify _ Hn) as (C & T & Lt).
      change (peek ([0x80 + Z.of_nat n] ++ body) (Some 0)) with (Some (0x80 + Z.of_nat n)).
      cbv iota beta. rewrite C. cbn [perform advance]. unfold readMap, read_size.
      rewrite Lt, T. exact L.
    - change (peek ((0xde :: be_bytes 2 (Z.of_nat n)) ++ body) (Some 0)) with (Some 0xde).
      cbv iota beta. change (classify 0xde) with (a_map (SFopp (lit 1)) 2).
      cbn [perform advance]. unfold readMap. cbn [app].
      rewrite readMap_length by lia.
      rewrite turns_exact by lia.
      cbn [length] in L. rewrite length_be_bytes in L. exact L.
    - change (peek ((0xdf :: be_bytes 4 (Z.of_nat n)) ++ body) (Some 0)) with (Some 0xdf).
      cbv iota beta. change (classify 0xdf) with (a_map (SFopp (lit 1)) 4).
      cbn [perform advance]. unfold readMap. cbn [app].
      rewrite readMap_length by lia.
      rewrite turns_exact by lia.
      cbn [length] in L. rewrite length_be_bytes in L. exact L. }
  split; [split; assumption|].
  intros M. rewrite deserialize_single; try assumption.
  - rewrite R. reflexivity.
  - unfold bytes. destruct header; [congruence | discriminate].
Qed.

End DecoderClaims.

Lemma trailing_bytes_are_ignored_witness :
  deserialize (fun _ => []) (fun _ => []) ([0x92; 0x01; 0xc0] ++ [0xc1; 0xff]) no_options
  = Ok (VArray [VNumber (lit 1); VNull]).
Proof.
  apply (trailing_bytes_are_ignored (fun _ => []) (fun _ => [])); [reflexivity|].
  split; [|reflexivity].
  repeat constructor; unfold is_byte; lia.
Defined.

Lemma map_keys_are_converted_to_strings_witness :
  deserialize (fun _ => []) (fun _ => [])
    [0xde; 0x00; 0x02; 0x05; 0xc0; 0x92; 0x01; 0xc0; 0xc3] no_options
  = Ok (VObject [(str "5", VNull); (str "1,", VBoolean true)]).
Proof.
  assert (forall bytes v,
            forallb (fun x => (0 <=? x) && (x <? 256)) bytes = true ->
            read (fun _ => []) (fun _ => []) (S (length bytes)) bytes (Some 0)
            = Ok (v, Some (Z.of_nat (length bytes))) ->
            encodes (fun _ => []) (fun _ => []) bytes v) as enc.
  { intros bytes v H R. split; [|exact R].
    apply Forall_forall. intros x Hx.
    rewrite forallb_forall in H. apply list_elem_of_In in Hx. specialize (H x Hx).
    unfold is_byte. lia. }
  apply (map_keys_are_converted_to_strings (fun _ => []) (fun _ => [])
           [Entry [0x05] (VNumber (lit 5)) [0xc0] VNull;
            Entry [0x92; 0x01; 0xc0] (VArray [VNumber (lit 1); VNull]) [0xc3] (VBoolean true)]
           [str "5"; str "1,"] [0xde; 0x00; 0x02] no_options).
  - apply (map16 2). simpl. lia.
  - repeat (constructor; [split; apply enc; reflexivity|]). constructor.
  - repeat (constructor; [reflexivity|]). constructor.
  - repeat (constructor; [discriminate|]). constructor.
  - reflexivity.
Defined.

(** C10: an entry whose key is, or converts to, [__proto__] is not stored
    under the string conversion of its key.  The map with the one entry
    [["__proto__"]] (an array) to 1, and the map with the one entry
    ["__proto__"] to 1, are both read as the object without properties:
    [data[key] = read()] reaches the setter that [{}] inherits, and the
    entry is lost. *)
Lemma proto_key_is_not_stored (Number_toString Date_toString : number -> jsstring) :
  let key := [0xa9; 0x5f; 0x5f; 0x70; 0x72; 0x6f; 0x74; 0x6f; 0x5f; 0x5f] in
  deserialize Number_toString Date_toString key no_options = Ok (VString (str "__proto__")) /\
  ToString Number_toString Date_toString (VArray [VString (str "__proto__")])
  = Ok (str "__proto__") /\
  deserialize Number_toString Date_toString ([0x81; 0x91] ++ key ++ [0x01]) no_options
  = Ok (VObject []) /\
  deserialize Number_toString Date_toString ([0x81] ++ key ++ [0x01]) no_options
  = Ok (VObject []).
Proof. repeat split. Qed.

(** ** Numbers and timestamps at the 64-bit boundaries *)

(** The literals of [appendNumber] that no double represents are the next
    power of two. *)
Lemma literals_round_up :
  lit 0xffffffffffffffff = lit (2 ^ 64) /\ lit 0x7fffffffffffffff = lit (2 ^ 63).
Proof. split; reflexivity. Qed.

(** The integer tags the encoder chooses at the boundaries below 2^32. *)
Example integer_tags_below_32_bits (call : nat -> value -> value) :
  map (fun z => serialize call no_options 1 (VNumber (lit z)))
      [0; 127; 128; 255; 256; 65535; 65536; 4294967295;
       -1; -32; -33; -128; -129; -32768; -32769; -2147483648]
  = map Ok
      [[0x00]; [0x7f]; [0xcc; 0x80]; [0xcc; 0xff]; [0xcd; 0x01; 0x00]; [0xcd; 0xff; 0xff];
       [0xce; 0x00; 0x01; 0x00; 0x00]; [0xce; 0xff; 0xff; 0xff; 0xff];
       [0xff]; [0xe0]; [0xd0; 0xdf]; [0xd0; 0x80]; [0xd1; 0xff; 0x7f]; [0xd1; 0x80; 0x00];
       [0xd2; 0xff; 0xff; 0x7f; 0xff]; [0xd2; 0x80; 0x00; 0x00; 0x00]].
Proof. reflexivity. Qed.

(** The encoding of an integer of the 32-bit ranges in the smallest form
    that holds it: positive fixint, negative fixint, uint 8, int 8, uint 16,
    int 16, uint 32, int 32. *)
Definition integer_encoding (z : Z) : list Z :=
  if (0 <=? z) && (z <=? 0x7f) then [z]
  else if (z <? 0) && (-0x20 <=? z) then [z + 256]
  else if (0 <? z) && (z <=? 0xff) then 0xcc :: be_bytes 1 z
  else if (-0x80 <=? z) && (z <=? 0x7f) then 0xd0 :: be_bytes 1 z
  else if (0 <? z) && (z <=? 0xffff) then 0xcd :: be_bytes 2 z
  else if (-0x8000 <=? z) && (z <=? 0x7fff) then 0xd1 :: be_bytes 2 z
  else if (0 <? z) && (z <=? 0xffffffff) then 0xce :: be_bytes 4 z
  else 0xd2 :: be_bytes 4 z.

Lemma appendNumber_integer (z : Z) (th : type_hint) :
  - 2 ^ 31 <= z < 2 ^ 32 ->
  isInteger (exact z) th = true ->
  writes (appendNumber (exact z) th) (integer_encoding z).
Proof.
  intros Hz Hint.
  assert (Sz : safe z) by (unfold safe; lia).
  assert (forall c, - 2 ^ 52 <= c <= 2 ^ 52 -> safe c) as Sc by (unfold safe; lia).
  unfold appendNumber, integer_encoding. rewrite Hint.
  change (lit 0) with (exact 0). change (lit 0x7f) with (exact 0x7f).
  change (SFopp (lit 0x20)) with (exact (-0x20)). change (lit 0xff) with (exact 0xff).
  change (SFopp (lit 0x80)) with (exact (-0x80)). change (lit 0xffff) with (exact 0xffff).
  change (SFopp (lit 0x8000)) with (exact (-0x8000)). change (lit 0x7fff) with (exact 0x7fff).
  change (lit 0xffffffff) with (exact 0xffffffff).
  change (SFopp (lit 0x80000000)) with (exact (-0x80000000)).
  change (lit 0x7fffffff) with (exact 0x7fffffff).
  rewrite (geb_exact z 0), (leb_exact z 0x7f), (ltb_exact z 0), (geb_exact z (-0x20)),
    (gtb_exact z 0), (leb_exact z 0xff), (geb_exact z (-0x80)), (leb_exact z 0xffff),
    (geb_exact z (-0x8000)), (leb_exact z 0x7fff), (leb_exact z 0xffffffff),
    (geb_exact z (-0x80000000)), (leb_exact z 0x7fffffff) by (try apply Sc; lia || exact Sz).
  rewrite !ushr_exact, !trunc_exact by exact Sz.
  destruct (Z.leb_spec 0 z), (Z.leb_spec z 0x7f); cbn [andb].
  all: try (replace [z] with [z mod 256] by (rewrite Z.mod_small by lia; reflexivity);
            apply appendByte_writes).
  all: destruct (Z.ltb_spec z 0), (Z.leb_spec (-0x20) z); cbn [andb]; try lia.
  all: try (replace [z + 256] with [z mod 256];
            [apply appendByte_writes |
             f_equal; symmetry; apply (Z.mod_unique _ _ (-1)); lia]).
  all: destruct (Z.ltb_spec 0 z); try lia; destruct (Z.leb_spec z 0xff); cbn [andb]; try lia.
  all: try (apply (appendBytes_writes [0xcc; z])).
  all: destruct (Z.leb_spec (-0x80) z); cbn [andb]; try lia.
  all: try (apply (appendBytes_writes [0xd0; z])).
  all: destruct (Z.leb_spec z 0xffff); cbn [andb]; try lia.
  all: try (replace (0xcd :: be_bytes 2 z) with (map (fun b => b mod 256) [0xcd; ushrZ z 8; z]);
            [apply appendBytes_writes | simpl; rewrite ushrZ_byte by lia; reflexivity]).
  all: destruct (Z.leb_spec (-0x8000) z), (Z.leb_spec z 0x7fff); cbn [andb]; try lia.
  all: try (replace (0xd1 :: be_bytes 2 z) with (map (fun b => b mod 256) [0xd1; ushrZ z 8; z]);
            [apply appendBytes_writes | simpl; rewrite ushrZ_byte by lia; reflexivity]).
  all: destruct (Z.leb_spec z 0xffffffff); cbn [andb]; try lia.
  all: try (replace (0xce :: be_bytes 4 z)
              with (map (fun b => b mod 256) [0xce; ushrZ z 24; ushrZ z 16; ushrZ z 8; z]);
            [apply appendBytes_writes
            | simpl; rewrite !ushrZ_byte by lia; rewrite !Z.shiftr_shiftr by lia; reflexivity]).
  all: destruct (Z.leb_spec (-0x80000000) z), (Z.leb_spec z 0x7fffffff); cbn [andb]; try lia.
  all: try (replace (0xd2 :: be_bytes 4 z)
              with (map (fun b => b mod 256) [0xd2; ushrZ z 24; ushrZ z 16; ushrZ z 8; z]);
            [apply appendBytes_writes
            | simpl; rewrite !ushrZ_byte by lia; rewrite !Z.shiftr_shiftr by lia; reflexivity]).
Qed.

Lemma classify_positive_fixint (z : Z) :
  0 <= z <= 0x7f -> classify z = a_return (VNumber (lit z)).
Proof.
  intros Hz. unfold classify.
  destruct (Z.leb_spec 0 z); [|lia]. destruct (Z.leb_spec z 0x7f); [|lia]. reflexivity.
Qed.

Lemma classify_negative_fixint (z : Z) :
  -0x20 <= z < 0 -> classify (z + 256) = a_return (VNumber (lit z)).
Proof.
  intros Hz.
  assert (forall n, (n < 32)%nat ->
                    classify (Z.of_nat n - 32 + 256) = a_return (VNumber (lit (Z.of_nat n - 32))))
    as H.
  { intros n Hn. do 32 (destruct n as [|n]; [reflexivity|]). lia. }
  specialize (H (Z.to_nat (z + 32)) ltac:(lia)).
  rewrite Z2Nat.id in H by lia. replace (z + 32 - 32) with z in H by lia. exact H.
Qed.

(** What a pure write leaves in the fresh buffer of [serialize]. *)
Lemma writes_contents (f : buffer -> buffer) (out : list Z) :
  writes f out -> contents (f empty_buffer) = out.
Proof. intros H. destruct (H empty_buffer empty_buffer_ok) as [_ E]. exact E. Qed.

Section IntegerClaims.

Variable call : nat -> value -> value.
Variable Number_toString : number -> jsstring.
Variable Date_toString : number -> jsstring.

(** The decoder reads an integer of the 32-bit ranges back from its
    smallest encoding. *)
Lemma integer_encodes (z : Z) :
  - 2 ^ 31 <= z < 2 ^ 32 ->
  encodes Number_toString Date_toString (integer_encoding z) (VNumber (lit z)).
Proof.
  intros Hz. rewrite lit_exact by (unfold safe; lia).
  assert (forall tag k, 0 <= tag < 256 -> Forall is_byte (tag :: be_bytes k z)) as B.
  { intros tag k Ht. constructor; [exact Ht | apply be_bytes_is_byte]. }
  assert (forall tag k, tag :: be_bytes k z = tag :: be_bytes k z ++ []) as A
    by (intros; rewrite app_nil_r; reflexivity).
  unfold integer_encoding, encodes.
  destruct (Z.leb_spec 0 z), (Z.leb_spec z 0x7f); cbn [andb].
  all: try (split; [repeat constructor; lia|];
            rewrite read_perform; cbn [peek at_ length]; 
            change (at_ [z] 0) with (Some z); cbv iota;
            rewrite classify_positive_fixint, lit_exact by (unfold safe; lia); reflexivity).
  all: destruct (Z.ltb_spec z 0), (Z.leb_spec (-0x20) z); cbn [andb]; try lia.
  all: try (split; [repeat constructor; lia|];
            rewrite read_perform; change (peek [z + 256] (Some 0)) with (Some (z + 256));
            cbv iota;
            rewrite classify_negative_fixint, lit_exact by (unfold safe; lia); reflexivity).
  all: destruct (Z.ltb_spec 0 z); try lia; destruct (Z.leb_spec z 0xff); cbn [andb]; try lia.
  all: try (split; [apply B; lia|];
            rewrite read_perform; change (peek (0xcc :: be_bytes 1 z) (Some 0)) with (Some 0xcc);
            cbv iota; change (classify 0xcc) with (a_uint 1); cbn [perform advance];
            rewrite A, readUInt_field, Z.mod_small by lia; reflexivity).
  all: destruct (Z.leb_spec (-0x80) z); cbn [andb]; try lia.
  all: try (split; [apply B; lia|];
            rewrite read_perform; change (peek (0xd0 :: be_bytes 1 z) (Some 0)) with (Some 0xd0);
            cbv iota; change (classify 0xd0) with (a_int 1); cbn [perform advance];
            rewrite A, readInt_field by (simpl; lia); reflexivity).
  all: destruct (Z.leb_spec z 0xffff); cbn [andb]; try lia.
  all: try (split; [apply B; lia|];
            rewrite read_perform; change (peek (0xcd :: be_bytes 2 z) (Some 0)) with (Some 0xcd);
            cbv iota; change (classify 0xcd) with (a_uint 2); cbn [perform advance];
            rewrite A, readUInt_field, Z.mod_small by (simpl; lia); reflexivity).
  all: destruct (Z.leb_spec (-0x8000) z), (Z.leb_spec z 0x7fff); cbn [andb]; try lia.
  all: try (split; [apply B; lia|];
            rewrite read_perform; change (peek (0xd1 :: be_bytes 2 z) (Some 0)) with (Some 0xd1);
            cbv iota; change (classify 0xd1) with (a_int 2); cbn [perform advance];
            rewrite A, readInt_field by (simpl; lia); reflexivity).
  all: destruct (Z.leb_spec z 0xffffffff); cbn [andb]; try lia.
  all: try (split; [apply B; lia|];
            rewrite read_perform; change (peek (0xce :: be_bytes 4 z) (Some 0)) with (Some 0xce);
            cbv iota; change (classify 0xce) with (a_uint 4); cbn [perform advance];
            rewrite A, readUInt_field, Z.mod_small by (simpl; lia); reflexivity).
  all: try (split; [apply B; lia|];
            rewrite read_perform; change (peek (0xd2 :: be_bytes 4 z) (Some 0)) with (Some 0xd2);
            cbv iota; change (classify 0xd2) with (a_int 4); cbn [perform advance];
            rewrite A, readInt_field by (simpl; lia); reflexivity).
Qed.

(** X3: an integer of the 32-bit ranges, from -2^31 to 2^32 - 1, is
    written in the smallest form that holds it, and is read back from
    it. *)
Lemma integers_of_32_bits_round_trip (opts : options) (fuel : nat) (z : Z) :
  multiple opts = false ->
  typeHint opts = hint_none \/ typeHint opts = hint_int ->
  - 2 ^ 31 <= z < 2 ^ 32 ->
  serialize call opts (S fuel) (VNumber (lit z)) = Ok (integer_encoding z) /\
  deserialize Number_toString Date_toString (integer_encoding z) opts = Ok (VNumber (lit z)).
Proof.
  intros M Hth Hz. split.
  - unfold serialize. rewrite M. cbn [andb append mbind outcome_bind bind].
    rewrite lit_exact by (unfold safe; lia).
    rewrite (writes_contents _ (integer_encoding z)); [reflexivity|].
    apply appendNumber_integer; [exact Hz|].
    destruct Hth as [-> | ->]; [apply isInteger_exact; unfold safe; lia | reflexivity].
  - destruct (integer_encodes z Hz) as [Hb R].
    rewrite deserialize_single; [rewrite R; reflexivity | exact M | exact Hb |].
    intros E. rewrite E in R. discriminate R.
Qed.

End IntegerClaims.

(** C2 (the code departs from it): 2^32, the first integer past the uint32
    range, is written with tag 0xd3 (int64), not with the uint64 tag 0xcf;
    so is the largest double below 2^64. *)
Theorem uint64_range_is_written_with_tag_d3 (call : nat -> value -> value) :
  serialize call no_options 1 (VNumber (lit 4294967296))
  = Ok [0xd3; 0x00; 0x00; 0x00; 0x01; 0x00; 0x00; 0x00; 0x00] /\
  serialize call no_options 1 (VNumber (lit 18446744073709549568))
  = Ok [0xd3; 0xff; 0xff; 0xff; 0xff; 0xff; 0xff; 0xf8; 0x00].
Proof. split; reflexivity. Qed.

(** C1 (the code departs from it): 2^63 is serialized to bytes that
    deserialize to -2^63. *)
Theorem two_pow_63_does_not_round_trip
    (call : nat -> value -> value) (Number_toString Date_toString : number -> jsstring) :
  let v := VNumber (lit 9223372036854775808) in
  let bytes := [0xd3; 0x80; 0x00; 0x00; 0x00; 0x00; 0x00; 0x00; 0x00] in
  serialize call no_options 1 v = Ok bytes /\
  deserialize Number_toString Date_toString bytes no_options
  = Ok (VNumber (lit (-9223372036854775808))) /\
  VNumber (lit (-9223372036854775808)) <> v.
Proof. repeat split. discriminate. Qed.

(** Finite doubles of one sign are ordered by exponent, then by mantissa. *)
Lemma SFcompare_positive (m1 m2 : positive) (e1 e2 : Z) :
  SFcompare (S754_finite false m1 e1) (S754_finite false m2 e2)
  = Some (match e1 ?= e2 with Eq => (m1 ?= m2)%positive | Lt => Lt | Gt => Gt end).
Proof. reflexivity. Qed.

Lemma SFcompare_negative (m1 m2 : positive) (e1 e2 : Z) :
  SFcompare (S754_finite true m1 e1) (S754_finite true m2 e2)
  = Some (match e1 ?= e2 with Eq => CompOpp (m1 ?= m2)%positive | Lt => Gt | Gt => Lt end).
Proof. reflexivity. Qed.

Lemma leb_positive (m1 m2 : positive) (e1 e2 : Z) :
  e2 < e1 \/ (e1 = e2 /\ (m2 < m1)%positive) ->
  leb (S754_finite false m1 e1) (S754_finite false m2 e2) = false.
Proof.
  intros H. unfold leb, SFleb. rewrite SFcompare_positive.
  destruct H as [H|[<- H]].
  - apply Z.compare_gt_iff in H. rewrite H. reflexivity.
  - rewrite Z.compare_refl. apply Pos.compare_gt_iff in H. rewrite H. reflexivity.
Qed.

Lemma geb_negative (m1 m2 : positive) (e1 e2 : Z) :
  e2 < e1 \/ (e1 = e2 /\ (m2 < m1)%positive) ->
  geb (S754_finite true m1 e1) (S754_finite true m2 e2) = false.
Proof.
  intros H. unfold geb, SFleb. rewrite SFcompare_negative.
  destruct H as [H|[<- H]].
  - apply Z.compare_lt_iff in H. rewrite H. reflexivity.
  - rewrite Z.compare_refl. apply Pos.compare_lt_iff in H. rewrite H. reflexivity.
Qed.

(** A double above a positive finite one, and a double below a negative
    finite one. *)
Lemma gtb_positive (x : number) (m2 : positive) (e2 : Z) :
  gtb x (S754_finite false m2 e2) = true ->
  x = S754_infinity false \/
  exists m e, x = S754_finite false m e /\ (e2 < e \/ (e = e2 /\ (m2 < m)%positive)).
Proof.
  destruct x as [s|s| |s m e]; try discriminate.
  - destruct s; [discriminate | auto].
  - destruct s; [discriminate|]. unfold gtb, SFltb. rewrite SFcompare_positive.
    intros H. right. exists m, e. split; [reflexivity|].
    destruct (Z.compare_spec e2 e) as [He|He|He]; [|left; exact He|discriminate H].
    right. split; [symmetry; exact He|].
    destruct (Pos.compare_spec m2 m) as [Hm|Hm|Hm]; [discriminate H|exact Hm|discriminate H].
Qed.

Lemma ltb_negative (x : number) (m2 : positive) (e2 : Z) :
  ltb x (S754_finite true m2 e2) = true ->
  x = S754_infinity true \/
  exists m e, x = S754_finite true m e /\ (e2 < e \/ (e = e2 /\ (m2 < m)%positive)).
Proof.
  destruct x as [s|s| |s m e]; try discriminate.
  - destruct s; [auto | discriminate].
  - destruct s; [|discriminate]. unfold ltb, SFltb. rewrite SFcompare_negative.
    intros H. right. exists m, e. split; [reflexivity|].
    destruct (Z.compare_spec e e2) as [He|He|He]; [|discriminate H|left; exact He].
    right. split; [exact He|].
    destruct (Pos.compare_spec m m2) as [Hm|Hm|Hm]; [discriminate H|discriminate H|exact Hm].
Qed.

Ltac literals :=
  repeat match goal with
         | |- context [SFopp (lit ?c)] =>
             let v := eval vm_compute in (SFopp (lit c)) in change (SFopp (lit c)) with v
         | |- context [lit ?c] =>
             let v := eval vm_compute in (lit c) in change (lit c) with v
         end.

Ltac exponents :=
  repeat match goal with
         | |- context [leb (S754_finite false ?m ?e) (S754_finite false ?m' ?e')] =>
             rewrite (leb_positive m m' e e') by lia
         | |- context [geb (S754_finite true ?m ?e) (S754_finite true ?m' ?e')] =>
             rewrite (geb_negative m m' e e') by lia
         end.

(** Every integer-classified double above 2^64 is written as tag 0xcf and
    eight 0xff bytes. *)
Lemma above_two_pow_64_is_clamped (data : number) (th : type_hint) (b : buffer) :
  isInteger data th = true ->
  gtb data (lit 0xffffffffffffffff) = true ->
  appendNumber data th b
  = appendBytes [0xcf; 0xff; 0xff; 0xff; 0xff; 0xff; 0xff; 0xff; 0xff] b.
Proof.
  intros Hint H. unfold appendNumber. rewrite Hint. revert H. literals. intros H.
  destruct (gtb_positive _ _ _ H) as [->|(m & e & -> & He)]; [reflexivity|].
  change (ltb (S754_finite false m e) (S754_zero false)) with false.
  rewrite (leb_positive m 4503599627370496 e 12) by exact He.
  exponents. rewrite !andb_false_r. reflexivity.
Qed.

(** Every integer-classified double below -2^63 is written as tag 0xd3 and
    the bytes of -2^63. *)
Lemma below_minus_two_pow_63_is_clamped (data : number) (th : type_hint) (b : buffer) :
  isInteger data th = true ->
  ltb data (SFopp (lit 0x8000000000000000)) = true ->
  appendNumber data th b
  = appendBytes [0xd3; 0x80; 0; 0; 0; 0; 0; 0; 0] b.
Proof.
  intros Hint H. unfold appendNumber. rewrite Hint. revert H. literals. intros H.
  destruct (ltb_negative _ _ _ H) as [->|(m & e & -> & He)]; [reflexivity|].
  change (geb (S754_finite true m e) (S754_zero false)) with false.
  change (gtb (S754_finite true m e) (S754_zero false)) with false.
  change (ltb (S754_finite true m e) (S754_zero false)) with true.
  rewrite (geb_negative m 4503599627370496 e 11) by exact He.
  exponents. reflexivity.
Qed.

(** X6: away from the bound 2^64 itself integers are clamped:
    [serialize] writes the largest uint64 for every integer-classified
    number above 2^64 and the least int64 for every one below -2^63. *)
Lemma integers_beyond_64_bits_are_clamped
    (call : nat -> value -> value) (opts : options) (fuel : nat) (data : number) :
  multiple opts = false ->
  isInteger data (typeHint opts) = true ->
  (gtb data (lit 0xffffffffffffffff) = true ->
   serialize call opts (S fuel) (VNumber data)
   = Ok [0xcf; 0xff; 0xff; 0xff; 0xff; 0xff; 0xff; 0xff; 0xff]) /\
  (ltb data (SFopp (lit 0x8000000000000000)) = true ->
   serialize call opts (S fuel) (VNumber data)
   = Ok [0xd3; 0x80; 0x00; 0x00; 0x00; 0x00; 0x00; 0x00; 0x00]).
Proof.
  intros M Hint. unfold serialize. rewrite M. cbn [andb append mbind outcome_bind bind].
  split; intros H.
  - rewrite above_two_pow_64_is_clamped by assumption. reflexivity.
  - rewrite below_minus_two_pow_63_is_clamped by assumption. reflexivity.
Qed.

(** C3 (the code departs from it): 2^64, the first double above the
    largest unsigned 64-bit integer, is not clamped: it is written as tag
    0xd3 and eight zero bytes, which read back as 0.  The doubles next to
    the range on both sides are clamped as the claim says. *)
Theorem two_pow_64_is_not_clamped
    (call : nat -> value -> value) (Number_toString Date_toString : number -> jsstring) :
  serialize call no_options 1 (VNumber (lit 18446744073709551616))
  = Ok [0xd3; 0x00; 0x00; 0x00; 0x00; 0x00; 0x00; 0x00; 0x00] /\
  deserialize Number_toString Date_toString
    [0xd3; 0x00; 0x00; 0x00; 0x00; 0x00; 0x00; 0x00; 0x00] no_options
  = Ok (VNumber (lit 0)) /\
  serialize call no_options 1 (VNumber (lit (18446744073709551616 + 4096)))
  = Ok [0xcf; 0xff; 0xff; 0xff; 0xff; 0xff; 0xff; 0xff; 0xff] /\
  serialize call no_options 1 (VNumber (lit (- 9223372036854775808 - 2048)))
  = Ok [0xd3; 0x80; 0x00; 0x00; 0x00; 0x00; 0x00; 0x00; 0x00].
Proof. repeat split. Qed.

(** *** Timestamps of whole seconds *)

Lemma appendDate_whole_seconds (s : Z) :
  0 <= s < 2 ^ 32 ->
  writes (appendDate (exact (1000 * s))) (0xd6 :: 0xff :: be_bytes 4 s).
Proof.
  intros Hs.
  assert (Ss : safe s) by (unfold safe; lia).
  assert (St : safe (1000 * s)) by (unfold safe; lia).
  unfold appendDate, getTime, getMilliseconds.
  rewrite isFinite_exact, trunc_exact by exact St.
  rewrite Z.mul_comm, Z.mod_mul, Z.mul_comm by lia.
  change (lit 1000) with (exact 1000). change (lit 0) with (exact 0).
  change (lit 0x100000000) with (exact 0x100000000).
  rewrite div_exact_nonneg by (try exact St; unfold safe; lia).
  rewrite eqb_exact, geb_exact, ltb_exact by (try exact Ss; unfold safe; lia).
  destruct (Z.leb_spec 0 s); [|lia]. destruct (Z.ltb_spec s 0x100000000); [|lia].
  cbn [andb Z.eqb]. rewrite !ushr_exact, trunc_exact by exact Ss.
  replace (0xd6 :: 0xff :: be_bytes 4 s)
    with (map (fun b => b mod 256) [0xd6; 0xff; ushrZ s 24; ushrZ s 16; ushrZ s 8; s]).
  { apply appendBytes_writes. }
  simpl. rewrite !ushrZ_byte by lia. rewrite !Z.shiftr_shiftr by lia. reflexivity.
Qed.

Section TimestampClaims.

Variable call : nat -> value -> value.
Variable Number_toString : number -> jsstring.
Variable Date_toString : number -> jsstring.

Lemma readExtDate_seconds (array : list Z) (s : Z) (pos : position) :
  0 <= s < 2 ^ 32 ->
  readExtDate array (be_bytes 4 s) pos = Ok (VDate (exact (1000 * s)), pos).
Proof.
  intros Hs.
  pose proof (of_be_bytes_be_bytes 4 s) as E.
  pose proof (be_bytes_is_byte 4 s) as B.
  pose proof (length_be_bytes 4 s) as L.
  destruct (be_bytes 4 s) as [|d0 [|d1 [|d2 [|d3 [|]]]]]; try discriminate L.
  inversion B as [|? ? B0 B']; subst. inversion B' as [|? ? B1 B'']; subst.
  inversion B'' as [|? ? B2 B''']; subst. inversion B''' as [|? ? B3 _]; subst.
  unfold is_byte in *.
  unfold readExtDate. cbn [length Nat.eqb byte_at lookup list_lookup default].
  simpl default. unfold id.
  rewrite !shl_byte by lia.
  unfold of_be_bytes in E. cbn [fold_left] in E.
  rewrite Z.mod_small in E by (simpl; lia).
  replace (d0 * 2 ^ 24 + d1 * 2 ^ 16 + d2 * 2 ^ 8 + d3) with s by lia.
  unfold newDate, TimeClip.
  rewrite (lit_exact s), (lit_exact 1000) by (unfold safe; lia).
  rewrite mul_exact by (unfold safe; lia).
  rewrite (Z.mul_comm s 1000).
  rewrite isFinite_exact. cbn [negb].
  replace (abs (exact (1000 * s))) with (exact (1000 * s))
    by (destruct (1000 * s) eqn:E'; try reflexivity; lia).
  change (lit 8640000000000000) with (exact 8640000000000000).
  rewrite ltb_exact by (unfold safe; lia).
  destruct (Z.ltb_spec 8640000000000000 (1000 * s)); [lia|].
  rewrite trunc_exact, lit_exact by (unfold safe; lia). reflexivity.
Qed.

(** X12: a timestamp of whole seconds in the unsigned 32-bit range is
    written in the 4-byte extension form and is read back from it. *)
Lemma whole_seconds_round_trip (opts : options) (fuel : nat) (s : Z) :
  multiple opts = false ->
  0 <= s < 2 ^ 32 ->
  serialize call opts (S fuel) (VDate (lit (1000 * s))) = Ok (0xd6 :: 0xff :: be_bytes 4 s) /\
  deserialize Number_toString Date_toString (0xd6 :: 0xff :: be_bytes 4 s) opts
  = Ok (VDate (lit (1000 * s))).
Proof.
  intros M Hs. rewrite lit_exact by (unfold safe; lia). split.
  - unfold serialize. rewrite M. cbn [andb append mbind outcome_bind bind].
    rewrite (writes_contents _ (0xd6 :: 0xff :: be_bytes 4 s)); [reflexivity|].
    apply appendDate_whole_seconds. exact Hs.
  - rewrite deserialize_single;
      [| exact M
       | constructor; [unfold is_byte; lia|constructor; [unfold is_byte; lia|apply be_bytes_is_byte]]
       | discriminate].
    rewrite read_perform.
    change (peek (0xd6 :: 0xff :: be_bytes 4 s) (Some 0)) with (Some 0xd6). cbv iota.
    change (classify 0xd6) with (a_ext (lit 4) 0). cbn [perform advance].
    unfold readExt, read_size. change (ltb (lit 4) (lit 0)) with false. cbv iota.
    pose proof (readUInt_exact [0xd6] [0xff] (be_bytes 4 s)) as U.
    cbn [app length] in U. change (Z.of_nat 1) with 1 in U. change (0 + 1) with 1.
    rewrite U by (repeat constructor; unfold is_byte; lia).
    unfold readBin, read_size. change (ltb (lit 4) (lit 0)) with false. cbv iota.
    change (to_length (lit 4)) with (Some 4).
    change (eqb (exact (of_be_bytes [0xff])) (lit 255)) with true. cbv iota.
    unfold subarray. change (Z.to_nat (1 + 1)) with 2%nat.
    change (Z.to_nat 4) with 4%nat. cbn [drop].
    rewrite drop_0, take_ge by (rewrite length_be_bytes; lia). cbn [advance].
    rewrite readExtDate_seconds by exact Hs. reflexivity.
Qed.

End TimestampClaims.

(** Timestamps that do round-trip: whole seconds in the unsigned 32-bit
    range through the 4-byte form, whole seconds before the epoch through
    the 12-byte form. *)
Example whole_second_timestamps
    (call : nat -> value -> value) (Number_toString Date_toString : number -> jsstring) :
  serialize call no_options 1 (VDate (lit 1000)) = Ok [0xd6; 0xff; 0x00; 0x00; 0x00; 0x01] /\
  deserialize Number_toString Date_toString [0xd6; 0xff; 0x00; 0x00; 0x00; 0x01] no_options
  = Ok (VDate (lit 1000)) /\
  serialize call no_options 1 (VDate (lit (-2000)))
  = Ok [0xc7; 12; 0xff; 0x00; 0x00; 0x00; 0x00;
        0xff; 0xff; 0xff; 0xff; 0xff; 0xff; 0xff; 0xfe] /\
  deserialize Number_toString Date_toString
    [0xc7; 12; 0xff; 0x00; 0x00; 0x00; 0x00;
     0xff; 0xff; 0xff; 0xff; 0xff; 0xff; 0xff; 0xfe] no_options
  = Ok (VDate (lit (-2000))).
Proof. repeat split. Qed.

(** C4 (the code departs from it): the timestamp 1.5 s before the epoch
    ([new Date(-1500)]: 500 ms into the second -2) is written in the 12-byte
    form with the seconds field -1, and reads back as [new Date(-500)]. *)
Theorem pre_epoch_fraction_does_not_round_trip
    (call : nat -> value -> value) (Number_toString Date_toString : number -> jsstring) :
  let bytes := [0xc7; 12; 0xff; 0x1d; 0xcd; 0x65; 0x00;
                0xff; 0xff; 0xff; 0xff; 0xff; 0xff; 0xff; 0xff] in
  serialize call no_options 1 (VDate (lit (-1500))) = Ok bytes /\
  deserialize Number_toString Date_toString bytes no_options = Ok (VDate (lit (-500))) /\
  VDate (lit (-500)) <> VDate (lit (-1500)).
Proof. repeat split. discriminate. Qed.

(** A string with a code point above U+FFFF: four UTF-8 bytes, and the
    surrogate pair again after decoding. *)
Example emoji_round_trip
    (call : nat -> value -> value) (Number_toString Date_toString : number -> jsstring) :
  serialize call no_options 1 (VString [0xd83d; 0xde00]) = Ok [0xa4; 0xf0; 0x9f; 0x98; 0x80] /\
  deserialize Number_toString Date_toString [0xa4; 0xf0; 0x9f; 0x98; 0x80] no_options
  = Ok (VString [0xd83d; 0xde00]).
Proof. split; reflexivity. Qed.

(** ** Text codec: the round trip *)

(** A check by enumeration over the interval from [a], [n] integers long. *)
Fixpoint for_range (n : nat) (a : Z) (P : Z -> bool) : bool :=
  match n with
  | O => true
  | S n => if P a then for_range n (a + 1) P else false
  end.

Lemma for_range_spec (n : nat) (P : Z -> bool) :
  forall a, for_range n a P = true -> forall c, a <= c < a + Z.of_nat n -> P c = true.
Proof.
  induction n as [|n IH]; intros a H c Hc; [lia|].
  cbn [for_range] in H. destruct (P a) eqn:E; [|discriminate].
  destruct (Z.eq_dec c a) as [->|N]; [exact E|].
  apply (IH (a + 1) H). lia.
Qed.

(** The bytes [encodeUtf8] writes for a code unit below 0x800, for any
    other unpaired code unit and for a surrogate pair. *)
Definition utf8_2 (c : Z) : list Z :=
  [Z.lor (Z.shiftr c 6) 192; Z.lor (Z.land c 63) 128].

Definition utf8_3 (c : Z) : list Z :=
  [Z.lor (Z.shiftr c 12) 224; Z.lor (Z.land (Z.shiftr c 6) 63) 128; Z.lor (Z.land c 63) 128].

Definition code_point (c c2 : Z) : Z :=
  0x10000 + Z.shiftl (Z.land c 0x03ff) 10 + Z.land c2 0x03ff.

Definition utf8_4 (c : Z) : list Z :=
  [Z.lor (Z.shiftr c 18) 240; Z.lor (Z.land (Z.shiftr c 12) 63) 128;
   Z.lor (Z.land (Z.shiftr c 6) 63) 128; Z.lor (Z.land c 63) 128].

Definition byteb (b : Z) : bool := (0 <=? b) && (b <? 256).

Definition check_2 (c : Z) : bool :=
  match utf8_2 c with
  | [b1; b2] =>
      byteb b1 && byteb b2 && (191 <? b1) && (b1 <? 224)
      && (Z.lor (Z.shiftl (Z.land b1 31) 6) (Z.land b2 63) =? c)
  | _ => false
  end.

Definition check_3 (c : Z) : bool :=
  match utf8_3 c with
  | [b1; b2; b3] =>
      byteb b1 && byteb b2 && byteb b3 && (223 <? b1) && (b1 <? 240)
      && (Z.lor (Z.lor (Z.shiftl (Z.land b1 15) 12) (Z.shiftl (Z.land b2 63) 6))
                (Z.land b3 63) =? c)
  | _ => false
  end.

Definition check_4 (c : Z) : bool :=
  match utf8_4 c with
  | [b1; b2; b3; b4] =>
      byteb b1 && byteb b2 && byteb b3 && byteb b4 && (239 <? b1) && (b1 <? 248)
      && (Z.lor (Z.lor (Z.lor (Z.shiftl (Z.land b1 7) 18) (Z.shiftl (Z.land b2 63) 12))
                       (Z.shiftl (Z.land b3 63) 6))
                (Z.land b4 63) =? c)
  | _ => false
  end.

Lemma check_2_all : for_range (Z.to_nat 1920) 128 check_2 = true.
Proof. vm_compute. reflexivity. Qed.

Lemma check_3_all : for_range (Z.to_nat 63488) 2048 check_3 = true.
Proof. vm_compute. reflexivity. Qed.

Lemma check_4_all : for_range (Z.to_nat 0x100000) 0x10000 check_4 = true.
Proof. vm_compute. reflexivity. Qed.

Definition code_unit (c : Z) : Prop := 0 <= c < 65536.

(** Every high surrogate of the string is followed by a low surrogate. *)
Fixpoint paired (s : jsstring) : bool :=
  match s with
  | [] => true
  | c :: rest =>
      if is_high_surrogate c then
        match rest with
        | c2 :: rest' => is_low_surrogate c2 && paired rest'
        | [] => false
        end
      else paired rest
  end.

(** The UTF-8 bytes of a string, sequence by sequence. *)
Fixpoint utf8 (s : jsstring) : list Z :=
  match s with
  | [] => []
  | c :: rest =>
      if c <? 128 then c :: utf8 rest
      else if c <? 2048 then utf8_2 c ++ utf8 rest
      else if is_high_surrogate c then
        match rest with
        | c2 :: rest' => utf8_4 (code_point c c2) ++ utf8 rest'
        | [] => []
        end
      else utf8_3 c ++ utf8 rest
  end.

Lemma check_2_spec (c : Z) :
  128 <= c < 2048 ->
  exists b1 b2, utf8_2 c = [b1; b2] /\ is_byte b1 /\ is_byte b2 /\ 191 < b1 < 224 /\
                Z.lor (Z.shiftl (Z.land b1 31) 6) (Z.land b2 63) = c.
Proof.
  intros Hc. pose proof (for_range_spec _ _ _ check_2_all c ltac:(lia)) as H.
  unfold check_2 in H. destruct (utf8_2 c) as [|b1 [|b2 [|]]]; try discriminate.
  unfold byteb in H. exists b1, b2. unfold is_byte. split; [reflexivity|]. lia.
Qed.

Lemma check_3_spec (c : Z) :
  2048 <= c < 65536 ->
  exists b1 b2 b3, utf8_3 c = [b1; b2; b3] /\ is_byte b1 /\ is_byte b2 /\ is_byte b3 /\
                   223 < b1 < 240 /\
                   Z.lor (Z.lor (Z.shiftl (Z.land b1 15) 12) (Z.shiftl (Z.land b2 63) 6))
                         (Z.land b3 63) = c.
Proof.
  intros Hc. pose proof (for_range_spec _ _ _ check_3_all c ltac:(lia)) as H.
  unfold check_3 in H. destruct (utf8_3 c) as [|b1 [|b2 [|b3 [|]]]]; try discriminate.
  unfold byteb in H. exists b1, b2, b3. unfold is_byte. split; [reflexivity|]. lia.
Qed.

Lemma check_4_spec (c : Z) :
  0x10000 <= c < 0x110000 ->
  exists b1 b2 b3 b4, utf8_4 c = [b1; b2; b3; b4] /\
                      is_byte b1 /\ is_byte b2 /\ is_byte b3 /\ is_byte b4 /\
                      239 < b1 < 248 /\
                      Z.lor (Z.lor (Z.lor (Z.shiftl (Z.land b1 7) 18)
                                          (Z.shiftl (Z.land b2 63) 12))
                                   (Z.shiftl (Z.land b3 63) 6))
                            (Z.land b4 63) = c.
Proof.
  intros Hc. pose proof (for_range_spec _ _ _ check_4_all c ltac:(lia)) as H.
  unfold check_4 in H. destruct (utf8_4 c) as [|b1 [|b2 [|b3 [|b4 [|]]]]]; try discriminate.
  unfold byteb in H. exists b1, b2, b3, b4. unfold is_byte. split; [reflexivity|]. lia.
Qed.

(** A surrogate pair and its code point. *)
Definition check_high (h : Z) : bool :=
  (Z.land h 0x03ff =? h - 0xd800) && (Z.lor (h - 0xd800) 0xd800 =? h).

Definition check_low (l : Z) : bool :=
  (Z.land l 0x03ff =? l - 0xdc00) && (Z.lor (l - 0xdc00) 0xdc00 =? l).

Lemma check_high_all : for_range 1024 0xd800 check_high = true.
Proof. vm_compute. reflexivity. Qed.

Lemma check_low_all : for_range 1024 0xdc00 check_low = true.
Proof. vm_compute. reflexivity. Qed.

Lemma surrogate_pair (h l : Z) :
  is_high_surrogate h = true -> is_low_surrogate l = true ->
  let c := code_point h l in
  0x10000 <= c < 0x110000 /\
  Z.lor (Z.shiftr (c - 0x10000) 10) 0xd800 = h /\
  Z.lor (Z.land (c - 0x10000) 0x3ff) 0xdc00 = l.
Proof.
  unfold is_high_surrogate, is_low_surrogate. intros Hh Hl.
  pose proof (for_range_spec _ _ _ check_high_all h ltac:(lia)) as H1.
  pose proof (for_range_spec _ _ _ check_low_all l ltac:(lia)) as H2.
  unfold check_high in H1. unfold check_low in H2.
  apply andb_prop in H1. destruct H1 as [H1 H1']. apply andb_prop in H2. destruct H2 as [H2 H2'].
  apply Z.eqb_eq in H1, H1', H2, H2'.
  unfold code_point. rewrite H1, H2, Z.shiftl_mul_pow2 by lia. cbv zeta.
  replace (65536 + (h - 55296) * 2 ^ 10 + (l - 56320) - 65536)
    with ((h - 55296) * 2 ^ 10 + (l - 56320)) by lia.
  split; [lia|].
  rewrite Z.shiftr_div_pow2 by lia.
  change 1023 with (Z.ones 10). rewrite Z.land_ones by lia.
  rewrite Z.div_add_l, Z.div_small, Z.add_0_r by lia.
  rewrite Z.add_comm, Z.mod_add, Z.mod_small by lia.
  split; assumption.
Qed.

Lemma store_take (bytes : list Z) (i : nat) (x : Z) :
  (i < length bytes)%nat -> is_byte x ->
  length (store bytes i x) = length bytes /\
  take (i + 1) (store bytes i x) = take i bytes ++ [x].
Proof.
  intros Hi Hx. unfold store, is_byte in *. rewrite Z.mod_small by exact Hx.
  split; [apply length_insert|].
  rewrite Nat.add_1_r.
  rewrite (take_S_r _ _ x) by (apply list_lookup_insert_eq; exact Hi).
  rewrite take_insert_ge by lia. reflexivity.
Qed.

(** The loop of [encodeUtf8] stops only at a high surrogate without its
    low surrogate. *)
Lemma encodeUtf8_loop_paired (n : nat) :
  forall (s : jsstring) (bytes : list Z) (i : nat) r,
    (length s <= n)%nat -> encodeUtf8_loop s bytes i = Ok r -> paired s = true.
Proof.
  induction n as [|n IH]; intros s bytes i r Hn E.
  - destruct s; [reflexivity | simpl in Hn; lia].
  - destruct s as [|c rest]; [reflexivity|]. simpl in Hn.
    cbn [encodeUtf8_loop paired] in *. unfold is_high_surrogate.
    destruct (Z.ltb_spec c 128).
    { replace ((0xd7ff <? c) && (c <? 0xdc00)) with false
        by (symmetry; apply andb_false_iff; left; apply Z.ltb_ge; lia).
      eapply IH; [|exact E]. lia. }
    destruct (Z.ltb_spec c 2048).
    { replace ((0xd7ff <? c) && (c <? 0xdc00)) with false
        by (symmetry; apply andb_false_iff; left; apply Z.ltb_ge; lia).
      eapply IH; [|exact E]. lia. }
    destruct ((0xd7ff <? c) && (c <? 0xdc00)); [|eapply IH; [|exact E]; lia].
    destruct rest as [|c2 rest']; [discriminate|]. simpl in Hn.
    unfold is_low_surrogate.
    destruct (Z.ltb_spec c2 0xdc00); [discriminate|].
    destruct (Z.ltb_spec 0xdfff c2); [discriminate|]. cbn [orb] in E.
    replace ((0xdc00 <=? c2) && (c2 <=? 0xdfff)) with true
      by (symmetry; apply andb_true_iff; split; apply Z.leb_le; lia).
    eapply IH; [|exact E]. lia.
Qed.

(** What the loop of [encodeUtf8] writes, when the array has room for it. *)
Lemma encodeUtf8_loop_utf8 (n : nat) :
  forall (s : jsstring) (bytes : list Z) (i : nat),
    (length s <= n)%nat -> Forall code_unit s -> paired s = true ->
    (i + length (utf8 s) <= length bytes)%nat ->
    exists bytes',
      encodeUtf8_loop s bytes i = Ok (bytes', (i + length (utf8 s))%nat) /\
      length bytes' = length bytes /\
      take (i + length (utf8 s)) bytes' = take i bytes ++ utf8 s.
Proof.
  induction n as [|n IH]; intros s bytes i Hn Hu Hp Hcap.
  - destruct s; [|simpl in Hn; lia]. exists bytes. simpl.
    rewrite Nat.add_0_r, app_nil_r. auto.
  - destruct s as [|c rest].
    { exists bytes. simpl. rewrite Nat.add_0_r, app_nil_r. auto. }
    simpl in Hn. inversion Hu as [|? ? Hc Hu']; subst. unfold code_unit in Hc.
    cbn [encodeUtf8_loop paired utf8] in *. unfold is_high_surrogate in *.
    destruct (Z.ltb_spec c 128).
    { replace ((0xd7ff <? c) && (c <? 0xdc00)) with false in Hp
        by (symmetry; apply andb_false_iff; left; apply Z.ltb_ge; lia).
      cbn [length] in *.
      destruct (store_take bytes i c ltac:(lia) ltac:(unfold is_byte; lia)) as [L1 T1].
      destruct (IH rest (store bytes i c) (i + 1)%nat ltac:(lia) Hu' Hp ltac:(lia))
        as (bytes' & E & L & T).
      exists bytes'. replace (i + S (length (utf8 rest)))%nat
        with (i + 1 + length (utf8 rest))%nat by lia.
      rewrite E, L, L1, T, T1, <- app_assoc. auto. }
    destruct (Z.ltb_spec c 2048).
    { replace ((0xd7ff <? c) && (c <? 0xdc00)) with false in Hp
        by (symmetry; apply andb_false_iff; left; apply Z.ltb_ge; lia).
      destruct (check_2_spec c ltac:(lia)) as (b1 & b2 & Eb & B1 & B2 & _).
      rewrite Eb in *. unfold utf8_2 in Eb. injection Eb as Eb1 Eb2. rewrite Eb1, Eb2.
      cbn [length app] in *.
      destruct (store_take bytes i b1 ltac:(lia) B1) as [L1 T1].
      destruct (store_take (store bytes i b1) (i + 1) b2 ltac:(lia) B2) as [L2 T2].
      replace (i + 1 + 1)%nat with (i + 2)%nat in T2 by lia.
      destruct (IH rest (store (store bytes i b1) (i + 1) b2) (i + 2)%nat
                   ltac:(lia) Hu' Hp ltac:(lia)) as (bytes' & E & L & T).
      exists bytes'. replace (i + S (S (length (utf8 rest))))%nat
        with (i + 2 + length (utf8 rest))%nat by lia.
      rewrite E, L, L2, L1, T, T2, T1, <- !app_assoc. auto. }
    destruct ((0xd7ff <? c) && (c <? 0xdc00)) eqn:Hh.
    + destruct rest as [|c2 rest']; [discriminate|]. simpl in Hn.
      apply andb_prop in Hp. destruct Hp as [Hl Hp].
      inversion Hu' as [|? ? Hc2 Hu'']; subst.
      pose proof Hl as Hl'. unfold is_low_surrogate in Hl'.
      replace ((c2 <? 0xdc00) || (0xdfff <? c2)) with false
        by (symmetry; apply orb_false_iff; split; apply Z.ltb_ge; lia).
      destruct (surrogate_pair c c2 Hh Hl) as (Hcp & _).
      fold (code_point c c2).
      destruct (check_4_spec (code_point c c2) Hcp)
        as (b1 & b2 & b3 & b4 & Eb & B1 & B2 & B3 & B4 & _).
      rewrite Eb in *. unfold utf8_4 in Eb. injection Eb as Eb1 Eb2 Eb3 Eb4.
      rewrite Eb1, Eb2, Eb3, Eb4.
      cbn [length app] in *.
      destruct (store_take bytes i b1 ltac:(lia) B1) as [L1 T1].
      destruct (store_take (store bytes i b1) (i + 1) b2 ltac:(lia) B2) as [L2 T2].
      replace (i + 1 + 1)%nat with (i + 2)%nat in T2 by lia.
      destruct (store_take (store (store bytes i b1) (i + 1) b2) (i + 2) b3 ltac:(lia) B3)
        as [L3 T3].
      replace (i + 2 + 1)%nat with (i + 3)%nat in T3 by lia.
      destruct (store_take (store (store (store bytes i b1) (i + 1) b2) (i + 2) b3) (i + 3) b4
                  ltac:(lia) B4) as [L4 T4].
      replace (i + 3 + 1)%nat with (i + 4)%nat in T4 by lia.
      destruct (IH rest' _ (i + 4)%nat ltac:(lia) Hu'' Hp ltac:(rewrite L4; lia))
        as (bytes' & E & L & T).
      exists bytes'. replace (i + S (S (S (S (length (utf8 rest'))))))%nat
        with (i + 4 + length (utf8 rest'))%nat by lia.
      rewrite E, L, L4, L3, L2, L1, T, T4, T3, T2, T1, <- !app_assoc. auto.
    + assert (2048 <= c < 65536) as Hc3 by lia.
      destruct (check_3_spec c Hc3) as (b1 & b2 & b3 & Eb & B1 & B2 & B3 & _).
      rewrite Eb in *. unfold utf8_3 in Eb. injection Eb as Eb1 Eb2 Eb3.
      rewrite Eb1, Eb2, Eb3.
      cbn [length app] in *.
      destruct (store_take bytes i b1 ltac:(lia) B1) as [L1 T1].
      destruct (store_take (store bytes i b1) (i + 1) b2 ltac:(lia) B2) as [L2 T2].
      replace (i + 1 + 1)%nat with (i + 2)%nat in T2 by lia.
      destruct (store_take (store (store bytes i b1) (i + 1) b2) (i + 2) b3 ltac:(lia) B3)
        as [L3 T3].
      replace (i + 2 + 1)%nat with (i + 3)%nat in T3 by lia.
      destruct (IH rest _ (i + 3)%nat ltac:(lia) Hu' Hp ltac:(rewrite L3; lia))
        as (bytes' & E & L & T).
      exists bytes'. replace (i + S (S (S (length (utf8 rest)))))%nat
        with (i + 3 + length (utf8 rest))%nat by lia.
      rewrite E, L, L3, L2, L1, T, T3, T2, T1, <- !app_assoc. auto.
Qed.

Lemma utf8_ascii (s : jsstring) :
  forallb (fun c => negb (127 <? c)) s = true -> length (utf8 s) = length s.
Proof.
  induction s as [|c rest IH]; [reflexivity|]. cbn [forallb utf8].
  intros H. apply andb_prop in H. destruct H as [Hc H].
  destruct (Z.ltb_spec 127 c); [discriminate|].
  destruct (Z.ltb_spec c 128); [|lia]. simpl. rewrite IH; auto.
Qed.

Lemma utf8_length (n : nat) :
  forall s, (length s <= n)%nat -> (length (utf8 s) <= length s * 3)%nat.
Proof.
  induction n as [|n IH]; intros s Hn.
  - destruct s; [simpl; lia | simpl in Hn; lia].
  - destruct s as [|c rest]; [simpl; lia|]. simpl in Hn. cbn [utf8].
    destruct (c <? 128); [specialize (IH rest ltac:(lia)); simpl; lia|].
    destruct (c <? 2048); [specialize (IH rest ltac:(lia)); simpl; lia|].
    destruct (is_high_surrogate c); [|specialize (IH rest ltac:(lia)); simpl; lia].
    destruct rest as [|c2 rest']; [simpl; lia|]. simpl in Hn.
    specialize (IH rest' ltac:(lia)). simpl. lia.
Qed.

(** [encodeUtf8] returns the UTF-8 bytes of the string, or throws. *)
Lemma encodeUtf8_utf8 (s : jsstring) (bytes : list Z) :
  Forall code_unit s -> encodeUtf8 s = Ok bytes -> paired s = true /\ bytes = utf8 s.
Proof.
  intros Hu E. unfold encodeUtf8 in E.
  destruct (encodeUtf8_loop s _ 0) as [[bytes' i]|e| |] eqn:L; try discriminate.
  simpl in E. injection E as <-.
  pose proof (encodeUtf8_loop_paired _ _ _ _ _ (Nat.le_refl _) L) as Hp.
  split; [exact Hp|].
  destruct (forallb (fun c => negb (127 <? c)) s) eqn:A.
  - pose proof (utf8_ascii s A) as La.
    destruct (encodeUtf8_loop_utf8 _ s (replicate (length s * 1) 0) 0 (Nat.le_refl _) Hu Hp)
      as (b & E & Lb & T).
    { rewrite length_replicate. lia. }
    rewrite L in E. injection E as -> ->.
    rewrite length_replicate in Lb. simpl in T.
    rewrite take_ge in T by lia. exact T.
  - pose proof (utf8_length _ s (Nat.le_refl _)) as La.
    destruct (encodeUtf8_loop_utf8 _ s (replicate (length s * 4) 0) 0 (Nat.le_refl _) Hu Hp)
      as (b & E & Lb & T).
    { rewrite length_replicate. lia. }
    rewrite L in E. injection E as -> ->. simpl in T. exact T.
Qed.

Lemma utf8_is_byte (n : nat) :
  forall s, (length s <= n)%nat -> Forall code_unit s -> paired s = true ->
            Forall is_byte (utf8 s).
Proof.
  induction n as [|n IH]; intros s Hn Hu Hp.
  - destruct s; [constructor | simpl in Hn; lia].
  - destruct s as [|c rest]; [constructor|]. simpl in Hn.
    inversion Hu as [|? ? Hc Hu']; subst. unfold code_unit in Hc.
    cbn [paired utf8] in *. unfold is_high_surrogate in *.
    destruct (Z.ltb_spec c 128).
    { replace ((0xd7ff <? c) && (c <? 0xdc00)) with false in Hp
        by (symmetry; apply andb_false_iff; left; apply Z.ltb_ge; lia).
      constructor; [unfold is_byte; lia | apply IH; [lia|assumption|assumption]]. }
    destruct (Z.ltb_spec c 2048).
    { replace ((0xd7ff <? c) && (c <? 0xdc00)) with false in Hp
        by (symmetry; apply andb_false_iff; left; apply Z.ltb_ge; lia).
      destruct (check_2_spec c ltac:(lia)) as (b1 & b2 & -> & B1 & B2 & _).
      repeat (constructor; [assumption|]). apply IH; [lia|assumption|assumption]. }
    destruct ((0xd7ff <? c) && (c <? 0xdc00)) eqn:Hh.
    + destruct rest as [|c2 rest']; [discriminate|]. simpl in Hn.
      apply andb_prop in Hp. destruct Hp as [Hl Hp].
      inversion Hu' as [|? ? Hc2 Hu'']; subst.
      destruct (surrogate_pair c c2 Hh Hl) as (Hcp & _).
      destruct (check_4_spec (code_point c c2) Hcp)
        as (b1 & b2 & b3 & b4 & -> & B1 & B2 & B3 & B4 & _).
      repeat (constructor; [assumption|]). apply IH; [lia|assumption|assumption].
    + destruct (check_3_spec c ltac:(lia)) as (b1 & b2 & b3 & -> & B1 & B2 & B3 & _).
      repeat (constructor; [assumption|]). apply IH; [lia|assumption|assumption].
Qed.

Lemma at_first (pre rest : list Z) (b : Z) :
  at_ (pre ++ b :: rest) (Z.of_nat (length pre)) = Some b.
Proof.
  unfold at_. destruct (Z.ltb_spec (Z.of_nat (length pre)) 0); [lia|].
  rewrite Nat2Z.id. rewrite lookup_app_r by lia. rewrite Nat.sub_diag. reflexivity.
Qed.

Lemma at_offset (pre mid rest : list Z) (b : Z) (i : Z) :
  i = Z.of_nat (length pre) + Z.of_nat (length mid) ->
  at_ (pre ++ mid ++ b :: rest) i = Some b.
Proof.
  intros ->. rewrite app_assoc, <- Nat2Z.inj_add, <- length_app. apply at_first.
Qed.

Lemma continuation_second (pre rest : list Z) (b1 b : Z) :
  continuation (pre ++ b1 :: b :: rest) (Z.of_nat (length pre) + 1) = Z.land b 63.
Proof.
  unfold continuation. rewrite (at_offset pre [b1] rest b); reflexivity.
Qed.

Lemma continuation_third (pre rest : list Z) (b1 b2 b : Z) :
  continuation (pre ++ b1 :: b2 :: b :: rest) (Z.of_nat (length pre) + 1 + 1) = Z.land b 63.
Proof.
  unfold continuation. rewrite (at_offset pre [b1; b2] rest b); [reflexivity|simpl; lia].
Qed.

Lemma continuation_fourth (pre rest : list Z) (b1 b2 b3 b : Z) :
  continuation (pre ++ b1 :: b2 :: b3 :: b :: rest) (Z.of_nat (length pre) + 1 + 2)
  = Z.land b 63.
Proof.
  unfold continuation. rewrite (at_offset pre [b1; b2; b3] rest b); [reflexivity|simpl; lia].
Qed.

(** The loop of [decodeUtf8] reads the UTF-8 bytes of a string back. *)
Lemma decodeUtf8_loop_utf8 (n : nat) :
  forall (s : jsstring) (pre post : list Z) (acc : jsstring) (fuel : nat),
    (length s <= n)%nat -> Forall code_unit s -> paired s = true ->
    (length (utf8 s) < fuel)%nat ->
    decodeUtf8_loop fuel (pre ++ utf8 s ++ post)
      (Z.of_nat (length pre)) (Z.of_nat (length pre) + Z.of_nat (length (utf8 s))) acc
    = Ok (acc ++ s).
Proof.
  induction n as [|n IH]; intros s pre post acc fuel Hn Hu Hp F.
  - destruct s; [|simpl in Hn; lia]. destruct fuel; [lia|]. simpl.
    rewrite Z.add_0_r, Z.ltb_irrefl, app_nil_r. reflexivity.
  - destruct s as [|c rest].
    { destruct fuel; [lia|]. simpl.
      rewrite Z.add_0_r, Z.ltb_irrefl, app_nil_r. reflexivity. }
    simpl in Hn. inversion Hu as [|? ? Hc Hu']; subst. unfold code_unit in Hc.
    destruct fuel as [|fuel]; [lia|].
    cbn [paired utf8] in *. unfold is_high_surrogate in *.
    destruct (Z.ltb_spec c 128).
    { replace ((0xd7ff <? c) && (c <? 0xdc00)) with false in Hp
        by (symmetry; apply andb_false_iff; left; apply Z.ltb_ge; lia).
      cbn [length decodeUtf8_loop] in *.
      destruct (Z.ltb_spec (Z.of_nat (length pre))
                  (Z.of_nat (length pre) + Z.of_nat (S (length (utf8 rest))))); [|lia].
      cbn [app]. rewrite at_first. unfold decode_sequence.
      destruct (Z.ltb_spec 127 c); [lia|]. cbn [mbind outcome_bind bind].
      destruct (Z.leb_spec c 0xffff); [|lia].
      specialize (IH rest (pre ++ [c]) post (acc ++ [c]) fuel ltac:(lia) Hu' Hp ltac:(lia)).
      rewrite <- !app_assoc, length_app in IH. cbn [app length] in IH.
      replace (Z.of_nat (length pre) + 1) with (Z.of_nat (length pre + 1)) by lia.
      replace (Z.of_nat (length pre) + Z.of_nat (S (length (utf8 rest))))
        with (Z.of_nat (length pre + 1) + Z.of_nat (length (utf8 rest))) by lia.
      exact IH. }
    destruct (Z.ltb_spec c 2048).
    { replace ((0xd7ff <? c) && (c <? 0xdc00)) with false in Hp
        by (symmetry; apply andb_false_iff; left; apply Z.ltb_ge; lia).
      destruct (check_2_spec c ltac:(lia)) as (b1 & b2 & Eb & B1 & B2 & R1 & D).
      rewrite Eb in *. unfold is_byte in *.
      cbn [length decodeUtf8_loop app] in *.
      destruct (Z.ltb_spec (Z.of_nat (length pre))
                  (Z.of_nat (length pre) + Z.of_nat (S (S (length (utf8 rest)))))); [|lia].
      rewrite at_first. unfold decode_sequence.
      destruct (Z.ltb_spec 127 b1); [|lia].
      destruct (Z.ltb_spec 191 b1); [|lia]. destruct (Z.ltb_spec b1 224); [|lia].
      cbn [andb].
      destruct (Z.leb_spec (Z.of_nat (length pre) + Z.of_nat (S (S (length (utf8 rest)))))
                  (Z.of_nat (length pre) + 1)); [lia|].
      rewrite continuation_second, D. cbn [mbind outcome_bind bind].
      destruct (Z.leb_spec c 0xffff); [|lia].
      specialize (IH rest (pre ++ [b1; b2]) post (acc ++ [c]) fuel
                     ltac:(lia) Hu' Hp ltac:(lia)).
      rewrite <- !app_assoc, length_app in IH. cbn [app length] in IH.
      replace (Z.of_nat (length pre) + 1 + 1) with (Z.of_nat (length pre + 2)) by lia.
      replace (Z.of_nat (length pre) + Z.of_nat (S (S (length (utf8 rest)))))
        with (Z.of_nat (length pre + 2) + Z.of_nat (length (utf8 rest))) by lia.
      exact IH. }
    destruct ((0xd7ff <? c) && (c <? 0xdc00)) eqn:Hh.
    + destruct rest as [|c2 rest']; [discriminate|]. simpl in Hn.
      apply andb_prop in Hp. destruct Hp as [Hl Hp].
      inversion Hu' as [|? ? Hc2 Hu'']; subst.
      destruct (surrogate_pair c c2 Hh Hl) as (Hcp & S1 & S2).
      destruct (check_4_spec (code_point c c2) Hcp)
        as (b1 & b2 & b3 & b4 & Eb & B1 & B2 & B3 & B4 & R1 & D).
      rewrite Eb in *. unfold is_byte in *.
      cbn [length decodeUtf8_loop app] in *.
      destruct (Z.ltb_spec (Z.of_nat (length pre))
                  (Z.of_nat (length pre)
                   + Z.of_nat (S (S (S (S (length (utf8 rest')))))))); [|lia].
      rewrite at_first. unfold decode_sequence.
      destruct (Z.ltb_spec 127 b1); [|lia].
      destruct (Z.ltb_spec 191 b1); [|lia]. destruct (Z.ltb_spec b1 224); [lia|].
      destruct (Z.ltb_spec 223 b1); [|lia]. destruct (Z.ltb_spec b1 240); [lia|].
      destruct (Z.ltb_spec 239 b1); [|lia]. destruct (Z.ltb_spec b1 248); [|lia].
      cbn [andb].
      destruct (Z.leb_spec (Z.of_nat (length pre)
                            + Z.of_nat (S (S (S (S (length (utf8 rest')))))))
                  (Z.of_nat (length pre) + 1 + 2)); [lia|].
      rewrite continuation_second, continuation_third, continuation_fourth, D.
      cbn [mbind outcome_bind bind].
      destruct (Z.leb_spec (code_point c c2) 0xffff); [lia|].
      destruct (Z.leb_spec (code_point c c2) 0x10ffff); [|lia].
      rewrite S1, S2.
      specialize (IH rest' (pre ++ [b1; b2; b3; b4]) post (acc ++ [c; c2]) fuel
                     ltac:(lia) Hu'' Hp ltac:(lia)).
      rewrite <- !app_assoc, length_app in IH. cbn [app length] in IH.
      replace (Z.of_nat (length pre) + 1 + 3) with (Z.of_nat (length pre + 4)) by lia.
      replace (Z.of_nat (length pre) + Z.of_nat (S (S (S (S (length (utf8 rest')))))))
        with (Z.of_nat (length pre + 4) + Z.of_nat (length (utf8 rest'))) by lia.
      exact IH.
    + destruct (check_3_spec c ltac:(lia)) as (b1 & b2 & b3 & Eb & B1 & B2 & B3 & R1 & D).
      rewrite Eb in *. unfold is_byte in *.
      cbn [length decodeUtf8_loop app] in *.
      destruct (Z.ltb_spec (Z.of_nat (length pre))
                  (Z.of_nat (length pre) + Z.of_nat (S (S (S (length (utf8 rest))))))); [|lia].
      rewrite at_first. unfold decode_sequence.
      destruct (Z.ltb_spec 127 b1); [|lia].
      destruct (Z.ltb_spec 191 b1); [|lia]. destruct (Z.ltb_spec b1 224); [lia|].
      destruct (Z.ltb_spec 223 b1); [|lia]. destruct (Z.ltb_spec b1 240); [|lia].
      cbn [andb].
      destruct (Z.leb_spec (Z.of_nat (length pre) + Z.of_nat (S (S (S (length (utf8 rest))))))
                  (Z.of_nat (length pre) + 1 + 1)); [lia|].
      rewrite continuation_second, continuation_third, D. cbn [mbind outcome_bind bind].
      destruct (Z.leb_spec c 0xffff); [|lia].
      specialize (IH rest (pre ++ [b1; b2; b3]) post (acc ++ [c]) fuel
                     ltac:(lia) Hu' Hp ltac:(lia)).
      rewrite <- !app_assoc, length_app in IH. cbn [app length] in IH.
      replace (Z.of_nat (length pre) + 1 + 2) with (Z.of_nat (length pre + 3)) by lia.
      replace (Z.of_nat (length pre) + Z.of_nat (S (S (S (length (utf8 rest))))))
        with (Z.of_nat (length pre + 3) + Z.of_nat (length (utf8 rest))) by lia.
      exact IH.
Qed.

(** [encodeUtf8] on a string without an unpaired high surrogate. *)
Lemma encodeUtf8_paired (s : jsstring) :
  Forall code_unit s -> paired s = true -> encodeUtf8 s = Ok (utf8 s).
Proof.
  intros Hu Hp. unfold encodeUtf8.
  destruct (forallb (fun c => negb (127 <? c)) s) eqn:A.
  - pose proof (utf8_ascii s A) as La.
    destruct (encodeUtf8_loop_utf8 _ s (replicate (length s * 1) 0) 0 (Nat.le_refl _) Hu Hp)
      as (b & E & Lb & T).
    { rewrite length_replicate. lia. }
    rewrite E. cbn [mbind outcome_bind bind]. rewrite length_replicate in Lb.
    simpl in T. rewrite take_ge in T by lia. rewrite T. reflexivity.
  - pose proof (utf8_length _ s (Nat.le_refl _)) as La.
    destruct (encodeUtf8_loop_utf8 _ s (replicate (length s * 4) 0) 0 (Nat.le_refl _) Hu Hp)
      as (b & E & Lb & T).
    { rewrite length_replicate. lia. }
    rewrite E. cbn [mbind outcome_bind bind]. rewrite T. reflexivity.
Qed.

(** The round trip of the text codec, anywhere in an array. *)
Lemma decodeUtf8_utf8 (s : jsstring) (pre post : list Z) :
  Forall code_unit s -> paired s = true ->
  decodeUtf8 (pre ++ utf8 s ++ post) (Z.of_nat (length pre))
             (Some (Z.of_nat (length (utf8 s))))
  = Ok s.
Proof.
  intros Hu Hp. unfold decodeUtf8.
  rewrite Z.add_comm.
  rewrite (decodeUtf8_loop_utf8 _ s pre post [] _ (Nat.le_refl _) Hu Hp); [reflexivity|].
  rewrite !length_app. lia.
Qed.

(** X2: decoding the bytes that [encodeUtf8] returns for a string gives
    the string back, wherever the bytes stand in the array. *)
Theorem decodeUtf8_inverts_encodeUtf8 (s : jsstring) (bytes pre post : list Z) :
  Forall code_unit s -> encodeUtf8 s = Ok bytes ->
  decodeUtf8 (pre ++ bytes ++ post) (Z.of_nat (length pre)) (Some (Z.of_nat (length bytes)))
  = Ok s.
Proof.
  intros Hu E. destruct (encodeUtf8_utf8 s bytes Hu E) as [Hp ->].
  apply decodeUtf8_utf8; assumption.
Qed.

(** ** What [decodeUtf8] accepts and returns *)

Lemma lor_bound (a b n : Z) :
  0 <= n -> 0 <= a < 2 ^ n -> 0 <= b < 2 ^ n -> 0 <= Z.lor a b < 2 ^ n.
Proof.
  intros Hn Ha Hb. split; [apply Z.lor_nonneg; lia|].
  destruct (Z.eq_dec (Z.lor a b) 0) as [->|N]; [apply Z.pow_pos_nonneg; lia|].
  apply Z.log2_lt_pow2; [pose proof (proj2 (Z.lor_nonneg a b) ltac:(lia)); lia|].
  rewrite Z.log2_lor by lia.
  destruct (Z.eq_dec a 0) as [->|Na], (Z.eq_dec b 0) as [->|Nb];
    try (rewrite Z.lor_0_l in N); try (rewrite Z.lor_0_r in N); try lia.
  - simpl Z.log2 at 1. rewrite Z.max_r by apply Z.log2_nonneg.
    apply Z.log2_lt_pow2; lia.
  - simpl Z.log2 at 2. rewrite Z.max_l by apply Z.log2_nonneg.
    apply Z.log2_lt_pow2; lia.
  - apply Z.max_lub_lt; apply Z.log2_lt_pow2; lia.
Qed.

Lemma land_bound (a n : Z) : 0 <= n -> 0 <= Z.land a (Z.ones n) < 2 ^ n.
Proof. intros Hn. rewrite Z.land_ones by lia. apply Z.mod_pos_bound. lia. Qed.

Lemma shiftl_bound (a n k : Z) :
  0 <= k -> 0 <= n -> 0 <= a < 2 ^ n -> 0 <= Z.shiftl a k < 2 ^ (n + k).
Proof.
  intros Hk Hn Ha. rewrite Z.shiftl_mul_pow2, Z.pow_add_r by lia.
  assert (0 < 2 ^ k) by (apply Z.pow_pos_nonneg; lia). nia.
Qed.

Lemma continuation_bound (bytes : list Z) (i : Z) : 0 <= continuation bytes i < 2 ^ 6.
Proof.
  unfold continuation. destruct (at_ bytes i); [|lia].
  change 63 with (Z.ones 6). apply land_bound. lia.
Qed.

(** The code point of a sequence is not negative. *)
Lemma decode_sequence_nonneg (bytes : list Z) (c i length c' i' : Z) :
  0 <= c -> decode_sequence bytes c i length = Ok (c', i') -> 0 <= c'.
Proof.
  intros Hc. unfold decode_sequence.
  pose proof (continuation_bound bytes i) as C0.
  pose proof (continuation_bound bytes (i + 1)) as C1.
  pose proof (continuation_bound bytes (i + 2)) as C2.
  assert (forall a k, 0 <= a -> 0 <= Z.shiftl a k) as Sh.
  { intros a k Ha. apply Z.shiftl_nonneg. exact Ha. }
  assert (forall a b, 0 <= a -> 0 <= b -> 0 <= Z.lor a b) as Lo.
  { intros a b Ha Hb. apply Z.lor_nonneg. lia. }
  assert (forall k, 0 <= k -> 0 <= Z.land c k) as La.
  { intros k Hk. apply Z.land_nonneg. lia. }
  destruct (127 <? c); [|intros E; injection E as <- _; exact Hc].
  destruct ((191 <? c) && (c <? 224)).
  { destruct (length <=? i); [discriminate|]. intros E. injection E as <- _.
    apply Lo; [apply Sh, La|]; lia. }
  destruct ((223 <? c) && (c <? 240)).
  { destruct (length <=? i + 1); [discriminate|]. intros E. injection E as <- _.
    apply Lo; [apply Lo; [apply Sh, La | apply Sh]|]; lia. }
  destruct ((239 <? c) && (c <? 248)); [|discriminate].
  destruct (length <=? i + 2); [discriminate|]. intros E. injection E as <- _.
  apply Lo; [apply Lo; [apply Lo; [apply Sh, La | apply Sh] | apply Sh]|]; lia.
Qed.

Lemma surrogates_bound (c : Z) :
  0xffff < c <= 0x10ffff ->
  code_unit (Z.lor (Z.shiftr (c - 0x10000) 10) 0xd800) /\
  code_unit (Z.lor (Z.land (c - 0x10000) 0x3ff) 0xdc00).
Proof.
  intros Hc. unfold code_unit.
  assert (0 <= Z.shiftr (c - 0x10000) 10 < 2 ^ 16) as H1.
  { rewrite Z.shiftr_div_pow2 by lia. split; [apply Z.div_pos; lia|].
    apply Z.div_lt_upper_bound; lia. }
  pose proof (land_bound (c - 0x10000) 10 ltac:(lia)) as H2.
  change (Z.ones 10) with 0x3ff in H2.
  split.
  - apply (lor_bound _ _ 16); lia.
  - apply (lor_bound _ _ 16); lia.
Qed.

Lemma decodeUtf8_loop_code_units (fuel : nat) (bytes : list Z) :
  Forall is_byte bytes ->
  forall i length str s,
    Forall code_unit str ->
    decodeUtf8_loop fuel bytes i length str = Ok s -> Forall code_unit s.
Proof.
  intros Hb. induction fuel as [|fuel IH]; intros i length str s Hs E; [discriminate|].
  cbn [decodeUtf8_loop] in E.
  destruct (i <? length); [|injection E as <-; exact Hs].
  destruct (at_ bytes i) as [c|] eqn:A; [|discriminate].
  apply at_Some in A. destruct A as [_ A].
  assert (0 <= c < 256) as Hc by (apply (proj1 (List.Forall_forall _ _) Hb c A)).
  destruct (decode_sequence bytes c (i + 1) length) as [[c' i']|e| |] eqn:D; try discriminate.
  cbn [mbind outcome_bind bind] in E.
  pose proof (decode_sequence_nonneg bytes c (i + 1) length c' i' ltac:(lia) D) as N.
  destruct (Z.leb_spec c' 0xffff).
  - apply (IH i' length (str ++ [c']) s); [|exact E].
    apply Forall_app. split; [exact Hs|].
    constructor; [unfold code_unit; lia | constructor].
  - destruct (Z.leb_spec c' 0x10ffff); [|discriminate].
    destruct (surrogates_bound c' ltac:(lia)) as [S1 S2].
    apply (IH i' length (str ++ [Z.lor (Z.shiftr (c' - 0x10000) 10) 0xd800;
                                 Z.lor (Z.land (c' - 0x10000) 0x3ff) 0xdc00]) s); [|exact E].
    apply Forall_app. split; [exact Hs|].
    constructor; [exact S1 | constructor; [exact S2 | constructor]].
Qed.

(** X22: what [decodeUtf8] returns for an array of bytes is a string of
    UTF-16 code units, each from 0 to 0xFFFF: a code point above 0xFFFF
    becomes a surrogate pair. *)
Theorem decodeUtf8_returns_code_units (bytes : list Z) (start : Z) (length : option Z)
        (s : jsstring) :
  Forall is_byte bytes -> decodeUtf8 bytes start length = Ok s -> Forall code_unit s.
Proof.
  intros Hb E. destruct length as [n|]; cbn [decodeUtf8] in E.
  - apply (decodeUtf8_loop_code_units (S (List.length bytes)) bytes Hb start (n + start) [] s);
      [constructor | exact E].
  - injection E as <-. constructor.
Qed.

(** The result of a decoding compared with a string. *)
Definition decodes_to (r : outcome jsstring) (s : jsstring) : bool :=
  match r with
  | Ok s' => if decide (s' = s) then true else false
  | _ => false
  end.

Lemma overlong_all :
  for_range 128 0
    (fun c => decodes_to (decodeUtf8 [Z.lor (Z.shiftr c 6) 192; Z.lor (Z.land c 63) 128]
                                     0 (Some 2)) [c]) = true.
Proof. vm_compute. reflexivity. Qed.

(** X23: [decodeUtf8] does not reject overlong forms: the two bytes that
    spell an ASCII character in the two-byte form decode to that
    character. *)
Theorem overlong_forms_are_accepted (c : Z) :
  0 <= c < 128 ->
  decodeUtf8 [Z.lor (Z.shiftr c 6) 192; Z.lor (Z.land c 63) 128] 0 (Some 2) = Ok [c].
Proof.
  intros Hc. pose proof (for_range_spec _ _ 0 overlong_all c ltac:(lia)) as H.
  unfold decodes_to in H.
  destruct (decodeUtf8 _ 0 (Some 2)) as [s| | |]; try discriminate.
  destruct (decide (s = [c])) as [->|]; [reflexivity | discriminate].
Qed.

(** ** From [append] and [read] to [serialize] and [deserialize] *)

Lemma for_each_ext {A} (body body' : A -> buffer -> outcome buffer) (l : list A) :
  (forall x b, body x b = body' x b) -> forall b, for_each body l b = for_each body' l b.
Proof.
  intros H. induction l as [|x l IH]; intros b; [reflexivity|].
  cbn [for_each]. rewrite H. destruct (body' x b); simpl; auto.
Qed.

(** [append] reads nothing of the options but the replacement. *)
Lemma append_options (call : nat -> value -> value) (opts opts' : options) :
  invalidTypeReplacement opts = invalidTypeReplacement opts' ->
  forall fuel data isReplacement th b,
    append call opts fuel data isReplacement th b
    = append call opts' fuel data isReplacement th b.
Proof.
  intros H. induction fuel as [|fuel IH]; intros data isReplacement th b; [reflexivity|].
  destruct data; cbn [append]; try reflexivity.
  - unfold appendArray. apply for_each_ext. intros x b'. apply IH.
  - unfold appendArray. apply for_each_ext. intros x b'. apply IH.
  - unfold appendObject. apply for_each_ext. intros [k v] b'.
    destruct (is_undefined v); [reflexivity|].
    rewrite IH. destruct (append call opts' fuel (VString k) false hint_none b'); simpl; auto.
  - rewrite <- H. destruct (negb isReplacement && ToBoolean (invalidTypeReplacement opts));
      [|reflexivity].
    destruct (invalidTypeReplacement opts); apply IH.
  - rewrite <- H. destruct (negb isReplacement && ToBoolean (invalidTypeReplacement opts));
      [|reflexivity].
    destruct (invalidTypeReplacement opts); apply IH.
  - rewrite <- H. destruct (negb isReplacement && ToBoolean (invalidTypeReplacement opts));
      [|reflexivity].
    destruct (invalidTypeReplacement opts); apply IH.
Qed.

Section TopLevel.

Variable call : nat -> value -> value.
Variable Number_toString : number -> jsstring.
Variable Date_toString : number -> jsstring.

Local Abbreviation read' := (read Number_toString Date_toString).
Local Abbreviation encodes' := (encodes Number_toString Date_toString).
Local Abbreviation deserialize' := (deserialize Number_toString Date_toString).

Lemma encodes_nonempty (bytes : list Z) (v : value) : encodes' bytes v -> bytes <> [].
Proof. intros [_ E] ->. discriminate E. Qed.

Lemma encodes_deserialize (bytes : list Z) (v : value) (opts : options) :
  multiple opts = false -> encodes' bytes v -> deserialize' bytes opts = Ok v.
Proof.
  intros M E. pose proof (encodes_nonempty bytes v E) as Hne. destruct E as [Hb E].
  rewrite deserialize_single by assumption. rewrite E. reflexivity.
Qed.

Lemma emits_serialize (opts : options) (fuel : nat) (v : value) (out : list Z) :
  multiple opts = false ->
  emits (append call opts fuel v false (typeHint opts)) (Ok out) ->
  serialize call opts fuel v = Ok out.
Proof.
  intros M E. rewrite serialize_single by exact M. apply emits_run. exact E.
Qed.

(** What [serialize] returns in single mode is what [append] emits. *)
Lemma serialize_emits (opts : options) (fuel : nat) (v : value) (out : list Z) :
  multiple opts = false ->
  serialize call opts fuel v = Ok out ->
  emits (append call opts fuel v false (typeHint opts)) (Ok out).
Proof.
  intros M S. rewrite serialize_single in S by exact M.
  destruct (append_emits call opts fuel v false (typeHint opts)) as [r E].
  rewrite (emits_run _ _ E) in S. subst r. exact E.
Qed.

End TopLevel.

(** ** The wire forms with a length *)

(** The headers the encoder writes for a string, a byte array and an array
    of a given length. *)
Definition str_header (n : Z) : list Z :=
  if n <=? 0x1f then [0xa0 + n]
  else if n <=? 0xff then 0xd9 :: be_bytes 1 n
  else if n <=? 0xffff then 0xda :: be_bytes 2 n
  else 0xdb :: be_bytes 4 n.

Definition bin_header (n : Z) : list Z :=
  if n <=? 0xf then 0xc4 :: be_bytes 1 n
  else if n <=? 0xffff then 0xc5 :: be_bytes 2 n
  else 0xc6 :: be_bytes 4 n.

Definition array_header (n : Z) : list Z :=
  if n <=? 0xf then [0x90 + n]
  else if n <=? 0xffff then 0xdc :: be_bytes 2 n
  else 0xdd :: be_bytes 4 n.

Lemma header0_writes (tag n : Z) :
  is_byte (tag + n) -> writes (appendByte (tag + n)) [tag + n].
Proof.
  intros H. replace [tag + n] with [(tag + n) mod 256]
    by (f_equal; apply Z.mod_small; exact H).
  apply appendByte_writes.
Qed.

Lemma header1_writes (tag n : Z) :
  is_byte tag -> writes (appendBytes [tag; n]) (tag :: be_bytes 1 n).
Proof.
  intros H. replace (tag :: be_bytes 1 n) with (map (fun b => b mod 256) [tag; n]).
  { apply appendBytes_writes. }
  simpl. rewrite (Z.mod_small tag) by exact H. reflexivity.
Qed.

Lemma header2_writes (tag n : Z) :
  is_byte tag -> writes (appendBytes [tag; ushrZ n 8; n]) (tag :: be_bytes 2 n).
Proof.
  intros H. replace (tag :: be_bytes 2 n) with (map (fun b => b mod 256) [tag; ushrZ n 8; n]).
  { apply appendBytes_writes. }
  simpl. rewrite (Z.mod_small tag) by exact H. rewrite ushrZ_byte by lia. reflexivity.
Qed.

Lemma header4_writes (tag n : Z) :
  is_byte tag ->
  writes (appendBytes [tag; ushrZ n 24; ushrZ n 16; ushrZ n 8; n]) (tag :: be_bytes 4 n).
Proof.
  intros H.
  replace (tag :: be_bytes 4 n)
    with (map (fun b => b mod 256) [tag; ushrZ n 24; ushrZ n 16; ushrZ n 8; n]).
  { apply appendBytes_writes. }
  simpl. rewrite (Z.mod_small tag) by exact H. rewrite !ushrZ_byte by lia.
  rewrite !Z.shiftr_shiftr by lia. reflexivity.
Qed.

Lemma bytes_writes (l : list Z) : Forall is_byte l -> writes (appendBytes l) l.
Proof.
  intros H. rewrite <- (wrap_bytes l H) at 2. apply appendBytes_writes.
Qed.

(** *** Strings *)

Lemma appendString_utf8 (s : jsstring) :
  Forall code_unit s -> paired s = true ->
  emits (appendString s) (Ok (str_header (Z.of_nat (length (utf8 s))) ++ utf8 s)).
Proof.
  intros Hu Hp. unfold appendString. rewrite (encodeUtf8_paired s Hu Hp).
  cbn [mbind outcome_bind bind].
  pose proof (bytes_writes _ (utf8_is_byte _ s (Nat.le_refl _) Hu Hp)) as W.
  set (n := Z.of_nat (length (utf8 s))). assert (0 <= n) by lia.
  apply emits_pure. unfold str_header.
  destruct (Z.leb_spec n 0x1f).
  { apply (writes_compose (appendByte (0xa0 + n)) _ [0xa0 + n] _ ); [|exact W].
    apply header0_writes. unfold is_byte. lia. }
  destruct (Z.leb_spec n 0xff).
  { apply (writes_compose (appendBytes [0xd9; n]) _ (0xd9 :: be_bytes 1 n)); [|exact W].
    apply header1_writes. unfold is_byte. lia. }
  destruct (Z.leb_spec n 0xffff).
  { apply (writes_compose (appendBytes [0xda; ushrZ n 8; n]) _ (0xda :: be_bytes 2 n));
      [|exact W].
    apply header2_writes. unfold is_byte. lia. }
  apply (writes_compose (appendBytes [0xdb; ushrZ n 24; ushrZ n 16; ushrZ n 8; n]) _
           (0xdb :: be_bytes 4 n)); [|exact W].
  apply header4_writes. unfold is_byte. lia.
Qed.

(** *** Byte arrays *)

Lemma appendBinArray_bytes (l : list Z) :
  Forall is_byte l ->
  writes (appendBinArray l) (bin_header (Z.of_nat (length l)) ++ l).
Proof.
  intros Hl. unfold appendBinArray, bin_header.
  pose proof (bytes_writes l Hl) as W.
  set (n := Z.of_nat (length l)). assert (0 <= n) by lia.
  destruct (Z.leb_spec n 0xf).
  { apply (writes_compose (appendBytes [0xc4; n]) _ (0xc4 :: be_bytes 1 n)); [|exact W].
    apply header1_writes. unfold is_byte. lia. }
  destruct (Z.leb_spec n 0xffff).
  { apply (writes_compose (appendBytes [0xc5; ushrZ n 8; n]) _ (0xc5 :: be_bytes 2 n));
      [|exact W].
    apply header2_writes. unfold is_byte. lia. }
  apply (writes_compose (appendBytes [0xc6; ushrZ n 24; ushrZ n 16; ushrZ n 8; n]) _
           (0xc6 :: be_bytes 4 n)); [|exact W].
  apply header4_writes. unfold is_byte. lia.
Qed.

(** *** Arrays and objects *)

Lemma for_each_concat {A} (body : A -> buffer -> outcome buffer) (l : list A)
      (outs : list (list Z)) :
  Forall2 (fun x o => emits (body x) (Ok o)) l outs ->
  emits (for_each body l) (Ok (concat outs)).
Proof.
  induction 1 as [|x o l outs Hx _ IH].
  - intros b Hb. exists b. simpl. rewrite app_nil_r. auto.
  - cbn [for_each concat].
    exact (emits_bind _ _ _ _ Hx IH).
Qed.

Lemma appendArray_concat (nested : value -> buffer -> outcome buffer)
      (l : list value) (outs : list (list Z)) :
  Forall2 (fun x o => emits (nested x) (Ok o)) l outs ->
  emits (appendArray nested l) (Ok (array_header (Z.of_nat (length l)) ++ concat outs)).
Proof.
  intros H. pose proof (for_each_concat nested l outs H) as E.
  unfold appendArray, array_header.
  set (n := Z.of_nat (length l)). assert (0 <= n) by lia.
  destruct (Z.leb_spec n 0xf).
  { refine (emits_after (appendByte (0x90 + n)) (for_each nested l) [0x90 + n]
              (Ok (concat outs)) _ E).
    apply header0_writes. unfold is_byte. lia. }
  destruct (Z.leb_spec n 0xffff).
  { refine (emits_after (appendBytes [0xdc; ushrZ n 8; n]) (for_each nested l)
              (0xdc :: be_bytes 2 n) (Ok (concat outs)) _ E).
    apply header2_writes. unfold is_byte. lia. }
  refine (emits_after (appendBytes [0xdd; ushrZ n 24; ushrZ n 16; ushrZ n 8; n])
            (for_each nested l) (0xdd :: be_bytes 4 n) (Ok (concat outs)) _ E).
  apply header4_writes. unfold is_byte. lia.
Qed.

Lemma appendObject_concat (nested : value -> buffer -> outcome buffer)
      (data : list (jsstring * value)) (outs : list (list Z)) :
  Forall (fun e => is_undefined (snd e) = false) data ->
  Forall2 (fun e o => exists ok ov,
                        emits (nested (VString (fst e))) (Ok ok) /\
                        emits (nested (snd e)) (Ok ov) /\ o = ok ++ ov) data outs ->
  emits (appendObject nested data) (Ok (map_header (Z.of_nat (length data)) ++ concat outs)).
Proof.
  intros Hd H.
  assert (List.filter present data = data) as Fd.
  { clear H. induction Hd as [|[k v] l Hv _ IH]; [reflexivity|].
    simpl in *. unfold present at 1. simpl. rewrite Hv. simpl. f_equal. exact IH. }
  assert (Forall2 (fun e o => emits (entry_body nested e) (Ok o)) data outs) as E.
  { clear Fd. induction H as [|[k v] o l outs' (ok & ov & Ek & Ev & ->) _ IH]; [constructor|].
    inversion Hd as [|? ? Hv Hd']; subst. constructor; [|apply IH; exact Hd'].
    unfold entry_body. simpl in *. rewrite Hv.
    exact (emits_bind _ _ _ _ Ek Ev). }
  apply for_each_concat in E.
  apply (emits_ext (fun b => for_each (entry_body nested) data
                                (object_header (count_present data) b))).
  { intros b. symmetry. apply appendObject_unfold. }
  rewrite count_present_filter, Fd.
  refine (emits_after (object_header (Z.of_nat (length data)))
            (for_each (entry_body nested) data) (map_header (Z.of_nat (length data)))
            (Ok (concat outs)) _ E).
  apply object_header_writes. lia.
Qed.

(** The length field after a tag, and the lengths that stand in the tag. *)
Lemma read_size_field (tag : Z) (k : nat) (n : Z) (body : list Z) :
  (k <= 6)%nat -> 0 <= n < 256 ^ Z.of_nat k ->
  read_size (tag :: be_bytes k n ++ body) (SFopp (lit 1)) k (Some 1)
  = (exact n, Some (1 + Z.of_nat k)).
Proof.
  intros Hk Hn. unfold read_size.
  change (ltb (SFopp (lit 1)) (lit 0)) with true. cbv iota.
  rewrite readUInt_field, Z.mod_small by lia. reflexivity.
Qed.

Lemma read_size_fixed (array : list Z) (n : Z) (pos : position) :
  0 <= n < 2 ^ 53 -> read_size array (lit n) 0 pos = (exact n, pos).
Proof.
  intros Hn. unfold read_size. rewrite lit_exact by (unfold safe; lia).
  change (lit 0) with (exact 0). rewrite ltb_exact by (unfold safe; lia).
  destruct (Z.ltb_spec n 0); [lia | reflexivity].
Qed.

Lemma to_length_exact (n : Z) : safe n -> to_length (exact n) = Some n.
Proof.
  intros Hn. unfold to_length.
  replace (isNaN (exact n)) with false by (destruct n; reflexivity).
  rewrite trunc_exact by exact Hn. reflexivity.
Qed.

Lemma classify_fixstr (n : Z) : 0 <= n <= 0x1f -> classify (0xa0 + n) = a_str (lit n) 0.
Proof.
  intros Hn. unfold classify.
  destruct (Z.leb_spec 0 (0xa0 + n)); [|lia]. destruct (Z.leb_spec (0xa0 + n) 0x7f); [lia|].
  destruct (Z.leb_spec 0x80 (0xa0 + n)); [|lia]. destruct (Z.leb_spec (0xa0 + n) 0x8f); [lia|].
  destruct (Z.leb_spec 0x90 (0xa0 + n)); [|lia]. destruct (Z.leb_spec (0xa0 + n) 0x9f); [lia|].
  destruct (Z.leb_spec 0xa0 (0xa0 + n)); [|lia]. destruct (Z.leb_spec (0xa0 + n) 0xbf); [|lia].
  cbn [andb]. do 2 f_equal. lia.
Qed.

Lemma classify_fixarray (n : Z) : 0 <= n <= 0xf -> classify (0x90 + n) = a_array (lit n) 0.
Proof.
  intros Hn. unfold classify.
  destruct (Z.leb_spec 0 (0x90 + n)); [|lia]. destruct (Z.leb_spec (0x90 + n) 0x7f); [lia|].
  destruct (Z.leb_spec 0x80 (0x90 + n)); [|lia]. destruct (Z.leb_spec (0x90 + n) 0x8f); [lia|].
  destruct (Z.leb_spec 0x90 (0x90 + n)); [|lia]. destruct (Z.leb_spec (0x90 + n) 0x9f); [|lia].
  cbn [andb]. do 2 f_equal. lia.
Qed.

Lemma classify_fixmap (n : Z) : 0 <= n <= 0xf -> classify (0x80 + n) = a_map (lit n) 0.
Proof.
  intros Hn. unfold classify.
  destruct (Z.leb_spec 0 (0x80 + n)); [|lia]. destruct (Z.leb_spec (0x80 + n) 0x7f); [lia|].
  destruct (Z.leb_spec 0x80 (0x80 + n)); [|lia]. destruct (Z.leb_spec (0x80 + n) 0x8f); [|lia].
  cbn [andb]. do 2 f_equal. lia.
Qed.

Lemma header_is_byte (tag : Z) (k : nat) (n : Z) :
  is_byte tag -> Forall is_byte (tag :: be_bytes k n).
Proof. intros H. constructor; [exact H | apply be_bytes_is_byte]. Qed.

Lemma str_header_bytes (n : Z) : 0 <= n -> Forall is_byte (str_header n).
Proof.
  intros Hn. unfold str_header.
  repeat match goal with |- context [?a <=? ?b] => destruct (Z.leb_spec a b) end;
    try (apply header_is_byte; unfold is_byte; lia).
  constructor; [unfold is_byte; lia | constructor].
Qed.

Lemma bin_header_bytes (n : Z) : Forall is_byte (bin_header n).
Proof.
  unfold bin_header.
  repeat match goal with |- context [?a <=? ?b] => destruct (Z.leb_spec a b) end;
    apply header_is_byte; unfold is_byte; lia.
Qed.

Lemma array_header_bytes (n : Z) : 0 <= n -> Forall is_byte (array_header n).
Proof.
  intros Hn. unfold array_header.
  repeat match goal with |- context [?a <=? ?b] => destruct (Z.leb_spec a b) end;
    try (apply header_is_byte; unfold is_byte; lia).
  constructor; [unfold is_byte; lia | constructor].
Qed.

Lemma map_header_bytes (n : Z) : 0 <= n -> Forall is_byte (map_header n).
Proof.
  intros Hn. unfold map_header.
  repeat match goal with |- context [?a <=? ?b] => destruct (Z.leb_spec a b) end;
    try (apply header_is_byte; unfold is_byte; lia).
  constructor; [unfold is_byte; lia | constructor].
Qed.

Section Forms.

Variable call : nat -> value -> value.
Variable Number_toString : number -> jsstring.
Variable Date_toString : number -> jsstring.

Local Abbreviation read' := (read Number_toString Date_toString).
Local Abbreviation encodes' := (encodes Number_toString Date_toString).
Local Abbreviation deserialize' := (deserialize Number_toString Date_toString).

(** A string is read back from its encoding. *)
Lemma string_encodes (s : jsstring) :
  Forall code_unit s -> paired s = true ->
  Z.of_nat (length (utf8 s)) < 2 ^ 32 ->
  encodes' (str_header (Z.of_nat (length (utf8 s))) ++ utf8 s) (VString s).
Proof.
  intros Hu Hp Hn. set (n := Z.of_nat (length (utf8 s))) in *.
  assert (0 <= n) as Hn0 by lia.
  pose proof (utf8_is_byte _ s (Nat.le_refl _) Hu Hp) as Hb.
  split; [apply Forall_app; split; [apply str_header_bytes; lia | exact Hb]|].
  rewrite read_perform.
  assert (forall tag k, 0 <= n < 256 ^ Z.of_nat k -> (k <= 6)%nat ->
            readStr ((tag :: be_bytes k n) ++ utf8 s) (SFopp (lit 1)) k (Some 1)
            = Ok (VString s, Some (Z.of_nat (length ((tag :: be_bytes k n) ++ utf8 s))))) as R.
  { intros tag k Hk Hk6. unfold readStr. cbn [app].
    rewrite read_size_field by assumption.
    rewrite to_length_exact by (unfold safe; lia). cbn [advance].
    pose proof (decodeUtf8_utf8 s (tag :: be_bytes k n) [] Hu Hp) as D.
    rewrite app_nil_r in D. cbn [length app] in D. rewrite length_be_bytes in D.
    replace (Z.of_nat (S k)) with (1 + Z.of_nat k) in D by lia.
    fold n in D. rewrite D. cbn [mbind outcome_bind bind length].
    rewrite length_app, length_be_bytes. do 3 f_equal. lia. }
  unfold str_header.
  destruct (Z.leb_spec n 0x1f).
  { change (peek ([0xa0 + n] ++ utf8 s) (Some 0)) with (Some (0xa0 + n)). cbv iota.
    rewrite classify_fixstr by lia. cbn [perform advance]. unfold readStr.
    rewrite read_size_fixed by lia.
    rewrite to_length_exact by (unfold safe; lia). cbn [advance].
    pose proof (decodeUtf8_utf8 s [0xa0 + n] [] Hu Hp) as D.
    rewrite app_nil_r in D. cbn [length] in D. change (Z.of_nat 1) with 1 in D.
    fold n in D. change (0 + 1) with 1. rewrite D. cbn [mbind outcome_bind bind].
    rewrite length_app. cbn [length]. do 3 f_equal. lia. }
  destruct (Z.leb_spec n 0xff).
  { change (peek ((0xd9 :: be_bytes 1 n) ++ utf8 s) (Some 0)) with (Some 0xd9). cbv iota.
    change (classify 0xd9) with (a_str (SFopp (lit 1)) 1). cbn [perform advance].
    apply R; simpl; lia. }
  destruct (Z.leb_spec n 0xffff).
  { change (peek ((0xda :: be_bytes 2 n) ++ utf8 s) (Some 0)) with (Some 0xda). cbv iota.
    change (classify 0xda) with (a_str (SFopp (lit 1)) 2). cbn [perform advance].
    apply R; simpl; lia. }
  change (peek ((0xdb :: be_bytes 4 n) ++ utf8 s) (Some 0)) with (Some 0xdb). cbv iota.
  change (classify 0xdb) with (a_str (SFopp (lit 1)) 4). cbn [perform advance].
  apply R; simpl; lia.
Qed.

(** A byte array is read back from its encoding. *)
Lemma bin_encodes (l : list Z) :
  Forall is_byte l -> Z.of_nat (length l) < 2 ^ 32 ->
  encodes' (bin_header (Z.of_nat (length l)) ++ l) (VUint8Array false l).
Proof.
  intros Hb Hn. set (n := Z.of_nat (length l)) in *.
  assert (0 <= n) as Hn0 by lia.
  split; [apply Forall_app; split; [apply bin_header_bytes | exact Hb]|].
  rewrite read_perform.
  assert (forall tag k, 0 <= n < 256 ^ Z.of_nat k -> (k <= 6)%nat ->
            readBin ((tag :: be_bytes k n) ++ l) (SFopp (lit 1)) k (Some 1)
            = (l, Some (Z.of_nat (length ((tag :: be_bytes k n) ++ l))))) as R.
  { intros tag k Hk Hk6. unfold readBin. cbn [app].
    rewrite read_size_field by assumption.
    rewrite to_length_exact by (unfold safe; lia). cbn [advance]. unfold subarray.
    replace (Z.to_nat (1 + Z.of_nat k)) with (length (tag :: be_bytes k n))
      by (cbn [length]; rewrite length_be_bytes; lia).
    change (tag :: be_bytes k n ++ l) with ((tag :: be_bytes k n) ++ l).
    rewrite drop_app_length. unfold n. rewrite Nat2Z.id, take_ge by lia.
    rewrite length_app. cbn [length]. rewrite length_be_bytes. do 2 f_equal. lia. }
  unfold bin_header.
  destruct (Z.leb_spec n 0xf).
  { change (peek ((0xc4 :: be_bytes 1 n) ++ l) (Some 0)) with (Some 0xc4). cbv iota.
    change (classify 0xc4) with (a_bin 1). cbn [perform advance].
    rewrite R by (simpl; lia). reflexivity. }
  destruct (Z.leb_spec n 0xffff).
  { change (peek ((0xc5 :: be_bytes 2 n) ++ l) (Some 0)) with (Some 0xc5). cbv iota.
    change (classify 0xc5) with (a_bin 2). cbn [perform advance].
    rewrite R by (simpl; lia). reflexivity. }
  change (peek ((0xc6 :: be_bytes 4 n) ++ l) (Some 0)) with (Some 0xc6). cbv iota.
  change (classify 0xc6) with (a_bin 4). cbn [perform advance].
  rewrite R by (simpl; lia). reflexivity.
Qed.

(** The elements of an array are read one after the other. *)
Lemma readArray_loop_elements (outs : list (list Z)) (vs : list value) :
  Forall2 encodes' outs vs ->
  forall (pre : list Z) (acc : list value) (fuel : nat),
    (length (concat outs) < fuel)%nat ->
    readArray_loop (read' fuel (pre ++ concat outs)) (length vs) acc
                   (Some (Z.of_nat (length pre)))
    = Ok (VArray (acc ++ vs), Some (Z.of_nat (length (pre ++ concat outs)))).
Proof.
  induction 1 as [|o v outs vs Hv _ IH]; intros pre acc fuel F.
  - simpl. rewrite !app_nil_r. reflexivity.
  - cbn [concat length readArray_loop] in *. rewrite length_app in F.
    rewrite (read_embedded _ _ pre o (concat outs) v fuel Hv) by lia.
    cbn [mbind outcome_bind bind].
    specialize (IH (pre ++ o) (acc ++ [v]) fuel ltac:(lia)).
    rewrite length_app, Nat2Z.inj_add, <- !app_assoc in IH.
    rewrite IH. reflexivity.
Qed.

(** An array is read back from the encodings of its elements. *)
Lemma array_encodes (outs : list (list Z)) (vs : list value) :
  Forall2 encodes' outs vs -> Z.of_nat (length vs) < 2 ^ 32 ->
  encodes' (array_header (Z.of_nat (length vs)) ++ concat outs) (VArray vs).
Proof.
  intros H Hn.
  assert (Forall is_byte (concat outs)) as Hb.
  { clear Hn. induction H as [|o v outs' vs' [Ho _] _ IH]; simpl; [constructor|].
    apply Forall_app; split; [exact Ho | exact IH]. }
  set (n := Z.of_nat (length vs)) in *.
  assert (0 <= n) as Hn0 by lia.
  split; [apply Forall_app; split; [apply array_header_bytes; lia | exact Hb]|].
  rewrite read_perform.
  assert (forall header, header <> [] ->
            readArray_loop (read' (length (header ++ concat outs)) (header ++ concat outs))
              (length vs) [] (Some (Z.of_nat (length header)))
            = Ok (VArray vs, Some (Z.of_nat (length (header ++ concat outs))))) as L.
  { intros header Hne. apply (readArray_loop_elements outs vs H header []).
    rewrite length_app. destruct header; [congruence | simpl; lia]. }
  assert (turns (exact n) = length vs) as T by (apply turns_exact; lia).
  unfold array_header.
  destruct (Z.leb_spec n 0xf).
  { change (peek ([0x90 + n] ++ concat outs) (Some 0)) with (Some (0x90 + n)). cbv iota.
    rewrite classify_fixarray by lia. cbn [perform advance]. unfold readArray.
    rewrite read_size_fixed by lia. rewrite T.
    apply (L [0x90 + n]). discriminate. }
  destruct (Z.leb_spec n 0xffff).
  { change (peek ((0xdc :: be_bytes 2 n) ++ concat outs) (Some 0)) with (Some 0xdc). cbv iota.
    change (classify 0xdc) with (a_array (SFopp (lit 1)) 2). cbn [perform advance].
    unfold readArray. cbn [app]. rewrite read_size_field by (simpl; lia). rewrite T.
    specialize (L (0xdc :: be_bytes 2 n) ltac:(discriminate)).
    cbn [length app] in L. rewrite length_be_bytes in L. exact L. }
  change (peek ((0xdd :: be_bytes 4 n) ++ concat outs) (Some 0)) with (Some 0xdd). cbv iota.
  change (classify 0xdd) with (a_array (SFopp (lit 1)) 4). cbn [perform advance].
  unfold readArray. cbn [app]. rewrite read_size_field by (simpl; lia). rewrite T.
  specialize (L (0xdd :: be_bytes 4 n) ltac:(discriminate)).
  cbn [length app] in L. rewrite length_be_bytes in L. exact L.
Qed.

(** The entries of a map whose keys are strings other than [__proto__] are
    read one after the other. *)
Lemma readMap_loop_object (data : list (jsstring * value)) (outs : list (list Z)) :
  Forall2 (fun e o => exists ok ov,
                        encodes' ok (VString (fst e)) /\ encodes' ov (snd e) /\ o = ok ++ ov)
          data outs ->
  Forall (fun k => k <> str "__proto__") (map fst data) ->
  forall (pre : list Z) (acc : list (jsstring * value)) (fuel : nat),
    (length (concat outs) < fuel)%nat ->
    readMap_loop Number_toString Date_toString (read' fuel (pre ++ concat outs))
                 (length data) acc (Some (Z.of_nat (length pre)))
    = Ok (VObject (store_entries acc data), Some (Z.of_nat (length (pre ++ concat outs)))).
Proof.
  induction 1 as [|[k v] o data outs (ok & ov & Hk & Hv & ->) _ IH];
    intros Hp pre acc fuel F.
  - simpl. rewrite !app_nil_r. reflexivity.
  - cbn [map fst] in Hp. inversion Hp as [|? ? Hpk Hp']; subst.
    cbn [fst snd concat length readMap_loop] in *. rewrite !length_app in F.
    rewrite <- app_assoc.
    rewrite (read_embedded _ _ pre ok (ov ++ concat outs) _ fuel Hk) by lia.
    cbn [mbind outcome_bind bind].
    pose proof (read_embedded _ _ (pre ++ ok) ov (concat outs) _ fuel Hv ltac:(lia)) as Rv.
    rewrite length_app, Nat2Z.inj_add, <- app_assoc in Rv. rewrite Rv.
    cbn [mbind outcome_bind bind ToString].
    rewrite obj_assign_stored by exact Hpk. cbn [mbind outcome_bind bind].
    specialize (IH Hp' (pre ++ ok ++ ov) (obj_set acc k v) fuel ltac:(lia)).
    rewrite !length_app, !Nat2Z.inj_add, <- !app_assoc in IH.
    replace (Z.of_nat (length pre) + Z.of_nat (length ok) + Z.of_nat (length ov))
      with (Z.of_nat (length pre) + (Z.of_nat (length ok) + Z.of_nat (length ov))) by lia.
    rewrite IH. cbn [store_entries]. do 3 f_equal. rewrite !length_app. lia.
Qed.

Lemma has_own_fresh (acc : list (jsstring * value)) (k : jsstring) :
  ~ In k (map fst acc) -> has_own k acc = false.
Proof.
  induction acc as [|[k' w] acc IH]; intros H; [reflexivity|].
  unfold has_own in *. cbn [existsb]. destruct (decide (k' = k)) as [->|N].
  - exfalso. apply H. left. reflexivity.
  - cbn [orb]. apply IH. intros Hin. apply H. right. exact Hin.
Qed.

(** A new key that is enumerated before none of the keys there are goes to
    the end. *)
Lemma obj_set_fresh (acc : list (jsstring * value)) (k : jsstring) (v : value) :
  ~ In k (map fst acc) ->
  forallb (fun k' => negb (enumerated_before k k')) (map fst acc) = true ->
  obj_set acc k v = acc ++ [(k, v)].
Proof.
  intros H. unfold obj_set. rewrite has_own_fresh by exact H. clear H.
  induction acc as [|[k' w] acc IH]; intros B; [reflexivity|].
  cbn [map fst forallb] in B. apply andb_prop in B. destruct B as [B1 B2].
  cbn [obj_insert]. destruct (enumerated_before k k'); [discriminate|].
  cbn [app]. f_equal. apply IH. exact B2.
Qed.

Lemma enumeration_order_later (l1 l2 : list jsstring) (k : jsstring) :
  enumeration_order (l1 ++ k :: l2) = true ->
  forallb (fun k' => negb (enumerated_before k k')) l1 = true.
Proof.
  induction l1 as [|k' l1 IH]; intros H; [reflexivity|].
  cbn [app enumeration_order] in H. apply andb_prop in H. destruct H as [H1 H2].
  cbn [forallb]. rewrite (IH H2), andb_true_r.
  rewrite forallb_app in H1. apply andb_prop in H1. destruct H1 as [_ H1].
  cbn [forallb] in H1. apply andb_prop in H1. exact (proj1 H1).
Qed.

(** Storing entries with distinct new keys, which come in the order of
    their enumeration, keeps them as they come. *)
Lemma store_entries_distinct (data : list (jsstring * value)) :
  forall acc, List.NoDup (map fst (acc ++ data)) ->
              enumeration_order (map fst (acc ++ data)) = true ->
              store_entries acc data = acc ++ data.
Proof.
  induction data as [|[k v] data IH]; intros acc H O.
  - simpl. rewrite app_nil_r. reflexivity.
  - cbn [store_entries]. rewrite obj_set_fresh.
    + rewrite IH; rewrite <- app_assoc; [reflexivity | exact H | exact O].
    + rewrite map_app in H. apply List.NoDup_remove_2 in H.
      intros Hin. apply H. rewrite in_app_iff. left. exact Hin.
    + rewrite map_app in O. exact (enumeration_order_later _ _ _ O).
Qed.

(** An object with distinct keys, none of them [__proto__], is read back
    from the encodings of its keys and values. *)
Lemma object_encodes (data : list (jsstring * value)) (outs : list (list Z)) :
  Forall2 (fun e o => exists ok ov,
                        encodes' ok (VString (fst e)) /\ encodes' ov (snd e) /\ o = ok ++ ov)
          data outs ->
  List.NoDup (map fst data) ->
  Forall (fun k => k <> str "__proto__") (map fst data) ->
  enumeration_order (map fst data) = true ->
  Z.of_nat (length data) < 2 ^ 32 ->
  encodes' (map_header (Z.of_nat (length data)) ++ concat outs) (VObject data).
Proof.
  intros H Hk Hp Ho Hn.
  assert (Forall is_byte (concat outs)) as Hb.
  { clear Hn Hk Hp Ho. induction H as [|e o d outs' (ok & ov & [Ho _] & [Ho' _] & ->) _ IH];
      simpl; [constructor|].
    rewrite <- app_assoc. apply Forall_app; split; [exact Ho|].
    apply Forall_app; split; [exact Ho' | exact IH]. }
  set (n := Z.of_nat (length data)) in *.
  assert (0 <= n) as Hn0 by lia.
  split; [apply Forall_app; split; [apply map_header_bytes; lia | exact Hb]|].
  rewrite read_perform.
  assert (forall header, header <> [] ->
            readMap_loop Number_toString Date_toString
              (read' (length (header ++ concat outs)) (header ++ concat outs))
              (length data) [] (Some (Z.of_nat (length header)))
            = Ok (VObject data, Some (Z.of_nat (length (header ++ concat outs))))) as L.
  { intros header Hne.
    rewrite (readMap_loop_object data outs H Hp header []).
    - rewrite (store_entries_distinct data []); [reflexivity | exact Hk | exact Ho].
    - rewrite length_app. destruct header; [congruence | simpl; lia]. }
  assert (turns (exact n) = length data) as T by (apply turns_exact; lia).
  unfold map_header.
  destruct (Z.leb_spec n 0xf).
  { change (peek ([0x80 + n] ++ concat outs) (Some 0)) with (Some (0x80 + n)). cbv iota.
    rewrite classify_fixmap by lia. cbn [perform advance]. unfold readMap.
    rewrite read_size_fixed by lia. rewrite T.
    apply (L [0x80 + n]). discriminate. }
  destruct (Z.leb_spec n 0xffff).
  { change (peek ((0xde :: be_bytes 2 n) ++ concat outs) (Some 0)) with (Some 0xde). cbv iota.
    change (classify 0xde) with (a_map (SFopp (lit 1)) 2). cbn [perform advance].
    unfold readMap. cbn [app]. rewrite read_size_field by (simpl; lia). rewrite T.
    specialize (L (0xde :: be_bytes 2 n) ltac:(discriminate)).
    cbn [length app] in L. rewrite length_be_bytes in L. exact L. }
  change (peek ((0xdf :: be_bytes 4 n) ++ concat outs) (Some 0)) with (Some 0xdf). cbv iota.
  change (classify 0xdf) with (a_map (SFopp (lit 1)) 4). cbn [perform advance].
  unfold readMap. cbn [app]. rewrite read_size_field by (simpl; lia). rewrite T.
  specialize (L (0xdf :: be_bytes 4 n) ltac:(discriminate)).
  cbn [length app] in L. rewrite length_be_bytes in L. exact L.
Qed.

(** X8: a string is written as a header that gives the number of its
    UTF-8 bytes (in the tag up to 31, else in 1, 2 or 4 bytes) followed by
    those bytes, and reads back as the same string. *)
Theorem strings_round_trip (opts : options) (fuel : nat) (s : jsstring) (bytes : list Z) :
  multiple opts = false -> Forall code_unit s ->
  encodeUtf8 s = Ok bytes -> Z.of_nat (length bytes) < 2 ^ 32 ->
  serialize call opts (S fuel) (VString s)
  = Ok (str_header (Z.of_nat (length bytes)) ++ bytes) /\
  deserialize' (str_header (Z.of_nat (length bytes)) ++ bytes) opts = Ok (VString s).
Proof.
  intros M Hu E Hn. destruct (encodeUtf8_utf8 s bytes Hu E) as [Hp ->]. split.
  - apply emits_serialize; [exact M|]. cbn [append]. apply appendString_utf8; assumption.
  - apply encodes_deserialize; [exact M | apply string_encodes; assumption].
Qed.

(** X9: a byte array is written as a bin header and its bytes, where the
    one-byte length form is used up to 15 bytes only, and reads back as a
    [Uint8Array] of the same bytes, also when it was a
    [Uint8ClampedArray]. *)
Theorem byte_arrays_round_trip (opts : options) (fuel : nat) (clamped : bool) (l : list Z) :
  multiple opts = false -> Forall is_byte l -> Z.of_nat (length l) < 2 ^ 32 ->
  serialize call opts (S fuel) (VUint8Array clamped l)
  = Ok (bin_header (Z.of_nat (length l)) ++ l) /\
  deserialize' (bin_header (Z.of_nat (length l)) ++ l) opts = Ok (VUint8Array false l).
Proof.
  intros M Hl Hn. split.
  - apply emits_serialize; [exact M|]. apply emits_pure.
    apply appendBinArray_bytes; assumption.
  - apply encodes_deserialize; [exact M | apply bin_encodes; assumption].
Qed.

(** X10: an array is written as its header followed by what [serialize]
    returns for each element in turn, without the type hint, which the
    elements do not inherit. *)
Theorem arrays_are_concatenations (opts : options) (fuel : nat)
        (l : list value) (outs : list (list Z)) :
  multiple opts = false ->
  Forall2 (fun d o =>
             serialize call (Options false hint_none (invalidTypeReplacement opts)) fuel d
             = Ok o) l outs ->
  serialize call opts (S fuel) (VArray l)
  = Ok (array_header (Z.of_nat (length l)) ++ concat outs).
Proof.
  intros M H. apply emits_serialize; [exact M|]. cbn [append].
  apply appendArray_concat.
  induction H as [|d o l outs Hd _ IH]; constructor; [|exact IH].
  apply serialize_emits in Hd; [|reflexivity]. cbn [typeHint] in Hd.
  intros b Hb. rewrite (append_options call opts (Options false hint_none _) eq_refl).
  exact (Hd b Hb).
Qed.

(** X11: an array header followed by complete encoded values, as many as
    the header announces, reads back as the array of their values. *)
Theorem arrays_decode_elementwise (opts : options)
        (outs : list (list Z)) (vs : list value) :
  multiple opts = false ->
  Forall2 encodes' outs vs -> Z.of_nat (length vs) < 2 ^ 32 ->
  deserialize' (array_header (Z.of_nat (length vs)) ++ concat outs) opts = Ok (VArray vs).
Proof.
  intros M H Hn. apply encodes_deserialize; [exact M|]. apply array_encodes; assumption.
Qed.

End Forms.

(** ** The binary64 interchange format *)

(** A number as the arithmetic of doubles produces it: its mantissa and
    exponent are the canonical ones. *)
Definition valid (x : number) : bool := valid_binary prec emax x.

Lemma binary_round_canonical (s : bool) (m : positive) (e : Z) :
  bounded prec emax m e = true -> binary_round prec emax s m e = S754_finite s m e.
Proof.
  unfold bounded, canonical_mantissa. intros H. apply andb_prop in H. destruct H as [C B].
  apply Z.eqb_eq in C. apply Z.leb_le in B.
  unfold binary_round. rewrite C. unfold shl_align. rewrite Z.sub_diag.
  unfold binary_round_aux, shr_fexp. cbn [Zdigits2 shr_record_of_loc]. rewrite C, Z.sub_diag.
  cbn [shr shr_m loc_of_shr_record round_nearest_even Zdigits2 shr_record_of_loc].
  rewrite C, Z.sub_diag. cbn [shr shr_m].
  destruct (Z.leb_spec e (emax - prec)); [reflexivity | lia].
Qed.

(** The canonical mantissa and exponent: a normal number has 53 digits, a
    subnormal one the least exponent. *)
Lemma bounded_spec (m : positive) (e : Z) :
  bounded prec emax m e = true ->
  e <= 971 /\
  ((2 ^ 52 <= Zpos m < 2 ^ 53 /\ -1074 <= e) \/ (Zpos m < 2 ^ 52 /\ e = -1074)).
Proof.
  unfold bounded, canonical_mantissa. intros H. apply andb_prop in H. destruct H as [C B].
  apply Z.eqb_eq in C. apply Z.leb_le in B. unfold fexp, emin, prec, emax in *.
  rewrite digits2_pos_bit_length in C.
  pose proof (bit_length_spec (Zpos m) ltac:(lia)) as [L U].
  pose proof (bit_length_pos (Zpos m) ltac:(lia)) as P.
  split; [lia|].
  destruct (Z.le_gt_cases 53 (bit_length (Zpos m))) as [D|D].
  - left. assert (bit_length (Zpos m) = 53) as E by lia. rewrite E in *.
    change (53 - 1) with 52 in L. lia.
  - right. split; [|lia].
    assert (2 ^ bit_length (Zpos m) <= 2 ^ 52) by (apply Z.pow_le_mono_r; lia). lia.
Qed.

(** The three fields of a binary64 word. *)
Lemma bits64_fields (sign E f : Z) :
  0 <= sign <= 1 -> 0 <= E < 2048 -> 0 <= f < 2 ^ 52 ->
  let b := sign * 2 ^ 63 + E * 2 ^ 52 + f in
  Z.testbit b 63 = (sign =? 1) /\ Z.shiftr b 52 mod 2048 = E /\ b mod 2 ^ 52 = f /\
  0 <= b < 2 ^ 64.
Proof.
  intros Hs HE Hf b.
  assert (b = (sign * 2048 + E) * 2 ^ 52 + f) as E1 by (unfold b; lia).
  assert (b = sign * 2 ^ 63 + (E * 2 ^ 52 + f)) as E2 by (unfold b; lia).
  repeat split.
  - rewrite Z.testbit_odd, Z.shiftr_div_pow2, E2 by lia.
    rewrite Z.div_add_l, (Z.div_small (E * 2 ^ 52 + f)), Z.add_0_r by lia.
    destruct (Z.eqb_spec sign 1) as [->|N]; [reflexivity|].
    replace sign with 0 by lia. reflexivity.
  - rewrite Z.shiftr_div_pow2, E1 by lia.
    rewrite Z.div_add_l, (Z.div_small f), Z.add_0_r by lia.
    rewrite Z.add_comm, Z.mod_add, Z.mod_small by lia. reflexivity.
  - rewrite E1, Z.add_comm, Z.mod_add, Z.mod_small by lia. reflexivity.
  - lia.
  - lia.
Qed.

Lemma bits64_range (x : number) : valid x = true -> 0 <= bits64 x < 2 ^ 64.
Proof.
  intros V. destruct x as [s|s| |s m e]; simpl bits64.
  - destruct s; lia.
  - destruct s; lia.
  - lia.
  - apply bounded_spec in V. destruct V as [He [[Hm He']|[Hm ->]]].
    + destruct (Z.leb_spec (2 ^ 52) (Zpos m)); [|lia].
      pose proof (bits64_fields (if s then 1 else 0) (e + 1075) (Zpos m - 2 ^ 52)
                    ltac:(destruct s; lia) ltac:(lia) ltac:(lia)) as (_ & _ & _ & R).
      destruct s; lia.
    + destruct (Z.leb_spec (2 ^ 52) (Zpos m)); [lia|]. destruct s; lia.
Qed.

(** Reading the word of a number gives the number back. *)
Lemma of_bits64_bits64 (x : number) : valid x = true -> of_bits64 (bits64 x) = x.
Proof.
  intros V. destruct x as [s|s| |s m e].
  - destruct s; reflexivity.
  - destruct s; reflexivity.
  - reflexivity.
  - pose proof V as B. apply bounded_spec in B. destruct B as [He [[Hm He']|[Hm ->]]].
    + unfold bits64. destruct (Z.leb_spec (2 ^ 52) (Zpos m)); [|lia].
      pose proof (bits64_fields (if s then 1 else 0) (e + 1075) (Zpos m - 2 ^ 52)
                    ltac:(destruct s; lia) ltac:(lia) ltac:(lia)) as (T & E & F & _).
      cbv zeta in T, E, F.
      replace ((if s then 2 ^ 63 else 0) + ((e + 1075) * 2 ^ 52 + (Zpos m - 2 ^ 52)))
        with ((if s then 1 else 0) * 2 ^ 63 + (e + 1075) * 2 ^ 52 + (Zpos m - 2 ^ 52))
        by (destruct s; lia).
      unfold of_bits64. rewrite T, E, F.
      destruct (Z.eqb_spec (e + 1075) 0); [lia|].
      destruct (Z.eqb_spec (e + 1075) 2047); [lia|].
      replace (2 ^ 52 + (Zpos m - 2 ^ 52)) with (Zpos m) by lia.
      replace (e + 1075 - 1075) with e by lia.
      replace ((if s then 1 else 0) =? 1) with s by (destruct s; reflexivity).
      destruct s; apply (binary_round_canonical _ m e V).
    + unfold bits64. destruct (Z.leb_spec (2 ^ 52) (Zpos m)); [lia|].
      pose proof (bits64_fields (if s then 1 else 0) 0 (Zpos m)
                    ltac:(destruct s; lia) ltac:(lia) ltac:(lia)) as (T & E & F & _).
      cbv zeta in T, E, F.
      replace ((if s then 2 ^ 63 else 0) + Zpos m)
        with ((if s then 1 else 0) * 2 ^ 63 + 0 * 2 ^ 52 + Zpos m) by (destruct s; lia).
      unfold of_bits64. rewrite T, E, F. cbn [Z.eqb].
      replace ((if s then 1 else 0) =? 1) with s by (destruct s; reflexivity).
      destruct s; apply (binary_round_canonical _ m _ V).
Qed.

(** A number that is not written as an integer. *)
Lemma appendNumber_float (x : number) (th : type_hint) :
  valid x = true -> isInteger x th = false ->
  writes (appendNumber x th) (0xcb :: be_bytes 8 (bits64 x)).
Proof.
  intros V H. unfold appendNumber. rewrite H.
  apply (writes_compose (appendByte 0xcb) (appendBytes (be_bytes 8 (bits64 x))) [0xcb]).
  - apply (appendByte_writes 0xcb).
  - apply bytes_writes. apply be_bytes_is_byte.
Qed.

Section Doubles.

Variable call : nat -> value -> value.
Variable Number_toString : number -> jsstring.
Variable Date_toString : number -> jsstring.

Local Abbreviation read' := (read Number_toString Date_toString).
Local Abbreviation encodes' := (encodes Number_toString Date_toString).
Local Abbreviation deserialize' := (deserialize Number_toString Date_toString).

Lemma float64_encodes (x : number) :
  valid x = true -> encodes' (0xcb :: be_bytes 8 (bits64 x)) (VNumber x).
Proof.
  intros V. split; [apply header_is_byte; unfold is_byte; lia|].
  rewrite read_perform.
  change (peek (0xcb :: be_bytes 8 (bits64 x)) (Some 0)) with (Some 0xcb). cbv iota.
  change (classify 0xcb) with (a_float 8). cbn [perform advance].
  unfold readFloat. cbn [length]. rewrite length_be_bytes.
  change (0 + 1 <? 0) with false.
  change (Z.of_nat 9 <? 0 + 1 + Z.of_nat 8) with false. cbn [orb].
  change (Z.to_nat (0 + 1)) with 1%nat. cbn [drop].
  rewrite drop_0, take_ge by (rewrite length_be_bytes; lia).
  rewrite of_be_bytes_be_bytes, Z.mod_small by (apply (bits64_range x V)).
  rewrite of_bits64_bits64 by exact V. reflexivity.
Qed.

(** X7: a number that is not written as an integer (it has a fraction, is
    infinite or NaN, or the type hint asks for a float) is written as
    float 64, tag 0xcb and the eight bytes of its IEEE 754 word, and reads
    back as the same number. *)
Theorem doubles_round_trip (opts : options) (fuel : nat) (x : number) :
  multiple opts = false -> valid x = true -> isInteger x (typeHint opts) = false ->
  serialize call opts (S fuel) (VNumber x) = Ok (0xcb :: be_bytes 8 (bits64 x)) /\
  deserialize' (0xcb :: be_bytes 8 (bits64 x)) opts = Ok (VNumber x).
Proof.
  intros M V H. split.
  - apply emits_serialize; [exact M|]. apply emits_pure.
    apply appendNumber_float; assumption.
  - apply encodes_deserialize; [exact M | apply float64_encodes; exact V].
Qed.

End Doubles.

(** ** The 64-bit integer forms *)

(** Rounding a mantissa that is a safe integer times a power of two. *)
Lemma binary_round_aux_dyadic (s : bool) (m : positive) (e z j : Z) :
  0 < z < 2 ^ 53 -> 53 - bit_length z <= j -> Zpos m = z * 2 ^ j ->
  - 1074 <= e + j + bit_length z - 53 <= 971 ->
  binary_round_aux prec emax s (Zpos m) e loc_Exact
  = S754_finite s (mantissa z) (e + j + bit_length z - 53).
Proof.
  intros Hz Hj Hm He.
  assert (Hd : bit_length z <= 53) by (apply bit_length_bound; lia).
  pose proof (bit_length_pos z ltac:(lia)) as Hd0.
  pose proof (mantissa_spec z Hz) as Hmant.
  unfold binary_round_aux, shr_fexp.
  cbn [shr_record_of_loc Zdigits2]. rewrite digits2_pos_bit_length, Hm.
  rewrite bit_length_shift by lia.
  unfold fexp, emin, prec, emax.
  replace (Z.max (bit_length z + j + e - 53) (3 - 1024 - 53) - e)
    with (j + bit_length z - 53) by lia.
  replace (z * 2 ^ j) with (Zpos (mantissa z) * 2 ^ (j + bit_length z - 53)).
  2:{ rewrite Hmant, <- Z.mul_assoc, <- Z.pow_add_r by lia. f_equal. f_equal. lia. }
  rewrite shr_exact by lia.
  cbn [shr_m loc_of_shr_record round_nearest_even shr_record_of_loc Zdigits2].
  rewrite digits2_pos_bit_length, Hmant, bit_length_shift by lia.
  replace (Z.max (bit_length z + (53 - bit_length z) + (e + (j + bit_length z - 53)) - 53)
             (3 - 1024 - 53) - (e + (j + bit_length z - 53))) with 0 by lia.
  rewrite <- Hmant. cbn [shr shr_m].
  replace (e + (j + bit_length z - 53)) with (e + j + bit_length z - 53) by lia.
  destruct (Z.leb_spec (e + j + bit_length z - 53) (1024 - 53)); [reflexivity|lia].
Qed.

(** Division of a normal number by a power of two lowers the exponent. *)
Lemma div_normal (s : bool) (ma mb : positive) (ea eb z : Z) :
  0 < z < 2 ^ 53 -> Zpos ma = z * 2 ^ (53 - bit_length z) -> Zpos mb = 2 ^ 52 ->
  - 1073 <= ea - eb - 52 <= 971 ->
  SFdiv prec emax (S754_finite s ma ea) (S754_finite false mb eb)
  = S754_finite s ma (ea - eb - 52).
Proof.
  intros Hz Ma Mb He.
  assert (Hd : bit_length z <= 53) by (apply bit_length_bound; lia).
  pose proof (bit_length_pos z ltac:(lia)) as Hd0.
  assert (ma = mantissa z) as Em.
  { apply Pos2Z.inj. rewrite mantissa_spec by exact Hz. exact Ma. }
  unfold SFdiv, SFdiv_core_binary. cbn [Zdigits2].
  rewrite !digits2_pos_bit_length, Ma, Mb.
  change (bit_length (2 ^ 52)) with 53.
  rewrite bit_length_shift by lia.
  unfold fexp, emin, prec, emax.
  set (e' := Z.min _ _).
  assert (e' = ea - eb - 53) as He' by (unfold e'; lia).
  replace (ea - eb - e') with 53 by lia.
  rewrite Z.shiftl_mul_pow2 by lia.
  assert (0 < 2 ^ (53 - bit_length z)) as P by (apply Z.pow_pos_nonneg; lia).
  replace (z * 2 ^ (53 - bit_length z) * 2 ^ 53)
    with (2 * (z * 2 ^ (53 - bit_length z)) * 2 ^ 52) by lia.
  pose proof (Z.div_eucl_eq (2 * (z * 2 ^ (53 - bit_length z)) * 2 ^ 52) (2 ^ 52)
                ltac:(lia)) as D.
  pose proof (Z.mod_pos_bound (2 * (z * 2 ^ (53 - bit_length z)) * 2 ^ 52) (2 ^ 52)
                ltac:(lia)) as B.
  unfold Z.modulo in B.
  destruct (Z.div_eucl _ _) as [q r].
  assert (q = 2 * (z * 2 ^ (53 - bit_length z)) /\ r = 0) as [-> ->] by lia.
  unfold new_location, new_location_even, new_location_odd.
  destruct (2 * (z * 2 ^ (53 - bit_length z))) as [|q|q] eqn:Q; try lia.
  match goal with
  | |- binary_round_aux _ _ _ _ _ ?l = _ => replace l with loc_Exact
  end.
  2:{ destruct (Z.even _); reflexivity. }
  pose proof (binary_round_aux_dyadic (xorb s false) q e' z (54 - bit_length z)) as R.
  unfold prec, emax in R. rewrite R; [| lia | lia | | lia].
  - rewrite xorb_false_r, <- Em. f_equal. lia.
  - rewrite <- Q. replace (54 - bit_length z) with (1 + (53 - bit_length z)) by lia.
    rewrite Z.pow_add_r by lia. lia.
Qed.

Lemma pow32_finite : pow32 = S754_finite false 4503599627370496 (-20).
Proof. reflexivity. Qed.

(** The high word of a safe integer that is not negative. *)
Lemma trunc_div_pow32 (z : Z) :
  0 <= z < 2 ^ 53 -> trunc (div (exact z) pow32) = z / 2 ^ 32.
Proof.
  intros Hz. destruct z as [|p|p]; [reflexivity| |lia].
  assert (Hd : bit_length (Zpos p) <= 53) by (apply bit_length_bound; lia).
  pose proof (bit_length_pos (Zpos p) ltac:(lia)) as Hd0.
  cbn [exact]. rewrite pow32_finite. unfold div.
  rewrite (div_normal false (mantissa (Zpos p)) 4503599627370496
             (bit_length (Zpos p) - 53) (-20) (Zpos p)
             ltac:(lia) (mantissa_spec (Zpos p) ltac:(lia)) eq_refl ltac:(lia)).
  unfold trunc. cbn [cond_Zopp].
  rewrite mantissa_spec by lia.
  rewrite Z.shiftl_div_pow2 by lia.
  replace (- (bit_length (Zpos p) - 53 - -20 - 52)) with (32 + (53 - bit_length (Zpos p))) by lia.
  rewrite Z.pow_add_r by lia.
  apply Z.div_mul_cancel_r; [lia|].
  apply Z.pow_nonzero; lia.
Qed.

(** The low word. *)
Lemma rem_pow32 (z : Z) :
  0 <= z < 2 ^ 53 -> rem (exact z) pow32 = exact (z mod 2 ^ 32).
Proof.
  intros Hz. destruct (Z.eq_dec z 0) as [->|Nz]; [reflexivity|].
  destruct (exact_finite z ltac:(unfold safe; lia) Nz) as (m & e & E & Ee & Ee0 & M).
  rewrite E, pow32_finite. destruct (Z.ltb_spec z 0); [lia|]. unfold rem.
  cbv zeta.
  set (ez := Z.min e (-20)).
  pose proof (aligned z m e ez Ee0 ltac:(unfold ez; lia) M) as X.
  destruct (Z.ltb_spec z 0); [lia|]. cbn [cond_Zopp] in X.
  pose proof (aligned (2 ^ 32) 4503599627370496 (-20) ez ltac:(lia) ltac:(unfold ez; lia)
                eq_refl) as Y.
  change (2 ^ 32 <? 0) with false in Y. cbn [cond_Zopp] in Y.
  rewrite X, Y. cbn [cond_Zopp].
  assert (0 < 2 ^ (- ez)) as P by (apply Z.pow_pos_nonneg; unfold ez; lia).
  rewrite Z.rem_mod_nonneg by lia.
  rewrite Z.mul_mod_distr_r by lia.
  apply binary_normalize_exact; [|unfold ez; lia].
  pose proof (Z.mod_pos_bound z (2 ^ 32) ltac:(lia)). unfold safe. lia.
Qed.

(** *** Reading a 64-bit field *)

(** Equality of doubles as a test, for checks by enumeration. *)
Definition same (x y : number) : bool :=
  match x, y with
  | S754_zero a, S754_zero b => Bool.eqb a b
  | S754_infinity a, S754_infinity b => Bool.eqb a b
  | S754_nan, S754_nan => true
  | S754_finite a m e, S754_finite b m' e' =>
      Bool.eqb a b && (m =? m')%positive && (e =? e')
  | _, _ => false
  end.

Lemma same_eq (x y : number) : same x y = true -> x = y.
Proof.
  destruct x as [a|a| |a m e], y as [b|b| |b m' e']; simpl; try discriminate.
  - intros H. apply eqb_prop in H. congruence.
  - intros H. apply eqb_prop in H. congruence.
  - reflexivity.
  - intros H. apply andb_prop in H. destruct H as [H He].
    apply andb_prop in H. destruct H as [Hs Hm].
    apply eqb_prop in Hs. apply Pos.eqb_eq in Hm. apply Z.eqb_eq in He. congruence.
Qed.

(** The one step of [read_bytes] that passes through -2^53. *)
Lemma boundary_step_all :
  for_range 255 1
    (fun b => same (add (mul (exact (- 2 ^ 45)) (lit 256)) (lit b)) (exact (- 2 ^ 53 + b)))
  = true.
Proof. vm_compute. reflexivity. Qed.

(** [value * 256 + byte] is exact when the sum is a safe integer. *)
Lemma step_exact (v b : Z) :
  safe v -> 0 <= b < 256 -> safe (v * 256 + b) ->
  add (mul (exact v) (lit 256)) (lit b) = exact (v * 256 + b).
Proof.
  unfold safe. intros Hv Hb Hs.
  destruct (Z_lt_le_dec (- 2 ^ 53) (v * 256)) as [L|L].
  - rewrite (lit_exact 256), (lit_exact b) by (unfold safe; lia).
    rewrite mul_exact, add_exact by (unfold safe; lia). reflexivity.
  - assert (v = - 2 ^ 45) as -> by lia.
    pose proof (for_range_spec _ _ 1 boundary_step_all b ltac:(lia)) as H.
    apply same_eq in H. rewrite H. reflexivity.
Qed.

Lemma of_be_bytes_bound (l : list Z) :
  Forall is_byte l -> 0 <= of_be_bytes l < 256 ^ Z.of_nat (length l).
Proof.
  induction l as [|x l IH] using rev_ind; intros H.
  - simpl. unfold of_be_bytes. simpl. lia.
  - apply Forall_app in H. destruct H as [Hl Hx].
    inversion Hx as [|? ? Hx0 _]; subst. unfold is_byte in Hx0.
    specialize (IH Hl).
    rewrite of_be_bytes_snoc, length_app. cbn [length].
    rewrite Nat2Z.inj_add, Z.pow_add_r by lia. change (256 ^ Z.of_nat 1) with 256. lia.
Qed.

Lemma fold_be (l : list Z) (v : Z) :
  fold_left (fun acc b => acc * 256 + b) l v = of_be_bytes l + v * 256 ^ Z.of_nat (length l).
Proof. rewrite <- (Z.add_0_l v) at 1. rewrite fold_be_shift. reflexivity. Qed.

(** The accumulation of [readUInt] and [readInt] is exact when what it
    arrives at is a safe integer. *)
Lemma read_bytes_final (bytes : list Z) :
  forall (pre post : list Z) (v : Z),
    Forall is_byte bytes -> safe v ->
    safe (fold_left (fun acc b => acc * 256 + b) bytes v) ->
    read_bytes (pre ++ bytes ++ post) (length bytes) (exact v) (Some (Z.of_nat (length pre)))
    = (exact (fold_left (fun acc b => acc * 256 + b) bytes v),
       Some (Z.of_nat (length pre) + Z.of_nat (length bytes))).
Proof.
  induction bytes as [|b bytes IH]; intros pre post v Hb Hv Hs.
  - simpl. rewrite Z.add_0_r. reflexivity.
  - inversion Hb as [|? ? Hb0 Hb']; subst. unfold is_byte in Hb0.
    cbn [fold_left] in Hs.
    assert (safe (v * 256 + b)) as Hv'.
    { rewrite fold_be in Hs. pose proof (of_be_bytes_bound bytes Hb') as B.
      assert (1 <= 256 ^ Z.of_nat (length bytes)) as P
        by (pose proof (Z.pow_pos_nonneg 256 (Z.of_nat (length bytes))); lia).
      unfold safe in *. split; nia. }
    cbn [length read_bytes fold_left]. rewrite peek_first.
    rewrite step_exact by assumption.
    specialize (IH (pre ++ [b]) post (v * 256 + b) Hb' Hv' Hs).
    rewrite <- app_assoc, length_app in IH. cbn [app length] in IH.
    cbn [advance app].
    replace (Z.of_nat (length pre) + 1) with (Z.of_nat (length pre + 1)) by lia.
    rewrite IH. f_equal. f_equal. lia.
Qed.

(** [readUInt] returns the integer the bytes spell when it is below 2^53. *)
Lemma readUInt_final (pre bytes post : list Z) :
  Forall is_byte bytes -> of_be_bytes bytes < 2 ^ 53 ->
  readUInt (pre ++ bytes ++ post) (length bytes) (Some (Z.of_nat (length pre)))
  = (exact (of_be_bytes bytes), Some (Z.of_nat (length pre) + Z.of_nat (length bytes))).
Proof.
  intros Hb Hn. unfold readUInt. change (lit 0) with (exact 0).
  apply read_bytes_final; [exact Hb | unfold safe; lia |].
  pose proof (of_be_bytes_bound bytes Hb). unfold safe. fold (of_be_bytes bytes). lia.
Qed.

(** [readInt] returns the two's complement integer the bytes spell when
    its magnitude is below 2^53. *)
Lemma readInt_final (pre bytes post : list Z) :
  Forall is_byte bytes -> safe (of_be_signed bytes) ->
  readInt (pre ++ bytes ++ post) (length bytes) (Some (Z.of_nat (length pre)))
  = (exact (of_be_signed bytes), Some (Z.of_nat (length pre) + Z.of_nat (length bytes))).
Proof.
  intros Hb Hn. destruct bytes as [|b bytes].
  - simpl. rewrite Z.add_0_r. reflexivity.
  - inversion Hb as [|? ? Hb0 Hb']; subst. unfold is_byte in Hb0.
    cbn [length readInt]. rewrite peek_first.
    destruct (sign_bit b Hb0) as [E7 E8]. rewrite E7, E8.
    pose proof (Z.mod_pos_bound b 128 ltac:(lia)) as B.
    rewrite (lit_exact 0), (lit_exact (b mod 128)), (lit_exact 0x80) by (unfold safe; lia).
    rewrite add_exact by (unfold safe; lia). rewrite Z.add_0_l.
    set (v := if b <? 128 then b mod 128 else b mod 128 - 128).
    assert ((if b <? 128 then exact (b mod 128)
             else sub (exact (b mod 128)) (exact 128)) = exact v) as ->.
    { unfold v. destruct (b <? 128); [reflexivity|].
      apply sub_exact; unfold safe; lia. }
    assert (v = b - (if b <? 128 then 0 else 256)) as Hv.
    { unfold v. destruct (Z.ltb_spec b 128).
      - rewrite Z.mod_small by lia. lia.
      - replace b with (b - 128 + 1 * 128) at 1 by lia.
        rewrite Z.mod_add, Z.mod_small by lia. lia. }
    assert (fold_left (fun acc b => acc * 256 + b) bytes v = of_be_signed (b :: bytes)) as F.
    { unfold of_be_signed, of_be_bytes. cbn [fold_left length].
      rewrite Z.mul_0_l, Z.add_0_l, Hv.
      replace (b - (if b <? 128 then 0 else 256))
        with (b + - (if b <? 128 then 0 else 256)) by lia.
      rewrite fold_be_shift, Nat2Z.inj_succ, Z.pow_succ_r by lia.
      destruct (b <? 128); lia. }
    pose proof (read_bytes_final bytes (pre ++ [b]) post v Hb') as R.
    rewrite <- app_assoc, length_app in R. cbn [app length] in R.
    cbn [advance app].
    replace (Z.of_nat (length pre) + 1) with (Z.of_nat (length pre + 1)) by lia.
    rewrite R.
    + rewrite F. f_equal. f_equal. lia.
    + unfold safe. destruct (Z.ltb_spec b 128); lia.
    + rewrite F. exact Hn.
Qed.

Lemma readUInt_field_64 (tag : Z) (z : Z) (post : list Z) :
  0 <= z < 2 ^ 53 ->
  readUInt (tag :: be_bytes 8 z ++ post) 8 (Some 1) = (exact z, Some 9).
Proof.
  intros Hz.
  pose proof (readUInt_final [tag] (be_bytes 8 z) post (be_bytes_is_byte 8 _)) as R.
  rewrite length_be_bytes, of_be_bytes_be_bytes, Z.mod_small in R by (simpl; lia).
  exact (R ltac:(lia)).
Qed.

Lemma readInt_field_64 (tag : Z) (z : Z) (post : list Z) :
  safe z ->
  readInt (tag :: be_bytes 8 z ++ post) 8 (Some 1) = (exact z, Some 9).
Proof.
  intros Hz.
  pose proof (readInt_final [tag] (be_bytes 8 z) post (be_bytes_is_byte 8 _)) as R.
  rewrite length_be_bytes, (of_be_signed_be_bytes 7) in R by (unfold safe in Hz; simpl; lia).
  exact (R Hz).
Qed.

(** *** Writing a 64-bit field *)

Lemma uint32_shift (a k : Z) : uint32 (a + k * 2 ^ 32) = uint32 a.
Proof. unfold uint32. apply Z.mod_add. lia. Qed.

Lemma int32_shift (a : Z) : exists k, int32 a = a + k * 2 ^ 32.
Proof.
  unfold int32. pose proof (Z.div_mod a (2 ^ 32) ltac:(lia)) as D.
  destruct (a mod 2 ^ 32 <? 2 ^ 31).
  - exists (- (a / 2 ^ 32)). lia.
  - exists (- (a / 2 ^ 32) - 1). lia.
Qed.

Lemma int32_range (a : Z) : - 2 ^ 31 <= int32 a < 2 ^ 31.
Proof.
  unfold int32. pose proof (Z.mod_pos_bound a (2 ^ 32) ltac:(lia)).
  destruct (Z.ltb_spec (a mod 2 ^ 32) (2 ^ 31)); lia.
Qed.

(** [~x] in 32 bits is the complement of the low word of [x]. *)
Lemma uint32_lnot_int32 (a : Z) : uint32 (Z.lnot (int32 a)) = uint32 (Z.lnot a).
Proof.
  destruct (int32_shift a) as [k ->]. unfold Z.lnot.
  replace (Z.pred (- (a + k * 2 ^ 32))) with (Z.pred (- a) + (- k) * 2 ^ 32) by lia.
  apply uint32_shift.
Qed.

Lemma shiftr_lnot (a n : Z) : 0 <= n -> Z.shiftr (Z.lnot a) n = Z.lnot (Z.shiftr a n).
Proof.
  intros Hn. apply Z.bits_inj'. intros i Hi.
  rewrite Z.shiftr_spec, !Z.lnot_spec, Z.shiftr_spec by lia. reflexivity.
Qed.

Lemma byte_of_word (a b : Z) : uint32 a = uint32 b -> a mod 256 = b mod 256.
Proof.
  intros H.
  rewrite <- (Z.shiftr_0_r a), <- (Z.shiftr_0_r b), <- !ushrZ_byte by lia.
  unfold ushrZ. rewrite H. reflexivity.
Qed.

(** The eight bytes written for a high and a low word. *)
Lemma words_bytes (hi lo z : Z) :
  uint32 hi = uint32 (Z.shiftr z 32) -> uint32 lo = uint32 z ->
  map (fun b => b mod 256)
      [ushrZ hi 24; ushrZ hi 16; ushrZ hi 8; hi; ushrZ lo 24; ushrZ lo 16; ushrZ lo 8; lo]
  = be_bytes 8 z.
Proof.
  intros Hhi Hlo.
  rewrite !be_bytes_head. cbn [map be_bytes].
  rewrite (byte_of_word hi _ Hhi), (byte_of_word lo _ Hlo).
  unfold ushrZ. rewrite Hhi, Hlo. fold (ushrZ (Z.shiftr z 32) 24) (ushrZ (Z.shiftr z 32) 16)
    (ushrZ (Z.shiftr z 32) 8) (ushrZ z 24) (ushrZ z 16) (ushrZ z 8).
  rewrite !ushrZ_byte by lia. rewrite !Z.shiftr_shiftr by lia.
  reflexivity.
Qed.

Lemma abs_exact (z : Z) : abs (exact z) = exact (Z.abs z).
Proof. destruct z; reflexivity. Qed.

(** [appendInt64] writes the two's complement bytes of a safe integer. *)
Lemma appendInt64_exact (z : Z) :
  safe z -> writes (appendInt64 (exact z)) (be_bytes 8 z).
Proof.
  unfold safe. intros Hz. unfold appendInt64.
  change (lit 0) with (exact 0). rewrite geb_exact by (unfold safe; lia).
  destruct (Z.leb_spec 0 z) as [P|N].
  - rewrite rem_pow32 by lia.
    rewrite <- (words_bytes (trunc (div (exact z) pow32)) (z mod 2 ^ 32) z).
    + pose proof (Z.mod_pos_bound z (2 ^ 32) ltac:(lia)) as B.
      rewrite !ushr_exact, trunc_exact by (unfold safe; lia).
      exact (appendBytes_writes _).
    + rewrite trunc_div_pow32, Z.shiftr_div_pow2 by lia. reflexivity.
    + unfold uint32. apply Z.mod_mod. lia.
  - rewrite (lit_exact 1), add_exact, abs_exact by (unfold safe; lia).
    set (a := Z.abs (z + 1)).
    assert (0 <= a < 2 ^ 53) as Ha by (unfold a; lia).
    assert (z = Z.lnot a) as Ez by (unfold Z.lnot, a; lia).
    rewrite rem_pow32 by exact Ha.
    pose proof (Z.mod_pos_bound a (2 ^ 32) ltac:(lia)) as B.
    unfold Num.not, ToInt32. rewrite trunc_div_pow32, trunc_exact by (unfold safe; lia).
    pose proof (int32_range (a / 2 ^ 32)) as R1.
    pose proof (int32_range (a mod 2 ^ 32)) as R2.
    assert (forall x, - 2 ^ 31 <= x < 2 ^ 31 -> safe (Z.lnot x)) as S
      by (intros x Hx; unfold safe, Z.lnot; lia).
    rewrite !lit_exact by (apply S; assumption).
    rewrite <- (words_bytes (Z.lnot (int32 (a / 2 ^ 32))) (Z.lnot (int32 (a mod 2 ^ 32))) z).
    + rewrite !ushr_exact, !trunc_exact by (apply S; assumption).
      exact (appendBytes_writes _).
    + rewrite uint32_lnot_int32, Ez, shiftr_lnot, Z.shiftr_div_pow2 by lia. reflexivity.
    + rewrite uint32_lnot_int32, Ez.
      pose proof (Z.div_mod a (2 ^ 32) ltac:(lia)) as D.
      replace (Z.lnot (a mod 2 ^ 32)) with (Z.lnot a + (a / 2 ^ 32) * 2 ^ 32)
        by (unfold Z.lnot; lia).
      apply uint32_shift.
Qed.

(** A safe integer against a bound beyond the safe range. *)
Lemma leb_exact_big (z : Z) (m : positive) (e : Z) :
  safe z -> 0 < e -> leb (exact z) (S754_finite false m e) = true.
Proof.
  intros Hz He. destruct z as [|p|p]; try reflexivity.
  cbn [exact]. unfold leb, SFleb. rewrite SFcompare_positive.
  assert (bit_length (Zpos p) <= 53) by (apply bit_length_bound; unfold safe in Hz; lia).
  destruct (Z.compare_spec (bit_length (Zpos p) - 53) e); try lia; reflexivity.
Qed.

Lemma geb_exact_big (z : Z) (m : positive) (e : Z) :
  safe z -> 0 < e -> geb (exact z) (S754_finite true m e) = true.
Proof.
  intros Hz He. destruct z as [|p|p]; try reflexivity.
  cbn [exact]. unfold geb, SFleb. rewrite SFcompare_negative.
  assert (bit_length (- Zneg p) <= 53) by (apply bit_length_bound; unfold safe in Hz; lia).
  destruct (Z.compare_spec e (bit_length (- Zneg p) - 53)); try lia; reflexivity.
Qed.

(** The tests on integers that the hypotheses decide. *)
Ltac decide_tests :=
  repeat match goal with
         | |- context [?a <=? ?b] =>
             first [ rewrite (proj2 (Z.leb_le a b)) by lia
                   | rewrite (proj2 (Z.leb_gt a b)) by lia ]
         | |- context [?a <? ?b] =>
             first [ rewrite (proj2 (Z.ltb_lt a b)) by lia
                   | rewrite (proj2 (Z.ltb_ge a b)) by lia ]
         end.

(** Beyond the 32-bit forms a safe integer is written as int 64, whatever
    its sign. *)
Lemma appendNumber_int64 (z : Z) (th : type_hint) :
  safe z -> z < - 2 ^ 31 \/ 2 ^ 32 <= z ->
  isInteger (exact z) th = true ->
  writes (appendNumber (exact z) th) (0xd3 :: be_bytes 8 z).
Proof.
  intros Sz Hz Hint.
  assert (forall c, - 2 ^ 52 <= c <= 2 ^ 52 -> safe c) as Sc by (unfold safe; lia).
  unfold appendNumber. rewrite Hint.
  change (lit 0xffffffffffffffff) with (S754_finite false 4503599627370496 12).
  change (SFopp (lit 0x8000000000000000)) with (S754_finite true 4503599627370496 11).
  change (lit 0x7fffffffffffffff) with (S754_finite false 4503599627370496 11).
  rewrite (leb_exact_big z _ 12), (geb_exact_big z _ 11), (leb_exact_big z _ 11)
    by (exact Sz || lia).
  change (lit 0) with (exact 0). change (lit 0x7f) with (exact 0x7f).
  change (SFopp (lit 0x20)) with (exact (-0x20)). change (lit 0xff) with (exact 0xff).
  change (SFopp (lit 0x80)) with (exact (-0x80)). change (lit 0xffff) with (exact 0xffff).
  change (SFopp (lit 0x8000)) with (exact (-0x8000)). change (lit 0x7fff) with (exact 0x7fff).
  change (lit 0xffffffff) with (exact 0xffffffff).
  change (SFopp (lit 0x80000000)) with (exact (-0x80000000)).
  change (lit 0x7fffffff) with (exact 0x7fffffff).
  rewrite (geb_exact z 0), (leb_exact z 0x7f), (ltb_exact z 0), (geb_exact z (-0x20)),
    (gtb_exact z 0), (leb_exact z 0xff), (geb_exact z (-0x80)), (leb_exact z 0xffff),
    (geb_exact z (-0x8000)), (leb_exact z 0x7fff), (leb_exact z 0xffffffff),
    (geb_exact z (-0x80000000)), (leb_exact z 0x7fffffff) by first [exact Sz | apply Sc; lia].
  assert (safe z) as Sz' by exact Sz. unfold safe in Sz'.
  destruct Hz as [Hz|Hz]; decide_tests; cbn [andb].
  - apply (writes_compose (appendByte 0xd3) (appendInt64 (exact z)) [0xd3]).
    + apply (appendByte_writes 0xd3).
    + apply appendInt64_exact. exact Sz.
  - rewrite rem_pow32 by lia.
    pose proof (Z.mod_pos_bound z (2 ^ 32) ltac:(lia)) as B.
    replace (0xd3 :: be_bytes 8 z)
      with (map (fun b => b mod 256)
                (0xd3 :: [ushrZ (trunc (div (exact z) pow32)) 24;
                          ushrZ (trunc (div (exact z) pow32)) 16;
                          ushrZ (trunc (div (exact z) pow32)) 8;
                          trunc (div (exact z) pow32);
                          ushrZ (z mod 2 ^ 32) 24; ushrZ (z mod 2 ^ 32) 16;
                          ushrZ (z mod 2 ^ 32) 8; z mod 2 ^ 32])).
    + rewrite !ushr_exact, trunc_exact by (unfold safe; lia).
      exact (appendBytes_writes _).
    + rewrite map_cons. f_equal. apply words_bytes.
      * rewrite trunc_div_pow32, Z.shiftr_div_pow2 by lia. reflexivity.
      * unfold uint32. apply Z.mod_mod. lia.
Qed.

(** *** The round trip *)

Section Int64.

Variable call : nat -> value -> value.
Variable Number_toString : number -> jsstring.
Variable Date_toString : number -> jsstring.

Local Abbreviation encodes' := (encodes Number_toString Date_toString).
Local Abbreviation deserialize' := (deserialize Number_toString Date_toString).

Lemma int64_encodes (z : Z) :
  safe z -> encodes' (0xd3 :: be_bytes 8 z) (VNumber (exact z)).
Proof.
  intros Hz. split; [constructor; [unfold is_byte; lia | apply be_bytes_is_byte]|].
  rewrite read_perform.
  change (peek (0xd3 :: be_bytes 8 z) (Some 0)) with (Some 0xd3). cbv iota.
  change (classify 0xd3) with (a_int 8). cbn [perform advance].
  pose proof (readInt_field_64 0xd3 z [] Hz) as R. rewrite app_nil_r in R.
  change (0 + 1) with 1. rewrite R. cbn [length]. rewrite length_be_bytes. reflexivity.
Qed.

Lemma uint64_encodes (z : Z) :
  0 <= z < 2 ^ 53 -> encodes' (0xcf :: be_bytes 8 z) (VNumber (exact z)).
Proof.
  intros Hz. split; [constructor; [unfold is_byte; lia | apply be_bytes_is_byte]|].
  rewrite read_perform.
  change (peek (0xcf :: be_bytes 8 z) (Some 0)) with (Some 0xcf). cbv iota.
  change (classify 0xcf) with (a_uint 8). cbn [perform advance].
  pose proof (readUInt_field_64 0xcf z [] Hz) as R. rewrite app_nil_r in R.
  change (0 + 1) with 1. rewrite R. cbn [length]. rewrite length_be_bytes. reflexivity.
Qed.

(** X4: an integer beyond the 32-bit forms whose magnitude is below 2^53
    is written as int 64, tag 0xd3 and its eight two's complement bytes,
    also when it is positive, and is read back from it. *)
Theorem integers_of_53_bits_round_trip (opts : options) (fuel : nat) (z : Z) :
  multiple opts = false ->
  typeHint opts = hint_none \/ typeHint opts = hint_int ->
  - 2 ^ 53 < z < 2 ^ 53 -> z < - 2 ^ 31 \/ 2 ^ 32 <= z ->
  serialize call opts (S fuel) (VNumber (lit z)) = Ok (0xd3 :: be_bytes 8 z) /\
  deserialize' (0xd3 :: be_bytes 8 z) opts = Ok (VNumber (lit z)).
Proof.
  intros M Hth Sz Hz. rewrite lit_exact by exact Sz. split.
  - apply emits_serialize; [exact M|]. apply emits_pure.
    apply appendNumber_int64; [exact Sz | exact Hz |].
    destruct Hth as [-> | ->]; [apply isInteger_exact; exact Sz | reflexivity].
  - apply encodes_deserialize; [exact M | apply int64_encodes; exact Sz].
Qed.

(** X5: the decoder reads every integer from 0 to 2^53 - 1 from the
    uint 64 form, tag 0xcf, which the encoder itself does not write for
    them. *)
Theorem uint64_is_read (opts : options) (z : Z) :
  multiple opts = false -> 0 <= z < 2 ^ 53 ->
  deserialize' (0xcf :: be_bytes 8 z) opts = Ok (VNumber (lit z)).
Proof.
  intros M Hz. rewrite lit_exact by (unfold safe; lia).
  apply encodes_deserialize; [exact M | apply uint64_encodes; exact Hz].
Qed.

End Int64.

(** ** Timestamps of whole seconds: the encoded forms *)

Section WholeSeconds.

Variable call : nat -> value -> value.
Variable Number_toString : number -> jsstring.
Variable Date_toString : number -> jsstring.

Local Abbreviation read' := (read Number_toString Date_toString).
Local Abbreviation encodes' := (encodes Number_toString Date_toString).
Local Abbreviation deserialize' := (deserialize Number_toString Date_toString).

(** The 4-byte form is read back. *)
Lemma date_encodes (s : Z) :
  0 <= s < 2 ^ 32 -> encodes' (0xd6 :: 0xff :: be_bytes 4 s) (VDate (lit (1000 * s))).
Proof.
  intros Hs. rewrite lit_exact by (unfold safe; lia).
  split.
  { constructor; [unfold is_byte; lia|].
    constructor; [unfold is_byte; lia | apply be_bytes_is_byte]. }
  rewrite read_perform.
  change (peek (0xd6 :: 0xff :: be_bytes 4 s) (Some 0)) with (Some 0xd6). cbv iota.
  change (classify 0xd6) with (a_ext (lit 4) 0). cbn [perform advance].
  unfold readExt, read_size. change (ltb (lit 4) (lit 0)) with false. cbv iota.
  pose proof (readUInt_exact [0xd6] [0xff] (be_bytes 4 s)) as U.
  cbn [app length] in U. change (Z.of_nat 1) with 1 in U. change (0 + 1) with 1.
  rewrite U by (repeat constructor; unfold is_byte; lia).
  unfold readBin, read_size. change (ltb (lit 4) (lit 0)) with false. cbv iota.
  change (to_length (lit 4)) with (Some 4).
  change (eqb (exact (of_be_bytes [0xff])) (lit 255)) with true. cbv iota.
  unfold subarray. change (Z.to_nat (1 + 1)) with 2%nat.
  change (Z.to_nat 4) with 4%nat. cbn [drop].
  rewrite drop_0, take_ge by (rewrite length_be_bytes; lia). cbn [advance].
  rewrite readExtDate_seconds by exact Hs. cbn [length]. rewrite length_be_bytes.
  reflexivity.
Qed.

End WholeSeconds.

(** Before the epoch [appendDate] takes its last branch: the 12-byte form
    with the seconds as a signed 64-bit integer. *)
Lemma appendDate_before_epoch (s : Z) :
  - 8640000000000 <= s < 0 ->
  writes (appendDate (exact (1000 * s)))
         ([0xc7; 12; 0xff; 0; 0; 0; 0] ++ be_bytes 8 s).
Proof.
  intros Hs.
  assert (Ss : safe s) by (unfold safe; lia).
  assert (St : safe (1000 * s)) by (unfold safe; lia).
  unfold appendDate, getTime, getMilliseconds.
  rewrite isFinite_exact, trunc_exact by exact St.
  rewrite Z.mul_comm, Z.mod_mul, Z.mul_comm by lia.
  change (lit 1000) with (exact 1000). change (lit 0) with (exact 0).
  change (lit 0x100000000) with (exact 0x100000000).
  change (lit 0x400000000) with (exact 0x400000000).
  rewrite div_exact by (try exact St; try exact Ss; unfold safe; lia).
  rewrite eqb_exact, geb_exact by (try exact Ss; unfold safe; lia).
  destruct (Z.leb_spec 0 s); [lia|]. cbn [andb Z.eqb].
  change (mul (exact 0) (lit 1000000)) with (exact 0).
  apply (writes_compose
           (appendBytes [0xc7; 12; 0xff; ushr (exact 0) 24; ushr (exact 0) 16;
                         ushr (exact 0) 8; trunc (exact 0)])
           (appendInt64 (exact s)) [0xc7; 12; 0xff; 0; 0; 0; 0] (be_bytes 8 s)).
  - exact (appendBytes_writes _).
  - apply appendInt64_exact. exact Ss.
Qed.

Section BeforeEpoch.

Variable call : nat -> value -> value.
Variable Number_toString : number -> jsstring.
Variable Date_toString : number -> jsstring.

Local Abbreviation encodes' := (encodes Number_toString Date_toString).
Local Abbreviation deserialize' := (deserialize Number_toString Date_toString).

Lemma readExtDate_12 (s : Z) :
  - 8640000000000 <= s <= 8640000000000 ->
  readExtDate ([0xc7; 12; 0xff; 0; 0; 0; 0] ++ be_bytes 8 s)
              ([0; 0; 0; 0] ++ be_bytes 8 s) (Some 15)
  = Ok (VDate (exact (1000 * s)), Some 15).
Proof.
  intros Hs.
  assert (Ss : safe s) by (unfold safe; lia).
  unfold readExtDate. cbn [app length]. rewrite length_be_bytes.
  cbn [Nat.eqb]. cbn [byte_at lookup list_lookup default]. simpl default. unfold id.
  cbn [advance].
  pose proof (readInt_final [0xc7; 12; 0xff; 0; 0; 0; 0] (be_bytes 8 s) []
                (be_bytes_is_byte 8 s)) as R.
  rewrite length_be_bytes, (of_be_signed_be_bytes 7), app_nil_r in R
    by (unfold safe in Ss; simpl; lia).
  cbn [app length] in R. change (15 + -8) with (Z.of_nat 7). rewrite (R Ss).
  change (Z.of_nat 7 + Z.of_nat 8) with 15.
  change (div (lit _) (lit 1000000)) with (exact 0).
  unfold newDate, TimeClip.
  rewrite (lit_exact 1000) by (unfold safe; lia).
  rewrite mul_exact, add_exact by (unfold safe; lia).
  rewrite Z.add_0_r, (Z.mul_comm s 1000).
  rewrite isFinite_exact, abs_exact. cbn [negb].
  change (lit 8640000000000000) with (exact 8640000000000000).
  rewrite ltb_exact by (unfold safe; lia).
  destruct (Z.ltb_spec 8640000000000000 (Z.abs (1000 * s))); [lia|].
  rewrite trunc_exact, lit_exact by (unfold safe; lia). reflexivity.
Qed.

Lemma date12_encodes (s : Z) :
  - 8640000000000 <= s <= 8640000000000 ->
  encodes' ([0xc7; 12; 0xff; 0; 0; 0; 0] ++ be_bytes 8 s) (VDate (exact (1000 * s))).
Proof.
  intros Hs. split.
  { apply Forall_app. split; [|apply be_bytes_is_byte].
    repeat constructor; unfold is_byte; lia. }
  rewrite read_perform.
  change (peek ([0xc7; 12; 0xff; 0; 0; 0; 0] ++ be_bytes 8 s) (Some 0)) with (Some 0xc7).
  cbv iota.
  change (classify 0xc7) with (a_ext (SFopp (lit 1)) 1). cbn [perform advance].
  unfold readExt.
  pose proof (read_size_field 0xc7 1 12 ([0xff; 0; 0; 0; 0] ++ be_bytes 8 s)
                ltac:(lia) ltac:(simpl; lia)) as S.
  change (be_bytes 1 12) with [12] in S. cbn [app] in S.
  change (0 + 1) with 1. cbn [app]. rewrite S.
  pose proof (readUInt_exact [0xc7; 12] [0xff] ([0; 0; 0; 0] ++ be_bytes 8 s)) as U.
  cbn [app length] in U. change (Z.of_nat 2 + Z.of_nat 1) with 3 in U.
  change (1 + Z.of_nat 1) with 2. change (Z.of_nat 2) with 2 in U.
  rewrite U by (repeat constructor; unfold is_byte; lia).
  unfold readBin, read_size.
  change (ltb (exact 12) (lit 0)) with false. cbv iota.
  change (to_length (exact 12)) with (Some 12). cbn [advance]. unfold subarray.
  change (Z.to_nat 3) with 3%nat. change (Z.to_nat 12) with 12%nat. cbn [drop].
  rewrite take_ge by (cbn [length]; rewrite length_be_bytes; lia).
  change (eqb (exact (of_be_bytes [0xff])) (lit 255)) with true. cbv iota.
  change (3 + 12) with 15.
  pose proof (readExtDate_12 s Hs) as D. cbn [app] in D. rewrite D.
  cbn [length]. rewrite length_be_bytes. reflexivity.
Qed.

(** X13: a timestamp of a whole number of seconds before the epoch is
    written in the 12-byte extension form, with the nanoseconds 0 and the
    seconds as a signed 64-bit integer, and is read back from it. *)
Theorem whole_seconds_before_epoch_round_trip (opts : options) (fuel : nat) (s : Z) :
  multiple opts = false ->
  - 8640000000000 <= s < 0 ->
  serialize call opts (S fuel) (VDate (lit (1000 * s)))
  = Ok ([0xc7; 12; 0xff; 0; 0; 0; 0] ++ be_bytes 8 s) /\
  deserialize' ([0xc7; 12; 0xff; 0; 0; 0; 0] ++ be_bytes 8 s) opts
  = Ok (VDate (lit (1000 * s))).
Proof.
  intros M Hs. rewrite lit_exact by (unfold safe; lia). split.
  - apply emits_serialize; [exact M|]. apply emits_pure.
    apply appendDate_before_epoch. exact Hs.
  - apply encodes_deserialize; [exact M | apply date12_encodes; lia].
Qed.

End BeforeEpoch.

(** ** Division that is not exact *)

Lemma record_of_loc_m (m : Z) (l : location) : shr_m (shr_record_of_loc m l) = m.
Proof. destruct l as [|[]]; reflexivity. Qed.

Lemma loc_of_record_of_loc (m : Z) (l : location) :
  loc_of_shr_record (shr_record_of_loc m l) = l.
Proof. destruct l as [|[]]; reflexivity. Qed.

Lemma bit_length_53 (m : Z) : 2 ^ 52 <= m < 2 ^ 53 -> bit_length m = 53.
Proof.
  intros H. pose proof (bit_length_spec m ltac:(lia)) as [L U].
  pose proof (proj1 (bit_length_bound m 53 ltac:(lia) ltac:(lia)) ltac:(lia)).
  destruct (Z_lt_le_dec (bit_length m) 53) as [C|C]; [|lia].
  assert (2 ^ bit_length m <= 2 ^ 52) by (apply Z.pow_le_mono_r; lia). lia.
Qed.

Lemma bit_length_54 (m : Z) : 2 ^ 53 <= m < 2 ^ 54 -> bit_length m = 54.
Proof.
  intros H. pose proof (bit_length_spec m ltac:(lia)) as [L U].
  pose proof (proj1 (bit_length_bound m 54 ltac:(lia) ltac:(lia)) ltac:(lia)).
  destruct (Z_lt_le_dec (bit_length m) 54) as [C|C]; [|lia].
  assert (2 ^ bit_length m <= 2 ^ 53) by (apply Z.pow_le_mono_r; lia). lia.
Qed.

(** The last step of a rounding, on a mantissa of 53 digits or on 2^53. *)
Lemma renormalize (s : bool) (p : positive) (e : Z) :
  2 ^ 52 <= Zpos p <= 2 ^ 53 -> - 1074 <= e <= 969 ->
  exists m' e',
    (let '(mrs, e'') := shr_fexp prec emax (Zpos p) e loc_Exact in
     match shr_m mrs with
     | Z0 => S754_zero s
     | Zpos m => if e'' <=? emax - prec then S754_finite s m e'' else S754_infinity s
     | Zneg _ => S754_nan
     end) = S754_finite s m' e' /\
    e <= e' <= e + 1 /\ 2 ^ 52 <= Zpos m' < 2 ^ 53 /\ Zpos m' * 2 ^ (e' - e) = Zpos p.
Proof.
  intros Hp He. unfold shr_fexp. cbn [Zdigits2]. rewrite digits2_pos_bit_length.
  unfold fexp, emin, prec, emax.
  destruct (Z_lt_le_dec (Zpos p) (2 ^ 53)) as [C|C].
  - rewrite bit_length_53 by lia.
    replace (Z.max (53 + e - 53) (3 - 1024 - 53) - e) with 0 by lia.
    cbn [shr shr_record_of_loc shr_m].
    destruct (Z.leb_spec e (1024 - 53)); [|lia].
    exists p, e. split; [reflexivity|]. replace (e - e) with 0 by lia. lia.
  - assert (Zpos p = 2 ^ 53) as E by lia.
    rewrite bit_length_54 by lia.
    replace (Z.max (54 + e - 53) (3 - 1024 - 53) - e) with 1 by lia.
    injection E as ->.
    cbn [shr shr_record_of_loc shr_m SpecFloat.iter_pos shr_1 orb].
    destruct (Z.leb_spec (e + 1) (1024 - 53)); [|lia].
    eexists _, (e + 1). split; [reflexivity|].
    replace (e + 1 - e) with 1 by lia. lia.
Qed.

(** Rounding a mantissa of 53 or 54 digits moves it by at most one. *)
Lemma binary_round_aux_near (s : bool) (q : positive) (e : Z) (l : location) :
  2 ^ 52 <= Zpos q < 2 ^ 54 -> - 1074 <= e <= 968 ->
  exists m' e',
    binary_round_aux prec emax s (Zpos q) e l = S754_finite s m' e' /\
    e <= e' <= e + 2 /\ 2 ^ 52 <= Zpos m' < 2 ^ 53 /\
    Zpos q - 1 <= Zpos m' * 2 ^ (e' - e) <= Zpos q + 1.
Proof.
  intros Hq He. unfold binary_round_aux.
  unfold shr_fexp at 1. cbn [Zdigits2]. rewrite digits2_pos_bit_length.
  unfold fexp at 1. unfold emin, prec, emax.
  destruct (Z_lt_le_dec (Zpos q) (2 ^ 53)) as [C|C].
  - rewrite bit_length_53 by lia.
    replace (Z.max (53 + e - 53) (3 - 1024 - 53) - e) with 0 by lia.
    cbn [shr]. rewrite record_of_loc_m, loc_of_record_of_loc.
    assert (exists p, round_nearest_even (Zpos q) l = Zpos p /\
                      Zpos q <= Zpos p <= Zpos q + 1) as (p & -> & Hp).
    { destruct l as [|[]]; cbn [round_nearest_even];
        try (exists q; split; [reflexivity | lia]);
        try (exists (q + 1)%positive; split; [reflexivity | lia]).
      destruct (Z.even (Zpos q));
        [exists q; split; [reflexivity | lia]
        |exists (q + 1)%positive; split; [reflexivity | lia]]. }
    destruct (renormalize s p e ltac:(lia) ltac:(lia)) as (m' & e' & R & He' & Hm' & V).
    fold prec emax. unfold prec, emax in R |- *. 
    exists m', e'. split; [exact R|]. split; [lia|]. split; [exact Hm'|]. lia.
  - rewrite bit_length_54 by lia.
    replace (Z.max (54 + e - 53) (3 - 1024 - 53) - e) with 1 by lia.
    cbn [shr SpecFloat.iter_pos].
    assert (exists h r st, shr_1 (shr_record_of_loc (Zpos q) l) = Build_shr_record (Zpos h) r st /\
                           Zpos q = 2 * Zpos h + (if r then 1 else 0)) as (h & r & st & -> & Hh).
    { destruct q as [h|h|]; [| |lia].
      - exists h, true. destruct l as [|[]]; eexists; (split; [reflexivity | lia]).
      - exists h, false. destruct l as [|[]]; eexists; (split; [reflexivity | lia]). }
    cbn [shr_m].
    assert (exists p, round_nearest_even (Zpos h)
                        (loc_of_shr_record (Build_shr_record (Zpos h) r st)) = Zpos p /\
                      Zpos q - 1 <= 2 * Zpos p <= Zpos q + 1) as (p & -> & Hp).
    { destruct r, st; cbn [loc_of_shr_record round_nearest_even];
        try (exists h; split; [reflexivity | lia]);
        try (exists (h + 1)%positive; split; [reflexivity | lia]).
      destruct (Z.even (Zpos h));
        [exists h; split; [reflexivity | lia]
        |exists (h + 1)%positive; split; [reflexivity | lia]]. }
    destruct (renormalize s p (e + 1) ltac:(lia) ltac:(lia)) as (m' & e' & R & He' & Hm' & V).
    unfold prec, emax in R |- *.
    exists m', e'. split; [exact R|]. split; [lia|]. split; [exact Hm'|].
    replace (e' - e) with (1 + (e' - (e + 1))) by lia.
    rewrite Z.pow_add_r by lia. change (2 ^ 1) with 2. lia.
Qed.

(** The quotient of two normal numbers, rounded: its mantissa is within one
    of the integer quotient of the mantissas. *)
Lemma div_near (ma mb : positive) (ea eb : Z) :
  2 ^ 52 <= Zpos ma < 2 ^ 53 -> 2 ^ 52 <= Zpos mb < 2 ^ 53 ->
  - 1021 <= ea - eb <= 1021 ->
  exists m e,
    SFdiv prec emax (S754_finite false ma ea) (S754_finite false mb eb)
    = S754_finite false m e /\
    ea - eb - 53 <= e <= ea - eb - 51 /\ 2 ^ 52 <= Zpos m < 2 ^ 53 /\
    Zpos ma * 2 ^ 53 / Zpos mb - 1 <= Zpos m * 2 ^ (e - (ea - eb - 53))
    <= Zpos ma * 2 ^ 53 / Zpos mb + 1.
Proof.
  intros Ha Hb He.
  unfold SFdiv, SFdiv_core_binary. cbn [Zdigits2].
  rewrite !digits2_pos_bit_length, !bit_length_53 by assumption.
  unfold fexp, emin, prec, emax.
  set (e' := Z.min _ _).
  assert (e' = ea - eb - 53) as He' by (unfold e'; lia).
  replace (ea - eb - e') with 53 by lia.
  rewrite Z.shiftl_mul_pow2 by lia.
  pose proof (Z.div_eucl_eq (Zpos ma * 2 ^ 53) (Zpos mb) ltac:(lia)) as D.
  pose proof (Z.mod_pos_bound (Zpos ma * 2 ^ 53) (Zpos mb) ltac:(lia)) as B.
  unfold Z.div. unfold Z.modulo in B.
  destruct (Z.div_eucl (Zpos ma * 2 ^ 53) (Zpos mb)) as [q r].
  assert (2 ^ 52 <= q < 2 ^ 54) as Hq by nia.
  destruct q as [|q|q]; try lia.
  destruct (binary_round_aux_near (xorb false false) q e' (new_location (Zpos mb) r) Hq
              ltac:(lia)) as (m & e & R & He2 & Hm & V).
  unfold prec, emax in R. exists m, e. split; [exact R|].
  split; [lia|]. split; [exact Hm|]. rewrite <- He'. exact V.
Qed.

(** A number that is not negative, with its integer part. *)
Definition integer_part (x : number) (k : Z) : Prop :=
  (x = S754_zero false /\ k = 0) \/
  exists m e, x = S754_finite false m e /\ 2 ^ 52 <= Zpos m < 2 ^ 53 /\
              - 1000 <= e <= 0 /\ k * 2 ^ (- e) <= Zpos m < (k + 1) * 2 ^ (- e).

Lemma integer_part_nonneg (x : number) (k : Z) : integer_part x k -> 0 <= k.
Proof.
  intros [[_ ->]|(m & e & _ & Hm & He & Hk)]; [lia|].
  assert (0 < 2 ^ (- e)) by (apply Z.pow_pos_nonneg; lia). nia.
Qed.

Lemma integer_part_exact (k : Z) : 0 <= k < 2 ^ 53 -> integer_part (exact k) k.
Proof.
  intros Hk. destruct (Z.eq_dec k 0) as [->|N]; [left; split; reflexivity|].
  right. destruct (exact_finite k ltac:(unfold safe; lia) N) as (m & e & E & Ee & Ee0 & M).
  destruct (Z.ltb_spec k 0); [lia|]. rewrite Z.abs_eq in * by lia.
  exists m, e. split; [exact E|].
  pose proof (bit_length_pos k ltac:(lia)).
  pose proof (bit_length_spec k ltac:(lia)) as [L U].
  assert (0 < 2 ^ (- e)) by (apply Z.pow_pos_nonneg; lia).
  split.
  { rewrite M. subst e.
    replace (2 ^ 52) with (2 ^ (bit_length k - 1) * 2 ^ (- (bit_length k - 53)))
      by (rewrite <- Z.pow_add_r by lia; f_equal; lia).
    replace (2 ^ 53) with (2 ^ bit_length k * 2 ^ (- (bit_length k - 53)))
      by (rewrite <- Z.pow_add_r by lia; f_equal; lia).
    nia. }
  split; [lia|]. rewrite M. nia.
Qed.

Lemma trunc_integer_part (x : number) (k : Z) : integer_part x k -> trunc x = k.
Proof.
  intros [[-> ->]|(m & e & -> & Hm & He & Hk)]; [reflexivity|].
  unfold trunc. cbn [cond_Zopp]. rewrite Z.shiftl_div_pow2 by lia.
  assert (0 < 2 ^ (- e)) by (apply Z.pow_pos_nonneg; lia).
  symmetry. apply (Z.div_unique _ _ k (Zpos m - k * 2 ^ (- e))); [left; nia | nia].
Qed.

Lemma ushr_integer_part (x : number) (k j : Z) :
  integer_part x k -> ushr x j = ushrZ k j.
Proof. intros H. unfold ushr, ushrZ, ToUint32. rewrite (trunc_integer_part x k H). reflexivity. Qed.

Lemma geb_integer_part (x : number) (k : Z) : integer_part x k -> geb x (exact 0) = true.
Proof. intros [[-> _]|(m & e & -> & _)]; reflexivity. Qed.

Lemma quotient_bounds (c k f D Q r : Z) :
  0 < c -> 1 <= f <= c - 1 -> c < D -> 0 <= r < c ->
  c * (Q - k * D) = f * D - r ->
  k * D + 1 <= Q <= k * D + D - 2.
Proof.
  intros Hc Hf HD Hr K.
  assert (D <= f * D) by nia.
  assert (f * D <= (c - 1) * D) by nia.
  assert (c * 0 < c * (Q - k * D)) as L by lia.
  assert (c * (Q - k * D) < c * (D - 1)) as U by lia.
  apply Z.mul_lt_mono_pos_l in L; [|exact Hc].
  apply Z.mul_lt_mono_pos_l in U; [|exact Hc].
  lia.
Qed.

Lemma scale_bounds (k m c' D' Q : Z) :
  0 < c' -> 0 < D' ->
  k * (c' * D') + 1 <= Q <= k * (c' * D') + c' * D' - 2 ->
  Q - 1 <= m * c' <= Q + 1 ->
  k * D' <= m < (k + 1) * D'.
Proof.
  intros Hc HD HQ V.
  assert (c' * (k * D') <= c' * m) as L by lia.
  assert (c' * m < c' * ((k + 1) * D')) as U by lia.
  apply Z.mul_le_mono_pos_l in L; [|exact Hc].
  apply Z.mul_lt_mono_pos_l in U; [|exact Hc].
  lia.
Qed.

(** The integer part of the quotient of a safe integer by another. *)
Lemma div_integer_part (t c : Z) :
  0 <= t < 2 ^ 53 -> 0 < c < 2 ^ 53 ->
  integer_part (div (exact t) (exact c)) (t / c).
Proof.
  intros Ht Hc.
  pose proof (Z.div_mod t c ltac:(lia)) as Dt.
  pose proof (Z.mod_pos_bound t c ltac:(lia)) as Bt.
  set (k := t / c) in *. set (f := t mod c) in *.
  assert (0 <= k) as Hk0 by (apply Z.div_pos; lia).
  clearbody k f.
  destruct (Z.eq_dec f 0) as [F|F].
  { assert (t = c * k) as -> by lia.
    rewrite div_exact_nonneg by (unfold safe; lia || nia).
    apply integer_part_exact. nia. }
  assert (0 < t) as Ht0 by lia.
  destruct (exact_finite t ltac:(unfold safe; lia) ltac:(lia)) as (ma & ea & Ea & Eea & Ea0 & Ma).
  destruct (exact_finite c ltac:(unfold safe; lia) ltac:(lia)) as (mb & eb & Eb & Eeb & Eb0 & Mb).
  destruct (Z.ltb_spec t 0); [lia|]. destruct (Z.ltb_spec c 0); [lia|].
  rewrite Z.abs_eq in * by lia.
  pose proof (integer_part_exact t ltac:(lia)) as [[E0 _]|(ma' & ea' & E' & Hma & _)];
    [rewrite Ea in E0; discriminate|].
  rewrite Ea in E'. injection E' as <- <-.
  pose proof (integer_part_exact c ltac:(lia)) as [[E0 _]|(mb' & eb' & E' & Hmb & _)];
    [rewrite Eb in E0; discriminate|].
  rewrite Eb in E'. injection E' as <- <-.
  pose proof (bit_length_pos t ltac:(lia)) as Lt0.
  pose proof (bit_length_pos c ltac:(lia)) as Lc0.
  assert (bit_length t <= 53) as Lt53 by (apply bit_length_bound; lia).
  assert (bit_length c <= 53) as Lc53 by (apply bit_length_bound; lia).
  rewrite Ea, Eb. unfold div.
  destruct (div_near ma mb ea eb Hma Hmb ltac:(lia)) as (m & e & R & He & Hm & V).
  rewrite R. right. exists m, e. split; [reflexivity|]. split; [exact Hm|].
  pose proof (bit_length_spec c ltac:(lia)) as [Lc Uc].
  assert (2 <= bit_length c) as Lc2.
  { destruct (Z_lt_le_dec (bit_length c) 2) as [C|C]; [|exact C].
    assert (bit_length c = 1) as E1 by lia. rewrite E1 in Uc. change (2 ^ 1) with 2 in Uc. lia. }
  split; [lia|].
  set (e0 := ea - eb - 53) in *.
  set (D := 2 ^ (- e0)).
  assert (2 ^ bit_length c <= D) as HD.
  { unfold D. apply Z.pow_le_mono_r; lia. }
  assert (Zpos ma * 2 ^ 53 / Zpos mb = t * D / c) as EQ.
  { rewrite Ma, Mb.
    replace (t * 2 ^ (- ea) * 2 ^ 53) with (t * D * 2 ^ (- eb)).
    - apply Z.div_mul_cancel_r; [lia|]. apply Z.pow_nonzero; lia.
    - unfold D. rewrite <- !Z.mul_assoc, <- !Z.pow_add_r by lia. do 2 f_equal. lia. }
  rewrite EQ in V.
  pose proof (Z.div_mod (t * D) c ltac:(lia)) as DQ.
  pose proof (Z.mod_pos_bound (t * D) c ltac:(lia)) as BQ.
  set (Q := t * D / c) in *. set (r := (t * D) mod c) in *. clearbody Q r.
  assert (k * D + 1 <= Q <= k * D + D - 2) as HQ.
  { apply (quotient_bounds c k f D Q r); lia. }
  assert (D = 2 ^ (e - e0) * 2 ^ (- e)) as ED.
  { unfold D. rewrite <- Z.pow_add_r by lia. f_equal. lia. }
  assert (0 < 2 ^ (e - e0)) by (apply Z.pow_pos_nonneg; lia).
  assert (0 < 2 ^ (- e)) by (apply Z.pow_pos_nonneg; lia).
  apply (scale_bounds k (Zpos m) (2 ^ (e - e0)) (2 ^ (- e)) Q); try assumption.
  rewrite <- ED. exact HQ.
Qed.

Lemma ltb_integer_part (x : number) (k c : Z) :
  integer_part x k -> 0 < c < 2 ^ 53 -> ltb x (exact c) = (k <? c).
Proof.
  intros Hx Hc.
  destruct (integer_part_exact c ltac:(lia)) as [[_ ->]|(mc & ec & Ec & Hmc & Hec & Hkc)]; [lia|].
  assert (0 < 2 ^ (- ec)) as Pc by (apply Z.pow_pos_nonneg; lia).
  assert (Zpos mc = c * 2 ^ (- ec)) as Mc.
  { destruct (exact_finite c ltac:(unfold safe; lia) ltac:(lia)) as (m' & e' & E' & _ & _ & M').
    rewrite Ec in E'. injection E' as _ <- <-. rewrite M', Z.abs_eq by lia. reflexivity. }
  rewrite Ec.
  destruct Hx as [[-> ->]|(m & e & -> & Hm & He & Hk)].
  { destruct (Z.ltb_spec 0 c); [reflexivity | lia]. }
  assert (0 < 2 ^ (- e)) as Pe by (apply Z.pow_pos_nonneg; lia).
  unfold ltb, SFltb. rewrite SFcompare_positive.
  destruct (Z.compare_spec e ec) as [E|E|E].
  - subst ec. destruct (Pos.compare_spec m mc) as [C|C|C].
    + subst mc. destruct (Z.ltb_spec k c); [nia | reflexivity].
    + destruct (Z.ltb_spec k c); [reflexivity|].
      assert (Zpos m < Zpos mc) by lia. nia.
    + destruct (Z.ltb_spec k c); [|reflexivity].
      assert (Zpos mc < Zpos m) by lia. nia.
  - destruct (Z.ltb_spec k c); [reflexivity|].
    assert (2 ^ (- e) = 2 ^ (ec - e) * 2 ^ (- ec)) as S
      by (rewrite <- Z.pow_add_r by lia; f_equal; lia).
    assert (2 <= 2 ^ (ec - e)) by (change 2 with (2 ^ 1) at 1; apply Z.pow_le_mono_r; lia).
    rewrite S in Hk. set (a := 2 ^ (ec - e)) in *. set (p := 2 ^ (- ec)) in *.
    clearbody a p. exfalso.
    assert (c * (a * p) <= k * (a * p)) by nia.
    assert (2 * (c * p) <= a * (c * p)) by nia.
    lia.
  - destruct (Z.ltb_spec k c); [|reflexivity].
    assert (2 ^ (- ec) = 2 ^ (e - ec) * 2 ^ (- e)) as S
      by (rewrite <- Z.pow_add_r by lia; f_equal; lia).
    assert (2 <= 2 ^ (e - ec)) by (change 2 with (2 ^ 1) at 1; apply Z.pow_le_mono_r; lia).
    rewrite S in Mc. set (a := 2 ^ (e - ec)) in *. set (p := 2 ^ (- e)) in *.
    clearbody a p. exfalso.
    assert ((k + 1) * p <= c * p) by nia.
    assert (2 * (c * p) <= a * (c * p)) by nia.
    lia.
Qed.

Lemma trunc_div_pow32_part (x : number) (k : Z) :
  integer_part x k -> trunc (div x pow32) = k / 2 ^ 32.
Proof.
  intros [[-> ->]|(m & e & -> & Hm & He & Hk)]; [reflexivity|].
  rewrite pow32_finite. unfold div.
  rewrite (div_normal false m 4503599627370496 e (-20) (Zpos m)
             ltac:(lia) ltac:(rewrite bit_length_53 by lia; lia) eq_refl ltac:(lia)).
  unfold trunc. cbn [cond_Zopp]. rewrite Z.shiftl_div_pow2 by lia.
  replace (- (e - -20 - 52)) with (- e + 32) by lia.
  rewrite Z.pow_add_r by lia.
  assert (0 < 2 ^ (- e)) by (apply Z.pow_pos_nonneg; lia).
  rewrite <- Z.div_div by lia.
  f_equal. symmetry.
  apply (Z.div_unique _ _ k (Zpos m - k * 2 ^ (- e))); [left; nia | nia].
Qed.

(** ** Timestamps with milliseconds: the 8-byte form *)

Lemma int32_testbit (a i : Z) : 0 <= i < 32 -> Z.testbit (int32 a) i = Z.testbit a i.
Proof.
  intros Hi. destruct (int32_shift a) as [k ->].
  rewrite <- (Z.mod_pow2_bits_low (a + k * 2 ^ 32) 32 i), <- (Z.mod_pow2_bits_low a 32 i) by lia.
  rewrite Z.mod_add by lia. reflexivity.
Qed.

(** A byte of [a | b] is a byte of the bitwise or of the integers. *)
Lemma orZ_byte (a b : Z) : orZ a b mod 256 = Z.lor a b mod 256.
Proof.
  unfold orZ. change 256 with (2 ^ 8). apply Z.bits_inj'. intros i Hi.
  destruct (Z.ltb_spec i 8).
  - rewrite !Z.mod_pow2_bits_low, !Z.lor_spec, !int32_testbit by lia. reflexivity.
  - rewrite !Z.mod_pow2_bits_high by lia. reflexivity.
Qed.

Lemma lor_low (n h : Z) : 0 <= h < 4 -> Z.lor (4 * n) h = 4 * n + h.
Proof.
  intros Hh. rewrite <- Z.add_lor_land.
  assert (Z.land (4 * n) h = 0) as ->; [|lia].
  apply Z.bits_inj'. intros i Hi. rewrite Z.land_spec, Z.bits_0.
  destruct (Z.ltb_spec i 2).
  - replace (4 * n) with (Z.shiftl n 2) by (rewrite Z.shiftl_mul_pow2 by lia; lia).
    rewrite Z.shiftl_spec_low by lia. reflexivity.
  - rewrite <- (Z.mod_small h (2 ^ 2)) by lia.
    rewrite Z.mod_pow2_bits_high by lia. apply andb_false_r.
Qed.

Lemma uint32_int32 (a : Z) : uint32 (int32 a) = uint32 a.
Proof. destruct (int32_shift a) as [k ->]. apply uint32_shift. Qed.

(** [(ns << 2) >>> 0] for nanoseconds below 2^30. *)
Lemma shl_nanoseconds (n : Z) : 0 <= n < 2 ^ 30 -> ushrZ (shl (exact n) 2) 0 = 4 * n.
Proof.
  intros Hn. unfold ushrZ, shl, ToInt32.
  rewrite trunc_exact by (unfold safe; lia).
  rewrite Z.shiftr_0_r, uint32_int32.
  assert (int32 n = n) as ->.
  { unfold int32. rewrite Z.mod_small by lia. destruct (Z.ltb_spec n (2 ^ 31)); lia. }
  rewrite Z.shiftl_mul_pow2 by lia. unfold uint32. rewrite Z.mod_small by lia. lia.
Qed.

(** The bytes of the 64-bit field that holds the nanoseconds [n] in its
    upper 30 bits and the seconds [k] in its lower 34 bits. *)
Lemma timestamp64_bytes (n k : Z) :
  0 <= n < 2 ^ 30 -> 0 <= k < 2 ^ 34 ->
  map (fun b => b mod 256)
      [ushrZ n 22; ushrZ n 14; ushrZ n 6; orZ (4 * n) (k / 2 ^ 32);
       ushrZ k 24; ushrZ k 16; ushrZ k 8; k]
  = be_bytes 8 (n * 2 ^ 34 + k).
Proof.
  intros Hn Hk.
  assert (0 <= k / 2 ^ 32 < 4) as Hh.
  { split; [apply Z.div_pos; lia | apply Z.div_lt_upper_bound; lia]. }
  rewrite <- (words_bytes (4 * n + k / 2 ^ 32) k (n * 2 ^ 34 + k)).
  - cbn [map]. rewrite orZ_byte, lor_low by exact Hh.
    rewrite !ushrZ_byte by lia.
    assert (forall j, 0 <= j -> Z.shiftr (4 * n + k / 2 ^ 32) (2 + j) = Z.shiftr n j) as S.
    { intros j Hj. rewrite <- Z.shiftr_shiftr by lia. f_equal.
      rewrite Z.shiftr_div_pow2 by lia. symmetry.
      apply (Z.div_unique _ _ n (k / 2 ^ 32)); [left; lia | lia]. }
    rewrite <- (S 22), <- (S 14), <- (S 6) by lia. reflexivity.
  - f_equal. rewrite Z.shiftr_div_pow2 by lia.
    pose proof (Z.div_mod k (2 ^ 32) ltac:(lia)) as D.
    pose proof (Z.mod_pos_bound k (2 ^ 32) ltac:(lia)) as B.
    apply (Z.div_unique _ _ _ (k mod 2 ^ 32)); [left; lia | lia].
  - replace (n * 2 ^ 34 + k) with (k + (4 * n) * 2 ^ 32) by lia.
    symmetry. apply uint32_shift.
Qed.

(** From the epoch on, a time that is not of whole seconds below 2^32 and
    whose seconds are below 2^34 is written in the 8-byte form. *)
Lemma appendDate_milliseconds (t : Z) :
  0 <= t < 1000 * 2 ^ 34 -> t mod 1000 <> 0 \/ 1000 * 2 ^ 32 <= t ->
  writes (appendDate (exact t))
         (0xd7 :: 0xff :: be_bytes 8 (t mod 1000 * 1000000 * 2 ^ 34 + t / 1000)).
Proof.
  intros Ht Hb.
  pose proof (Z.div_mod t 1000 ltac:(lia)) as D.
  pose proof (Z.mod_pos_bound t 1000 ltac:(lia)) as F.
  assert (integer_part (div (exact t) (exact 1000)) (t / 1000)) as P
    by (apply div_integer_part; lia).
  unfold appendDate, getTime, getMilliseconds.
  rewrite isFinite_exact, trunc_exact by (unfold safe; lia).
  change (lit 1000) with (exact 1000). change (lit 0) with (exact 0).
  change (lit 0x100000000) with (exact 0x100000000).
  change (lit 0x400000000) with (exact 0x400000000).
  rewrite (lit_exact (t mod 1000)), (lit_exact 1000000) by (unfold safe; lia).
  set (k := t / 1000) in *. set (f := t mod 1000) in *. clearbody k f.
  assert (0 <= k < 2 ^ 34) as Hk by lia.
  rewrite eqb_exact by (unfold safe; lia).
  rewrite (geb_integer_part _ k P), !(ltb_integer_part _ k _ P) by lia.
  rewrite mul_exact by (unfold safe; lia).
  assert ((f =? 0) && true && (k <? 4294967296) = false) as ->.
  { destruct (Z.eqb_spec f 0), (Z.ltb_spec k 4294967296); try reflexivity; lia. }
  destruct (Z.ltb_spec k 0x400000000); [|lia]. cbn [andb].
  rewrite !ushr_exact by (unfold safe; lia).
  rewrite !(ushr_integer_part _ k _ P), (trunc_integer_part _ k P), (trunc_div_pow32_part _ k P).
  rewrite shl_nanoseconds by lia.
  rewrite <- timestamp64_bytes by lia.
  exact (appendBytes_writes
           [0xd7; 0xff; ushrZ (f * 1000000) 22; ushrZ (f * 1000000) 14; ushrZ (f * 1000000) 6;
            orZ (4 * (f * 1000000)) (k / 2 ^ 32);
            ushrZ k 24; ushrZ k 16; ushrZ k 8; k]).
Qed.

Lemma readExtDate_milliseconds (array : list Z) (f k : Z) (pos : position) :
  0 <= f < 1000 -> 0 <= k < 2 ^ 34 ->
  readExtDate array (be_bytes 8 (f * 1000000 * 2 ^ 34 + k)) pos
  = Ok (VDate (exact (1000 * k + f)), pos).
Proof.
  intros Hf Hk. set (z := f * 1000000 * 2 ^ 34 + k).
  pose proof (of_be_bytes_be_bytes 8 z) as E.
  pose proof (be_bytes_is_byte 8 z) as B.
  pose proof (length_be_bytes 8 z) as L.
  destruct (be_bytes 8 z) as [|d0 [|d1 [|d2 [|d3 [|d4 [|d5 [|d6 [|d7 [|]]]]]]]]];
    try discriminate L.
  inversion B as [|? ? B0 B']; subst. inversion B' as [|? ? B1 B'']; subst.
  inversion B'' as [|? ? B2 B3']; subst. inversion B3' as [|? ? B3 B4']; subst.
  inversion B4' as [|? ? B4 B5']; subst. inversion B5' as [|? ? B5 B6']; subst.
  inversion B6' as [|? ? B6 B7']; subst. inversion B7' as [|? ? B7 _]; subst.
  unfold is_byte in *.
  unfold readExtDate. cbn [length Nat.eqb byte_at lookup list_lookup default].
  simpl default. unfold id.
  rewrite !shl_byte by lia.
  unfold of_be_bytes in E. cbn [fold_left] in E.
  rewrite Z.mod_small in E by (unfold z; simpl; lia).
  assert (ushrZ d3 2 = d3 / 4) as ->.
  { unfold ushrZ, uint32. rewrite Z.mod_small, Z.shiftr_div_pow2 by lia. reflexivity. }
  assert (andZ d3 3 = d3 mod 4) as ->.
  { unfold andZ. change (int32 3) with (Z.ones 2).
    assert (int32 d3 = d3) as ->.
    { unfold int32. rewrite Z.mod_small by lia. destruct (Z.ltb_spec d3 (2 ^ 31)); lia. }
    apply Z.land_ones. lia. }
  pose proof (Z.div_mod d3 4 ltac:(lia)) as D3.
  pose proof (Z.mod_pos_bound d3 4 ltac:(lia)) as R3.
  assert (d0 * 2 ^ 22 + d1 * 2 ^ 14 + d2 * 2 ^ 6 + d3 / 4 = f * 1000000) as ->
    by (unfold z in E; lia).
  assert (k = d3 mod 4 * 2 ^ 32 + d4 * 2 ^ 24 + d5 * 2 ^ 16 + d6 * 2 ^ 8 + d7) as K
    by (unfold z in E; lia).
  change pow32 with (exact (2 ^ 32)).
  rewrite !lit_exact by (unfold safe; lia).
  rewrite mul_exact by (unfold safe; lia).
  rewrite !add_exact by (unfold safe; lia).
  rewrite <- K.
  rewrite mul_exact by (unfold safe; lia).
  rewrite (Z.mul_comm f 1000000), div_exact_nonneg by (unfold safe; lia).
  rewrite add_exact by (unfold safe; lia).
  rewrite (Z.mul_comm k 1000).
  unfold newDate, TimeClip.
  rewrite isFinite_exact, abs_exact. cbn [negb].
  change (lit 8640000000000000) with (exact 8640000000000000).
  rewrite ltb_exact by (unfold safe; lia).
  destruct (Z.ltb_spec 8640000000000000 (Z.abs (1000 * k + f))); [lia|].
  rewrite trunc_exact, lit_exact by (unfold safe; lia). reflexivity.
Qed.

Section Milliseconds.

Variable call : nat -> value -> value.
Variable Number_toString : number -> jsstring.
Variable Date_toString : number -> jsstring.

Local Abbreviation encodes' := (encodes Number_toString Date_toString).
Local Abbreviation deserialize' := (deserialize Number_toString Date_toString).

(** The 8-byte form is read back. *)
Lemma date8_encodes (f k : Z) :
  0 <= f < 1000 -> 0 <= k < 2 ^ 34 ->
  encodes' (0xd7 :: 0xff :: be_bytes 8 (f * 1000000 * 2 ^ 34 + k))
           (VDate (exact (1000 * k + f))).
Proof.
  intros Hf Hk. set (z := f * 1000000 * 2 ^ 34 + k).
  split.
  { constructor; [unfold is_byte; lia|].
    constructor; [unfold is_byte; lia | apply be_bytes_is_byte]. }
  rewrite read_perform.
  change (peek (0xd7 :: 0xff :: be_bytes 8 z) (Some 0)) with (Some 0xd7). cbv iota.
  change (classify 0xd7) with (a_ext (lit 8) 0). cbn [perform advance].
  unfold readExt, read_size. change (ltb (lit 8) (lit 0)) with false. cbv iota.
  pose proof (readUInt_exact [0xd7] [0xff] (be_bytes 8 z)) as U.
  cbn [app length] in U. change (Z.of_nat 1) with 1 in U. change (0 + 1) with 1.
  rewrite U by (repeat constructor; unfold is_byte; lia).
  unfold readBin, read_size. change (ltb (lit 8) (lit 0)) with false. cbv iota.
  change (to_length (lit 8)) with (Some 8).
  change (eqb (exact (of_be_bytes [0xff])) (lit 255)) with true. cbv iota.
  unfold subarray. change (Z.to_nat (1 + 1)) with 2%nat.
  change (Z.to_nat 8) with 8%nat. cbn [drop].
  rewrite drop_0, take_ge by (rewrite length_be_bytes; lia). cbn [advance].
  unfold z. rewrite readExtDate_milliseconds by assumption.
  cbn [length]. rewrite length_be_bytes. reflexivity.
Qed.

(** X24: from the epoch on, a time in
    milliseconds whose seconds are below 2^34, and which is not a whole
    number of seconds below 2^32, is written in the 8-byte extension form,
    a 64-bit field with the nanoseconds in the upper 30 bits and the
    seconds in the lower 34, and is read back from it to the millisecond. *)
Theorem timestamps_with_milliseconds_round_trip (opts : options) (fuel : nat) (t : Z) :
  multiple opts = false ->
  0 <= t < 1000 * 2 ^ 34 -> t mod 1000 <> 0 \/ 1000 * 2 ^ 32 <= t ->
  serialize call opts (S fuel) (VDate (lit t))
  = Ok (0xd7 :: 0xff :: be_bytes 8 (t mod 1000 * 1000000 * 2 ^ 34 + t / 1000)) /\
  deserialize' (0xd7 :: 0xff :: be_bytes 8 (t mod 1000 * 1000000 * 2 ^ 34 + t / 1000)) opts
  = Ok (VDate (lit t)).
Proof.
  intros M Ht Hb. rewrite lit_exact by (unfold safe; lia). split.
  - apply emits_serialize; [exact M|]. apply emits_pure.
    apply appendDate_milliseconds; assumption.
  - apply encodes_deserialize; [exact M|].
    pose proof (Z.div_mod t 1000 ltac:(lia)) as D.
    pose proof (Z.mod_pos_bound t 1000 ltac:(lia)) as F.
    rewrite D at 3. apply date8_encodes; lia.
Qed.

End Milliseconds.

(** ** The portable values *)

(** The values of the portable fragment: null, booleans, the integers of
    magnitude below 2^53, the numbers that are not integers, strings
    without an unpaired high surrogate, byte arrays, timestamps of whole
    seconds from the earliest date up to second 2^32 - 1, timestamps in
    milliseconds from the epoch up to second 2^34 - 1, and the arrays and
    the objects built from them; the keys of an object are distinct, none
    is [__proto__], and they stand in the order of their enumeration. *)
Inductive portable : value -> Prop :=
| portable_null : portable VNull
| portable_boolean (b : bool) : portable (VBoolean b)
| portable_integer (z : Z) : - 2 ^ 53 < z < 2 ^ 53 -> portable (VNumber (lit z))
| portable_double (x : number) :
    valid x = true -> isInteger x hint_none = false -> portable (VNumber x)
| portable_string (s : jsstring) :
    Forall code_unit s -> paired s = true -> 3 * Z.of_nat (length s) < 2 ^ 32 ->
    portable (VString s)
| portable_bytes (l : list Z) :
    Forall is_byte l -> Z.of_nat (length l) < 2 ^ 32 -> portable (VUint8Array false l)
| portable_date (s : Z) :
    - 8640000000000 <= s < 2 ^ 32 -> portable (VDate (lit (1000 * s)))
| portable_timestamp (t : Z) :
    0 <= t < 1000 * 2 ^ 34 -> portable (VDate (lit t))
| portable_array (l : list value) :
    Forall portable l -> Z.of_nat (length l) < 2 ^ 32 -> portable (VArray l)
| portable_object (l : list (jsstring * value)) :
    Forall (fun e => portable (VString (fst e))) l ->
    Forall portable (map snd l) ->
    List.NoDup (map fst l) ->
    Forall (fun k => k <> str "__proto__") (map fst l) ->
    enumeration_order (map fst l) = true ->
    Z.of_nat (length l) < 2 ^ 32 ->
    portable (VObject l).


Section Portable.

Variable call : nat -> value -> value.
Variable opts : options.
Variable Number_toString : number -> jsstring.
Variable Date_toString : number -> jsstring.

Local Abbreviation encodes' := (encodes Number_toString Date_toString).

Lemma portable_defined (v : value) : portable v -> is_undefined v = false.
Proof. destruct 1; reflexivity. Qed.

(** What [append] writes for a portable value is read back as the value. *)
Lemma portable_append (fuel : nat) :
  forall v, portable v -> (depth v < fuel)%nat ->
    exists out, emits (append call opts fuel v false hint_none) (Ok out) /\ encodes' out v.
Proof.
  induction fuel as [|fuel IH]; intros v Hv Hd; [lia|].
  destruct Hv as [|b|z Hz|x Vx Hx|s Hu Hp Hn|l Hl Hn|s Hs|t Ht|l Hl Hn|l Hk Hl Hnd Hp Ho Hn].
  - exists [0xc0]. split; [apply emits_pure, appendNull_writes|].
    split; [repeat constructor; unfold is_byte; lia | reflexivity].
  - exists [if b then 0xc3 else 0xc2]. split; [apply emits_pure, appendBoolean_writes|].
    destruct b; (split; [repeat constructor; unfold is_byte; lia | reflexivity]).
  - destruct (Z_lt_le_dec z (- 2 ^ 31)) as [L|L]; [|destruct (Z_lt_le_dec z (2 ^ 32)) as [U|U]].
    + exists (0xd3 :: be_bytes 8 z). rewrite lit_exact by exact Hz.
      split; [|apply int64_encodes; exact Hz].
      apply emits_pure. cbn [append].
      apply appendNumber_int64; [exact Hz | lia | apply isInteger_exact; exact Hz].
    + exists (integer_encoding z). split; [|apply integer_encodes; lia].
      apply emits_pure. cbn [append]. rewrite lit_exact by exact Hz.
      apply appendNumber_integer; [lia | apply isInteger_exact; exact Hz].
    + exists (0xd3 :: be_bytes 8 z). rewrite lit_exact by exact Hz.
      split; [|apply int64_encodes; exact Hz].
      apply emits_pure. cbn [append].
      apply appendNumber_int64; [exact Hz | lia | apply isInteger_exact; exact Hz].
  - exists (0xcb :: be_bytes 8 (bits64 x)). split; [|apply float64_encodes; exact Vx].
    apply emits_pure. apply appendNumber_float; assumption.
  - exists (str_header (Z.of_nat (length (utf8 s))) ++ utf8 s).
    pose proof (utf8_length _ s (Nat.le_refl _)).
    split; [apply appendString_utf8; assumption | apply string_encodes; [assumption .. | lia]].
  - exists (bin_header (Z.of_nat (length l)) ++ l).
    split; [apply emits_pure, appendBinArray_bytes; assumption | apply bin_encodes; assumption].
  - destruct (Z_lt_le_dec s 0) as [L|L].
    + exists ([0xc7; 12; 0xff; 0; 0; 0; 0] ++ be_bytes 8 s).
      rewrite lit_exact by (unfold safe; lia).
      split; [|apply date12_encodes; lia].
      apply emits_pure. cbn [append]. apply appendDate_before_epoch. lia.
    + exists (0xd6 :: 0xff :: be_bytes 4 s). split; [|apply date_encodes; lia].
      apply emits_pure. cbn [append]. rewrite lit_exact by (unfold safe; lia).
      apply appendDate_whole_seconds. lia.
  - pose proof (Z.div_mod t 1000 ltac:(lia)) as D.
    pose proof (Z.mod_pos_bound t 1000 ltac:(lia)) as F.
    destruct (Z.eq_dec (t mod 1000) 0) as [Z|N];
      [destruct (Z_lt_le_dec t (1000 * 2 ^ 32)) as [U|U]|].
    + replace t with (1000 * (t / 1000)) by lia.
      exists (0xd6 :: 0xff :: be_bytes 4 (t / 1000)). split; [|apply date_encodes; lia].
      apply emits_pure. cbn [append]. rewrite lit_exact by (unfold safe; lia).
      apply appendDate_whole_seconds. lia.
    + exists (0xd7 :: 0xff :: be_bytes 8 (t mod 1000 * 1000000 * 2 ^ 34 + t / 1000)).
      rewrite lit_exact by (unfold safe; lia).
      split; [apply emits_pure, appendDate_milliseconds; lia|].
      rewrite D at 3. apply date8_encodes; lia.
    + exists (0xd7 :: 0xff :: be_bytes 8 (t mod 1000 * 1000000 * 2 ^ 34 + t / 1000)).
      rewrite lit_exact by (unfold safe; lia).
      split; [apply emits_pure, appendDate_milliseconds; lia|].
      rewrite D at 3. apply date8_encodes; lia.
  - assert (exists outs,
               Forall2 (fun x o => emits (append call opts fuel x false hint_none) (Ok o)) l outs
               /\ Forall2 encodes' outs l) as (outs & E & D).
    { assert (forall x, In x l -> (depth x < fuel)%nat) as Hdl.
      { intros x Hx. pose proof (depth_element x l Hx). cbn [depth] in Hd. lia. }
      clear Hn Hd.
      induction Hl as [|x l Hx Hl IHl]; [exists []; split; constructor|].
      destruct (IH x Hx (Hdl x (or_introl eq_refl))) as (o & Eo & Do).
      destruct (IHl (fun y Hy => Hdl y (or_intror Hy))) as (outs & E & D).
      exists (o :: outs). split; constructor; assumption. }
    exists (array_header (Z.of_nat (length l)) ++ concat outs).
    split; [apply appendArray_concat; exact E | apply array_encodes; assumption].
  - assert (exists outs,
               Forall2 (fun e o => exists ok ov,
                          emits (append call opts fuel (VString (fst e)) false hint_none) (Ok ok)
                          /\ emits (append call opts fuel (snd e) false hint_none) (Ok ov)
                          /\ o = ok ++ ov) l outs
               /\ Forall2 (fun e o => exists ok ov,
                             encodes' ok (VString (fst e)) /\ encodes' ov (snd e)
                             /\ o = ok ++ ov) l outs) as (outs & E & D).
    { assert (forall e, In e l -> (depth (snd e) < fuel)%nat) as Hdl.
      { intros e He. pose proof (depth_entry e l He). cbn [depth] in Hd. lia. }
      clear Hn Hnd Hp Ho Hd.
      induction l as [|[k v] l IHl]; [exists []; split; constructor|].
      inversion Hk as [|? ? Hk1 Hk']; subst. inversion Hl as [|? ? Hv Hl']; subst.
      pose proof (Hdl (k, v) (or_introl eq_refl)) as Hdv.
      cbn [map fst snd] in *.
      destruct (IH (VString k) Hk1 ltac:(simpl; lia)) as (ok & Ek & Dk).
      destruct (IH v Hv Hdv) as (ov & Ev & Dv).
      destruct (IHl Hk' Hl' (fun y Hy => Hdl y (or_intror Hy))) as (outs & E & D).
      exists ((ok ++ ov) :: outs). split; constructor; eauto 6. }
    exists (map_header (Z.of_nat (length l)) ++ concat outs).
    split; [|apply object_encodes; assumption].
    apply (appendObject_concat _ l outs); [|exact E].
    clear -Hl. induction l as [|[k v] l IHl]; [constructor|].
    inversion Hl as [|? ? Hv Hl']; subst.
    constructor; [apply portable_defined; exact Hv | apply IHl; exact Hl'].
Qed.

End Portable.

(** X1: in single mode and without a type hint, [serialize] returns for
    every portable value (given fuel beyond its nesting depth), and
    [deserialize] maps the bytes back to the same value. *)
Theorem portable_values_round_trip
    (call : nat -> value -> value) (Number_toString Date_toString : number -> jsstring)
    (opts : options) (fuel : nat) (v : value) :
  multiple opts = false -> typeHint opts = hint_none ->
  portable v -> (depth v < fuel)%nat ->
  exists bytes,
    serialize call opts fuel v = Ok bytes /\
    deserialize Number_toString Date_toString bytes opts = Ok v.
Proof.
  intros M T Hv Hd.
  destruct (portable_append call opts Number_toString Date_toString fuel v Hv Hd)
    as (out & E & D).
  exists out. split.
  - apply emits_serialize; [exact M | rewrite T; exact E].
  - apply encodes_deserialize; assumption.
Qed.

(** ** The option [multiple] *)

Section Multiple.

Variable call : nat -> value -> value.
Variable Number_toString : number -> jsstring.
Variable Date_toString : number -> jsstring.

Local Abbreviation read' := (read Number_toString Date_toString).
Local Abbreviation encodes' := (encodes Number_toString Date_toString).
Local Abbreviation deserialize' := (deserialize Number_toString Date_toString).

(** X14: with the option [multiple], [serialize] returns the
    concatenation of what it returns for the elements one by one, each with
    the same type hint; no header is written. *)
Theorem multiple_serialize_concatenates (opts : options) (fuel : nat)
        (l : list value) (outs : list (list Z)) :
  multiple opts = true ->
  Forall2 (fun d o =>
             serialize call (Options false (typeHint opts) (invalidTypeReplacement opts))
                       fuel d = Ok o) l outs ->
  serialize call opts fuel (VArray l) = Ok (concat outs).
Proof.
  intros M H. unfold serialize. rewrite M. cbn [isArray negb andb].
  assert (emits (for_each (fun d => append call opts fuel d false (typeHint opts)) l)
                (Ok (concat outs))) as E.
  { apply for_each_concat.
    induction H as [|d o l outs Hd _ IH]; constructor; [|exact IH].
    apply serialize_emits in Hd; [|reflexivity]. cbn [typeHint] in Hd.
    intros b Hb.
    rewrite (append_options call opts (Options false (typeHint opts) _) eq_refl).
    exact (Hd b Hb). }
  apply emits_run in E. exact E.
Qed.

Lemma read_all_concat (outs : list (list Z)) (vs : list value) :
  Forall2 encodes' outs vs ->
  forall (pre : list Z) (acc : list value) (fuel : nat),
    (length outs < fuel)%nat ->
    read_all Number_toString Date_toString fuel (pre ++ concat outs) acc
             (Some (Z.of_nat (length pre)))
    = Ok (VArray (acc ++ vs)).
Proof.
  induction 1 as [|o v outs vs Ho _ IH]; intros pre acc fuel F.
  - destruct fuel as [|fuel]; [simpl in F; lia|].
    cbn [read_all concat]. rewrite !app_nil_r.
    rewrite (proj2 (Z.ltb_ge _ _)) by lia. reflexivity.
  - destruct fuel as [|fuel]; [simpl in F; lia|].
    pose proof (encodes_nonempty Number_toString Date_toString o v Ho) as Hne.
    assert (0 < length o)%nat as Lo by (destruct o; [congruence | simpl; lia]).
    cbn [read_all concat].
    rewrite (proj2 (Z.ltb_lt _ _)) by (rewrite !length_app; lia).
    rewrite (read_embedded Number_toString Date_toString pre o (concat outs) v _ Ho)
      by (rewrite !length_app; lia).
    cbn [mbind outcome_bind bind].
    rewrite <- Nat2Z.inj_add, <- length_app.
    rewrite (app_assoc pre o (concat outs)).
    rewrite IH by (simpl in F; lia).
    rewrite <- app_assoc. reflexivity.
Qed.

(** X15: with the option [multiple], [deserialize] maps the
    concatenation of one or more complete encoded values to the array of
    their values. *)
Theorem multiple_deserialize_reads_all (opts : options)
        (outs : list (list Z)) (vs : list value) :
  multiple opts = true -> outs <> [] -> Forall2 encodes' outs vs ->
  deserialize' (concat outs) opts = Ok (VArray vs).
Proof.
  intros M Hne H.
  assert (Forall is_byte (concat outs)) as Hb.
  { clear Hne. induction H as [|o v outs vs [Ho _] _ IH]; [constructor|].
    cbn [concat]. apply Forall_app. split; assumption. }
  assert (length outs <= length (concat outs))%nat as L.
  { clear Hne Hb. induction H as [|o v outs vs Ho _ IH]; [simpl; lia|].
    pose proof (encodes_nonempty Number_toString Date_toString o v Ho) as N.
    cbn [concat length]. rewrite length_app. destruct o; [congruence | simpl; lia]. }
  unfold deserialize. rewrite M.
  destruct (concat outs) as [|b0 rest] eqn:C.
  { destruct H as [|o v outs vs Ho _]; [congruence|].
    pose proof (encodes_nonempty Number_toString Date_toString o v Ho) as N. cbn [concat] in C.
    destruct o; [congruence | discriminate C]. }
  change (Nat.eqb (length (b0 :: rest)) 0) with false. cbv iota.
  rewrite wrap_bytes by exact Hb. rewrite <- C. rewrite <- C in L.
  exact (read_all_concat outs vs H [] [] (S (length (concat outs))) ltac:(lia)).
Qed.

End Multiple.

(** ** Edge behaviour of the decoder *)

Lemma read_bytes_NaN (array : list Z) (size : nat) :
  forall pos, fst (read_bytes array size NaN pos) = NaN.
Proof.
  induction size as [|size IH]; intros pos; [reflexivity|].
  cbn [read_bytes]. change (mul NaN (lit 256)) with NaN.
  change (add NaN (match peek array pos with Some b => lit b | None => NaN end)) with NaN.
  apply IH.
Qed.

Lemma add_NaN (x : number) : add x NaN = NaN.
Proof. destruct x; reflexivity. Qed.

(** A field that runs past the end of the array: [array[pos++]] is
    [undefined] and the sum becomes NaN. *)
Lemma read_bytes_short (array : list Z) (size : nat) :
  forall value p,
    0 <= p <= Z.of_nat (length array) -> Z.of_nat (length array) < p + Z.of_nat size ->
    fst (read_bytes array size value (Some p)) = NaN.
Proof.
  induction size as [|size IH]; intros value p Hp Hs; [lia|].
  cbn [read_bytes advance].
  destruct (peek array (Some p)) as [b|] eqn:E.
  - apply peek_Some in E. destruct E as (p' & E & Hp' & _). injection E as <-.
    apply IH; lia.
  - rewrite add_NaN. apply read_bytes_NaN.
Qed.

Section DecoderEdges.

Variable Number_toString : number -> jsstring.
Variable Date_toString : number -> jsstring.

Local Abbreviation read' := (read Number_toString Date_toString).
Local Abbreviation encodes' := (encodes Number_toString Date_toString).
Local Abbreviation deserialize' := (deserialize Number_toString Date_toString).

(** X20: an unsigned integer whose field is cut short by the end of the
    array is not rejected: [deserialize] returns NaN. *)
Theorem truncated_unsigned_integer_is_NaN (opts : options) (tag : Z) (size : nat)
        (field : list Z) :
  multiple opts = false ->
  In (tag, size) [(0xcc, 1%nat); (0xcd, 2%nat); (0xce, 4%nat); (0xcf, 8%nat)] ->
  Forall is_byte field -> (length field < size)%nat ->
  deserialize' (tag :: field) opts = Ok (VNumber NaN).
Proof.
  intros M Ht Hb Hl.
  assert (is_byte tag) as Hbt.
  { cbn [In] in Ht. unfold is_byte.
    destruct Ht as [E|[E|[E|[E|[]]]]]; injection E as <- _; lia. }
  rewrite deserialize_single; [|exact M|constructor; assumption|discriminate].
  rewrite read_perform. cbn [peek]. change (at_ (tag :: field) 0) with (Some tag). cbv iota.
  assert (classify tag = a_uint size) as ->.
  { cbn [In] in Ht.
    destruct Ht as [E|[E|[E|[E|[]]]]]; injection E as <- <-; reflexivity. }
  cbn [perform advance]. unfold readUInt.
  pose proof (read_bytes_short (tag :: field) size (lit 0) (0 + 1)) as R.
  destruct (read_bytes (tag :: field) size (lit 0) (Some (0 + 1))) as [x pos].
  cbn [fst] in R. rewrite R by (cbn [length]; lia). reflexivity.
Qed.

(** X21: an extension of a type other than the timestamp type 255, here
    in the form with a one-byte length, reads as an object with the
    properties [type] and [data]. *)
Theorem unknown_extension_types (opts : options) (type : Z) (data : list Z) :
  multiple opts = false ->
  0 <= type < 255 -> Forall is_byte data -> Z.of_nat (length data) < 256 ->
  deserialize' (0xc7 :: Z.of_nat (length data) :: type :: data) opts
  = Ok (VObject [(str "type", VNumber (lit type)); (str "data", VUint8Array false data)]).
Proof.
  intros M Ht Hb Hn. set (n := Z.of_nat (length data)) in *.
  apply encodes_deserialize; [exact M|].
  split.
  { repeat (constructor; [unfold is_byte; lia|]). exact Hb. }
  rewrite read_perform.
  change (peek (0xc7 :: n :: type :: data) (Some 0)) with (Some 0xc7). cbv iota.
  change (classify 0xc7) with (a_ext (SFopp (lit 1)) 1). cbn [perform advance].
  unfold readExt.
  pose proof (read_size_field 0xc7 1 n (type :: data) ltac:(lia) ltac:(simpl; lia)) as S.
  cbn [be_bytes app] in S. rewrite Z.mod_small in S by lia.
  change (0 + 1) with 1. rewrite S.
  pose proof (readUInt_exact [0xc7; n] [type] data) as U.
  cbn [app length] in U. change (Z.of_nat 2 + Z.of_nat 1) with 3 in U.
  change (1 + Z.of_nat 1) with 2. change (Z.of_nat 2) with 2 in U.
  rewrite U by (repeat constructor; unfold is_byte; lia).
  change (of_be_bytes [type]) with (0 * 256 + type). rewrite Z.mul_0_l, Z.add_0_l.
  unfold readBin, read_size.
  change (lit 0) with (exact 0). rewrite ltb_exact by (unfold safe; lia).
  destruct (Z.ltb_spec n 0); [lia|].
  rewrite to_length_exact by (unfold safe; lia). cbn [advance]. unfold subarray.
  change (Z.to_nat 3) with 3%nat. cbn [drop]. rewrite drop_0.
  subst n. rewrite Nat2Z.id, take_ge by lia.
  change (lit 255) with (exact 255). rewrite eqb_exact by (unfold safe; lia).
  destruct (Z.eqb_spec type 255); [lia|].
  rewrite lit_exact by (unfold safe; lia).
  cbn [length]. do 3 f_equal. lia.
Qed.

End DecoderEdges.

(** ** A replacement that holds an unsupported value *)

Section NestedReplacement.

Variable call : nat -> value -> value.
Variable opts : options.
Variable x : value.
Variable rest : list value.

Hypothesis replacement : invalidTypeReplacement opts = VArray (x :: rest).
Hypothesis unsupported_x : unsupported x = true.

(** The element [x] of the replacement is appended without the flag
    [isReplacement], so it is replaced by the array that holds it, and so
    on: no fuel is enough. *)
Lemma append_unsupported_diverges (fuel : nat) :
  forall data th b,
    unsupported data = true ->
    append call opts fuel data false th b = OutOfFuel /\
    append call opts (S fuel) data false th b = OutOfFuel.
Proof.
  induction fuel as [|fuel IH]; intros data th b U.
  - split; [reflexivity|].
    rewrite append_unsupported by exact U. rewrite replacement. reflexivity.
  - split; [apply IH; exact U|].
    rewrite append_unsupported by exact U. rewrite replacement. cbn [negb ToBoolean andb].
    unfold substitute. rewrite replacement. cbn [append]. unfold appendArray.
    cbn [for_each].
    rewrite (proj1 (IH x hint_none _ unsupported_x)). reflexivity.
Qed.

End NestedReplacement.

(** X18: when the configured replacement is an array whose first element
    is itself of an unsupported kind, [serialize] of an unsupported value
    neither returns nor throws UnsupportedType, however deep the recursion
    may go: the element is replaced by the array again and again. *)
Theorem replacement_holding_unsupported_never_returns
    (call : nat -> value -> value) (opts : options) (x : value) (rest : list value)
    (fuel : nat) (data : value) :
  multiple opts = false ->
  invalidTypeReplacement opts = VArray (x :: rest) ->
  unsupported x = true -> unsupported data = true ->
  serialize call opts fuel data = OutOfFuel.
Proof.
  intros M R Ux U. rewrite serialize_single by exact M. unfold run.
  rewrite (proj1 (append_unsupported_diverges call opts x rest R Ux fuel data _ _ U)).
  reflexivity.
Qed.


(** ** The buffer *)

(** X19: [appendBytes] keeps what the buffer holds and adds the bytes,
    each modulo 256, after it, also when the array has to grow. *)
Theorem appendBytes_appends (bytes : list Z) (b : buffer) :
  buffer_ok b ->
  buffer_ok (appendBytes bytes b) /\
  contents (appendBytes bytes b) = contents b ++ map (fun x => x mod 256) bytes.
Proof. intros Hb. exact (appendBytes_writes bytes b Hb). Qed.

(** ** Input that ends too early *)

(** A field that starts at or after the end of the array, or runs past it. *)
Lemma read_bytes_beyond (array : list Z) (size : nat) (value : number) (p : Z) :
  0 <= p -> Z.of_nat (length array) < p + Z.of_nat (S size) ->
  fst (read_bytes array (S size) value (Some p)) = NaN.
Proof.
  intros Hp Hs. cbn [read_bytes advance].
  destruct (peek array (Some p)) as [b|] eqn:E.
  - apply peek_Some in E. destruct E as (p' & E & Hp' & _). injection E as <-.
    apply read_bytes_short; lia.
  - rewrite add_NaN. apply read_bytes_NaN.
Qed.

Section Truncation.

Variable Number_toString : number -> jsstring.
Variable Date_toString : number -> jsstring.

Local Abbreviation read' := (read Number_toString Date_toString).
Local Abbreviation encodes' := (encodes Number_toString Date_toString).
Local Abbreviation deserialize' := (deserialize Number_toString Date_toString).

(** X25: a signed integer whose field is cut short by the end of
    the array is not rejected: [deserialize] returns NaN, and 0 for the
    int 8 tag that stands alone at the end. *)
Theorem truncated_signed_integer_is_NaN_or_zero (opts : options) (tag : Z) (size : nat)
        (field : list Z) :
  multiple opts = false ->
  In (tag, size) [(0xd0, 1%nat); (0xd1, 2%nat); (0xd2, 4%nat); (0xd3, 8%nat)] ->
  Forall is_byte field -> (length field < size)%nat ->
  deserialize' (tag :: field) opts
  = Ok (VNumber (if (size =? 1)%nat then lit 0 else NaN)).
Proof.
  intros M Ht Hb Hl.
  assert (is_byte tag) as Hbt.
  { cbn [In] in Ht. unfold is_byte.
    destruct Ht as [E|[E|[E|[E|[]]]]]; injection E as <- _; lia. }
  rewrite deserialize_single; [|exact M|constructor; assumption|discriminate].
  rewrite read_perform. cbn [peek]. change (at_ (tag :: field) 0) with (Some tag). cbv iota.
  assert (classify tag = a_int size) as ->.
  { cbn [In] in Ht.
    destruct Ht as [E|[E|[E|[E|[]]]]]; injection E as <- <-; reflexivity. }
  cbn [perform advance].
  destruct size as [|[|size]]; [lia | |].
  - destruct field; [reflexivity | simpl in Hl; lia].
  - cbn [readInt advance].
    match goal with
    | |- context [read_bytes ?a (S ?n) ?v (Some ?p)] =>
        pose proof (read_bytes_beyond a n v p) as R;
        destruct (read_bytes a (S n) v (Some p)) as [x pos]
    end.
    cbn [fst] in R. rewrite R by (cbn [length]; lia). reflexivity.
Qed.

(** X27: a byte array whose header announces more bytes than the array
    holds is not rejected: [deserialize] returns the bytes there are. *)
Theorem byte_array_cut_short_is_returned (opts : options) (tag : Z) (k : nat) (n : Z)
        (data : list Z) :
  multiple opts = false ->
  In (tag, k) [(0xc4, 1%nat); (0xc5, 2%nat); (0xc6, 4%nat)] ->
  Forall is_byte data -> Z.of_nat (length data) <= n < 256 ^ Z.of_nat k ->
  deserialize' (tag :: be_bytes k n ++ data) opts = Ok (VUint8Array false data).
Proof.
  intros M Ht Hb Hn.
  assert (is_byte tag /\ (k <= 4)%nat /\ classify tag = a_bin k) as (Hbt & Hk & C).
  { cbn [In] in Ht. unfold is_byte.
    destruct Ht as [E|[E|[E|[]]]]; injection E as <- <-; repeat split; lia. }
  rewrite deserialize_single; [|exact M| |discriminate].
  2:{ constructor; [exact Hbt|]. apply Forall_app.
      split; [apply be_bytes_is_byte | exact Hb]. }
  rewrite read_perform.
  change (peek (tag :: be_bytes k n ++ data) (Some 0)) with (Some tag). cbv iota.
  rewrite C. cbn [perform advance]. unfold readBin.
  change (0 + 1) with 1. rewrite read_size_field by lia.
  assert (256 ^ Z.of_nat k <= 256 ^ 4) by (apply Z.pow_le_mono_r; lia).
  rewrite to_length_exact by (unfold safe; lia).
  cbn [advance]. unfold subarray.
  replace (Z.to_nat (1 + Z.of_nat k)) with (S k) by lia. cbn [drop].
  rewrite drop_app_length' by (symmetry; apply length_be_bytes).
  rewrite take_ge by lia. reflexivity.
Qed.

(** After the elements that are there, the next read finds no byte. *)
Lemma readArray_loop_short (outs : list (list Z)) (vs : list value) :
  Forall2 encodes' outs vs ->
  forall (pre : list Z) (acc : list value) (fuel size : nat),
    (length (concat outs) < fuel)%nat -> (length vs < size)%nat ->
    readArray_loop (read' fuel (pre ++ concat outs)) size acc (Some (Z.of_nat (length pre)))
    = Throw InvalidByteValue.
Proof.
  induction 1 as [|o v outs vs Hv _ IH]; intros pre acc fuel size F Hs.
  - destruct size as [|size]; [simpl in Hs; lia|].
    destruct fuel as [|fuel]; [lia|].
    cbn [concat readArray_loop]. rewrite app_nil_r, read_perform.
    cbn [peek]. unfold at_.
    destruct (Z.ltb_spec (Z.of_nat (length pre)) 0); [lia|]. cbn [orb].
    rewrite Nat2Z.id, lookup_ge_None_2 by lia. reflexivity.
  - destruct size as [|size]; [simpl in Hs; lia|].
    cbn [concat length readArray_loop] in *. rewrite length_app in F.
    rewrite (read_embedded _ _ pre o (concat outs) v fuel Hv) by lia.
    cbn [mbind outcome_bind bind].
    specialize (IH (pre ++ o) (acc ++ [v]) fuel size ltac:(lia) ltac:(lia)).
    rewrite length_app, Nat2Z.inj_add, <- !app_assoc in IH.
    exact IH.
Qed.

(** X28: an array whose header announces more elements than the
    complete values that follow it, when the input ends after them, is
    rejected: the read of the missing element finds no byte. *)
Theorem truncated_array_is_rejected (opts : options) (n : Z)
        (outs : list (list Z)) (vs : list value) :
  multiple opts = false ->
  Forall2 encodes' outs vs -> Z.of_nat (length vs) < n < 2 ^ 32 ->
  deserialize' (array_header n ++ concat outs) opts = Throw InvalidByteValue.
Proof.
  intros M H Hn.
  assert (Forall is_byte (concat outs)) as Hb.
  { clear Hn. induction H as [|o v outs' vs' [Ho _] _ IH]; simpl; [constructor|].
    apply Forall_app; split; [exact Ho | exact IH]. }
  rewrite deserialize_single;
    [|exact M
     |apply Forall_app; split; [apply array_header_bytes; lia | exact Hb]
     |unfold array_header; destruct (n <=? 0xf), (n <=? 0xffff); discriminate].
  rewrite read_perform.
  assert (forall header, header <> [] ->
            ('(data, _) ← readArray_loop
                            (read' (length (header ++ concat outs)) (header ++ concat outs))
                            (Z.to_nat n) [] (Some (Z.of_nat (length header)));
             Ok data)
            = Throw InvalidByteValue) as L.
  { intros header Hne. rewrite (readArray_loop_short outs vs H header []); [reflexivity| |lia].
    rewrite length_app. destruct header; [congruence | simpl; lia]. }
  assert (turns (exact n) = Z.to_nat n) as T.
  { rewrite <- (Z2Nat.id n) at 1 by lia. apply turns_exact. lia. }
  unfold array_header.
  destruct (Z.leb_spec n 0xf).
  { change (peek ([0x90 + n] ++ concat outs) (Some 0)) with (Some (0x90 + n)). cbv iota.
    rewrite classify_fixarray by lia. cbn [perform advance]. unfold readArray.
    rewrite read_size_fixed by lia. rewrite T.
    exact (L [0x90 + n] ltac:(discriminate)). }
  destruct (Z.leb_spec n 0xffff).
  { change (peek ((0xdc :: be_bytes 2 n) ++ concat outs) (Some 0)) with (Some 0xdc). cbv iota.
    change (classify 0xdc) with (a_array (SFopp (lit 1)) 2). cbn [perform advance].
    unfold readArray. cbn [app]. rewrite read_size_field by (simpl; lia). rewrite T.
    specialize (L (0xdc :: be_bytes 2 n) ltac:(discriminate)).
    cbn [length app] in L. rewrite length_be_bytes in L. exact L. }
  change (peek ((0xdd :: be_bytes 4 n) ++ concat outs) (Some 0)) with (Some 0xdd). cbv iota.
  change (classify 0xdd) with (a_array (SFopp (lit 1)) 4). cbn [perform advance].
  unfold readArray. cbn [app]. rewrite read_size_field by (simpl; lia). rewrite T.
  specialize (L (0xdd :: be_bytes 4 n) ltac:(discriminate)).
  cbn [length app] in L. rewrite length_be_bytes in L. exact L.
Qed.

(** X29: an extension of the timestamp type 255, here in the form with a
    one-byte length, whose payload is not of 4, 8 or 12 bytes is rejected;
    so is one whose payload is cut short by the end of the array. *)
Theorem timestamps_of_other_lengths_are_rejected (opts : options) (n : Z) (data : list Z) :
  multiple opts = false ->
  Forall is_byte data -> Z.of_nat (length data) <= n < 256 ->
  ~ In (length data) [4%nat; 8%nat; 12%nat] ->
  deserialize' (0xc7 :: n :: 0xff :: data) opts = Throw InvalidExtensionLength.
Proof.
  intros M Hb Hn Hl.
  rewrite deserialize_single; [|exact M| |discriminate].
  2:{ repeat (constructor; [unfold is_byte; lia|]). exact Hb. }
  rewrite read_perform.
  change (peek (0xc7 :: n :: 0xff :: data) (Some 0)) with (Some 0xc7). cbv iota.
  change (classify 0xc7) with (a_ext (SFopp (lit 1)) 1). cbn [perform advance].
  unfold readExt.
  pose proof (read_size_field 0xc7 1 n (0xff :: data) ltac:(lia) ltac:(simpl; lia)) as S.
  cbn [be_bytes app] in S. rewrite Z.mod_small in S by lia.
  change (0 + 1) with 1. rewrite S.
  pose proof (readUInt_exact [0xc7; n] [0xff] data) as U.
  cbn [app length] in U. change (Z.of_nat 2 + Z.of_nat 1) with 3 in U.
  change (1 + Z.of_nat 1) with 2. change (Z.of_nat 2) with 2 in U.
  rewrite U by (repeat constructor; unfold is_byte; lia).
  unfold readBin, read_size.
  change (lit 0) with (exact 0). rewrite ltb_exact by (unfold safe; lia).
  destruct (Z.ltb_spec n 0); [lia|].
  rewrite to_length_exact by (unfold safe; lia). cbn [advance]. unfold subarray.
  change (Z.to_nat 3) with 3%nat. cbn [drop].
  rewrite drop_0, take_ge by lia.
  change (eqb (exact (of_be_bytes [0xff])) (lit 255)) with true. cbv iota.
  unfold readExtDate.
  destruct (Nat.eqb_spec (length data) 4) as [E|_]; [rewrite E in Hl; simpl in Hl; tauto|].
  destruct (Nat.eqb_spec (length data) 8) as [E|_]; [rewrite E in Hl; simpl in Hl; tauto|].
  destruct (Nat.eqb_spec (length data) 12) as [E|_]; [rewrite E in Hl; simpl in Hl; tauto|].
  reflexivity.
Qed.

End Truncation.

(** ** Instances *)

Lemma decodeUtf8_inverts_encodeUtf8_witness :
  decodeUtf8 ([0xa7] ++ [0x61; 0xe2; 0x82; 0xac; 0xf0; 0x9f; 0x98; 0x80] ++ [0xc0]) 1 (Some 8)
  = Ok [0x61; 0x20ac; 0xd83d; 0xde00].
Proof.
  apply (decodeUtf8_inverts_encodeUtf8 [0x61; 0x20ac; 0xd83d; 0xde00]
           [0x61; 0xe2; 0x82; 0xac; 0xf0; 0x9f; 0x98; 0x80] [0xa7] [0xc0]);
    [|reflexivity].
  repeat constructor; unfold code_unit; lia.
Defined.

Lemma portable_values_round_trip_witness :
  let v := VObject [([0x37], VNull);
                    ([0x69; 0x64], VNumber (lit (- 5000000000)));
                    ([0x74], VArray [VString [0x61; 0x20ac]; VNull; VBoolean true;
                                     VDate (lit (1000 * (- 86400))); VDate (lit 1500)])] in
  exists bytes,
    serialize (fun _ v => v) no_options 3 v = Ok bytes /\
    deserialize (fun _ => []) (fun _ => []) bytes no_options = Ok v.
Proof.
  apply (portable_values_round_trip (fun _ v => v) (fun _ => []) (fun _ => []) no_options 3);
    [reflexivity | reflexivity | | vm_compute; lia].
  assert (forall s, Forall code_unit s -> paired s = true -> (length s < 100)%nat ->
                    portable (VString s)) as S.
  { intros s Hu Hp Hl. apply portable_string; [exact Hu | exact Hp | lia]. }
  apply portable_object.
  - constructor; [|constructor; [|constructor; [|constructor]]];
      (apply S; [repeat constructor; unfold code_unit; lia | reflexivity | simpl; lia]).
  - constructor; [|constructor; [|constructor; [|constructor]]].
    + apply portable_null.
    + apply (portable_integer (- 5000000000)). lia.
    + apply portable_array; [|simpl; lia].
      constructor;
        [|constructor; [|constructor; [|constructor; [|constructor; [|constructor]]]]].
      * apply S; [repeat constructor; unfold code_unit; lia | reflexivity | simpl; lia].
      * apply portable_null.
      * apply portable_boolean.
      * apply (portable_date (- 86400)). lia.
      * apply (portable_timestamp 1500). lia.
  - apply List.NoDup_cons;
      [|apply List.NoDup_cons; [|apply List.NoDup_cons; [|apply List.NoDup_nil]]].
    + intros [H|[H|[]]]; discriminate H.
    + intros [H|[]]. discriminate H.
    + intros [].
  - constructor; [discriminate | constructor; [discriminate | constructor; [discriminate|]]].
    constructor.
  - reflexivity.
  - simpl. lia.
Defined.

Lemma integers_of_32_bits_round_trip_witness :
  serialize (fun _ v => v) no_options 1 (VNumber (lit (-300))) = Ok [0xd1; 0xfe; 0xd4] /\
  deserialize (fun _ => []) (fun _ => []) [0xd1; 0xfe; 0xd4] no_options
  = Ok (VNumber (lit (-300))).
Proof.
  apply (integers_of_32_bits_round_trip (fun _ v => v) (fun _ => []) (fun _ => [])
           no_options 0 (-300));
    [reflexivity | left; reflexivity | lia].
Defined.

Lemma integers_beyond_64_bits_are_clamped_witness :
  serialize (fun _ v => v) no_options 1 (VNumber (lit (2 ^ 70)))
  = Ok [0xcf; 0xff; 0xff; 0xff; 0xff; 0xff; 0xff; 0xff; 0xff].
Proof.
  apply (integers_beyond_64_bits_are_clamped (fun _ v => v) no_options 0 (lit (2 ^ 70)));
    reflexivity.
Defined.

Lemma whole_seconds_round_trip_witness :
  serialize (fun _ v => v) no_options 1 (VDate (lit (1000 * 86400)))
  = Ok [0xd6; 0xff; 0x00; 0x01; 0x51; 0x80] /\
  deserialize (fun _ => []) (fun _ => []) [0xd6; 0xff; 0x00; 0x01; 0x51; 0x80] no_options
  = Ok (VDate (lit (1000 * 86400))).
Proof.
  apply (whole_seconds_round_trip (fun _ v => v) (fun _ => []) (fun _ => []) no_options 0 86400);
    [reflexivity | lia].
Defined.

Lemma doubles_round_trip_witness :
  let half := S754_finite false 4503599627370496 (-53) in
  serialize (fun _ v => v) no_options 1 (VNumber half)
  = Ok [0xcb; 0x3f; 0xe0; 0x00; 0x00; 0x00; 0x00; 0x00; 0x00] /\
  deserialize (fun _ => []) (fun _ => [])
    [0xcb; 0x3f; 0xe0; 0x00; 0x00; 0x00; 0x00; 0x00; 0x00] no_options
  = Ok (VNumber half).
Proof.
  apply (doubles_round_trip (fun _ v => v) (fun _ => []) (fun _ => []) no_options 0
           (S754_finite false 4503599627370496 (-53))); reflexivity.
Defined.

Lemma strings_round_trip_witness :
  serialize (fun _ v => v) no_options 1 (VString [0x61; 0x20ac])
  = Ok [0xa4; 0x61; 0xe2; 0x82; 0xac] /\
  deserialize (fun _ => []) (fun _ => []) [0xa4; 0x61; 0xe2; 0x82; 0xac] no_options
  = Ok (VString [0x61; 0x20ac]).
Proof.
  apply (strings_round_trip (fun _ v => v) (fun _ => []) (fun _ => []) no_options 0
           [0x61; 0x20ac] [0x61; 0xe2; 0x82; 0xac]);
    [reflexivity | repeat constructor; unfold code_unit; lia | reflexivity | simpl; lia].
Defined.

Lemma byte_arrays_round_trip_witness :
  let l := [1; 2; 3; 4; 5; 6; 7; 8; 9; 10; 11; 12; 13; 14; 15; 16] in
  serialize (fun _ v => v) no_options 1 (VUint8Array true l) = Ok ([0xc5; 0x00; 0x10] ++ l) /\
  deserialize (fun _ => []) (fun _ => []) ([0xc5; 0x00; 0x10] ++ l) no_options
  = Ok (VUint8Array false l).
Proof.
  apply (byte_arrays_round_trip (fun _ v => v) (fun _ => []) (fun _ => []) no_options 0 true
           [1; 2; 3; 4; 5; 6; 7; 8; 9; 10; 11; 12; 13; 14; 15; 16]);
    [reflexivity | repeat constructor; unfold is_byte; lia | simpl; lia].
Defined.

Lemma arrays_are_concatenations_witness :
  serialize (fun _ v => v) (Options false hint_float VUndefined) 2
            (VArray [VNumber (lit 1); VBoolean true])
  = Ok [0x92; 0x01; 0xc3].
Proof.
  apply (arrays_are_concatenations (fun _ v => v) (Options false hint_float VUndefined) 1
           [VNumber (lit 1); VBoolean true] [[0x01]; [0xc3]]);
    [reflexivity | repeat constructor].
Defined.

Lemma arrays_decode_elementwise_witness :
  deserialize (fun _ => []) (fun _ => []) [0x92; 0x01; 0xa1; 0x61] no_options
  = Ok (VArray [VNumber (lit 1); VString [0x61]]).
Proof.
  apply (arrays_decode_elementwise (fun _ => []) (fun _ => []) no_options
           [[0x01]; [0xa1; 0x61]] [VNumber (lit 1); VString [0x61]]);
    [reflexivity | | simpl; lia].
  repeat constructor; unfold is_byte; lia.
Defined.

Lemma multiple_serialize_concatenates_witness :
  serialize (fun _ v => v) (Options true hint_none VUndefined) 1
            (VArray [VNumber (lit 1); VString [0x61]])
  = Ok [0x01; 0xa1; 0x61].
Proof.
  apply (multiple_serialize_concatenates (fun _ v => v) (Options true hint_none VUndefined) 1
           [VNumber (lit 1); VString [0x61]] [[0x01]; [0xa1; 0x61]]);
    [reflexivity | repeat constructor].
Defined.

Lemma multiple_deserialize_reads_all_witness :
  deserialize (fun _ => []) (fun _ => []) [0x01; 0xa1; 0x61]
              (Options true hint_none VUndefined)
  = Ok (VArray [VNumber (lit 1); VString [0x61]]).
Proof.
  apply (multiple_deserialize_reads_all (fun _ => []) (fun _ => [])
           (Options true hint_none VUndefined)
           [[0x01]; [0xa1; 0x61]] [VNumber (lit 1); VString [0x61]]);
    [reflexivity | discriminate |].
  repeat constructor; unfold is_byte; lia.
Defined.

Lemma serialize_returns_witness :
  returns (serialize (fun _ v => v) no_options 2 (VArray [VSymbol])) = true.
Proof.
  apply (serialize_returns (fun _ v => v) no_options 2 (VArray [VSymbol]));
    [reflexivity | simpl; lia].
Defined.

Lemma appendBytes_appends_witness :
  buffer_ok (appendBytes [0x01; 0x1ff] empty_buffer) /\
  contents (appendBytes [0x01; 0x1ff] empty_buffer) = contents empty_buffer ++ [0x01; 0xff].
Proof.
  apply (appendBytes_appends [0x01; 0x1ff] empty_buffer). apply empty_buffer_ok.
Defined.

Lemma truncated_unsigned_integer_is_NaN_witness :
  deserialize (fun _ => []) (fun _ => []) [0xcd; 0x01] no_options = Ok (VNumber NaN).
Proof.
  apply (truncated_unsigned_integer_is_NaN (fun _ => []) (fun _ => []) no_options 0xcd 2 [0x01]);
    [reflexivity | right; left; reflexivity | repeat constructor; unfold is_byte; lia
    | simpl; lia].
Defined.

Lemma unknown_extension_types_witness :
  deserialize (fun _ => []) (fun _ => []) [0xc7; 0x02; 0x05; 0xaa; 0xbb] no_options
  = Ok (VObject [(str "type", VNumber (lit 5)); (str "data", VUint8Array false [0xaa; 0xbb])]).
Proof.
  apply (unknown_extension_types (fun _ => []) (fun _ => []) no_options 5 [0xaa; 0xbb]);
    [reflexivity | lia | repeat constructor; unfold is_byte; lia | simpl; lia].
Defined.

Lemma integers_of_53_bits_round_trip_witness :
  serialize (fun _ v => v) no_options 1 (VNumber (lit 5000000000))
  = Ok [0xd3; 0x00; 0x00; 0x00; 0x01; 0x2a; 0x05; 0xf2; 0x00] /\
  deserialize (fun _ => []) (fun _ => [])
    [0xd3; 0x00; 0x00; 0x00; 0x01; 0x2a; 0x05; 0xf2; 0x00] no_options
  = Ok (VNumber (lit 5000000000)).
Proof.
  apply (integers_of_53_bits_round_trip (fun _ v => v) (fun _ => []) (fun _ => [])
           no_options 0 5000000000);
    [reflexivity | left; reflexivity | lia | lia].
Defined.

Lemma uint64_is_read_witness :
  deserialize (fun _ => []) (fun _ => [])
    [0xcf; 0x00; 0x00; 0x00; 0x01; 0x2a; 0x05; 0xf2; 0x00] no_options
  = Ok (VNumber (lit 5000000000)).
Proof.
  apply (uint64_is_read (fun _ => []) (fun _ => []) no_options 5000000000);
    [reflexivity | lia].
Defined.

Lemma whole_seconds_before_epoch_round_trip_witness :
  serialize (fun _ v => v) no_options 1 (VDate (lit (1000 * (- 86400))))
  = Ok [0xc7; 12; 0xff; 0; 0; 0; 0; 0xff; 0xff; 0xff; 0xff; 0xff; 0xfe; 0xae; 0x80] /\
  deserialize (fun _ => []) (fun _ => [])
    [0xc7; 12; 0xff; 0; 0; 0; 0; 0xff; 0xff; 0xff; 0xff; 0xff; 0xfe; 0xae; 0x80] no_options
  = Ok (VDate (lit (1000 * (- 86400)))).
Proof.
  apply (whole_seconds_before_epoch_round_trip (fun _ v => v) (fun _ => []) (fun _ => [])
           no_options 0 (- 86400));
    [reflexivity | lia].
Defined.

Lemma replacement_holding_unsupported_never_returns_witness :
  serialize (fun _ v => v) (Options false hint_none (VArray [VSymbol; VNull])) 1000 (VBigInt 1)
  = OutOfFuel.
Proof.
  apply (replacement_holding_unsupported_never_returns
           (fun _ v => v) (Options false hint_none (VArray [VSymbol; VNull]))
           VSymbol [VNull] 1000 (VBigInt 1)); reflexivity.
Defined.

Lemma decodeUtf8_returns_code_units_witness :
  decodeUtf8 [0xf0; 0x9f; 0x98; 0x80] 0 (Some 4) = Ok [0xd83d; 0xde00] /\
  Forall code_unit [0xd83d; 0xde00].
Proof.
  split; [reflexivity|].
  apply (decodeUtf8_returns_code_units [0xf0; 0x9f; 0x98; 0x80] 0 (Some 4) [0xd83d; 0xde00]);
    [repeat constructor; unfold is_byte; lia | reflexivity].
Defined.

Lemma overlong_forms_are_accepted_witness :
  decodeUtf8 [0xc0; 0xaf] 0 (Some 2) = Ok [0x2f].
Proof.
  apply (overlong_forms_are_accepted 0x2f). lia.
Defined.

Lemma timestamps_with_milliseconds_round_trip_witness :
  serialize (fun _ v => v) no_options 1 (VDate (lit 1500))
  = Ok [0xd7; 0xff; 0x77; 0x35; 0x94; 0x00; 0x00; 0x00; 0x00; 0x01] /\
  deserialize (fun _ => []) (fun _ => [])
    [0xd7; 0xff; 0x77; 0x35; 0x94; 0x00; 0x00; 0x00; 0x00; 0x01] no_options
  = Ok (VDate (lit 1500)).
Proof.
  apply (timestamps_with_milliseconds_round_trip (fun _ v => v) (fun _ => []) (fun _ => [])
           no_options 0 1500);
    [reflexivity | lia | left; vm_compute; discriminate].
Defined.

Lemma truncated_signed_integer_is_NaN_or_zero_witness :
  deserialize (fun _ => []) (fun _ => []) [0xd1; 0x01] no_options = Ok (VNumber NaN).
Proof.
  apply (truncated_signed_integer_is_NaN_or_zero (fun _ => []) (fun _ => []) no_options
           0xd1 2 [0x01]);
    [reflexivity | right; left; reflexivity | repeat constructor; unfold is_byte; lia
    | simpl; lia].
Defined.

Lemma byte_array_cut_short_is_returned_witness :
  deserialize (fun _ => []) (fun _ => []) [0xc4; 5; 1; 2] no_options
  = Ok (VUint8Array false [1; 2]).
Proof.
  apply (byte_array_cut_short_is_returned (fun _ => []) (fun _ => []) no_options 0xc4 1 5
           [1; 2]);
    [reflexivity | left; reflexivity | repeat constructor; unfold is_byte; lia
    | simpl; lia].
Defined.

Lemma truncated_array_is_rejected_witness :
  deserialize (fun _ => []) (fun _ => []) [0x93; 0x01; 0xc0] no_options
  = Throw InvalidByteValue.
Proof.
  apply (truncated_array_is_rejected (fun _ => []) (fun _ => []) no_options 3
           [[0x01]; [0xc0]] [VNumber (lit 1); VNull]);
    [reflexivity | | simpl; lia].
  repeat constructor; unfold is_byte; lia.
Defined.

Lemma timestamps_of_other_lengths_are_rejected_witness :
  deserialize (fun _ => []) (fun _ => []) [0xc7; 2; 0xff; 0; 0] no_options
  = Throw InvalidExtensionLength.
Proof.
  apply (timestamps_of_other_lengths_are_rejected (fun _ => []) (fun _ => []) no_options 2
           [0; 0]);
    [reflexivity | repeat constructor; unfold is_byte; lia | simpl; lia |].
  simpl. intros [E|[E|[E|[]]]]; discriminate E.
Defined.
